(** * Blinks observers: security gate, option normalisation, tree watcher,
      candidate extraction and render mount

    A shallow embedding of
      - [src/shared/security.ts]            ([checkSecurity]),
      - the Farcaster observer (part_001)   ([Farcaster.handleNewNode], ...),
      - the Twitter observer (part_002)     ([Twitter.handleNewNode], ...),
    over an explicit model of the DOM store the observers read and write. *)

From Stdlib Require Import Ascii String List Bool Arith Lia.
From stdpp Require Import base option list.
Import ListNotations.
Local Open Scope string_scope.
Local Open Scope list_scope.

(* ===================================================================== *)
(** ** Security gate ([src/shared/security.ts]) *)
(* ===================================================================== *)

(** [SecurityLevel = 'only-trusted' | 'non-malicious' | 'all'] *)
Inductive SecurityLevel : Type :=
| only_trusted
| non_malicious
| all.

(** Modelled from the spec: the type [ExtendedActionState] is imported from
    ['../api'], which is not part of the sources at hand; the spec gives its
    values as trusted, unknown and malicious. *)
Inductive ExtendedActionState : Type :=
| trusted
| unknown
| malicious.

Definition state_eqb (a b : ExtendedActionState) : bool :=
  match a, b with
  | trusted, trusted | unknown, unknown | malicious, malicious => true
  | _, _ => false
  end.

(** A function body as the list of its top-level statements; a statement
    either returns a value or falls through to the next one. *)
Definition run_body {A : Type} (dflt : A) (body : list (option A)) : A :=
  match List.find (fun st => match st with Some _ => true | None => false end) body with
  | Some (Some v) => v
  | _ => dflt
  end.

(** Lines 11-18 of security.ts: the [switch] on the security level. *)
Definition checkSecurity_switch
    (state : ExtendedActionState) (securityLevel : SecurityLevel) : bool :=
  match securityLevel with
  | only_trusted => state_eqb state trusted
  | non_malicious => negb (state_eqb state malicious)
  | all => true
  end.

(** [checkSecurity]: line 10 is an unconditional [return true;] placed before
    the [switch], which therefore never runs. *)
Definition checkSecurity
    (state : ExtendedActionState) (securityLevel : SecurityLevel) : bool :=
  run_body true
    [ Some true                                         (* line 10 *)
    ; Some (checkSecurity_switch state securityLevel)   (* lines 11-18 *)
    ].

(* ===================================================================== *)
(** ** Observer options (part_001 and part_002, lines 18-64, identical) *)
(* ===================================================================== *)

(** [Record<'websites' | 'interstitials' | 'actions', ObserverSecurityLevel>] *)
Record CategoryLevels : Type := mkLevels {
  websites : SecurityLevel;
  interstitials : SecurityLevel;
  actions : SecurityLevel;
}.

(** The value of [options.securityLevel]: a scalar string or a record. *)
Inductive SecurityLevelSetting : Type :=
| Scalar (l : SecurityLevel)
| PerCategory (r : CategoryLevels).

(** [Partial<ObserverOptions>]: the field may be absent. *)
Record PartialObserverOptions : Type := mkOptions {
  securityLevel : option SecurityLevelSetting;
}.

Record NormalizedObserverOptions : Type := mkNormalized {
  n_securityLevel : CategoryLevels;
}.

(** [DEFAULT_OPTIONS = { securityLevel: 'only-trusted' }] *)
Definition DEFAULT_OPTIONS_securityLevel : SecurityLevel := only_trusted.
Definition DEFAULT_OPTIONS : PartialObserverOptions :=
  {| securityLevel := Some (Scalar DEFAULT_OPTIONS_securityLevel) |}.

Definition normalizeOptions (options : PartialObserverOptions)
  : NormalizedObserverOptions :=
  {| n_securityLevel :=
       match securityLevel options with
       | None =>                      (* !options.securityLevel *)
           {| websites := DEFAULT_OPTIONS_securityLevel;
              interstitials := DEFAULT_OPTIONS_securityLevel;
              actions := DEFAULT_OPTIONS_securityLevel |}
       | Some (Scalar l) =>           (* typeof ... === 'string' *)
           {| websites := l; interstitials := l; actions := l |}
       | Some (PerCategory r) => r
       end |}.

(* ===================================================================== *)
(** ** The DOM store *)
(* ===================================================================== *)

(** The observers work on the host page's DOM through object references.
    The store below keeps every node ever created, addressed by its index;
    a reference is an index, so aliasing is identity of indices and a node
    detached from the tree stays in the store, as a JS object stays alive
    while referenced.  The store holds element and text nodes; the Document
    node itself is not represented, so the parent of a node, when it has
    one, is a node of the store. *)
Module DOM.

Abbreviation NodeId := nat (only parsing).

Inductive NodeType : Type := ELEMENT_NODE | TEXT_NODE.

Record Node : Type := mkNode {
  nodeType : NodeType;
  localName : string;
  attributes : list (string * string);   (* class, href, data-testid, ... *)
  style : list (string * string);        (* inline style declarations *)
  innerHTML : string;                    (* markup assigned through [innerHTML] *)
  parentNode : option NodeId;
  childNodes : list NodeId;
}.

Abbreviation Document := (list Node) (only parsing).

Definition set_attributes (f : list (string * string) -> list (string * string))
    (nd : Node) : Node :=
  mkNode (nodeType nd) (localName nd) (f (attributes nd)) (style nd)
         (innerHTML nd) (parentNode nd) (childNodes nd).
Definition set_style (f : list (string * string) -> list (string * string))
    (nd : Node) : Node :=
  mkNode (nodeType nd) (localName nd) (attributes nd) (f (style nd))
         (innerHTML nd) (parentNode nd) (childNodes nd).
Definition set_innerHTML (s : string) (nd : Node) : Node :=
  mkNode (nodeType nd) (localName nd) (attributes nd) (style nd)
         s (parentNode nd) (childNodes nd).
Definition set_parentNode (p : option NodeId) (nd : Node) : Node :=
  mkNode (nodeType nd) (localName nd) (attributes nd) (style nd)
         (innerHTML nd) p (childNodes nd).
Definition set_childNodes (f : list NodeId -> list NodeId) (nd : Node) : Node :=
  mkNode (nodeType nd) (localName nd) (attributes nd) (style nd)
         (innerHTML nd) (parentNode nd) (f (childNodes nd)).

(** *** Strings: [includes], class tokens *)

(** [s.includes(sub)] *)
Fixpoint includes (sub s : string) : bool :=
  String.prefix sub s ||
  match s with
  | EmptyString => false
  | String _ s' => includes sub s'
  end.

(** ASCII whitespace, as used to split a class attribute into tokens. *)
Definition is_space (c : ascii) : bool :=
  let n := nat_of_ascii c in
  Nat.eqb n 32 || Nat.eqb n 9 || Nat.eqb n 10 || Nat.eqb n 12 || Nat.eqb n 13.

(** [split_ws acc s]: the whitespace-separated tokens of [s]; [acc] is the
    token being read, reversed. *)
Fixpoint split_ws (acc : string) (s : string) : list string :=
  match s with
  | EmptyString => if String.eqb acc "" then [] else [acc]
  | String c s' =>
      if is_space c
      then (if String.eqb acc "" then split_ws "" s' else acc :: split_ws "" s')
      else split_ws (String.append acc (String c "")) s'
  end.

Definition mem_string (x : string) (l : list string) : bool :=
  existsb (String.eqb x) l.

(** Ordered-set parser of the DOM: tokens without duplicates, first
    occurrence kept. *)
Fixpoint dedup (seen : list string) (l : list string) : list string :=
  match l with
  | [] => []
  | x :: l' => if mem_string x seen then dedup seen l'
               else x :: dedup (x :: seen) l'
  end.

Definition class_tokens (cls : string) : list string := dedup [] (split_ws "" cls).

Fixpoint join_space (l : list string) : string :=
  match l with
  | [] => ""
  | [x] => x
  | x :: l' => String.append x (String.append " " (join_space l'))
  end.

(** *** Association lists for attributes and style *)

Fixpoint assoc (k : string) (l : list (string * string)) : option string :=
  match l with
  | [] => None
  | (k', v) :: l' => if String.eqb k k' then Some v else assoc k l'
  end.

Fixpoint set_assoc (k v : string) (l : list (string * string))
  : list (string * string) :=
  match l with
  | [] => [(k, v)]
  | (k', v') :: l' =>
      if String.eqb k k' then (k, v) :: l' else (k', v') :: set_assoc k v l'
  end.

(** *** Reading the store *)

Section Read.
Variable d : Document.

Definition isElement (n : NodeId) : bool :=
  match d !! n with
  | Some nd => match nodeType nd with ELEMENT_NODE => true | TEXT_NODE => false end
  | None => false
  end.

Definition localNameOf (n : NodeId) : string :=
  match d !! n with Some nd => localName nd | None => "" end.

Definition getAttribute (n : NodeId) (k : string) : option string :=
  match d !! n with Some nd => assoc k (attributes nd) | None => None end.

Definition hasAttribute (n : NodeId) (k : string) : bool :=
  match getAttribute n k with Some _ => true | None => false end.

(** [element.className] *)
Definition className (n : NodeId) : string :=
  match getAttribute n "class" with Some c => c | None => "" end.

(** [element.classList.contains(tok)] *)
Definition classList_contains (n : NodeId) (tok : string) : bool :=
  mem_string tok (class_tokens (className n)).

Definition styleOf (n : NodeId) (prop : string) : option string :=
  match d !! n with Some nd => assoc prop (style nd) | None => None end.

(** [node.parentNode] *)
Definition parentNodeOf (n : NodeId) : option NodeId :=
  match d !! n with Some nd => parentNode nd | None => None end.

(** [node.parentElement]: the parent, when it is an element. *)
Definition parentElement (n : NodeId) : option NodeId :=
  match parentNodeOf n with
  | Some p => if isElement p then Some p else None
  | None => None
  end.

(** [element.innerHTML], as far as it was assigned. *)
Definition innerHTMLOf (n : NodeId) : string :=
  match d !! n with Some nd => innerHTML nd | None => EmptyString end.

Definition childNodesOf (n : NodeId) : list NodeId :=
  match d !! n with Some nd => childNodes nd | None => [] end.

(** [element.children]: the element children. *)
Definition children (n : NodeId) : list NodeId :=
  List.filter isElement (childNodesOf n).

(** Node following [n] in [l]. *)
Fixpoint next_in (n : NodeId) (l : list NodeId) : option NodeId :=
  match l with
  | [] => None
  | x :: l' => if Nat.eqb x n then head l' else next_in n l'
  end.

(** [node.nextSibling] *)
Definition nextSibling (n : NodeId) : option NodeId :=
  match parentNodeOf n with
  | Some p => next_in n (childNodesOf p)
  | None => None
  end.

(** The selectors the observers use. *)
Inductive Selector : Type :=
| ByTag (name : string)            (* 'a' *)
| ByClass (cls : string)          (* '.dialect-wrapper' *)
| ByAttr (name value : string).   (* '[data-testid="tweet"]' *)

Definition matches (sel : Selector) (n : NodeId) : bool :=
  isElement n &&
  match sel with
  | ByTag name => String.eqb (localNameOf n) name
  | ByClass cls => classList_contains n cls
  | ByAttr k v =>
      match getAttribute n k with
      | Some v' => String.eqb v' v
      | None => false
      end
  end.

(** Descendants of [n] in tree order, [n] excluded.  The recursion follows
    [childNodes]; the fuel bounds the depth explored, and the number of
    nodes in the store bounds the depth of any tree in it (see
    [descendants_fuel_adequate] and [closest_fuel_adequate] below). *)
Fixpoint descendants_fuel (fuel : nat) (n : NodeId) : list NodeId :=
  match fuel with
  | 0 => []
  | S fuel' =>
      flat_map (fun c => c :: descendants_fuel fuel' c) (childNodesOf n)
  end.

Definition descendants (n : NodeId) : list NodeId :=
  descendants_fuel (length d) n.

(** [element.querySelector(sel)] *)
Definition querySelector (n : NodeId) (sel : Selector) : option NodeId :=
  List.find (matches sel) (descendants n).

(** [element.getElementsByTagName(name)] *)
Definition getElementsByTagName (n : NodeId) (name : string) : list NodeId :=
  List.filter (matches (ByTag name)) (descendants n).

(** [element.closest(sel)]: the element itself or its nearest ancestor
    matching [sel]. *)
Fixpoint closest_fuel (fuel : nat) (n : NodeId) (sel : Selector)
  : option NodeId :=
  match fuel with
  | 0 => None
  | S fuel' =>
      if matches sel n then Some n
      else match parentElement n with
           | Some p => closest_fuel fuel' p sel
           | None => None
           end
  end.

Definition closest (n : NodeId) (sel : Selector) : option NodeId :=
  closest_fuel (length d) n sel.
End Read.

(** *** Writing the store *)

(** [document.createElement(name)]: a new detached element; its reference
    is the next free index. *)
Definition blank (name : string) : Node :=
  mkNode ELEMENT_NODE name [] [] "" None [].

Definition createElement (name : string) (d : Document) : NodeId * Document :=
  (length d, d ++ [blank name]).

Definition setAttribute (n : NodeId) (k v : string) (d : Document) : Document :=
  alter (set_attributes (set_assoc k v)) n d.

(** [element.className = c] *)
Definition setClassName (n : NodeId) (c : string) (d : Document) : Document :=
  setAttribute n "class" c d.

(** [element.classList.add(tok)]: append the token to the ordered token set
    and write the serialised set back to the class attribute. *)
Definition classList_add (n : NodeId) (tok : string) (d : Document) : Document :=
  let toks := class_tokens (className d n) in
  let toks' := if mem_string tok toks then toks else toks ++ [tok] in
  setAttribute n "class" (join_space toks') d.

(** [element.style.prop = v] *)
Definition setStyle (n : NodeId) (prop v : string) (d : Document) : Document :=
  alter (set_style (set_assoc prop v)) n d.

Definition remove_id (n : NodeId) (l : list NodeId) : list NodeId :=
  List.filter (fun x => negb (Nat.eqb x n)) l.

(** [node.remove()]: detach [n] from its parent, if it has one. *)
Definition remove (n : NodeId) (d : Document) : Document :=
  match parentNodeOf d n with
  | Some p =>
      alter (set_childNodes (remove_id n)) p (alter (set_parentNode None) n d)
  | None => d
  end.

(** Insert [node] before the first occurrence of [ref] in a child list, or
    at the end when there is no reference child. *)
Fixpoint insert_before (ref : NodeId) (node : NodeId) (l : list NodeId)
  : list NodeId :=
  match l with
  | [] => [node]
  | x :: l' => if Nat.eqb x ref then node :: x :: l'
               else x :: insert_before ref node l'
  end.

Definition place (ref : option NodeId) (node : NodeId) (l : list NodeId)
  : list NodeId :=
  match ref with
  | Some r => insert_before r node l
  | None => l ++ [node]
  end.

(** [parent.insertBefore(node, ref)]: [node] is first removed from its
    current parent, then placed among the children of [parent].  The
    hierarchy checks of the DOM's pre-insert step are not modelled: the
    observers only insert nodes they have just created, whose subtrees
    contain no node of the host page, before a sibling read in the same
    synchronous step. *)
Definition insertBefore (parent node : NodeId) (ref : option NodeId)
    (d : Document) : Document :=
  let d1 := remove node d in
  alter (set_childNodes (place ref node)) parent
        (alter (set_parentNode (Some parent)) node d1).

(** [parent.append(node)] and [parent.appendChild(node)] *)
Definition append (parent node : NodeId) (d : Document) : Document :=
  insertBefore parent node None d.

(** [parent.prepend(node)] *)
Definition prepend (parent node : NodeId) (d : Document) : Document :=
  insertBefore parent node (head (childNodesOf d parent)) d.

(** [parent.replaceChildren(node)]: every child of [parent] is removed, then
    [node] is inserted as the only child. *)
Definition orphan_all (l : list NodeId) (d : Document) : Document :=
  fold_left (fun d' c => alter (set_parentNode None) c d') l d.

Definition replaceChildren (parent node : NodeId) (d : Document) : Document :=
  let d1 := alter (set_childNodes (fun _ => []))
                  parent (orphan_all (childNodesOf d parent) d) in
  insertBefore parent node None d1.

(** [element.innerHTML = markup]: the children are replaced by what the
    HTML parser builds from [markup].  The parsed nodes are kept as the
    markup itself; the markup the observers assign contains no anchor, no
    class and no data-testid, so no selector used here can match inside. *)
Definition setInnerHTML (n : NodeId) (markup : string) (d : Document) : Document :=
  alter (fun nd => set_childNodes (fun _ => []) (set_innerHTML markup nd)) n
        (orphan_all (childNodesOf d n) d).

(** Consistency of a store: parent and child links agree, stay inside the
    store, and no child is listed twice. *)
Definition links_ok (d : Document) (n : NodeId) (nd : Node) : bool :=
  forallb (fun c => match parentElement d c with
                    | Some p => Nat.eqb p n
                    | None => false
                    end) (childNodes nd)
  && match parentNode nd with
     | Some p => existsb (Nat.eqb n) (childNodesOf d p) && negb (Nat.eqb p n)
     | None => true
     end
  && Nat.eqb (length (nodup Nat.eq_dec (childNodes nd))) (length (childNodes nd)).

Definition consistent (d : Document) : bool :=
  forallb (fun '(n, nd) => links_ok d n nd) (combine (seq 0 (length d)) d).

End DOM.

Import DOM.

(* ===================================================================== *)
(** ** Effects, collaborators and the pipeline both observers share *)
(* ===================================================================== *)

(** [new URL(s)]: the parts of a URL the observers read. *)
Record URL : Type := mkURL {
  href : string;        (* url.toString() *)
  origin : string;
  hostname : string;
}.

(** An action descriptor, an actions.json document and the [callbacks]
    handed to the setup are opaque to the observers; they are carried as
    text. *)
Definition Action : Type := string.
Definition ActionsJsonConfig : Type := string.
Definition ActionCallbacksConfig : Type := string.

(** Result of [isInterstitial(url)]. *)
Record InterstitialData : Type := mkInterstitial {
  isInterstitial_flag : bool;
  decodedActionUrl : option string;
}.

(** The synchronous collaborators of the observers: the functions they
    import, whose code is outside the sources at hand, the arguments
    [config] and [callbacks] of the setup, and the URL parser of the
    browser.  They are parameters of the pipeline. *)
Record Collaborators : Type := mkCollaborators {
  parseURL : string -> option URL;       (* new URL(s); None when it throws *)
  isInterstitial : URL -> InterstitialData;
  getExtendedInterstitialState : string -> ExtendedActionState;
  getExtendedWebsiteState : string -> ExtendedActionState;
  getExtendedActionState : string -> ExtendedActionState;
  proxify : string -> string;
  mapUrl : ActionsJsonConfig -> URL -> option string;
                                         (* new ActionsURLMapper(json).mapUrl(url) *)
  hasIsSupported : bool;                 (* config.isSupported is defined *)
  callbacks : ActionCallbacksConfig;     (* the [callbacks] argument of the setup *)
  resolveURL : string -> string;
      (* the getter of [anchor.href] on the value of the [href] attribute:
         the attribute parsed against the base URL of the document and
         serialized, or the attribute itself when it cannot be parsed; the
         base URL is taken to stay the same while the observer runs *)
}.

Inductive Category : Type := Websites | Interstitials | Actions.

(** What a dispatch does besides writing the DOM, in the order it happens. *)
Inductive Effect : Type :=
| DropdownInserted (likeButton dropdown : NodeId)
      (* likeButton.append(createDropdown(likeButton)) *)
| Gate (cat : Category) (state : ExtendedActionState)
       (level : SecurityLevel) (passed : bool)       (* a checkSecurity call *)
| Fetch (url : string)                               (* fetch(url) *)
| ActionFetch (url : string)                         (* Action.fetch(url, config) *)
| SupportedCall (originalUrl : string) (action : Action)
                (actionType : ExtendedActionState)   (* config.isSupported(...) *)
| Rendered (root : NodeId) (action : Action) (websiteUrl websiteText : string)
           (callbacks : ActionCallbacksConfig) (securityLevel : CategoryLevels).
      (* createRoot(root).render(
           <div onClick={(e) => e.stopPropagation()}>
             <ActionContainer action=... websiteUrl=... websiteText=...
                              callbacks=... securityLevel=... />
           </div>) *)

Record World : Type := mkWorld {
  dom : Document;
  log : list Effect;
}.

(** State monad over the world. *)
Definition M (A : Type) : Type := World -> A * World.

Definition ret {A} (a : A) : M A := fun w => (a, w).
Definition bind {A B} (m : M A) (k : A -> M B) : M B :=
  fun w => let '(a, w') := m w in k a w'.

Notation "x <- m ;; k" := (bind m (fun x => k))
  (at level 100, m at level 99, right associativity).
Notation "m ;;; k" := (bind m (fun _ => k))
  (at level 100, right associativity).

Definition tell (e : Effect) : M unit :=
  fun w => (tt, mkWorld (dom w) (log w ++ [e])).
Definition read {A} (f : Document -> A) : M A :=
  fun w => (f (dom w), w).
Definition write (f : Document -> Document) : M unit :=
  fun w => (tt, mkWorld (f (dom w)) (log w)).
Definition create (name : string) : M NodeId :=
  fun w => let '(n, d') := createElement name (dom w) in (n, mkWorld d' (log w)).

(** Where an [async] dispatch is suspended: the [await] it waits at, with
    the local variables that are live there. *)
Inductive Pending : Type :=
| AwaitShortenedUrl (container : NodeId)
      (* await resolveTwitterShortenedUrl(shortenedUrl) *)
| AwaitActionsJson (container : NodeId) (actionUrl : URL)
      (* await fetch(proxify(actionsJsonUrl)).then(res => res.json()) *)
| AwaitAction (container : NodeId) (actionUrl : URL)
              (state : ExtendedActionState)
      (* await Action.fetch(actionApiUrl, config).catch(noop) *)
| AwaitSupported (container : NodeId) (actionUrl : URL) (action : Action).
      (* await config.isSupported({...}) *)

Inductive Outcome : Type :=
| Finished                      (* the dispatch returned, or threw and was caught by noop *)
| Suspended (p : Pending).

(** How an awaited promise settles. *)
Inductive Response : Type :=
| Rejects
| ResolvedUrl (u : URL)
| ResolvedJson (j : ActionsJsonConfig)
| ResolvedAction (a : Action)
| ResolvedSupported (b : bool).

Section Pipeline.
Variable c : Collaborators.
Variable options : NormalizedObserverOptions.

(** A [checkSecurity] call at one of the three checkpoints. *)
Definition gate (cat : Category) (state : ExtendedActionState)
    (level : SecurityLevel) : M bool :=
  let passed := checkSecurity state level in
  tell (Gate cat state level passed) ;;; ret passed.

(** [addMargin] (part_001 lines 332-340, part_002 lines 531-539) *)
Definition addMargin (element : NodeId) : M unit :=
  hasWrapper <- read (fun d => classList_contains d element "dialect-wrapper") ;;
  if hasWrapper then
    write (setStyle element "marginTop" "12px") ;;;
    isDm <- read (fun d => classList_contains d element "dialect-dm") ;;
    if isDm then write (setStyle element "marginBottom" "8px") else ret tt
  else ret tt.

(** [createAction] (part_001 lines 231-262, part_002 lines 401-432).  The
    render is recorded with the props it passes to [ActionContainer],
    except [stylePreset]: the preset is read from the colour scheme of the
    page, which is not part of the store.  React renders later, into
    [container]; what it renders is not part of the store either.  The
    click handler of the [div] it wraps the component in is the listener
    of the render root in [Events.reactListener]. *)
Definition createAction (originalUrl : URL) (action : Action) : M NodeId :=
  container <- create "div" ;;
  write (setClassName container "dialect-action-root-container") ;;;
  tell (Rendered container action (href originalUrl) (hostname originalUrl)
                 (callbacks c) (n_securityLevel options)) ;;;
  ret container.

(** The mount, [addMargin(container).replaceChildren(createAction({...}))]
    (part_001 lines 220-228, part_002 lines 205-213). *)
Definition mount (container : NodeId) (actionUrl : URL) (action : Action)
  : M unit :=
  addMargin container ;;;
  root <- createAction actionUrl action ;;
  write (replaceChildren container root).

(** From the resolved endpoint to the action fetch
    (part_001 lines 194-203, part_002 lines 179-188). *)
Definition resolveAction (container : NodeId) (actionUrl : URL)
    (actionApiUrl : option string) : M Outcome :=
  match actionApiUrl with
  | None => ret Finished
  | Some api =>
      if String.eqb api EmptyString then ret Finished     (* !actionApiUrl *)
      else
        let state := getExtendedActionState c api in
        passed <- gate Actions state (actions (n_securityLevel options)) ;;
        if negb passed then ret Finished
        else tell (ActionFetch api) ;;;
             ret (Suspended (AwaitAction container actionUrl state))
  end.

(** Classification of the action URL
    (part_001 lines 162-192, part_002 lines 147-177). *)
Definition classify (container : NodeId) (actionUrl : URL) : M Outcome :=
  let interstitialData := isInterstitial c actionUrl in
  if isInterstitial_flag interstitialData then
    let interstitialState := getExtendedInterstitialState c (href actionUrl) in
    passed <- gate Interstitials interstitialState
                   (interstitials (n_securityLevel options)) ;;
    if negb passed then ret Finished
    else resolveAction container actionUrl (decodedActionUrl interstitialData)
  else
    let websiteState := getExtendedWebsiteState c (href actionUrl) in
    passed <- gate Websites websiteState (websites (n_securityLevel options)) ;;
    if negb passed then ret Finished
    else
      let actionsJsonUrl := String.append (origin actionUrl) "/actions.json" in
      tell (Fetch (proxify c actionsJsonUrl)) ;;;
      ret (Suspended (AwaitActionsJson container actionUrl)).

(** The dispatch continues when the promise it awaits settles.  A
    rejection ends it: the promise of [handleNewNode] rejects and the
    observer's [.catch(noop)] discards it ([Action.fetch] has its own
    [.catch(noop)], after which [!action] returns). *)
Definition resume (p : Pending) (r : Response) : M Outcome :=
  match p, r with
  | AwaitShortenedUrl container, ResolvedUrl actionUrl =>
      classify container actionUrl
  | AwaitActionsJson container actionUrl, ResolvedJson actionsJson =>
      resolveAction container actionUrl (mapUrl c actionsJson actionUrl)
  | AwaitAction container actionUrl state, ResolvedAction action =>
      if hasIsSupported c then
        tell (SupportedCall (href actionUrl) action state) ;;;
        ret (Suspended (AwaitSupported container actionUrl action))
      else mount container actionUrl action ;;; ret Finished
  | AwaitSupported container actionUrl action, ResolvedSupported supported =>
      if supported then mount container actionUrl action ;;; ret Finished
      else ret Finished
  | _, _ => ret Finished
  end.

(** [findElementByTestId] (part_001 lines 284-289, part_002 lines 454-459) *)
Definition findElementByTestId (d : Document) (element : NodeId)
    (testId : string) : option NodeId :=
  match getAttribute d element "data-testid" with
  | Some v => if String.eqb v testId then Some element
              else querySelector d element (ByAttr "data-testid" testId)
  | None => querySelector d element (ByAttr "data-testid" testId)
  end.
End Pipeline.

(** Result of [findLinkPreview]: [{ anchor, card }]. *)
Record LinkPreview : Type := mkLinkPreview {
  lp_anchor : NodeId;
  lp_card : NodeId;
}.

(** [anchor.href], the property.  On an [a] element the browser resolves
    the [href] attribute against the base URL of the document; without the
    attribute the property is the empty string.  An element of any other
    name is taken to have no such property, as the [div], [span] and
    [img] elements of a tweet have none: there the value is [undefined],
    here [None]. *)
Definition hrefOf (c : Collaborators) (d : Document) (anchor : NodeId)
  : option string :=
  if String.eqb (localNameOf d anchor) "a" then
    Some (match getAttribute d anchor "href" with
          | Some h => resolveURL c h
          | None => EmptyString
          end)
  else None.

(** A value passed where a string is expected, as [fetch] and [new URL]
    convert their argument: [undefined] becomes the text [undefined]. *)
Definition toUSVString (v : option string) : string :=
  match v with Some s => s | None => "undefined" end.

Definition orElse {A} (a b : option A) : option A :=
  match a with Some _ => a | None => b end.

(* ===================================================================== *)
(** ** The Farcaster observer (part_001) *)
(* ===================================================================== *)
Module Farcaster.
Section Observer.
Variable c : Collaborators.
Variable options : NormalizedObserverOptions.

(** [findContainerInCast] (lines 291-301) *)
Definition findContainerInCast (d : Document) (element : NodeId)
    (searchUp : bool) : option NodeId :=
  let message :=
    if searchUp
    then orElse (closest d element (ByTag "a"))
                (closest d element (ByAttr "data-testid" "messageEntry"))
    else orElse (findElementByTestId d element "tweet")
                (findElementByTestId d element "messageEntry") in
  match message with
  | Some m => querySelector d m (ByClass "dialect-wrapper")
  | None => None
  end.

(** [findLinkPreview] (lines 304-317): the card is the element itself. *)
Definition findLinkPreview (d : Document) (element : NodeId)
  : option LinkPreview :=
  let card := element in
  match querySelector d card (ByTag "a") with
  | Some anchor => Some (mkLinkPreview anchor card)
  | None => None
  end.

(** [getContainerForLink] (lines 319-330) *)
Definition getContainerForLink (castText : NodeId) : M NodeId :=
  root <- create "div" ;;
  write (setClassName root "dialect-wrapper") ;;;
  dm <- read (fun d => closest d castText (ByAttr "class" "relative")) ;;
  match dm with
  | Some _ =>
      write (classList_add root "dialect-dm") ;;;
      grand <- read (fun d => match parentElement d castText with
                              | Some p => parentElement d p
                              | None => None
                              end) ;;
      match grand with
      | Some g => write (prepend g root)
      | None => ret tt
      end
  | None =>
      parent <- read (fun d => parentElement d castText) ;;
      match parent with
      | Some p => write (append p root)
      | None => ret tt
      end
  end ;;;
  ret root.

(** [handleNewNode] (lines 111-229), up to its first [await]: everything
    here runs synchronously inside the observer callback. *)
Definition handleNewNode (element : NodeId) : M Outcome :=
  localName <- read (fun d => localNameOf d element) ;;
  if negb (String.eqb localName "div") then ret Finished       (* line 119 *)
  else
  cls <- read (fun d => className d element) ;;
  if negb (includes " fade-in" cls) && negb (includes "relative" cls)
  then ret Finished                                              (* line 128 *)
  else
  linkPreview <- read (fun d => findLinkPreview d element) ;;
  found <- read (fun d =>
             findContainerInCast d
               (match linkPreview with Some lp => lp_card lp | None => element end)
               (match linkPreview with Some _ => true | None => false end)) ;;
  candidate <-
    match linkPreview with
    | Some lp =>
        match found with Some w => write (remove w) | None => ret tt end ;;;
        container <- read (fun d => parentElement d (lp_card lp)) ;;
        ret (Some (lp_anchor lp), container)
    | None =>
        container <- getContainerForLink element ;;
        ret (None, Some container)
    end ;;
  match candidate with
  | (Some anchor, Some container) =>
      href <- read (fun d => hrefOf c d anchor) ;;
      match parseURL c (toUSVString href) with     (* new URL(anchor.href) *)
      | Some actionUrl => classify c options container actionUrl
      | None => ret Finished
      end
  | _ => ret Finished                              (* line 158 *)
  end.
End Observer.
End Farcaster.

(* ===================================================================== *)
(** ** The Twitter observer (part_002) *)
(* ===================================================================== *)
Module Twitter.
Section Observer.
Variable c : Collaborators.

(** The entries of the [options] array of [createDropdown] (lines 310-335). *)
Record DropdownOption : Type := mkOption {
  name : string;
  description : string;
  verified : string;
  act : string;
}.

Definition dropdownOptions : list DropdownOption :=
  [ mkOption "Access Protocol" "gate your content" "Yes" "access-protocol.dial.to"
  ; mkOption "Arkenstone Suite" "developing a token presale Suite" "No"
             "arkenstone.gold"
  ; mkOption "Blinks" "Blinks Inspector" "Yes" "blinks.gg"
  ; mkOption "Sol Casino" "Roulette on Solana" "Yes" "solcasino.io" ].

Definition quote : string := String (ascii_of_nat 34) EmptyString.
Definition newline : string := String (ascii_of_nat 10) EmptyString.

Fixpoint concat_strings (l : list string) : string :=
  match l with
  | [] => EmptyString
  | x :: l' => String.append x (concat_strings l')
  end.

(** The template literal of lines 344-349. *)
Definition optionMarkup (o : DropdownOption) : string :=
  concat_strings
    [ newline; "      <div style="; quote; "font-weight: bold;"; quote;
      ">Name: "; name o; "</div>"; newline;
      "      <div>Description: "; description o; "</div>"; newline;
      "      <div>Verified: "; verified o; "</div>"; newline;
      "      <div>Act: "; act o; "</div>"; newline; "    " ].

(** The template literal of lines 230-232. *)
Definition svgMarkup : string :=
  concat_strings
    [ newline; "    <path d="; quote;
      "M3 12c0-1.1.9-2 2-2s2 .9 2 2-.9 2-2 2-2-.9-2-2zm9 2c1.1 0 2-.9 2-2s-.9-2-2-2-2 .9-2 2 .9 2 2 2zm7 0c1.1 0 2-.9 2-2s-.9-2-2-2-2 .9-2 2 .9 2 2 2z";
      quote; "/>"; newline; "  " ].

Fixpoint forEach {A} (l : list A) (f : A -> M unit) : M unit :=
  match l with
  | [] => ret tt
  | x :: l' => f x ;;; forEach l' f
  end.

(** The body of the [options.forEach] callback (lines 337-367). *)
Definition addOption (optionsContainer : NodeId) (optionData : DropdownOption)
  : M unit :=
  option <- create "div" ;;
  write (setStyle option "padding" "12px") ;;;
  write (setStyle option "borderBottom" "1px solid #eee") ;;;
  write (setStyle option "cursor" "pointer") ;;;
  write (setStyle option "transition" "background-color 0.2s") ;;;
  write (setInnerHTML option (optionMarkup optionData)) ;;;
  write (append optionsContainer option).

(** Lines 217-390 of [createDropdown]: the dropdown is built as a detached
    tree.  Event listeners are registrations for later user input and
    leave the tree as it is; they are omitted. *)
Definition dropdownTree : M NodeId :=
  dropdownContainer <- create "div" ;;
  write (setClassName dropdownContainer "dialect-dropdown-container") ;;;
  write (setStyle dropdownContainer "display" "inline-flex") ;;;
  write (setStyle dropdownContainer "alignItems" "center") ;;;
  write (setStyle dropdownContainer "marginLeft" "8px") ;;;
  write (setStyle dropdownContainer "position" "relative") ;;;
  svgIcon <- create "svg" ;;
  write (setAttribute svgIcon "viewBox" "0 0 24 24") ;;;
  write (setAttribute svgIcon "width" "18") ;;;
  write (setAttribute svgIcon "height" "18") ;;;
  write (setStyle svgIcon "fill" "currentColor") ;;;
  write (setInnerHTML svgIcon svgMarkup) ;;;
  customDropdown <- create "div" ;;
  write (setClassName customDropdown "dialect-custom-dropdown") ;;;
  write (setStyle customDropdown "display" "inline-flex") ;;;
  write (setStyle customDropdown "alignItems" "center") ;;;
  write (setStyle customDropdown "cursor" "pointer") ;;;
  write (setStyle customDropdown "padding" "6px") ;;;
  write (setStyle customDropdown "borderRadius" "50%") ;;;
  write (setStyle customDropdown "transition" "background-color 0.2s") ;;;
  write (append customDropdown svgIcon) ;;;
  optionsContainer <- create "div" ;;
  write (setClassName optionsContainer "dialect-options-container") ;;;
  write (setStyle optionsContainer "display" "none") ;;;
  write (setStyle optionsContainer "position" "absolute") ;;;
  write (setStyle optionsContainer "bottom" "100%") ;;;
  write (setStyle optionsContainer "right" "0") ;;;
  write (setStyle optionsContainer "backgroundColor" "blue") ;;;
  write (setStyle optionsContainer "border" "1px solid #ccc") ;;;
  write (setStyle optionsContainer "borderRadius" "4px") ;;;
  write (setStyle optionsContainer "boxShadow" "0 -2px 10px rgba(0,0,0,0.1)") ;;;
  write (setStyle optionsContainer "zIndex" "1000") ;;;
  write (setStyle optionsContainer "marginBottom" "10px") ;;;
  write (setStyle optionsContainer "minWidth" "200px") ;;;
  write (setStyle optionsContainer "maxHeight" "300px") ;;;
  write (setStyle optionsContainer "overflowY" "auto") ;;;
  write (setStyle optionsContainer "overflowX" "hidden") ;;;
  forEach dropdownOptions (addOption optionsContainer) ;;;
  write (append customDropdown optionsContainer) ;;;
  write (append dropdownContainer customDropdown) ;;;
  ret dropdownContainer.

(** Lines 393-396 of [createDropdown]:
    [likeButton.parentNode?.insertBefore(dropdownContainer, likeButton.nextSibling)] *)
Definition insertAfter (likeButton dropdownContainer : NodeId) (d : Document)
  : Document :=
  match parentNodeOf d likeButton with
  | Some p => insertBefore p dropdownContainer (nextSibling d likeButton) d
  | None => d
  end.

(** [createDropdown] (lines 216-399): the tree is built, inserted after
    [likeButton] and returned. *)
Definition createDropdown (likeButton : NodeId) : M NodeId :=
  dropdownContainer <- dropdownTree ;;
  write (insertAfter likeButton dropdownContainer) ;;;
  ret dropdownContainer.

(** [findBookmarkButton] (lines 498-516) *)
Definition findBookmarkButton (element : NodeId) : M (option NodeId) :=
  tweet <- read (fun d => closest d element (ByAttr "data-testid" "tweet")) ;;
  match tweet with
  | None => ret None
  | Some tweet =>
      likeButton <- read (fun d => querySelector d tweet (ByAttr "data-testid" "bookmark")) ;;
      match likeButton with
      | None => ret None
      | Some likeButton =>
          likeButtonParent <- read (fun d => parentElement d likeButton) ;;
          match likeButtonParent with
          | None => ret None
          | Some likeButtonParent =>
              processed <- read (fun d => hasAttribute d likeButtonParent
                                            "data-dialect-processed") ;;
              if processed then ret None
              else
                write (setAttribute likeButtonParent "data-dialect-processed" "true") ;;;
                ret (Some likeButtonParent)
          end
      end
  end.

(** Lines 118-122 of [handleNewNode]. *)
Definition bookmarkDropdown (element : NodeId) : M unit :=
  likeButton <- findBookmarkButton element ;;
  match likeButton with
  | Some likeButton =>
      dropdown <- createDropdown likeButton ;;
      write (append likeButton dropdown) ;;;
      tell (DropdownInserted likeButton dropdown)
  | None => ret tt
  end.

(** [findContainerInTweet] (lines 461-472) *)
Definition findContainerInTweet (d : Document) (element : NodeId)
    (searchUp : bool) : option NodeId :=
  let message :=
    if searchUp
    then orElse (closest d element (ByAttr "data-testid" "tweet"))
                (closest d element (ByAttr "data-testid" "messageEntry"))
    else orElse (findElementByTestId d element "tweet")
                (findElementByTestId d element "messageEntry") in
  match message with
  | Some m => querySelector d m (ByClass "dialect-wrapper")
  | None => None
  end.

(** [findLinkPreview] (lines 474-483) *)
Definition findLinkPreview (d : Document) (element : NodeId)
  : option LinkPreview :=
  match findElementByTestId d element "card.wrapper" with
  | None => None
  | Some card =>
      match head (children d card) with        (* card.children[0]?.children[0] *)
      | Some first =>
          match head (children d first) with
          | Some anchor => Some (mkLinkPreview anchor card)
          | None => None
          end
      | None => None
      end
  end.

(** [findLastLinkInText] (lines 484-496): [(anchor, tweetText)] *)
Definition findLastLinkInText (d : Document) (element : NodeId)
  : option (NodeId * NodeId) :=
  match findElementByTestId d element "tweetText" with
  | None => None
  | Some tweetText =>
      match last (getElementsByTagName d tweetText "a") with
      | Some anchor => Some (anchor, tweetText)
      | None => None
      end
  end.

(** [getContainerForLink] (lines 518-529) *)
Definition getContainerForLink (tweetText : NodeId) : M NodeId :=
  root <- create "div" ;;
  write (setClassName root "dialect-wrapper") ;;;
  dm <- read (fun d => closest d tweetText (ByAttr "data-testid" "messageEntry")) ;;
  match dm with
  | Some _ =>
      write (classList_add root "dialect-dm") ;;;
      grand <- read (fun d => match parentElement d tweetText with
                              | Some p => parentElement d p
                              | None => None
                              end) ;;
      match grand with
      | Some g => write (prepend g root)
      | None => ret tt
      end
  | None =>
      parent <- read (fun d => parentElement d tweetText) ;;
      match parent with
      | Some p => write (append p root)
      | None => ret tt
      end
  end ;;;
  ret root.

(** Lines 124-143 of [handleNewNode]: the anchor and the mount point, or
    nothing when the dispatch returns. *)
Definition extractCandidate (linkPreview : option LinkPreview)
    (element : NodeId) : M (option (NodeId * NodeId)) :=
  found <- read (fun d =>
             findContainerInTweet d
               (match linkPreview with Some lp => lp_card lp | None => element end)
               (match linkPreview with Some _ => true | None => false end)) ;;
  match linkPreview with
  | Some lp =>
      match found with Some w => write (remove w) | None => ret tt end ;;;
      container <- read (fun d => parentElement d (lp_card lp)) ;;
      match container with
      | Some container => ret (Some (lp_anchor lp, container))
      | None => ret None
      end
  | None =>
      match found with
      | Some _ => ret None                                   (* line 133 *)
      | None =>
          link <- read (fun d => findLastLinkInText d element) ;;
          match link with
          | Some (anchor, tweetText) =>
              container <- getContainerForLink tweetText ;;
              ret (Some (anchor, container))
          | None => ret None
          end
      end
  end.

(** Lines 124-146 of [handleNewNode]: the candidate is extracted and the
    resolution of its shortened URL is started. *)
Definition locateAndFetch (linkPreview : option LinkPreview)
    (element : NodeId) : M Outcome :=
  candidate <- extractCandidate linkPreview element ;;
  match candidate with
  | Some (anchor, container) =>
      shortenedUrl <- read (fun d => hrefOf c d anchor) ;;
      tell (Fetch (toUSVString shortenedUrl)) ;;;
      ret (Suspended (AwaitShortenedUrl container))
  | None => ret Finished                                       (* line 143 *)
  end.

(** [handleNewNode] (lines 103-214), up to its first [await]: everything
    here runs synchronously inside the observer callback.  The call of
    [resolveTwitterShortenedUrl] issues [fetch(shortenedUrl)] before it
    suspends. *)
Definition handleNewNode (element : NodeId) : M Outcome :=
  localName <- read (fun d => localNameOf d element) ;;
  if negb (String.eqb localName "div") then ret Finished       (* line 111 *)
  else
  linkPreview <- read (fun d => findLinkPreview d element) ;;
  bookmarkDropdown element ;;;
  locateAndFetch linkPreview element.
End Observer.
End Twitter.

(* ===================================================================== *)
(** ** Dispatches in flight, the observer callback and the setup *)
(* ===================================================================== *)

(** The page while the observer runs: the world and, for every call of
    [handleNewNode] so far, the element it was called on and where that
    dispatch stands. *)
Record System : Type := mkSystem {
  world : World;
  tasks : list (NodeId * Outcome);
}.

(** One turn of the event loop. *)
Inductive Step : Type :=
| Dispatch (element : NodeId)            (* handleNewNode(element) is called *)
| Settle (task : nat) (r : Response).    (* the promise a dispatch awaits settles *)

(** [MutationRecord]: the observers read [addedNodes] only. *)
Record MutationRecord : Type := mkMutation {
  addedNodes : list NodeId;
}.

Inductive PromiseState : Type :=
| PromisePending
| PromiseFulfilled
| PromiseRejected.

Section Scheduler.
(** The observer's [handleNewNode] up to its first [await], and the
    continuation at each [await]. *)
Variable handleNewNode : NodeId -> M Outcome.
Variable resume : Pending -> Response -> M Outcome.

Definition dispatch (element : NodeId) (s : System) : System :=
  let '(out, w) := handleNewNode element (world s) in
  mkSystem w (tasks s ++ [(element, out)]).

Definition settle (task : nat) (r : Response) (s : System) : System :=
  match tasks s !! task with
  | Some (element, Suspended p) =>
      let '(out, w) := resume p r (world s) in
      mkSystem w (<[task := (element, out)]> (tasks s))
  | _ => s
  end.

Definition step (s : System) (st : Step) : System :=
  match st with
  | Dispatch element => dispatch element s
  | Settle task r => settle task r s
  end.

Definition run (s : System) (schedule : list Step) : System :=
  fold_left step schedule s.

(** The inner loop of the observer callback (part_001 lines 92-104,
    part_002 lines 85-96); the flag tells that the callback returned. *)
Fixpoint addedNodes_loop (nodes : list NodeId) (s : System) : System * bool :=
  match nodes with
  | [] => (s, false)
  | node :: rest =>
      if negb (isElement (dom (world s)) node)
      then (s, true)                       (* return; *)
      else addedNodes_loop rest (dispatch node s)
  end.

(** The outer loop (part_001 lines 90-105, part_002 lines 83-97). *)
Fixpoint observerCallback (mutations : list MutationRecord) (s : System)
  : System :=
  match mutations with
  | [] => s
  | mutation :: rest =>
      let '(s', returned) := addedNodes_loop (addedNodes mutation) s in
      if returned then s' else observerCallback rest s'
  end.

(** The page around the observer. *)
Record Page : Type := mkPage {
  root : option NodeId;               (* document.getElementById(...) *)
  registryInit : option PromiseState; (* the promise of init(); None: never called *)
  observing : bool;                   (* observer.observe(root, ...) has run *)
  system : System;
}.

Inductive PageEvent : Type :=
| InitSettles (fulfilled : bool)
      (* the promise of ActionsRegistry.getInstance().init() settles *)
| MutationsObserved (records : list MutationRecord)
      (* nodes are inserted under the root *)
| PromiseSettles (task : nat) (r : Response).

(** [setupTwitterObserver] (part_002 lines 66-102): [init()] is called and
    the observer is created and attached in its [then] callback. *)
Definition setupTwitterObserver (twitterReactRoot : option NodeId)
    (w : World) : Page :=
  mkPage twitterReactRoot (Some PromisePending) false (mkSystem w []).

(** [setupFarcasterObserver] (part_001 lines 66-110): returns before
    calling [init()] when the root is missing. *)
Definition setupFarcasterObserver (farcasterRoot : option NodeId)
    (w : World) : Page :=
  match farcasterRoot with
  | None => mkPage None None false (mkSystem w [])
  | Some r => mkPage (Some r) (Some PromisePending) false (mkSystem w [])
  end.

Definition pageStep (p : Page) (e : PageEvent) : Page :=
  match e with
  | InitSettles fulfilled =>
      match registryInit p with
      | Some PromisePending =>
          if fulfilled
          then (* the then-callback: new MutationObserver(...), observe(root);
                  observe throws on a null root *)
               mkPage (root p) (Some PromiseFulfilled)
                      (match root p with Some _ => true | None => false end)
                      (system p)
          else mkPage (root p) (Some PromiseRejected) (observing p) (system p)
      | _ => p                         (* a promise settles once *)
      end
  | MutationsObserved records =>
      if observing p
      then mkPage (root p) (registryInit p) (observing p)
                  (observerCallback records (system p))
      else p                           (* no observer to deliver to *)
  | PromiseSettles task r =>
      mkPage (root p) (registryInit p) (observing p) (settle task r (system p))
  end.

Definition pageRun (p : Page) (events : list PageEvent) : Page :=
  fold_left pageStep events p.
End Scheduler.

(* ===================================================================== *)
(** ** Concrete pages and collaborators used in the examples *)
(* ===================================================================== *)

Definition el (name : string) (attrs : list (string * string))
    (parent : option NodeId) (kids : list NodeId) : Node :=
  mkNode ELEMENT_NODE name attrs [] EmptyString parent kids.

Definition txt (parent : option NodeId) : Node :=
  mkNode TEXT_NODE EmptyString [] [] EmptyString parent [].

Definition exampleUrl : URL :=
  mkURL "https://example.com/x" "https://example.com" "example.com".

(** The URL parser of a browser showing a page of [site]: an absolute URL
    is left as it is, anything else is taken for a path of the site. *)
Definition resolveAt (site : string) (s : string) : string :=
  if String.prefix "https://" s || String.prefix "http://" s then s
  else String.append site s.

(** Collaborators of the scenarios: no URL is an interstitial, the trust
    oracle answers [site] for websites and [trusted] otherwise, the manifest
    maps every page to one endpoint, the adapter has an [isSupported], and
    the pages are pages of x.com. *)
Definition collaborators (site : ExtendedActionState) : Collaborators :=
  mkCollaborators
    (fun s => Some (mkURL s "https://example.com" "example.com"))
    (fun _ => mkInterstitial false None)
    (fun _ => trusted) (fun _ => site) (fun _ => trusted)
    (fun s => String.append "https://proxy.dial.to/?url=" s)
    (fun _ _ => Some "https://example.com/api/action")
    true "callbacks" (resolveAt "https://x.com").

(** [securityLevel = { websites: 'only-trusted', interstitials: 'all',
    actions: 'all' }] *)
Definition websitesOnlyTrusted : NormalizedObserverOptions :=
  normalizeOptions
    (mkOptions (Some (PerCategory (mkLevels only_trusted all all)))).

Definition defaultOptions : NormalizedObserverOptions :=
  normalizeOptions DEFAULT_OPTIONS.

(** A cast: [div#root > div > div.relative > a]. *)
Definition castPage : Document :=
  [ el "div" [("id", "root")] None [1]                          (* 0 *)
  ; el "div" [] (Some 0) [2]                                    (* 1 *)
  ; el "div" [("class", "relative")] (Some 1) [3]               (* 2 *)
  ; el "a" [("href", "https://example.com/x")] (Some 2) [] ].   (* 3 *)

(** A cast without any link: [div#root > div > div.min-w-0.fade-in > span]. *)
Definition plainCastPage : Document :=
  [ el "div" [("id", "root")] None [1]                          (* 0 *)
  ; el "div" [] (Some 0) [2]                                    (* 1 *)
  ; el "div" [("class", "min-w-0 fade-in")] (Some 1) [3]        (* 2 *)
  ; el "span" [] (Some 2) [] ].                                 (* 3 *)

(** A tweet with a link-preview card and a bookmark button:
    [div#react-root > div(cell) > article(tweet) > (div > card > div > a),
     (div(group) > div > button(bookmark))]. *)
Definition cardPage : Document :=
  [ el "div" [("id", "react-root")] None [1]                    (* 0 *)
  ; el "div" [("data-testid", "cellInnerDiv")] (Some 0) [2]     (* 1 *)
  ; el "article" [("data-testid", "tweet")] (Some 1) [3; 7]     (* 2 *)
  ; el "div" [] (Some 2) [4]                                    (* 3 *)
  ; el "div" [("data-testid", "card.wrapper")] (Some 3) [5]     (* 4 *)
  ; el "div" [] (Some 4) [6]                                    (* 5 *)
  ; el "a" [("href", "https://t.co/abc")] (Some 5) []           (* 6 *)
  ; el "div" [("role", "group")] (Some 2) [8]                   (* 7 *)
  ; el "div" [] (Some 7) [9]                                    (* 8 *)
  ; el "button" [("data-testid", "bookmark")] (Some 8) [] ].    (* 9 *)

(** The same tweet after an earlier mount left a wrapper in it. *)
Definition cardPageWithWrapper : Document :=
  [ el "div" [("id", "react-root")] None [1]                    (* 0 *)
  ; el "div" [("data-testid", "cellInnerDiv")] (Some 0) [2]     (* 1 *)
  ; el "article" [("data-testid", "tweet")] (Some 1) [3; 7; 10] (* 2 *)
  ; el "div" [] (Some 2) [4]                                    (* 3 *)
  ; el "div" [("data-testid", "card.wrapper")] (Some 3) [5]     (* 4 *)
  ; el "div" [] (Some 4) [6]                                    (* 5 *)
  ; el "a" [("href", "https://t.co/abc")] (Some 5) []           (* 6 *)
  ; el "div" [("role", "group")] (Some 2) [8]                   (* 7 *)
  ; el "div" [] (Some 7) [9]                                    (* 8 *)
  ; el "button" [("data-testid", "bookmark")] (Some 8) []       (* 9 *)
  ; el "div" [("class", "dialect-wrapper")] (Some 2) [11]       (* 10 *)
  ; el "div" [("class", "dialect-action-root-container")] (Some 10) [] ].

(** A tweet whose text holds a link; the inserted element (3) lies inside
    the tweet: [article(tweet) > div > div > div(tweetText) > text, a]. *)
Definition textPage : Document :=
  [ el "div" [("id", "react-root")] None [1]                    (* 0 *)
  ; el "div" [("data-testid", "cellInnerDiv")] (Some 0) [2]     (* 1 *)
  ; el "article" [("data-testid", "tweet")] (Some 1) [3]        (* 2 *)
  ; el "div" [] (Some 2) [4]                                    (* 3 *)
  ; el "div" [] (Some 3) [5]                                    (* 4 *)
  ; el "div" [("data-testid", "tweetText")] (Some 4) [6; 7]     (* 5 *)
  ; txt (Some 5)                                                (* 6 *)
  ; el "a" [("href", "https://t.co/abc")] (Some 5) [] ].        (* 7 *)

(** A batch target: a text node and a div inserted under the root. *)
Definition batchPage : Document :=
  [ el "div" [("id", "root")] None [1; 2]                       (* 0 *)
  ; txt (Some 0)                                                (* 1 *)
  ; el "div" [("class", "relative")] (Some 0) [3]               (* 2 *)
  ; el "a" [("href", "https://example.com/x")] (Some 2) [] ].   (* 3 *)

Definition initial (d : Document) : System := mkSystem (mkWorld d []) [].

(** Whether the promise of [init()] is fulfilled somewhere in a run. *)
Definition initFulfilled (events : list PageEvent) : bool :=
  existsb (fun e => match e with InitSettles true => true | _ => false end)
          events.

(** Whether the promise of [init()] settles at all in a run. *)
Definition initSettled (events : list PageEvent) : bool :=
  existsb (fun e => match e with InitSettles _ => true | _ => false end)
          events.

(* ===================================================================== *)
(** ** Predicates used to state and prove the properties *)
(* ===================================================================== *)

(** Before [init()] is fulfilled nothing has been touched. *)
Definition dormant (w : World) (p : Page) : Prop :=
  observing p = false /\ system p = mkSystem w [] /\
  registryInit p <> Some PromiseFulfilled.

(** While the promise of [init()] is pending the [then] callback is still
    to run. *)
Definition waiting (w : World) (r : NodeId) (p : Page) : Prop :=
  root p = Some r /\ registryInit p = Some PromisePending /\
  observing p = false /\ system p = mkSystem w [].

(** Every node of [d] is still in [d'], related by [R]: what a node keeps
    while the store is written. *)
Definition evolves (R : Node -> Node -> Prop) (d d' : Document) : Prop :=
  forall n nd, d !! n = Some nd -> exists nd', d' !! n = Some nd' /\ R nd nd'.

(** Lifted to computations. *)
Definition Evolves (R : Node -> Node -> Prop) {A} (m : M A) : Prop :=
  forall w, evolves R (dom w) (dom (snd (m w))).

(** A node keeps its inline style. *)
Definition keeps_style (nd nd' : Node) : Prop := style nd' = style nd.

(** A node keeps its attributes. *)
Definition keeps_attributes (nd nd' : Node) : Prop :=
  attributes nd' = attributes nd.

(** A node keeps the attributes it has, possibly with other values. *)
Definition keeps_attribute_names (nd nd' : Node) : Prop :=
  forall k, assoc k (attributes nd) <> None -> assoc k (attributes nd') <> None.

(** The relations [R] the frame lemmas work with: preorders that every
    write of the tree links and of [innerHTML] respects. *)
Class Frame (R : Node -> Node -> Prop) : Prop := {
  frame_refl : forall x, R x x;
  frame_trans : forall x y z, R x y -> R y z -> R x z;
  frame_parentNode : forall p x, R x (set_parentNode p x);
  frame_childNodes : forall f x, R x (set_childNodes f x);
  frame_innerHTML : forall s x, R x (set_innerHTML s x);
}.

(** [R] is respected by attribute writes. *)
Class AttributeFrame (R : Node -> Node -> Prop) : Prop :=
  attribute_frame : forall k v x, R x (set_attributes (set_assoc k v) x).

(** [R] is respected by style writes. *)
Class StyleFrame (R : Node -> Node -> Prop) : Prop :=
  style_frame : forall k v x, R x (set_style (set_assoc k v) x).

(** The log of a computation grows by events satisfying [P]. *)
Definition Logs (P : Effect -> Prop) {A} (m : M A) : Prop :=
  forall w, exists l, log (snd (m w)) = log w ++ l /\ Forall P l.

Definition notDropdown (e : Effect) : Prop :=
  match e with DropdownInserted _ _ => False | _ => True end.

Definition noEffect (e : Effect) : Prop := False.

(** [f] applied to the node found, when the write targets it. *)
Definition at_node (target m : NodeId) (f : Node -> Node) (x : option Node)
  : option Node :=
  if decide (target = m) then f <$> x else x.

(** The settlements that carry a Twitter dispatch from the resolution of
    the shortened URL to the answer of [isSupported]. *)
Definition settlements (task : nat) (action : Action) (supported : bool)
  : list Step :=
  [ Settle task (ResolvedUrl exampleUrl); Settle task (ResolvedJson "{}");
    Settle task (ResolvedAction action);
    Settle task (ResolvedSupported supported) ].

(** The detached tree [Twitter.dropdownTree] builds, as the block of nodes
    it adds to a store of [N] nodes: the container, the icon, the button,
    the list and its four options. *)
Definition dropdownBlock (N : nat) : list Node :=
  [ mkNode ELEMENT_NODE "div"
      [("class", "dialect-dropdown-container")]
      [("display", "inline-flex"); ("alignItems", "center");
       ("marginLeft", "8px"); ("position", "relative")]
      EmptyString None [N + 2]
  ; mkNode ELEMENT_NODE "svg"
      [("viewBox", "0 0 24 24"); ("width", "18"); ("height", "18")]
      [("fill", "currentColor")]
      Twitter.svgMarkup (Some (N + 2)) []
  ; mkNode ELEMENT_NODE "div"
      [("class", "dialect-custom-dropdown")]
      [("display", "inline-flex"); ("alignItems", "center");
       ("cursor", "pointer"); ("padding", "6px"); ("borderRadius", "50%");
       ("transition", "background-color 0.2s")]
      EmptyString (Some N) [N + 1; N + 3]
  ; mkNode ELEMENT_NODE "div"
      [("class", "dialect-options-container")]
      [("display", "none"); ("position", "absolute"); ("bottom", "100%");
       ("right", "0"); ("backgroundColor", "blue");
       ("border", "1px solid #ccc"); ("borderRadius", "4px");
       ("boxShadow", "0 -2px 10px rgba(0,0,0,0.1)"); ("zIndex", "1000");
       ("marginBottom", "10px"); ("minWidth", "200px");
       ("maxHeight", "300px"); ("overflowY", "auto"); ("overflowX", "hidden")]
      EmptyString (Some (N + 2)) [N + 4; N + 5; N + 6; N + 7] ]
  ++ map (fun o =>
            mkNode ELEMENT_NODE "div" []
              [("padding", "12px"); ("borderBottom", "1px solid #eee");
               ("cursor", "pointer"); ("transition", "background-color 0.2s")]
              (Twitter.optionMarkup o) (Some (N + 3)) [])
         Twitter.dropdownOptions.

(** The dropdowns appended to [likeButton] according to a log. *)
Definition isDropdownFor (likeButton : NodeId) (e : Effect) : bool :=
  match e with
  | DropdownInserted lb _ => Nat.eqb lb likeButton
  | _ => false
  end.

Definition dropdownCount (likeButton : NodeId) (l : list Effect) : nat :=
  length (List.filter (isDropdownFor likeButton) l).

(** A node keeps its kind and name. *)
Definition keeps_kind (nd nd' : Node) : Prop :=
  nodeType nd' = nodeType nd /\ localName nd' = localName nd.

(** The store the Twitter dispatch leaves after lines 118-122 when it finds
    the bookmark button's parent [likeButton] unmarked. *)
Definition withDropdown (likeButton : NodeId) (d : Document) : Document :=
  let marked := setAttribute likeButton "data-dialect-processed" "true" d in
  let dropdown := length d in
  append likeButton dropdown
    (Twitter.insertAfter likeButton dropdown (marked ++ dropdownBlock dropdown)).

(** At most one dropdown was appended to any element, and an element that
    received one is marked as processed. *)
Definition dropdownInvariant (w : World) : Prop :=
  forall likeButton,
    dropdownCount likeButton (log w) <= 1 /\
    (dropdownCount likeButton (log w) = 1 ->
     hasAttribute (dom w) likeButton "data-dialect-processed" = true).

(** [rooted_fuel d f n]: following [parentNode] from [n] ends at a node
    without parent after fewer than [f] steps. *)
Fixpoint rooted_fuel (d : Document) (fuel : nat) (n : NodeId) : bool :=
  match fuel with
  | 0 => false
  | S fuel' =>
      match parentNodeOf d n with
      | Some p => rooted_fuel d fuel' p
      | None => true
      end
  end.

(** Every node of the store hangs under a root: the parent links have no
    cycle. *)
Definition forest (d : Document) : bool :=
  forallb (rooted_fuel d (length d)) (seq 0 (length d)).

(** The nodes [k] child links below [n]. *)
Fixpoint level (d : Document) (n : NodeId) (k : nat) : list NodeId :=
  match k with
  | 0 => [n]
  | S k' => flat_map (childNodesOf d) (level d n k')
  end.

(* ===================================================================== *)
(** ** Further notions used for the properties of the whole pipeline *)
(* ===================================================================== *)

Definition isGate (e : Effect) : bool :=
  match e with Gate _ _ _ _ => true | _ => false end.

(** The log without the records of the [checkSecurity] calls. *)
Definition withoutGates (l : list Effect) : list Effect :=
  List.filter (fun e => negb (isGate e)) l.

(** Two effects are the same, but for the [securityLevel] a render hands
    to the component. *)
Definition sameButLevel (e e' : Effect) : Prop :=
  match e, e' with
  | Rendered root action url text cb _, Rendered root' action' url' text' cb' _ =>
      root = root' /\ action = action' /\ url = url' /\ text = text' /\
      cb = cb'
  | _, _ => e = e'
  end.

(** Two results of a computation agree on the outcome, on the store and,
    one by one, on every effect but the records of the [checkSecurity]
    calls; the renders may differ in the [securityLevel] they pass. *)
Definition agree (x y : Outcome * World) : Prop :=
  fst x = fst y /\ dom (snd x) = dom (snd y) /\
  Forall2 sameButLevel (withoutGates (log (snd x)))
                       (withoutGates (log (snd y))).

(** The same collaborators with other trust oracles for websites and
    interstitials. *)
Definition withTrust (c : Collaborators)
    (interstitialState websiteState : string -> ExtendedActionState)
  : Collaborators :=
  mkCollaborators (parseURL c) (isInterstitial c) interstitialState websiteState
                  (getExtendedActionState c) (proxify c) (mapUrl c)
                  (hasIsSupported c) (callbacks c) (resolveURL c).

(** The longest prefix of [l] whose elements satisfy [f]. *)
Fixpoint takeWhile {A} (f : A -> bool) (l : list A) : list A :=
  match l with
  | [] => []
  | x :: l' => if f x then x :: takeWhile f l' else []
  end.

(** The page can no longer start observing: nothing was attached or
    dispatched, and the root is missing or [init()] is no longer pending. *)
Definition idle (w : World) (p : Page) : Prop :=
  observing p = false /\ system p = mkSystem w [] /\
  (root p = None \/ registryInit p = None \/
   registryInit p = Some PromiseRejected).

(** How many elements of [l] satisfy [f]. *)
Definition countIf {A} (f : A -> bool) (l : list A) : nat :=
  length (List.filter f l).

(** An upper bound on the settlements a dispatch still waits for: the
    [await]s of [handleNewNode] come in a fixed order. *)
Definition stage (out : Outcome) : nat :=
  match out with
  | Finished => 0
  | Suspended (AwaitSupported _ _ _) => 1
  | Suspended (AwaitAction _ _ _) => 2
  | Suspended (AwaitActionsJson _ _) => 3
  | Suspended (AwaitShortenedUrl _) => 4
  end.

Definition isSettleOf (task : nat) (st : Step) : bool :=
  match st with
  | Settle t _ => Nat.eqb t task
  | Dispatch _ => false
  end.

Definition isDispatch (st : Step) : bool :=
  match st with
  | Dispatch _ => true
  | Settle _ _ => false
  end.

Definition isRendered (e : Effect) : bool :=
  match e with Rendered _ _ _ _ _ _ => true | _ => false end.

Definition notRendered (e : Effect) : Prop :=
  match e with Rendered _ _ _ _ _ _ => False | _ => True end.

Definition isSuspended (t : NodeId * Outcome) : bool :=
  match snd t with Suspended _ => true | Finished => false end.

(** The store grew from [s] to [s'] and the nodes of [s] kept their kind. *)
Definition sameKinds (s s' : System) : Prop :=
  forall n, n < length (dom (world s)) ->
    n < length (dom (world s')) /\
    isElement (dom (world s')) n = isElement (dom (world s)) n.

(** What the renders so far and the dispatches in flight add up to. *)
Definition accounted (s : System) : nat :=
  countIf isRendered (log (world s)) + countIf isSuspended (tasks s).

(** The mount point a suspended dispatch carries. *)
Definition containerOf (p : Pending) : NodeId :=
  match p with
  | AwaitShortenedUrl container => container
  | AwaitActionsJson container _ => container
  | AwaitAction container _ _ => container
  | AwaitSupported container _ _ => container
  end.

(** The shape both [getContainerForLink] share; they differ in the
    selector of the direct-message test. *)
Definition getContainerForLinkBy (dmSelector : Selector) (text : NodeId)
  : M NodeId :=
  root <- create "div" ;;
  write (setClassName root "dialect-wrapper") ;;;
  dm <- read (fun d => closest d text dmSelector) ;;
  match dm with
  | Some _ =>
      write (classList_add root "dialect-dm") ;;;
      grand <- read (fun d => match parentElement d text with
                              | Some p => parentElement d p
                              | None => None
                              end) ;;
      match grand with
      | Some g => write (prepend g root)
      | None => ret tt
      end
  | None =>
      parent <- read (fun d => parentElement d text) ;;
      match parent with
      | Some p => write (append p root)
      | None => ret tt
      end
  end ;;;
  ret root.

(** Where the wrapper goes: under the grandparent of the text in a direct
    message, under its parent otherwise. *)
Definition wrapperParent (d : Document) (text : NodeId) (dm : bool)
  : option NodeId :=
  if dm
  then match parentElement d text with
       | Some p => parentElement d p
       | None => None
       end
  else parentElement d text.

Definition wrapperClass (dm : bool) : string :=
  if dm then "dialect-wrapper dialect-dm" else "dialect-wrapper".

Definition wrapperNode (dm : bool) (parent : option NodeId) : Node :=
  mkNode ELEMENT_NODE "div" [("class", wrapperClass dm)] [] EmptyString parent [].

(** The store with the wrapper added as a new node: first child of
    [target] in a direct message, last child otherwise. *)
Definition withWrapper (d : Document) (target : option NodeId) (dm : bool)
  : Document :=
  match target with
  | Some t =>
      alter (set_childNodes
               (fun l => if dm then length d :: l else l ++ [length d])) t d
      ++ [wrapperNode dm (Some t)]
  | None => d ++ [wrapperNode dm None]
  end.

(** Whether [element.closest(sel)] finds something. *)
Definition hasClosest (d : Document) (n : NodeId) (sel : Selector) : bool :=
  match closest d n sel with Some _ => true | None => false end.

(** What [getContainerForLink] does to the store [d]: one node is added,
    an empty [div] with the wrapper's class, linked below [target] (first
    child in a direct message, last child otherwise); the nodes of the
    page stay as they are, the child list of [target] apart. *)
Definition wrapperAdded (d d' : Document) (target : option NodeId) (dm : bool)
  : Prop :=
  let root := length d in
  length d' = S root /\
  isElement d' root = true /\
  localNameOf d' root = "div" /\
  className d' root = wrapperClass dm /\
  childNodesOf d' root = [] /\
  parentNodeOf d' root = target /\
  (forall t, target = Some t ->
     childNodesOf d' t = if dm then root :: childNodesOf d t
                         else childNodesOf d t ++ [root]) /\
  (forall m, target <> Some m -> childNodesOf d' m = childNodesOf d m) /\
  (forall m nd, d !! m = Some nd ->
     d' !! m = Some (set_childNodes (fun _ => childNodesOf d' m) nd)).

(** The awaits a Farcaster dispatch can reach first: the fetch of the
    manifest or, for an interstitial, the fetch of the action.  It does
    not resolve shortened URLs. *)
Definition farcasterAwait (p : Pending) : bool :=
  match p with
  | AwaitActionsJson _ _ | AwaitAction _ _ _ => true
  | AwaitShortenedUrl _ | AwaitSupported _ _ _ => false
  end.

(** What an event does to the dispatches once the observer is attached. *)
Definition deliver (handleNewNode : NodeId -> M Outcome)
    (resume : Pending -> Response -> M Outcome) (s : System) (e : PageEvent)
  : System :=
  match e with
  | InitSettles _ => s
  | MutationsObserved records => observerCallback handleNewNode records s
  | PromiseSettles task r => settle resume task r s
  end.

Definition isActionFetch (e : Effect) : bool :=
  match e with ActionFetch _ => true | _ => false end.

Definition isSupportedCall (e : Effect) : bool :=
  match e with SupportedCall _ _ _ => true | _ => false end.

(** The dispatch has issued [Action.fetch] and has not returned. *)
Definition afterFetch (out : Outcome) : bool :=
  match out with
  | Suspended (AwaitAction _ _ _) => true
  | Suspended (AwaitSupported _ _ _) => true
  | _ => false
  end.

(** The dispatch waits for the answer of [isSupported]. *)
Definition atSupported (out : Outcome) : bool :=
  match out with
  | Suspended (AwaitSupported _ _ _) => true
  | _ => false
  end.

(** The renders so far and the dispatches that may still render are
    covered by the effects [credit] counts. *)
Definition covered (credit : Effect -> bool) (owed : Outcome -> bool)
    (s : System) : Prop :=
  countIf isRendered (log (world s)) + countIf (fun t => owed (snd t)) (tasks s)
  <= countIf credit (log (world s)).

(** One step of a computation keeps the cover: what it renders and what it
    leaves owed is paid by what it was owed and the credit it logs. *)
Definition pays (credit : Effect -> bool) (owed : Outcome -> bool)
    (before : Outcome) (m : M Outcome) : Prop :=
  forall w,
    countIf isRendered (log (snd (m w)))
    + (if owed (fst (m w)) then 1 else 0) + countIf credit (log w)
    <= countIf isRendered (log w)
       + (if owed before then 1 else 0) + countIf credit (log (snd (m w))).

(* ===================================================================== *)
(** ** The listeners of [createDropdown] (part_002 lines 264-388)

    [createDropdown] registers listeners on the nodes it creates and one
    on the document.  They run later, when the browser dispatches an
    event: along the path from the target to the document, the listeners
    of each node in turn, until one has stopped the propagation. *)
(* ===================================================================== *)
From Stdlib Require Import ZArith.

Module Events.

Inductive EventType : Type :=
| Click
| MouseEnter
| MouseLeave
| Wheel
| TouchStart
| TouchMove.

(** The fields of an event the listeners read. *)
Record Event : Type := mkEvent {
  eventType : EventType;
  target : NodeId;
  deltaY : Z;           (* event.deltaY, of a wheel event *)
  clientY : Z;          (* event.touches[0].clientY, of a touch event *)
}.

(** [{ scrollTop, scrollHeight, clientHeight }] of an options container,
    as the layout has them when the listener runs. *)
Record Layout : Type := mkLayout {
  scrollTop : Z;
  scrollHeight : Z;
  clientHeight : Z;
}.

(** What one call of [createDropdown] leaves to its listeners: the nodes
    they close over, given by the first of them, and [touchStartY]. *)
Record Closure : Type := mkClosure {
  dropdownContainer : NodeId;
  touchStartY : Z;
}.

(** The nodes of one dropdown, in the order [createDropdown] creates them
    (see [dropdownBlock]). *)
Definition svgIcon (cl : Closure) : NodeId := dropdownContainer cl + 1.
Definition customDropdown (cl : Closure) : NodeId := dropdownContainer cl + 2.
Definition optionsContainer (cl : Closure) : NodeId := dropdownContainer cl + 3.
Definition isOption (cl : Closure) (n : NodeId) : bool :=
  Nat.leb (dropdownContainer cl + 4) n
  && Nat.ltb n (dropdownContainer cl + 4 + length Twitter.dropdownOptions).

Record Flags : Type := mkFlags {
  propagationStopped : bool;    (* event.stopPropagation() was called *)
  defaultPrevented : bool;      (* event.preventDefault() was called *)
}.

Definition stopPropagation (fl : Flags) : Flags :=
  mkFlags true (defaultPrevented fl).
Definition preventDefault (fl : Flags) : Flags :=
  mkFlags (propagationStopped fl) true.

(** [optionsContainer.style.display === 'none'] *)
Definition displayIsNone (d : Document) (n : NodeId) : bool :=
  match styleOf d n "display" with
  | Some v => String.eqb v "none"
  | None => false
  end.

(** The test of lines 270-273 and 298-301: the list is scrolled to its top
    and the gesture goes further up, or to its bottom and the gesture goes
    further down. *)
Definition atEdge (l : Layout) (up down : bool) : bool :=
  (Z.eqb (scrollTop l) 0 && up)
  || (Z.eqb (scrollTop l + clientHeight l) (scrollHeight l) && down).

(** The listeners one call of [createDropdown] has registered on node [n],
    run on the event [e]. *)
Definition listen (layout : Layout) (e : Event) (n : NodeId) (cl : Closure)
    (d : Document) (fl : Flags) : Document * Closure * Flags :=
  match eventType e with
  | Click =>
      if isOption cl n then                                 (* lines 360-364 *)
        (setStyle (optionsContainer cl) "display" "none" d, cl,
         stopPropagation fl)
      else if Nat.eqb n (customDropdown cl) then            (* lines 372-376 *)
        (setStyle (optionsContainer cl) "display"
                  (if displayIsNone d (optionsContainer cl)
                   then "block" else "none") d,
         cl, stopPropagation fl)
      else (d, cl, fl)
  | MouseEnter =>
      if isOption cl n then                                 (* lines 352-354 *)
        (setStyle n "backgroundColor" "#f0f0f0" d, cl, fl)
      else if Nat.eqb n (customDropdown cl) then            (* lines 378-380 *)
        (setStyle n "backgroundColor" "rgba(29, 155, 240, 0.1)" d, cl, fl)
      else (d, cl, fl)
  | MouseLeave =>
      if isOption cl n then                                 (* lines 356-358 *)
        (setStyle n "backgroundColor" "transparent" d, cl, fl)
      else if Nat.eqb n (customDropdown cl) then            (* lines 382-384 *)
        (setStyle n "backgroundColor" "transparent" d, cl, fl)
      else (d, cl, fl)
  | Wheel =>
      if Nat.eqb n (optionsContainer cl) then               (* lines 265-278 *)
        let fl1 := stopPropagation fl in
        (d, cl,
         if atEdge layout (Z.ltb (deltaY e) 0) (Z.ltb 0 (deltaY e))
         then preventDefault fl1 else fl1)
      else (d, cl, fl)
  | TouchStart =>
      if Nat.eqb n (optionsContainer cl) then               (* lines 282-288 *)
        (d, mkClosure (dropdownContainer cl) (clientY e), fl)
      else (d, cl, fl)
  | TouchMove =>
      if Nat.eqb n (optionsContainer cl) then               (* lines 290-307 *)
        if Z.eqb (touchStartY cl) 0 then (d, cl, fl)        (* !touchStartY *)
        else
          let fl1 :=
            if atEdge layout (Z.ltb (touchStartY cl) (clientY e))
                             (Z.ltb (clientY e) (touchStartY cl))
            then preventDefault fl else fl in
          (d, cl, stopPropagation fl1)
      else (d, cl, fl)
  end.

(** The listeners of every dropdown on node [n], in the order of their
    registration. *)
Fixpoint listenAt (layout : NodeId -> Layout) (e : Event) (n : NodeId)
    (cls : list Closure) (d : Document) (fl : Flags)
  : Document * list Closure * Flags :=
  match cls with
  | [] => (d, [], fl)
  | cl :: rest =>
      let '(d1, cl1, fl1) := listen (layout (optionsContainer cl)) e n cl d fl in
      let '(d2, rest2, fl2) := listenAt layout e n rest d1 fl1 in
      (d2, cl1 :: rest2, fl2)
  end.

(** The listeners on [document] (lines 386-388), one per dropdown. *)
Definition documentClick (cls : list Closure) (d : Document) : Document :=
  fold_left (fun d' cl => setStyle (optionsContainer cl) "display" "none" d')
            cls d.

(** The listener of a render root.  [createRoot(container)] makes React
    listen on [container]; a click inside what React rendered there
    bubbles to [container], where React runs the [onClick] of the [div]
    around the component (part_001 line 249, part_002 line 419), and that
    handler calls [stopPropagation] on the event.  No other event has a
    handler there. *)
Definition reactListener (e : Event) (n : NodeId) (rts : list NodeId)
    (fl : Flags) : Flags :=
  match eventType e with
  | Click => if existsb (Nat.eqb n) rts then stopPropagation fl else fl
  | _ => fl
  end.

(** The page, the closures of the dropdowns created so far and the render
    roots, the nodes [createRoot] was called on. *)
Record Ui : Type := mkUi {
  page : Document;
  closures : list Closure;
  roots : list NodeId;
}.

Fixpoint ancestors_fuel (d : Document) (fuel : nat) (n : NodeId)
  : list NodeId :=
  match fuel with
  | 0 => []
  | S fuel' =>
      match parentNodeOf d n with
      | Some p => p :: ancestors_fuel d fuel' p
      | None => []
      end
  end.

(** [mouseenter] and [mouseleave] do not bubble. *)
Definition bubbles (ty : EventType) : bool :=
  match ty with
  | MouseEnter | MouseLeave => false
  | _ => true
  end.

(** The nodes an event visits, from its target upwards; the events are
    those of user input, whose target is in the page, so that the
    document comes after the last node.  What React rendered into a render
    root is not in the store: an event on it is given by the render root
    as its target. *)
Definition eventPath (d : Document) (e : Event) : list NodeId :=
  target e ::
  (if bubbles (eventType e) then ancestors_fuel d (length d) (target e)
   else []).

Fixpoint propagate (layout : NodeId -> Layout) (e : Event)
    (path : list NodeId) (ui : Ui) (fl : Flags) : Ui * Flags :=
  match path with
  | [] =>
      (match eventType e with
       | Click => mkUi (documentClick (closures ui) (page ui)) (closures ui)
                       (roots ui)
       | _ => ui
       end, fl)
  | n :: rest =>
      let '(d1, cls1, fl1) := listenAt layout e n (closures ui) (page ui) fl in
      let fl2 := reactListener e n (roots ui) fl1 in
      if propagationStopped fl2 then (mkUi d1 cls1 (roots ui), fl2)
      else propagate layout e rest (mkUi d1 cls1 (roots ui)) fl2
  end.

(** The browser dispatches [e]. *)
Definition dispatchEvent (layout : NodeId -> Layout) (e : Event) (ui : Ui)
  : Ui * Flags :=
  propagate layout e (eventPath (page ui) e) ui (mkFlags false false).

(** The closures a log of effects stands for: [createDropdown] has run
    once for every dropdown inserted, with [touchStartY = 0]. *)
Definition register (cls : list Closure) (e : Effect) : list Closure :=
  match e with
  | DropdownInserted _ dropdown => cls ++ [mkClosure dropdown 0]
  | _ => cls
  end.

Definition closuresOf (l : list Effect) : list Closure :=
  fold_left register l [].

(** The render roots a log of effects stands for, in the order of the
    renders. *)
Definition rootsOf (l : list Effect) : list NodeId :=
  flat_map (fun e => match e with
                     | Rendered root _ _ _ _ _ => [root]
                     | _ => []
                     end) l.

(** The links inside the dropdown whose first node is [N]. *)
Definition wired (d : Document) (N : NodeId) : Prop :=
  N + 7 < length d /\
  parentNodeOf d (N + 1) = Some (N + 2) /\
  parentNodeOf d (N + 2) = Some N /\
  parentNodeOf d (N + 3) = Some (N + 2) /\
  (forall n, N + 4 <= n < N + 8 -> parentNodeOf d n = Some (N + 3)).

(** The nodes of another dropdown lie apart from those of the one at [N]. *)
Definition apart (N : NodeId) (cl : Closure) : Prop :=
  dropdownContainer cl + 8 <= N \/ N + 8 <= dropdownContainer cl.

(** The display of a list is one of the two values the listeners assign. *)
Definition blockOrNone (v : option string) : Prop :=
  v = Some "none" \/ v = Some "block".

(** A node differs in its inline style only. *)
Definition restyled (nd nd' : Node) : Prop :=
  nd' = set_style (fun _ => style nd') nd.

(** All that listeners do to a page whose dropdown lists are [lists]:
    every node is still there and differs in its inline style at most,
    there in [display] and [backgroundColor] at most, and [display]
    changes on a dropdown list only, to [none] or to [block]. *)
Definition listenersOnly (lists : list NodeId) (d d' : Document) : Prop :=
  length d' = length d /\
  forall n nd, d !! n = Some nd ->
    exists nd', d' !! n = Some nd' /\ restyled nd nd' /\
      (forall prop, prop <> "display" -> prop <> "backgroundColor" ->
         assoc prop (style nd') = assoc prop (style nd)) /\
      (assoc "display" (style nd') = assoc "display" (style nd) \/
       (In n lists /\ blockOrNone (assoc "display" (style nd')))).

(** Every list is shown as a block or hidden. *)
Definition listsBlockOrNone (ui : Ui) : Prop :=
  Forall (fun cl => blockOrNone (styleOf (page ui) (optionsContainer cl) "display"))
         (closures ui).

(** A sequence of events, each with the layout at its time. *)
Definition dispatchEvents (events : list ((NodeId -> Layout) * Event))
    (ui : Ui) : Ui :=
  fold_left (fun ui' le => fst (dispatchEvent (fst le) (snd le) ui')) events ui.
End Events.

(** No node on the path of the event carries a click listener. *)
Definition missesEveryDropdown (cls : list Events.Closure) (path : list NodeId)
  : Prop :=
  Forall (fun n =>
            Forall (fun cl => Events.isOption cl n = false /\
                              n <> Events.customDropdown cl) cls) path.

(** No node on the path is a render root: the event is not inside a
    mounted action. *)
Definition missesEveryRoot (roots : list NodeId) (path : list NodeId) : Prop :=
  Forall (fun n => ~ In n roots) path.

(** No node on the path is the list of one of the dropdowns. *)
Definition missesEveryList (cls : list Events.Closure) (path : list NodeId)
  : Prop :=
  Forall (fun n => Forall (fun cl => n <> Events.optionsContainer cl) cls) path.

(** The card page after the dropdown was appended to the parent (node 8) of
    its bookmark button: the dropdown occupies the nodes 10 to 17. *)
Definition cardPageWithDropdown : Document := withDropdown 8 cardPage.

(** The same page after an action was mounted over the card, with the list
    of the dropdown open: the render root is node 18, the only child of
    node 3. *)
Definition cardPageMounted : Document :=
  dom (snd (mount (collaborators trusted) defaultOptions 3 exampleUrl "action"
                  (mkWorld (setStyle 13 "display" "block" cardPageWithDropdown)
                           []))).

(** A layout in which no list can scroll. *)
Definition flat : NodeId -> Events.Layout :=
  fun _ => Events.mkLayout 0 0 0.

(* ===================================================================== *)
(** ** The React dropdown (part_000)

    The component as a state machine: its state is [isOpen]; an event
    runs a handler and the component renders again before the next one.
    What the handlers do besides setting the state is logged. *)
(* ===================================================================== *)
Module Dropdown.

Inductive Verified : Type := Yes | No.

(** [interface DropdownOption] (lines 3-8) *)
Record DropdownOption : Type := mkDropdownOption {
  name : string;
  description : string;
  verified : Verified;
  act : string;
}.

(** [interface DropdownProps] (lines 27-30); [onSelect] is optional and
    only called, so that it is known by whether it is given. *)
Record Props : Type := mkProps {
  options : list DropdownOption;
  onSelect : bool;
}.

Inductive Effect : Type :=
| ConsoleLog (option : DropdownOption)   (* console.log('Selected option:', option) *)
| OnSelect (option : DropdownOption).    (* onSelect(option) *)

Record State : Type := mkState {
  isOpen : bool;             (* useState<boolean>(false) *)
  mounted : bool;            (* between the effect of useEffect and its cleanup *)
  effects : list Effect;
}.

Inductive Event : Type :=
| ButtonClick                (* a click on the button *)
| OptionClick (index : nat)  (* a click on the option at [index] of the list *)
| MouseDown (inside : bool)  (* mousedown on the document; whether
                                dropdownRef.current.contains(event.target) *)
| Scroll                     (* wheel or touchmove on the list *)
| Unmount.

(** The component after its first render and the effect of [useEffect]. *)
Definition initial : State := mkState false true [].

(** The options the render shows: [{isOpen && options.map(...)}]
    (lines 73-83). *)
Definition rendered (props : Props) (st : State) : list DropdownOption :=
  if isOpen st then options props else [].

(** [handleSelect] (lines 36-42) *)
Definition handleSelect (props : Props) (option : DropdownOption) (st : State)
  : State :=
  mkState false (mounted st)
          (effects st ++ ConsoleLog option ::
                         (if onSelect props then [OnSelect option] else [])).

(** [handleClickOutside] (lines 45-49); the ref is set while the component
    is mounted. *)
Definition handleClickOutside (inside : bool) (st : State) : State :=
  if negb inside then mkState false (mounted st) (effects st) else st.

Definition step (props : Props) (st : State) (e : Event) : State :=
  if negb (mounted st) then st
  else
    match e with
    | ButtonClick =>                                   (* line 64 *)
        mkState (negb (isOpen st)) (mounted st) (effects st)
    | OptionClick index =>                             (* lines 18, 80 *)
        match nth_error (rendered props st) index with
        | Some option => handleSelect props option st
        | None => st                                   (* no such element *)
        end
    | MouseDown inside => handleClickOutside inside st
    | Scroll => st                                     (* lines 57-59 *)
    | Unmount => mkState (isOpen st) false (effects st)  (* lines 52-54 *)
    end.

Definition run (props : Props) (events : list Event) : State :=
  fold_left (step props) events initial.

Definition isButtonClick (e : Event) : bool :=
  match e with ButtonClick => true | _ => false end.

Definition isOnSelect (e : Effect) : bool :=
  match e with OnSelect _ => true | ConsoleLog _ => false end.

(** What selecting the options [selected], one after the other, logs. *)
Definition selections (props : Props) (selected : list DropdownOption)
  : list Effect :=
  flat_map (fun option =>
              ConsoleLog option ::
              (if onSelect props then [OnSelect option] else []))
           selected.
End Dropdown.

(** The options of [createDropdown], as props of the React dropdown. *)
Definition exampleProps : Dropdown.Props :=
  Dropdown.mkProps
    [ Dropdown.mkDropdownOption "Access Protocol" "gate your content"
                                Dropdown.Yes "access-protocol.dial.to"
    ; Dropdown.mkDropdownOption "Arkenstone Suite"
                                "developing a token presale Suite"
                                Dropdown.No "arkenstone.gold" ]
    true.

(** Every call of [Action.fetch] in the log comes straight after a call of
    [checkSecurity] that passed, made at the configured level for actions
    on the trust state of the URL that is fetched. *)
Definition fetchesGuarded (c : Collaborators) (options : NormalizedObserverOptions)
    (l : list Effect) : Prop :=
  forall pre api post,
    l = pre ++ ActionFetch api :: post ->
    exists pre',
      pre = pre' ++ [Gate Actions (getExtendedActionState c api)
                          (actions (n_securityLevel options)) true].

(** The log of a computation grows by a segment satisfying [Q]. *)
Definition Appends (Q : list Effect -> Prop) {A} (m : M A) : Prop :=
  forall w, exists l, log (snd (m w)) = log w ++ l /\ Q l.

Definition notActionFetch (e : Effect) : Prop :=
  match e with ActionFetch _ => False | _ => True end.

(** The dropdowns lie one after the other in the store, from [lo] on. *)
Fixpoint spacedFrom (lo : nat) (cls : list Events.Closure) : Prop :=
  match cls with
  | [] => True
  | cl :: rest =>
      lo <= Events.dropdownContainer cl /\
      spacedFrom (Events.dropdownContainer cl + 8) rest
  end.

(** The dropdowns of a world lie one after the other inside its store. *)
Definition dropdownsSpaced (w : World) : Prop :=
  spacedFrom 0 (Events.closuresOf (log w)) /\
  Forall (fun cl => Events.dropdownContainer cl + 8 <= length (dom w))
         (Events.closuresOf (log w)).

(** Every render root of a world is a node of its store. *)
Definition rootsCreated (w : World) : Prop :=
  Forall (fun r => r < length (dom w)) (Events.rootsOf (log w)).

(** A node keeps its kind, its name, its attributes and its inline style. *)
Definition keeps_look (nd nd' : Node) : Prop :=
  nodeType nd' = nodeType nd /\ localName nd' = localName nd /\
  attributes nd' = attributes nd /\ style nd' = style nd.

(** A node keeps its look, but for the two margins of its inline style. *)
Definition keeps_look_but_margins (nd nd' : Node) : Prop :=
  nodeType nd' = nodeType nd /\ localName nd' = localName nd /\
  attributes nd' = attributes nd /\
  forall prop, prop <> "marginTop" -> prop <> "marginBottom" ->
               assoc prop (style nd') = assoc prop (style nd).

(** The links of a store agree: the parent of every child is the element
    that lists it, every node is listed by its parent, which is another
    node, and no child is listed twice. *)
Definition wellLinked (d : Document) : Prop :=
  (forall n c, In c (childNodesOf d n) -> parentElement d c = Some n) /\
  (forall n p, parentNodeOf d n = Some p -> In n (childNodesOf d p) /\ p <> n) /\
  (forall n, List.NoDup (childNodesOf d n)).

(** Following the parents from any node ends. *)
Definition acyclic (d : Document) : Prop :=
  forall n, n < length d -> rooted_fuel d (length d) n = true.

(** A well-formed page: a consistent store without cycles. *)
Definition wellFormed (d : Document) : Prop :=
  consistent d = true /\ forest d = true.

(** The mount point of every dispatch in flight is an element of the page. *)
Definition mountPointsOk (s : System) : Prop :=
  Forall (fun t => match snd t with
                   | Suspended p => isElement (dom (world s)) (containerOf p) = true
                   | Finished => True
                   end) (tasks s).

(* ===================================================================== *)
(** ** Theorems: security gate and options *)
(* ===================================================================== *)

Lemma checkSecurity_always_true state securityLevel :
  checkSecurity state securityLevel = true.
Proof. reflexivity. Qed.

(** The unreachable [switch] is the gate the specification describes. *)
Lemma checkSecurity_switch_spec state l :
  checkSecurity_switch state l = true <->
  (l = all \/ (l = non_malicious /\ state <> malicious)
   \/ (l = only_trusted /\ state = trusted)).
Proof.
  destruct state, l; cbn; split; intros H;
    repeat match goal with
           | H : _ \/ _ |- _ => destruct H
           | H : _ /\ _ |- _ => destruct H
           end;
    try discriminate; try congruence; auto.
Qed.

(** C1 (fails on the code): [checkSecurity unknown only_trusted] and
    [checkSecurity malicious non_malicious] both evaluate to [true], where the
    claim requires [false]; the early [return true] shadows the [switch],
    which on its own gives [false] for both. *)
Theorem C1_checkSecurity_passes_untrusted :
  checkSecurity unknown only_trusted = true /\
  checkSecurity malicious non_malicious = true /\
  checkSecurity_switch unknown only_trusted = false /\
  checkSecurity_switch malicious non_malicious = false.
Proof. repeat split. Qed.

(** C9: [normalizeOptions] broadcasts a scalar security level to the three
    categories, uses a per-category record verbatim, and defaults every
    category to only-trusted when the field is absent. *)
Theorem C9_normalizeOptions_spec :
  (forall l,
     n_securityLevel (normalizeOptions {| securityLevel := Some (Scalar l) |})
     = {| websites := l; interstitials := l; actions := l |}) /\
  (forall r,
     n_securityLevel (normalizeOptions {| securityLevel := Some (PerCategory r) |})
     = r) /\
  n_securityLevel (normalizeOptions {| securityLevel := None |})
  = {| websites := only_trusted; interstitials := only_trusted;
       actions := only_trusted |}.
Proof. repeat split. Qed.

(* ===================================================================== *)
(** ** Theorems: the tree watcher *)
(* ===================================================================== *)

Lemma example_pages_consistent :
  consistent castPage = true /\ consistent plainCastPage = true /\
  consistent cardPage = true /\ consistent cardPageWithWrapper = true /\
  consistent textPage = true /\ consistent batchPage = true.
Proof. repeat split. Qed.

(** C6 (fails on the code): in the batch [text node; div], both inserted in
    one mutation record, the callback returns at the text node and the div
    is never passed to [handleNewNode]; a following record of the same batch
    is dropped as well.  Delivered alone, the same div is dispatched. *)
Theorem C6_text_node_aborts_batch :
  let farcaster := Farcaster.handleNewNode (collaborators trusted) defaultOptions in
  tasks (observerCallback farcaster [mkMutation [1; 2]] (initial batchPage)) = []
  /\ tasks (observerCallback (Twitter.handleNewNode (collaborators trusted)) [mkMutation [1; 2]]
                             (initial batchPage)) = []
  /\ tasks (observerCallback farcaster [mkMutation [1]; mkMutation [2]]
                             (initial batchPage)) = []
  /\ map fst (tasks (observerCallback farcaster [mkMutation [2]]
                                      (initial batchPage))) = [2].
Proof. repeat split. Qed.

Section PageInvariant.
Variable handleNewNode : NodeId -> M Outcome.
Variable resume : Pending -> Response -> M Outcome.

Lemma settle_no_task task r w :
  settle resume task r (mkSystem w []) = mkSystem w [].
Proof. unfold settle. cbn. now rewrite lookup_nil. Qed.

Lemma dormant_step w p e :
  dormant w p -> initFulfilled [e] = false ->
  dormant w (pageStep handleNewNode resume p e).
Proof.
  intros (Hobs & Hsys & Hreg) He.
  destruct e as [fulfilled | records | task r]; cbn.
  - destruct fulfilled; [discriminate He |].
    destruct (registryInit p) as [[| |] |] eqn:Hr; cbn;
      repeat split; auto; try congruence.
  - rewrite Hobs. repeat split; auto.
  - rewrite Hsys, settle_no_task. repeat split; auto.
Qed.

Lemma dormant_run w events : forall p,
  dormant w p -> initFulfilled events = false ->
  dormant w (pageRun handleNewNode resume p events).
Proof.
  induction events as [| e events IH]; intros p Hp Hev; cbn; [exact Hp |].
  cbn in Hev. apply orb_false_elim in Hev as [He Hev].
  apply IH; [| exact Hev].
  apply dormant_step; [exact Hp |]. cbn. now rewrite He.
Qed.

Lemma waiting_run w r events : forall p,
  waiting w r p -> initSettled events = false ->
  waiting w r (pageRun handleNewNode resume p events).
Proof.
  induction events as [| e events IH]; intros p Hp Hev; cbn; [exact Hp |].
  cbn in Hev. apply orb_false_elim in Hev as [He Hev].
  apply IH; [| exact Hev].
  destruct Hp as (Hroot & Hreg & Hobs & Hsys).
  destruct e as [fulfilled | records | task t]; cbn; [discriminate He | |].
  - rewrite Hobs. repeat split; auto.
  - rewrite Hsys, settle_no_task. repeat split; auto.
Qed.

Lemma waiting_attaches w r p :
  waiting w r p ->
  observing (pageStep handleNewNode resume p (InitSettles true)) = true.
Proof. intros (Hroot & Hreg & _). cbn. now rewrite Hreg, Hroot. Qed.
End PageInvariant.

(** C7: as long as the promise of [init()] has not been fulfilled, the
    observer is not attached, [handleNewNode] has not been called and the
    world is as the setup found it, whatever mutations and settlements
    arrive; this holds for both setups.  When the promise, still pending,
    is fulfilled and the root exists, the observer is attached. *)
Theorem C7_no_dispatch_before_init
    (handleNewNode : NodeId -> M Outcome)
    (resume : Pending -> Response -> M Outcome)
    (root : option NodeId) (w : World) (events : list PageEvent) :
  initFulfilled events = false ->
  (let p := pageRun handleNewNode resume (setupTwitterObserver root w) events in
   observing p = false /\ tasks (system p) = [] /\ world (system p) = w) /\
  (let p := pageRun handleNewNode resume (setupFarcasterObserver root w) events in
   observing p = false /\ tasks (system p) = [] /\ world (system p) = w) /\
  (forall r, initSettled events = false ->
     observing (pageRun handleNewNode resume (setupTwitterObserver (Some r) w)
                        (events ++ [InitSettles true])) = true /\
     observing (pageRun handleNewNode resume (setupFarcasterObserver (Some r) w)
                        (events ++ [InitSettles true])) = true).
Proof.
  intros Hev.
  assert (HT : forall root, dormant w (setupTwitterObserver root w)).
  { intros. repeat split; cbn; congruence. }
  assert (HF : forall root, dormant w (setupFarcasterObserver root w)).
  { intros [r |]; repeat split; cbn; congruence. }
  split; [| split].
  - destruct (dormant_run handleNewNode resume w events _ (HT root) Hev)
      as (Ho & Hs & _). cbn. rewrite Ho, Hs. auto.
  - destruct (dormant_run handleNewNode resume w events _ (HF root) Hev)
      as (Ho & Hs & _). cbn. rewrite Ho, Hs. auto.
  - intros r Hset. unfold pageRun. rewrite !fold_left_app. cbn [fold_left].
    split; apply (waiting_attaches handleNewNode resume w r);
      apply waiting_run; auto; repeat split.
Qed.

(** A run in which mutations arrive and [init()] is rejected. *)
Lemma C7_no_dispatch_before_init_witness :
  let events := [MutationsObserved [mkMutation [2]]; InitSettles false;
                 MutationsObserved [mkMutation [2]]] in
  let p := pageRun (Twitter.handleNewNode (collaborators trusted)) (resume (collaborators trusted) defaultOptions)
                   (setupTwitterObserver (Some 0) (mkWorld batchPage [])) events in
  observing p = false /\ tasks (system p) = [] /\
  world (system p) = mkWorld batchPage [].
Proof.
  exact (proj1 (C7_no_dispatch_before_init
                  (Twitter.handleNewNode (collaborators trusted))
                  (resume (collaborators trusted) defaultOptions)
                  (Some 0) (mkWorld batchPage [])
                  [MutationsObserved [mkMutation [2]]; InitSettles false;
                   MutationsObserved [mkMutation [2]]]
                  eq_refl)).
Defined.

(* ===================================================================== *)
(** ** Theorems: security checkpoints in the pipeline *)
(* ===================================================================== *)

(** Whatever the website's trust state and the configured level, a URL
    that is not an interstitial passes the websites checkpoint and the
    manifest is requested. *)
Lemma classify_website_fetches c options container actionUrl w :
  isInterstitial_flag (isInterstitial c actionUrl) = false ->
  classify c options container actionUrl w =
  (Suspended (AwaitActionsJson container actionUrl),
   mkWorld (dom w)
     (log w ++
      [Gate Websites (getExtendedWebsiteState c (href actionUrl))
            (websites (n_securityLevel options)) true;
       Fetch (proxify c (String.append (origin actionUrl) "/actions.json"))])).
Proof.
  intros Hni. unfold classify. rewrite Hni.
  cbn. now rewrite <- app_assoc.
Qed.

(** C2 (fails on the code): with [websites: 'only-trusted'] and a website
    the oracle classifies as unknown, the Farcaster dispatch of a cast with
    a link passes the websites checkpoint and requests the manifest through
    the proxy; so does the Twitter dispatch once the shortened URL is
    resolved. *)
Theorem C2_manifest_fetched_for_unknown_website :
  log (world (dispatch (Farcaster.handleNewNode (collaborators unknown)
                                                websitesOnlyTrusted)
                       2 (initial castPage)))
  = [ Gate Websites unknown only_trusted true;
      Fetch "https://proxy.dial.to/?url=https://example.com/actions.json" ]
  /\
  log (world (run (Twitter.handleNewNode (collaborators trusted))
                  (resume (collaborators unknown) websitesOnlyTrusted)
                  (initial cardPage)
                  [Dispatch 1; Settle 0 (ResolvedUrl exampleUrl)]))
  = [ Fetch "https://t.co/abc";
      Gate Websites unknown only_trusted true;
      Fetch "https://proxy.dial.to/?url=https://example.com/actions.json" ].
Proof. split; reflexivity. Qed.

(* ===================================================================== *)
(** ** Theorems: the quick reject *)
(* ===================================================================== *)

(** C3 (as stated, fails on the Twitter observer): a div without any class
    name, inserted inside a tweet, gets the dropdown appended next to the
    bookmark button (the store changes), and a classless div holding a
    link-preview card triggers a network request. *)
Lemma C3_twitter_classless_div_has_effects :
  className cardPage 7 = EmptyString /\
  className cardPage 1 = EmptyString /\
  dom (snd (Twitter.handleNewNode (collaborators trusted) 7 (mkWorld cardPage []))) <> cardPage /\
  childNodesOf (dom (snd (Twitter.handleNewNode (collaborators trusted) 7 (mkWorld cardPage [])))) 8
    = [9; 10] /\
  log (snd (Twitter.handleNewNode (collaborators trusted) 1 (mkWorld cardPage [])))
    = [Fetch "https://t.co/abc"].
Proof.
  repeat split; try reflexivity.
  intros H. apply (f_equal (@length Node)) in H. vm_compute in H. discriminate.
Qed.

(** C3 (amended): the Farcaster dispatch of an element that is not a div,
    or whose class name contains neither [" fade-in"] nor ["relative"],
    returns at once and leaves the world as it is: no DOM write, no network
    call, nothing pending.  The Twitter observer tests no class names; its
    dispatch is such a no-op for every element that is not a div. *)
Theorem C3_quick_reject c options element w :
  (localNameOf (dom w) element <> "div" \/
   (includes " fade-in" (className (dom w) element) = false /\
    includes "relative" (className (dom w) element) = false) ->
   Farcaster.handleNewNode c options element w = (Finished, w)) /\
  (localNameOf (dom w) element <> "div" ->
   Twitter.handleNewNode c element w = (Finished, w)).
Proof.
  split.
  - intros H. unfold Farcaster.handleNewNode, bind, read. cbn.
    destruct (String.eqb_spec (localNameOf (dom w) element) "div") as [Hd | Hd];
      cbn; [| reflexivity].
    destruct H as [H | [H1 H2]]; [contradiction |].
    now rewrite H1, H2.
  - intros H. unfold Twitter.handleNewNode, bind, read. cbn.
    destruct (String.eqb_spec (localNameOf (dom w) element) "div") as [Hd | Hd];
      cbn; [contradiction | reflexivity].
Qed.

(** A span dispatched to both observers, and a classless div dispatched to
    the Farcaster observer. *)
Lemma C3_quick_reject_witness :
  Farcaster.handleNewNode (collaborators trusted) defaultOptions 3
                          (mkWorld plainCastPage [])
    = (Finished, mkWorld plainCastPage []) /\
  Farcaster.handleNewNode (collaborators trusted) defaultOptions 1
                          (mkWorld castPage [])
    = (Finished, mkWorld castPage []) /\
  Twitter.handleNewNode (collaborators trusted) 3 (mkWorld plainCastPage [])
    = (Finished, mkWorld plainCastPage []).
Proof.
  split; [| split].
  - apply (proj1 (C3_quick_reject (collaborators trusted) defaultOptions 3
                                  (mkWorld plainCastPage []))).
    left. cbn. discriminate.
  - apply (proj1 (C3_quick_reject (collaborators trusted) defaultOptions 1
                                  (mkWorld castPage []))).
    right. split; reflexivity.
  - apply (proj2 (C3_quick_reject (collaborators trusted) defaultOptions 3
                                  (mkWorld plainCastPage []))).
    cbn. discriminate.
Defined.

(* ===================================================================== *)
(** ** Frame lemmas for the DOM store *)
(* ===================================================================== *)

Section Evolves.
Context (R : Node -> Node -> Prop) `{!Frame R}.
Local Abbreviation evolves := (evolves R).
Local Abbreviation Evolves := (Evolves R).

Lemma evolves_refl d : evolves d d.
Proof. intros n nd H. exists nd. split; [exact H | apply frame_refl]. Qed.

Lemma evolves_trans d1 d2 d3 : evolves d1 d2 -> evolves d2 d3 -> evolves d1 d3.
Proof.
  intros H12 H23 n nd H.
  destruct (H12 n nd H) as (nd2 & H2 & R2).
  destruct (H23 n nd2 H2) as (nd3 & H3 & R3).
  exists nd3. split; [exact H3 | eapply frame_trans; eauto].
Qed.

Lemma evolves_alter f i d : (forall x, R x (f x)) -> evolves d (alter f i d).
Proof.
  intros Hf n nd H.
  destruct (decide (i = n)) as [-> | Hne].
  - exists (f nd). split; [| apply Hf].
    now rewrite list_lookup_alter_eq, H.
  - exists nd. split; [| apply frame_refl].
    now rewrite list_lookup_alter_ne.
Qed.

Lemma evolves_app d l : evolves d (d ++ l).
Proof.
  intros n nd H. exists nd.
  split; [now apply lookup_app_l_Some | apply frame_refl].
Qed.

Lemma evolves_orphan_all l : forall d, evolves d (orphan_all l d).
Proof.
  unfold orphan_all. induction l as [| c l IH]; intros d; cbn.
  - apply evolves_refl.
  - eapply evolves_trans; [| apply IH].
    apply evolves_alter, frame_parentNode.
Qed.

Lemma evolves_remove n d : evolves d (remove n d).
Proof.
  unfold remove. destruct (parentNodeOf d n); [| apply evolves_refl].
  apply (evolves_trans _ (alter (set_parentNode None) n d));
    [apply evolves_alter, frame_parentNode
    | apply evolves_alter, frame_childNodes].
Qed.

Lemma evolves_insertBefore parent node ref d :
  evolves d (insertBefore parent node ref d).
Proof.
  unfold insertBefore.
  apply (evolves_trans _ (remove node d)); [apply evolves_remove |].
  apply (evolves_trans _ (alter (set_parentNode (Some parent)) node
                                (remove node d)));
    [apply evolves_alter, frame_parentNode
    | apply evolves_alter, frame_childNodes].
Qed.

Lemma evolves_append parent node d : evolves d (append parent node d).
Proof. apply evolves_insertBefore. Qed.

Lemma evolves_prepend parent node d : evolves d (prepend parent node d).
Proof. apply evolves_insertBefore. Qed.

Lemma evolves_replaceChildren parent node d :
  evolves d (replaceChildren parent node d).
Proof.
  unfold replaceChildren.
  eapply evolves_trans; [| apply evolves_insertBefore].
  apply (evolves_trans _ (orphan_all (childNodesOf d parent) d));
    [apply evolves_orphan_all | apply evolves_alter, frame_childNodes].
Qed.

Lemma evolves_setInnerHTML n s d : evolves d (setInnerHTML n s d).
Proof.
  unfold setInnerHTML.
  apply (evolves_trans _ (orphan_all (childNodesOf d n) d));
    [apply evolves_orphan_all |].
  apply evolves_alter. intros x.
  eapply frame_trans; [apply frame_innerHTML | apply frame_childNodes].
Qed.

Lemma evolves_setAttribute `{!AttributeFrame R} n k v d :
  evolves d (setAttribute n k v d).
Proof. apply evolves_alter, attribute_frame. Qed.

Lemma evolves_setClassName `{!AttributeFrame R} n cls d :
  evolves d (setClassName n cls d).
Proof. apply evolves_setAttribute. Qed.

Lemma evolves_classList_add `{!AttributeFrame R} n tok d :
  evolves d (classList_add n tok d).
Proof. apply evolves_setAttribute. Qed.

Lemma evolves_setStyle `{!StyleFrame R} n k v d :
  evolves d (setStyle n k v d).
Proof. apply evolves_alter, style_frame. Qed.

Lemma Evolves_ret {A} (a : A) : Evolves (ret a).
Proof. intros w. apply evolves_refl. Qed.

Lemma Evolves_bind {A B} (m : M A) (k : A -> M B) :
  Evolves m -> (forall a, Evolves (k a)) -> Evolves (bind m k).
Proof.
  intros Hm Hk w. unfold bind. specialize (Hm w).
  destruct (m w) as [a w1]. eapply evolves_trans; [exact Hm | apply Hk].
Qed.

Lemma Evolves_read {A} (f : Document -> A) : Evolves (read f).
Proof. intros w. apply evolves_refl. Qed.

Lemma Evolves_tell e : Evolves (tell e).
Proof. intros w. apply evolves_refl. Qed.

Lemma Evolves_create name : Evolves (create name).
Proof. intros w. apply evolves_app. Qed.

Lemma Evolves_write f : (forall d, evolves d (f d)) -> Evolves (write f).
Proof. intros H w. apply H. Qed.
End Evolves.

Section Logs.
Context (P : Effect -> Prop).

Lemma Logs_ret {A} (a : A) : Logs P (ret a).
Proof. intros w. exists []. split; [now rewrite app_nil_r | constructor]. Qed.

Lemma Logs_bind {A B} (m : M A) (k : A -> M B) :
  Logs P m -> (forall a, Logs P (k a)) -> Logs P (bind m k).
Proof.
  intros Hm Hk w. unfold bind. destruct (Hm w) as (l1 & E1 & F1).
  destruct (m w) as [a w1]. destruct (Hk a w1) as (l2 & E2 & F2).
  exists (l1 ++ l2). cbn in E1. rewrite E2, E1, app_assoc.
  split; [reflexivity | now apply Forall_app].
Qed.

Lemma Logs_read {A} (f : Document -> A) : Logs P (read f).
Proof. apply (Logs_ret tt). Qed.

Lemma Logs_write f : Logs P (write f).
Proof. apply (Logs_ret tt). Qed.

Lemma Logs_create name : Logs P (create name).
Proof. apply (Logs_ret tt). Qed.

Lemma Logs_tell e : P e -> Logs P (tell e).
Proof. intros He w. exists [e]. split; [reflexivity | now repeat constructor]. Qed.
End Logs.

(** *** Association lists *)

Lemma assoc_set_assoc_eq k v l : assoc k (set_assoc k v l) = Some v.
Proof.
  induction l as [| [k' v'] l IH]; cbn.
  - now rewrite String.eqb_refl.
  - destruct (String.eqb k k') eqn:E; cbn; rewrite ?String.eqb_refl, ?E; auto.
Qed.

Lemma assoc_set_assoc_ne k k' v l :
  k <> k' -> assoc k (set_assoc k' v l) = assoc k l.
Proof.
  intros Hne. induction l as [| [k2 v2] l IH]; cbn.
  - destruct (String.eqb_spec k k'); [contradiction | reflexivity].
  - destruct (String.eqb_spec k' k2) as [-> | Hk]; cbn.
    + destruct (String.eqb_spec k k2); [contradiction | reflexivity].
    + destruct (String.eqb k k2); auto.
Qed.

Lemma assoc_set_assoc_names k k' v l :
  assoc k l <> None -> assoc k (set_assoc k' v l) <> None.
Proof.
  intros H. destruct (String.eqb_spec k k') as [-> | Hne].
  - now rewrite assoc_set_assoc_eq.
  - now rewrite assoc_set_assoc_ne.
Qed.

(** *** What the style and attribute writes do *)

Lemma styleOf_setStyle_eq n k v d :
  n < length d -> styleOf (setStyle n k v d) n k = Some v.
Proof.
  intros Hn. unfold styleOf, setStyle. rewrite list_lookup_alter_eq.
  destruct (lookup_lt_is_Some_2 d n Hn) as [nd ->]. cbn.
  apply assoc_set_assoc_eq.
Qed.

Lemma styleOf_setStyle_ne n k v d m p :
  n <> m \/ k <> p -> styleOf (setStyle n k v d) m p = styleOf d m p.
Proof.
  intros H. unfold styleOf, setStyle.
  destruct (decide (n = m)) as [-> | Hne].
  - rewrite list_lookup_alter_eq. destruct (d !! m) as [nd |]; cbn; auto.
    apply assoc_set_assoc_ne. destruct H; congruence.
  - now rewrite list_lookup_alter_ne.
Qed.

Lemma getAttribute_setStyle n k v d m a :
  getAttribute (setStyle n k v d) m a = getAttribute d m a.
Proof.
  unfold getAttribute, setStyle.
  destruct (decide (n = m)) as [-> | Hne].
  - rewrite list_lookup_alter_eq. now destruct (d !! m).
  - now rewrite list_lookup_alter_ne.
Qed.

Lemma classList_contains_setStyle n k v d m tok :
  classList_contains (setStyle n k v d) m tok = classList_contains d m tok.
Proof.
  unfold classList_contains, className. now rewrite getAttribute_setStyle.
Qed.

Lemma length_setStyle n k v d : length (setStyle n k v d) = length d.
Proof. apply length_alter. Qed.

(** From [evolves] to the readers. *)
Lemma evolves_styleOf d d' n prop :
  evolves keeps_style d d' -> n < length d ->
  styleOf d' n prop = styleOf d n prop.
Proof.
  intros H Hn. unfold styleOf.
  destruct (lookup_lt_is_Some_2 d n Hn) as [nd Hnd].
  destruct (H n nd Hnd) as (nd' & Hnd' & Hst). now rewrite Hnd, Hnd', Hst.
Qed.

Lemma evolves_getAttribute d d' n k :
  evolves keeps_attributes d d' -> n < length d ->
  getAttribute d' n k = getAttribute d n k.
Proof.
  intros H Hn. unfold getAttribute.
  destruct (lookup_lt_is_Some_2 d n Hn) as [nd Hnd].
  destruct (H n nd Hnd) as (nd' & Hnd' & Hst). now rewrite Hnd, Hnd', Hst.
Qed.

Lemma evolves_hasAttribute d d' n k :
  evolves keeps_attribute_names d d' ->
  hasAttribute d n k = true -> hasAttribute d' n k = true.
Proof.
  intros H. unfold hasAttribute, getAttribute.
  destruct (d !! n) as [nd |] eqn:Hnd; [| discriminate].
  destruct (H n nd Hnd) as (nd' & -> & Hk). specialize (Hk k).
  destruct (assoc k (attributes nd)); [| discriminate].
  intros _. destruct (assoc k (attributes nd')); [reflexivity |].
  exfalso. apply Hk; congruence.
Qed.

Lemma evolves_length R d d' : evolves R d d' -> length d <= length d'.
Proof.
  intros H. destruct d as [| x d0] eqn:E; [cbn; lia |]. rewrite <- E in *.
  assert (Hlast : is_Some (d !! (length d - 1))).
  { apply lookup_lt_is_Some_2. subst d. cbn. lia. }
  destruct Hlast as [nd Hnd]. destruct (H _ _ Hnd) as (nd' & Hnd' & _).
  apply lookup_lt_Some in Hnd'. subst d. cbn in *. lia.
Qed.

(** *** The frames used below *)

#[global] Instance keeps_style_frame : Frame keeps_style.
Proof. split; unfold keeps_style; intros; cbn; congruence. Qed.

#[global] Instance keeps_style_attribute_frame : AttributeFrame keeps_style.
Proof. intros k v x. reflexivity. Qed.

#[global] Instance keeps_attributes_frame : Frame keeps_attributes.
Proof. split; unfold keeps_attributes; intros; cbn; congruence. Qed.

#[global] Instance keeps_attributes_style_frame : StyleFrame keeps_attributes.
Proof. intros k v x. reflexivity. Qed.

#[global] Instance keeps_attribute_names_frame : Frame keeps_attribute_names.
Proof. split; unfold keeps_attribute_names; intros; cbn in *; auto. Qed.

#[global] Instance keeps_attribute_names_attribute_frame :
  AttributeFrame keeps_attribute_names.
Proof. intros k v x k' H. cbn. now apply assoc_set_assoc_names. Qed.

#[global] Instance keeps_attribute_names_style_frame :
  StyleFrame keeps_attribute_names.
Proof. intros k v x k' H. exact H. Qed.

Create HintDb evolve.
Create HintDb logs.

(** Structural proof of [Evolves R m] along the binds and branches of [m]. *)
Ltac evolve_write R :=
  first [ refine (evolves_setStyle R _ _ _ _)
        | refine (evolves_setAttribute R _ _ _ _)
        | refine (evolves_setClassName R _ _ _)
        | refine (evolves_classList_add R _ _ _)
        | refine (evolves_setInnerHTML R _ _ _)
        | refine (evolves_append R _ _ _)
        | refine (evolves_prepend R _ _ _)
        | refine (evolves_insertBefore R _ _ _ _)
        | refine (evolves_remove R _ _)
        | refine (evolves_replaceChildren R _ _ _) ].

Ltac evolve_step :=
  lazymatch goal with
  | |- Evolves ?R (ret _) => refine (Evolves_ret R _)
  | |- Evolves ?R (read _) => refine (Evolves_read R _)
  | |- Evolves ?R (tell _) => refine (Evolves_tell R _)
  | |- Evolves ?R (create _) => refine (Evolves_create R _)
  | |- Evolves ?R (write _) => refine (Evolves_write R _ _); intro; evolve_write R
  | |- Evolves ?R (bind _ _) => refine (Evolves_bind R _ _ _ _); [| intro]
  | |- Evolves _ (match ?x with _ => _ end) => destruct x
  | |- Evolves _ (if ?x then _ else _) => destruct x
  | |- Evolves _ _ => solve [auto with evolve]
  end.

Ltac evolve := repeat (cbv beta iota zeta; evolve_step).

Ltac logs_step :=
  lazymatch goal with
  | |- Logs ?P (ret _) => refine (Logs_ret P _)
  | |- Logs ?P (read _) => refine (Logs_read P _)
  | |- Logs ?P (write _) => refine (Logs_write P _)
  | |- Logs ?P (create _) => refine (Logs_create P _)
  | |- Logs ?P (tell _) => refine (Logs_tell P _ _); exact I
  | |- Logs ?P (bind _ _) => refine (Logs_bind P _ _ _ _); [| intro]
  | |- Logs _ (match ?x with _ => _ end) => destruct x
  | |- Logs _ (if ?x then _ else _) => destruct x
  | |- Logs _ _ => solve [auto with logs]
  end.

Ltac logs := repeat (cbv beta iota zeta; logs_step).

Section EvolvesPipeline.
Context (R : Node -> Node -> Prop)
        `{!Frame R} `{!AttributeFrame R}.

Lemma Evolves_createAction c options u a : Evolves R (createAction c options u a).
Proof. unfold createAction. evolve. Qed.

Lemma Evolves_mount_tail c options container u a :
  Evolves R (root <- createAction c options u a ;;
             write (replaceChildren container root)).
Proof. unfold createAction. evolve. Qed.
End EvolvesPipeline.

(* ===================================================================== *)
(** ** Theorems: the render mount *)
(* ===================================================================== *)

Lemma addMargin_dom element w :
  dom (snd (addMargin element w)) =
  if classList_contains (dom w) element "dialect-wrapper" then
    if classList_contains (dom w) element "dialect-dm" then
      setStyle element "marginBottom" "8px"
               (setStyle element "marginTop" "12px" (dom w))
    else setStyle element "marginTop" "12px" (dom w)
  else dom w.
Proof.
  unfold addMargin, bind, read, write, ret. cbn.
  destruct (classList_contains (dom w) element "dialect-wrapper"); cbn; auto.
  rewrite classList_contains_setStyle.
  destruct (classList_contains (dom w) element "dialect-dm"); cbn; auto.
Qed.

Lemma addMargin_length element w :
  length (dom (snd (addMargin element w))) = length (dom w).
Proof.
  rewrite addMargin_dom.
  repeat match goal with |- context [if ?b then _ else _] => destruct b end;
    now rewrite ?length_setStyle.
Qed.

Lemma mount_split c options container actionUrl action w :
  snd (mount c options container actionUrl action w) =
  snd ((root <- createAction c options actionUrl action ;;
        write (replaceChildren container root))
         (snd (addMargin container w))).
Proof.
  unfold mount. unfold bind at 1. now destruct (addMargin container w).
Qed.

Lemma mount_styleOf c options container actionUrl action w prop :
  container < length (dom w) ->
  styleOf (dom (snd (mount c options container actionUrl action w))) container prop =
  styleOf (dom (snd (addMargin container w))) container prop.
Proof.
  intros Hlen. rewrite mount_split.
  apply evolves_styleOf; [| now rewrite addMargin_length].
  apply (Evolves_mount_tail keeps_style).
Qed.

(** C8 (as stated, fails on the code): the scenario of the link-preview
    card, every collaborator trusting and the adapter supporting the
    action.  The mount renders into the card's parent (node 3), whose only
    child becomes the new render root (node 10), and that mount point
    receives no top margin: it does not carry the class [dialect-wrapper]. *)
Lemma C8_card_parent_gets_no_margin :
  let s := run (Twitter.handleNewNode (collaborators trusted)) (resume (collaborators trusted) defaultOptions)
               (initial cardPage)
               [ Dispatch 1; Settle 0 (ResolvedUrl exampleUrl);
                 Settle 0 (ResolvedJson "{}"); Settle 0 (ResolvedAction "action");
                 Settle 0 (ResolvedSupported true) ] in
  tasks s = [(1, Finished)] /\
  last (log (world s)) = Some (Rendered 10 "action" "https://example.com/x" "example.com"
                                  "callbacks" (n_securityLevel defaultOptions)) /\
  childNodesOf (dom (world s)) 3 = [10] /\
  styleOf (dom (world s)) 3 "marginTop" = None /\
  styleOf (dom (world s)) 3 "marginBottom" = None.
Proof. repeat split. Qed.

(** C8 (amended): the mount gives its mount point a top margin of 12px
    exactly when the mount point carries the class [dialect-wrapper], and
    then a bottom margin of 8px exactly when it also carries [dialect-dm];
    a mount point without [dialect-wrapper], such as the card's parent of
    the link-preview branch, keeps the style it had. *)
Theorem C8_mount_margins c options container actionUrl action w :
  container < length (dom w) ->
  let d := dom w in
  let d' := dom (snd (mount c options container actionUrl action w)) in
  (classList_contains d container "dialect-wrapper" = true ->
     styleOf d' container "marginTop" = Some "12px" /\
     (classList_contains d container "dialect-dm" = true ->
        styleOf d' container "marginBottom" = Some "8px") /\
     (classList_contains d container "dialect-dm" = false ->
        styleOf d' container "marginBottom" = styleOf d container "marginBottom"))
  /\
  (classList_contains d container "dialect-wrapper" = false ->
     forall prop, styleOf d' container prop = styleOf d container prop).
Proof.
  intros Hlen d d'. subst d d'. split.
  - intros Hw. rewrite !mount_styleOf, addMargin_dom, Hw by exact Hlen.
    destruct (classList_contains (dom w) container "dialect-dm").
    + split; [| split]; [| | discriminate].
      * rewrite styleOf_setStyle_ne by (right; discriminate).
        now apply styleOf_setStyle_eq.
      * intros _. apply styleOf_setStyle_eq. now rewrite length_setStyle.
    + split; [| split]; [| discriminate |].
      * now apply styleOf_setStyle_eq.
      * intros _. apply styleOf_setStyle_ne. right. discriminate.
  - intros Hw prop. now rewrite mount_styleOf, addMargin_dom, Hw.
Qed.

(** The wrapper a Twitter dispatch creates for a link in a tweet's text,
    and the card's parent of the link-preview scenario. *)
Lemma C8_mount_margins_witness :
  let d := dom (snd (Twitter.getContainerForLink 5 (mkWorld textPage []))) in
  let d' := dom (snd (mount (collaborators trusted) defaultOptions 8 exampleUrl "action" (mkWorld d []))) in
  classList_contains d 8 "dialect-wrapper" = true /\
  styleOf d' 8 "marginTop" = Some "12px" /\
  styleOf d' 8 "marginBottom" = None /\
  styleOf (dom (snd (mount (collaborators trusted) defaultOptions 3 exampleUrl "action" (mkWorld cardPage []))))
          3 "marginTop" = None.
Proof.
  pose proof (C8_mount_margins (collaborators trusted) defaultOptions
                8 exampleUrl "action"
    (mkWorld (dom (snd (Twitter.getContainerForLink 5 (mkWorld textPage [])))) []))
    as H8.
  pose proof (C8_mount_margins (collaborators trusted) defaultOptions
                3 exampleUrl "action" (mkWorld cardPage [])) as H3.
  cbv zeta in *.
  destruct H8 as [H8 _]; [vm_compute; lia |].
  destruct H3 as [_ H3]; [vm_compute; lia |].
  destruct (H8 eq_refl) as (Htop & _ & Hbot).
  split; [reflexivity |]. split; [exact Htop |].
  split; [rewrite (Hbot eq_refl); reflexivity |].
  rewrite (H3 eq_refl "marginTop"). reflexivity.
Defined.

(** *** Lookups after the tree writes *)

Lemma lookup_alter_at (f : Node -> Node) i (d : Document) m :
  alter f i d !! m = at_node i m f (d !! m).
Proof.
  unfold at_node. rewrite list_lookup_alter.
  destruct (decide (i = m)); congruence.
Qed.

Lemma lookup_remove n d m :
  remove n d !! m =
  match parentNodeOf d n with
  | Some p => at_node p m (set_childNodes (remove_id n))
                (at_node n m (set_parentNode None) (d !! m))
  | None => d !! m
  end.
Proof.
  unfold remove. destruct (parentNodeOf d n); [| reflexivity].
  now rewrite !lookup_alter_at.
Qed.

Lemma lookup_insertBefore parent node ref d m :
  insertBefore parent node ref d !! m =
  at_node parent m (set_childNodes (place ref node))
    (at_node node m (set_parentNode (Some parent)) (remove node d !! m)).
Proof. unfold insertBefore. now rewrite !lookup_alter_at. Qed.

Lemma length_remove n d : length (remove n d) = length d.
Proof.
  unfold remove. destruct (parentNodeOf d n); [| reflexivity].
  now rewrite !length_alter.
Qed.

Lemma length_insertBefore parent node ref d :
  length (insertBefore parent node ref d) = length d.
Proof. unfold insertBefore. now rewrite !length_alter, length_remove. Qed.

Lemma length_orphan_all l : forall d, length (orphan_all l d) = length d.
Proof.
  unfold orphan_all. induction l as [| c l IH]; intros d; cbn; [reflexivity |].
  now rewrite IH, length_alter.
Qed.

Lemma length_replaceChildren parent node d :
  length (replaceChildren parent node d) = length d.
Proof.
  unfold replaceChildren.
  now rewrite length_insertBefore, length_alter, length_orphan_all.
Qed.

Lemma childNodes_orphan_all l : forall d m,
  childNodesOf (orphan_all l d) m = childNodesOf d m.
Proof.
  unfold orphan_all. induction l as [| c l IH]; intros d m; cbn; [reflexivity |].
  rewrite IH. unfold childNodesOf. rewrite lookup_alter_at. unfold at_node.
  destruct (decide (c = m)); [| reflexivity]. now destruct (d !! m).
Qed.

(** After [insertBefore] without a reference child, [node] is the last
    child of [parent] and [parent] is its parent. *)
Lemma insertBefore_None_last parent node d :
  parent < length d -> node <> parent ->
  last (childNodesOf (insertBefore parent node None d) parent) = Some node.
Proof.
  intros Hp Hne. unfold childNodesOf. rewrite lookup_insertBefore.
  unfold at_node at 1. rewrite decide_True by reflexivity.
  unfold at_node at 1. rewrite decide_False by exact Hne.
  assert (Hs : is_Some (remove node d !! parent)).
  { apply lookup_lt_is_Some_2. now rewrite length_remove. }
  destruct Hs as [nd ->]. cbn. apply last_snoc.
Qed.

Lemma insertBefore_parent parent node ref d :
  node < length d -> node <> parent ->
  parentNodeOf (insertBefore parent node ref d) node = Some parent.
Proof.
  intros Hn Hne. unfold parentNodeOf. rewrite lookup_insertBefore.
  unfold at_node at 1. rewrite decide_False by congruence.
  unfold at_node at 1. rewrite decide_True by reflexivity.
  assert (Hs : is_Some (remove node d !! node)).
  { apply lookup_lt_is_Some_2. now rewrite length_remove. }
  destruct Hs as [nd ->]. reflexivity.
Qed.

(** The other nodes keep their parent. *)
Lemma remove_parent_other n d m :
  m <> n -> parentNodeOf (remove n d) m = parentNodeOf d m.
Proof.
  intros Hne. unfold parentNodeOf at 1 2. rewrite lookup_remove.
  destruct (parentNodeOf d n) as [p |]; [| reflexivity].
  unfold at_node. rewrite (decide_False (P := n = m)) by congruence.
  destruct (decide (p = m)); [| reflexivity]. now destruct (d !! m).
Qed.

Lemma insertBefore_parent_other parent node ref d m :
  m <> node -> parentNodeOf (insertBefore parent node ref d) m = parentNodeOf d m.
Proof.
  intros Hne. rewrite <- (remove_parent_other node d m Hne).
  unfold parentNodeOf at 1 2. rewrite lookup_insertBefore.
  unfold at_node. rewrite (decide_False (P := node = m)) by congruence.
  destruct (decide (parent = m)); [| reflexivity].
  now destruct (remove node d !! m).
Qed.

(** [replaceChildren] leaves [node] as the only child. *)
Lemma replaceChildren_children parent node d :
  parent < length d -> node <> parent ->
  childNodesOf (replaceChildren parent node d) parent = [node].
Proof.
  intros Hp Hne. unfold replaceChildren.
  set (d0 := orphan_all (childNodesOf d parent) d).
  set (d1 := alter (set_childNodes (fun _ => [])) parent d0).
  assert (Hlen : length d1 = length d).
  { unfold d1, d0. now rewrite length_alter, length_orphan_all. }
  assert (H1 : childNodesOf d1 parent = []).
  { unfold childNodesOf, d1. rewrite list_lookup_alter_eq.
    now destruct (d0 !! parent). }
  unfold childNodesOf. rewrite lookup_insertBefore.
  unfold at_node at 1. rewrite decide_True by reflexivity.
  unfold at_node at 1. rewrite decide_False by exact Hne.
  rewrite lookup_remove.
  assert (Hs : is_Some (d1 !! parent)).
  { apply lookup_lt_is_Some_2. now rewrite Hlen. }
  destruct Hs as [nd Hnd].
  assert (Hch : childNodes nd = []).
  { unfold childNodesOf in H1. now rewrite Hnd in H1. }
  destruct (parentNodeOf d1 node) as [p0 |].
  - unfold at_node. rewrite (decide_False (P := node = parent)) by exact Hne.
    rewrite Hnd. destruct (decide (p0 = parent)); cbn; now rewrite Hch.
  - rewrite Hnd. cbn. now rewrite Hch.
Qed.

(** Supersede, not append: whatever the mount point held, after the mount
    its only child is the render root just created. *)
Lemma mount_supersedes c options container actionUrl action w :
  container < length (dom w) ->
  childNodesOf (dom (snd (mount c options container actionUrl action w))) container
  = [length (dom w)].
Proof.
  intros Hlen. rewrite mount_split.
  pose proof (addMargin_length container w) as Hl.
  set (w1 := snd (addMargin container w)) in *.
  unfold createAction, bind, create, write, tell, ret, createElement. cbn.
  rewrite Hl. unfold setClassName, setAttribute.
  apply replaceChildren_children.
  - rewrite length_alter, length_app. lia.
  - lia.
Qed.

(** In the in-text branch of the Twitter observer, a wrapper found from the
    inserted element ends the extraction without any write. *)
Lemma twitter_skips_existing_wrapper element wrapper w :
  Twitter.findContainerInTweet (dom w) element false = Some wrapper ->
  Twitter.extractCandidate None element w = (None, w).
Proof.
  intros H. unfold Twitter.extractCandidate, bind, read, ret. cbn.
  now rewrite H.
Qed.

(** C4 (fails on the code): two sibling wrappers for one container.  On
    Twitter, a div inside a tweet (node 3) is dispatched, mounted, and
    dispatched again: the search for an existing wrapper looks below the
    inserted element for the tweet, finds none, and a second wrapper (10) is
    appended next to the first (8); both hold a render.  On Farcaster, a
    cast without a link (node 2) gets one more empty wrapper appended to its
    parent on every dispatch.  Dispatched on the cell that contains the
    tweet (node 1), the Twitter observer does skip the second time. *)
Theorem C4_second_dispatch_adds_sibling_wrapper :
  let resume := resume (collaborators trusted) defaultOptions in
  let twitter :=
    run (Twitter.handleNewNode (collaborators trusted)) resume (initial textPage)
        (Dispatch 3 :: settlements 0 "first" true ++
         Dispatch 3 :: settlements 1 "second" true) in
  let farcaster :=
    run (Farcaster.handleNewNode (collaborators trusted) defaultOptions) resume
        (initial plainCastPage) [Dispatch 2; Dispatch 2] in
  let outer :=
    run (Twitter.handleNewNode (collaborators trusted)) resume (initial textPage)
        (Dispatch 1 :: settlements 0 "first" true ++
         Dispatch 1 :: settlements 1 "second" true) in
  (childNodesOf (dom (world twitter)) 4 = [5; 8; 10] /\
   className (dom (world twitter)) 8 = "dialect-wrapper" /\
   className (dom (world twitter)) 10 = "dialect-wrapper" /\
   childNodesOf (dom (world twitter)) 8 = [9] /\
   childNodesOf (dom (world twitter)) 10 = [11]) /\
  (childNodesOf (dom (world farcaster)) 1 = [2; 4; 5] /\
   className (dom (world farcaster)) 4 = "dialect-wrapper" /\
   className (dom (world farcaster)) 5 = "dialect-wrapper") /\
  (childNodesOf (dom (world outer)) 4 = [5; 8] /\
   childNodesOf (dom (world outer)) 8 = [9]).
Proof. repeat split. Qed.

(** C5 (as stated, fails on the code): a tweet that already holds a wrapper
    (node 10, a child of the tweet, node 2) is dispatched again through its
    link-preview card; the adapter answers that the action is not
    supported.  No mount happens, but the wrapper was removed from the tweet
    during extraction, before any check. *)
Lemma C5_wrapper_removed_before_rejection :
  let s := run (Twitter.handleNewNode (collaborators trusted)) (resume (collaborators trusted) defaultOptions)
               (initial cardPageWithWrapper)
               (Dispatch 1 :: settlements 0 "action" false) in
  tasks s = [(1, Finished)] /\
  last (log (world s)) = Some (SupportedCall "https://example.com/x" "action" trusted) /\
  parentElement cardPageWithWrapper 10 = Some 2 /\
  childNodesOf cardPageWithWrapper 2 = [3; 7; 10] /\
  parentElement (dom (world s)) 10 = None /\
  childNodesOf (dom (world s)) 2 = [3; 7].
Proof. repeat split. Qed.

(** With an adapter that has [isSupported], only the continuation resumed
    with [supported = true] writes the store. *)
Lemma resume_writes_only_on_mount c options p r w :
  hasIsSupported c = true -> r <> ResolvedSupported true ->
  dom (snd (resume c options p r w)) = dom w.
Proof.
  intros Hs Hr.
  destruct p, r; cbn; try reflexivity.
  - unfold classify, gate, bind, tell, ret. cbn.
    destruct (isInterstitial_flag (isInterstitial c u)); cbn; [| reflexivity].
    unfold resolveAction, gate, bind, tell, ret.
    destruct (decodedActionUrl (isInterstitial c u)) as [api |]; cbn; auto.
    destruct (String.eqb api ""); reflexivity.
  - unfold resolveAction, gate, bind, tell, ret.
    destruct (mapUrl c j actionUrl) as [api |]; cbn; auto.
    destruct (String.eqb api ""); reflexivity.
  - rewrite Hs. reflexivity.
  - destruct b; [congruence | reflexivity].
Qed.

(** C5 (amended): when [isSupported] answers false the dispatch ends
    without a mount and leaves the world exactly as it was when
    [isSupported] was called; before that point no continuation of the
    dispatch writes the store, so the store is as the synchronous
    extraction left it, with the writes of the extraction in place. *)
Theorem C5_unsupported_leaves_world c options s task element
    container actionUrl action :
  hasIsSupported c = true ->
  tasks s !! task = Some (element, Suspended (AwaitSupported container actionUrl action)) ->
  let s' := settle (resume c options) task (ResolvedSupported false) s in
  world s' = world s /\
  tasks s' !! task = Some (element, Finished) /\
  (forall p r w, r <> ResolvedSupported true ->
     dom (snd (resume c options p r w)) = dom w).
Proof.
  intros Hs Ht. cbn. unfold settle. rewrite Ht. cbn.
  split; [reflexivity |]. split.
  - apply list_lookup_insert_eq. now apply lookup_lt_Some in Ht.
  - intros p r w Hr. now apply resume_writes_only_on_mount.
Qed.

(** The card scenario, suspended at [isSupported]. *)
Lemma C5_unsupported_leaves_world_witness :
  let resume := resume (collaborators trusted) defaultOptions in
  let s := run (Twitter.handleNewNode (collaborators trusted)) resume (initial cardPage)
               [ Dispatch 1; Settle 0 (ResolvedUrl exampleUrl);
                 Settle 0 (ResolvedJson "{}"); Settle 0 (ResolvedAction "action") ] in
  world (settle resume 0 (ResolvedSupported false) s) = world s /\
  dom (world s) = cardPage.
Proof.
  split; [| reflexivity].
  exact (proj1 (C5_unsupported_leaves_world
                  (collaborators trusted) defaultOptions
                  (run (Twitter.handleNewNode (collaborators trusted))
                       (resume (collaborators trusted) defaultOptions)
                       (initial cardPage)
                       [ Dispatch 1; Settle 0 (ResolvedUrl exampleUrl);
                         Settle 0 (ResolvedJson "{}");
                         Settle 0 (ResolvedAction "action") ])
                  0 1 3 exampleUrl "action" eq_refl eq_refl)).
Defined.

(* ===================================================================== *)
(** ** The dropdown of the Twitter observer *)
(* ===================================================================== *)

(** *** Running writes on the nodes a dispatch has just created

    The store is [d ++ L]: [d] is the page as the dispatch found it, of
    [N] nodes, and [L] the nodes created since.  A write to a node of [L]
    leaves [d] alone. *)
Section Fresh.
Context (d : list Node) (N : nat) (HN : length d = N).

Lemma lookup_fresh (L : list Node) i : (d ++ L) !! (N + i) = L !! i.
Proof. subst N. rewrite lookup_app_r by lia. f_equal. lia. Qed.

Lemma alter_fresh (f : Node -> Node) (L : list Node) i :
  alter f (N + i) (d ++ L) = d ++ alter f i L.
Proof. subst N. apply alter_app_r. Qed.

Lemma bind_assoc {A B C} (m : M A) (k : A -> M B) (k' : B -> M C) w :
  bind (bind m k) k' w = bind m (fun a => bind (k a) k') w.
Proof. unfold bind. now destruct (m w). Qed.

Lemma step_ret {A B} (a : A) (k : A -> M B) w : bind (ret a) k w = k a w.
Proof. reflexivity. Qed.

Lemma step_create {B} name (k : NodeId -> M B) L lg n :
  length L = n ->
  bind (create name) k (mkWorld (d ++ L) lg)
  = k (N + n) (mkWorld (d ++ (L ++ [blank name])) lg).
Proof.
  intros <-. unfold bind, create, createElement. cbn.
  now rewrite length_app, HN, <- app_assoc.
Qed.

Lemma step_setStyle {B} i prop v (k : unit -> M B) L lg :
  bind (write (setStyle (N + i) prop v)) k (mkWorld (d ++ L) lg)
  = k tt (mkWorld (d ++ setStyle i prop v L) lg).
Proof. unfold bind, write, setStyle. cbn. now rewrite alter_fresh. Qed.

Lemma step_setAttribute {B} i a v (k : unit -> M B) L lg :
  bind (write (setAttribute (N + i) a v)) k (mkWorld (d ++ L) lg)
  = k tt (mkWorld (d ++ setAttribute i a v L) lg).
Proof. unfold bind, write, setAttribute. cbn. now rewrite alter_fresh. Qed.

Lemma step_setClassName {B} i cls (k : unit -> M B) L lg :
  bind (write (setClassName (N + i) cls)) k (mkWorld (d ++ L) lg)
  = k tt (mkWorld (d ++ setClassName i cls L) lg).
Proof. apply step_setAttribute. Qed.

Lemma step_setInnerHTML {B} i markup (k : unit -> M B) L lg :
  childNodesOf L i = [] ->
  bind (write (setInnerHTML (N + i) markup)) k (mkWorld (d ++ L) lg)
  = k tt (mkWorld (d ++ setInnerHTML i markup L) lg).
Proof.
  intros Hc. unfold bind, write, setInnerHTML. cbn [dom log].
  assert (Hc' : childNodesOf (d ++ L) (N + i) = []).
  { unfold childNodesOf in *. now rewrite lookup_fresh. }
  rewrite Hc, Hc'. unfold orphan_all. cbn [fold_left].
  now rewrite alter_fresh.
Qed.

Lemma step_append {B} i j (k : unit -> M B) L lg :
  parentNodeOf L j = None ->
  bind (write (append (N + i) (N + j))) k (mkWorld (d ++ L) lg)
  = k tt (mkWorld
            (d ++ alter (set_childNodes (place None (N + j))) i
                        (alter (set_parentNode (Some (N + i))) j L)) lg).
Proof.
  intros Hp. unfold bind, write, append, insertBefore, remove. cbn [dom log].
  assert (Hp' : parentNodeOf (d ++ L) (N + j) = None).
  { unfold parentNodeOf in *. now rewrite lookup_fresh. }
  rewrite Hp'. now rewrite !alter_fresh.
Qed.
End Fresh.

Ltac norm_store :=
  match goal with
  | |- context [mkWorld (?d ++ ?L) _] =>
      let L' := eval cbn in L in change (d ++ L) with (d ++ L')
  end.

Ltac fresh_step HN :=
  first
    [ rewrite bind_assoc
    | rewrite step_ret
    | match goal with
      | |- context [bind (create ?name) ?k (mkWorld (?d ++ ?L) ?lg)] =>
          let n := eval cbn in (length L) in
          rewrite (step_create d _ HN name k L lg n eq_refl)
      end
    | rewrite (step_setStyle _ _ HN)
    | rewrite (step_setClassName _ _ HN)
    | rewrite (step_setAttribute _ _ HN)
    | rewrite (step_setInnerHTML _ _ HN) by reflexivity
    | rewrite (step_append _ _ HN) by reflexivity ];
  cbv beta; norm_store.

Lemma dropdownTree_fresh d N lg :
  length d = N ->
  Twitter.dropdownTree (mkWorld (d ++ []) lg)
  = (N, mkWorld (d ++ dropdownBlock N) lg).
Proof.
  intros HN. unfold Twitter.dropdownTree.
  cbn [Twitter.forEach Twitter.dropdownOptions]. unfold Twitter.addOption.
  repeat fresh_step HN.
  unfold ret. rewrite !Nat.add_0_r. reflexivity.
Qed.

(** [dropdownTree] adds the block and returns its first node. *)
Lemma dropdownTree_spec w :
  Twitter.dropdownTree w
  = (length (dom w),
     mkWorld (dom w ++ dropdownBlock (length (dom w))) (log w)).
Proof.
  destruct w as [d lg]. cbn [dom log].
  rewrite <- (app_nil_r d) at 1. now apply dropdownTree_fresh.
Qed.

#[global] Instance keeps_kind_frame : Frame keeps_kind.
Proof.
  split; unfold keeps_kind; intros; cbn; try (split; congruence).
  destruct H, H0. split; congruence.
Qed.

#[global] Instance keeps_kind_attribute_frame : AttributeFrame keeps_kind.
Proof. intros k v x. split; reflexivity. Qed.

#[global] Instance keeps_kind_style_frame : StyleFrame keeps_kind.
Proof. intros k v x. split; reflexivity. Qed.

Lemma evolves_isElement d d' n :
  evolves keeps_kind d d' -> isElement d n = true -> isElement d' n = true.
Proof.
  intros H. unfold isElement.
  destruct (d !! n) as [nd |] eqn:Hnd; [| discriminate].
  destruct (H n nd Hnd) as (nd' & -> & Hk & _). now rewrite Hk.
Qed.

Lemma isElement_lt d n : isElement d n = true -> n < length d.
Proof.
  unfold isElement. destruct (d !! n) eqn:E; [| discriminate].
  intros _. now apply lookup_lt_Some in E.
Qed.

Lemma parentElement_Some d n p :
  parentElement d n = Some p ->
  parentNodeOf d n = Some p /\ isElement d p = true /\ n < length d.
Proof.
  unfold parentElement. destruct (parentNodeOf d n) as [q |] eqn:E; [| discriminate].
  destruct (isElement d q) eqn:Eq; [| discriminate].
  intros [= <-]. repeat split; auto.
  unfold parentNodeOf in E. destruct (d !! n) eqn:En; [| discriminate].
  now apply lookup_lt_Some in En.
Qed.

Lemma parentElement_intro d n p :
  parentNodeOf d n = Some p -> isElement d p = true -> parentElement d n = Some p.
Proof. intros H1 H2. unfold parentElement. now rewrite H1, H2. Qed.

(** *** Consistent stores *)

Lemma combine_seq_lookup (d : list Node) : forall s n nd,
  d !! n = Some nd -> In (s + n, nd) (combine (seq s (length d)) d).
Proof.
  induction d as [| x d IH]; intros s n nd H; [discriminate |].
  destruct n as [| n]; cbn in *.
  - injection H as ->. left. f_equal. lia.
  - right. replace (s + S n) with (S s + n) by lia. now apply IH.
Qed.

Lemma consistent_links d n nd :
  consistent d = true -> d !! n = Some nd -> links_ok d n nd = true.
Proof.
  intros Hc Hn. unfold consistent in Hc. rewrite forallb_forall in Hc.
  apply (Hc (n, nd)). now apply (combine_seq_lookup d 0 n nd).
Qed.

Lemma consistent_parent_lt d n q :
  consistent d = true -> parentNodeOf d n = Some q -> q < length d.
Proof.
  intros Hc Hp. unfold parentNodeOf in Hp.
  destruct (d !! n) as [nd |] eqn:Hn; [| discriminate].
  pose proof (consistent_links d n nd Hc Hn) as Hl.
  unfold links_ok in Hl. rewrite Hp in Hl.
  apply andb_prop in Hl as [Hl _]. apply andb_prop in Hl as [_ Hl].
  apply andb_prop in Hl as [Hl _].
  unfold childNodesOf in Hl. destruct (d !! q) eqn:Hq; [| discriminate Hl].
  now apply lookup_lt_Some in Hq.
Qed.

(** *** Nodes an insertion leaves alone *)

Lemma insertBefore_lookup_other parent node ref d m :
  m <> parent -> m <> node -> parentNodeOf d node <> Some m ->
  insertBefore parent node ref d !! m = d !! m.
Proof.
  intros H1 H2 H3. rewrite lookup_insertBefore, lookup_remove.
  unfold at_node. rewrite !(decide_False (P := parent = m)) by congruence.
  rewrite !(decide_False (P := node = m)) by congruence.
  destruct (parentNodeOf d node) as [p0 |]; [| reflexivity].
  rewrite decide_False by congruence. reflexivity.
Qed.

Lemma insertBefore_childNodes_other parent node ref d m :
  m <> parent -> parentNodeOf d node <> Some m ->
  childNodesOf (insertBefore parent node ref d) m = childNodesOf d m.
Proof.
  intros H1 H3. unfold childNodesOf. rewrite lookup_insertBefore, lookup_remove.
  unfold at_node. rewrite !(decide_False (P := parent = m)) by congruence.
  destruct (parentNodeOf d node) as [p0 |].
  - rewrite (decide_False (P := p0 = m)) by congruence.
    destruct (decide (node = m)); destruct (d !! m); reflexivity.
  - destruct (decide (node = m)); destruct (d !! m); reflexivity.
Qed.

Lemma parentNodeOf_setAttribute n k v d m :
  parentNodeOf (setAttribute n k v d) m = parentNodeOf d m.
Proof.
  unfold parentNodeOf, setAttribute. rewrite lookup_alter_at. unfold at_node.
  destruct (decide (n = m)); destruct (d !! m); reflexivity.
Qed.

Lemma getAttribute_setAttribute_eq n k v d :
  n < length d -> getAttribute (setAttribute n k v d) n k = Some v.
Proof.
  intros Hn. unfold getAttribute, setAttribute. rewrite list_lookup_alter_eq.
  destruct (lookup_lt_is_Some_2 d n Hn) as [nd ->]. cbn.
  apply assoc_set_assoc_eq.
Qed.

Lemma hasAttribute_setAttribute n k v d :
  n < length d -> hasAttribute (setAttribute n k v d) n k = true.
Proof.
  intros Hn. unfold hasAttribute. now rewrite getAttribute_setAttribute_eq.
Qed.

Lemma length_setAttribute n k v d : length (setAttribute n k v d) = length d.
Proof. apply length_alter. Qed.

Lemma getAttribute_app_l d l n k :
  n < length d -> getAttribute (d ++ l) n k = getAttribute d n k.
Proof. intros H. unfold getAttribute. now rewrite lookup_app_l. Qed.

Lemma parentNodeOf_app_l d l n :
  n < length d -> parentNodeOf (d ++ l) n = parentNodeOf d n.
Proof. intros H. unfold parentNodeOf. now rewrite lookup_app_l. Qed.

(** *** What lines 118-122 compute *)

Lemma findBookmarkButton_found element t b p w :
  closest (dom w) element (ByAttr "data-testid" "tweet") = Some t ->
  querySelector (dom w) t (ByAttr "data-testid" "bookmark") = Some b ->
  parentElement (dom w) b = Some p ->
  hasAttribute (dom w) p "data-dialect-processed" = false ->
  Twitter.findBookmarkButton element w
  = (Some p, mkWorld (setAttribute p "data-dialect-processed" "true" (dom w))
                     (log w)).
Proof.
  intros H1 H2 H3 H4. unfold Twitter.findBookmarkButton, bind, read, write, ret.
  cbn. rewrite H1. cbn. rewrite H2. cbn. rewrite H3. cbn. now rewrite H4.
Qed.

Lemma createDropdown_spec likeButton w :
  Twitter.createDropdown likeButton w
  = (length (dom w),
     mkWorld (Twitter.insertAfter likeButton (length (dom w))
                (dom w ++ dropdownBlock (length (dom w))))
             (log w)).
Proof.
  unfold Twitter.createDropdown, bind. rewrite dropdownTree_spec. reflexivity.
Qed.

Lemma bookmarkDropdown_found element t b p w :
  closest (dom w) element (ByAttr "data-testid" "tweet") = Some t ->
  querySelector (dom w) t (ByAttr "data-testid" "bookmark") = Some b ->
  parentElement (dom w) b = Some p ->
  hasAttribute (dom w) p "data-dialect-processed" = false ->
  Twitter.bookmarkDropdown element w
  = (tt, mkWorld (withDropdown p (dom w))
                 (log w ++ [DropdownInserted p (length (dom w))])).
Proof.
  intros H1 H2 H3 H4. unfold Twitter.bookmarkDropdown. unfold bind at 1.
  rewrite (findBookmarkButton_found element t b p w H1 H2 H3 H4).
  unfold bind at 1. rewrite createDropdown_spec. cbn [dom log].
  unfold bind, write, tell. cbn [dom log fst snd].
  unfold withDropdown. now rewrite length_setAttribute.
Qed.

Section WithDropdown.
Context (d : list Node) (p : NodeId).
Hypothesis Hp : isElement d p = true.
Hypothesis Hpp : forall q, parentNodeOf d p = Some q -> q < length d.

Local Abbreviation N := (length d).
Local Abbreviation marked := (setAttribute p "data-dialect-processed" "true" d).
Local Abbreviation D0 := (marked ++ dropdownBlock N).
Local Abbreviation D1 := (Twitter.insertAfter p N D0).

Lemma p_lt : p < N.
Proof. now apply isElement_lt. Qed.

Lemma length_D0 : length D0 = N + 8.
Proof. rewrite length_app, length_setAttribute. reflexivity. Qed.

Lemma length_D1 : length D1 = N + 8.
Proof.
  unfold Twitter.insertAfter. destruct (parentNodeOf D0 p);
    now rewrite ?length_insertBefore, length_D0.
Qed.

Lemma parent_p_D0 : parentNodeOf D0 p = parentNodeOf d p.
Proof.
  rewrite parentNodeOf_app_l by (rewrite length_setAttribute; apply p_lt).
  apply parentNodeOf_setAttribute.
Qed.

Lemma parent_N_D0 : parentNodeOf D0 N = None.
Proof.
  unfold parentNodeOf. rewrite lookup_app_r by (rewrite length_setAttribute; lia).
  rewrite length_setAttribute, Nat.sub_diag. reflexivity.
Qed.

Lemma parent_N_D1 : parentNodeOf D1 N = parentNodeOf d p.
Proof.
  unfold Twitter.insertAfter. rewrite parent_p_D0.
  destruct (parentNodeOf d p) as [q |] eqn:Hq.
  - apply insertBefore_parent; [rewrite length_D0; lia |].
    specialize (Hpp q eq_refl). lia.
  - apply parent_N_D0.
Qed.

Lemma evolves_withDropdown R `{!Frame R} : evolves R D0 (withDropdown p d).
Proof.
  unfold withDropdown.
  refine (evolves_trans R _ D1 _ _ (evolves_append R _ _ _)).
  unfold Twitter.insertAfter. destruct (parentNodeOf D0 p).
  - refine (evolves_insertBefore R _ _ _ _).
  - refine (evolves_refl R _).
Qed.

Lemma withDropdown_marked :
  getAttribute (withDropdown p d) p "data-dialect-processed" = Some "true".
Proof.
  pose proof p_lt as Hlt.
  rewrite (evolves_getAttribute D0) by
    (first [apply evolves_withDropdown; exact _ | rewrite length_D0; lia]).
  rewrite getAttribute_app_l by now rewrite length_setAttribute.
  now apply getAttribute_setAttribute_eq.
Qed.

Lemma withDropdown_isElement n :
  isElement d n = true -> isElement (withDropdown p d) n = true.
Proof.
  intros Hn. apply (evolves_isElement D0); [apply evolves_withDropdown; exact _ |].
  pose proof (isElement_lt _ _ Hn) as Hlt.
  unfold isElement in *. rewrite lookup_app_l by now rewrite length_setAttribute.
  unfold setAttribute. rewrite lookup_alter_at. unfold at_node.
  destruct (decide (p = n)); destruct (d !! n); auto.
Qed.

Lemma withDropdown_parent : parentElement (withDropdown p d) N = Some p.
Proof.
  pose proof p_lt as Hlt. apply parentElement_intro.
  - unfold withDropdown, append. apply insertBefore_parent.
    + rewrite length_D1. lia.
    + lia.
  - now apply withDropdown_isElement.
Qed.

Lemma withDropdown_last : last (childNodesOf (withDropdown p d) p) = Some N.
Proof.
  pose proof p_lt as Hlt. unfold withDropdown, append.
  apply insertBefore_None_last; [rewrite length_D1 |]; lia.
Qed.

Lemma withDropdown_parent_old n :
  n < N -> parentNodeOf (withDropdown p d) n = parentNodeOf d n.
Proof.
  intros Hn. unfold withDropdown, append.
  rewrite insertBefore_parent_other by lia.
  unfold Twitter.insertAfter. destruct (parentNodeOf D0 p).
  - rewrite insertBefore_parent_other by lia.
    rewrite parentNodeOf_app_l by now rewrite length_setAttribute.
    apply parentNodeOf_setAttribute.
  - rewrite parentNodeOf_app_l by now rewrite length_setAttribute.
    apply parentNodeOf_setAttribute.
Qed.

Lemma withDropdown_sibling b :
  parentElement d b = Some p -> parentElement (withDropdown p d) b = Some p.
Proof.
  intros Hb. apply parentElement_Some in Hb as (Hb & _ & Hlt).
  apply parentElement_intro; [| now apply withDropdown_isElement].
  now rewrite withDropdown_parent_old.
Qed.

Lemma withDropdown_block k :
  0 < k -> withDropdown p d !! (N + k) = dropdownBlock N !! k.
Proof.
  intros Hk. pose proof p_lt as Hlt. unfold withDropdown, append.
  rewrite insertBefore_lookup_other; [| lia | lia |].
  2:{ rewrite parent_N_D1. intros Hq. specialize (Hpp _ Hq). lia. }
  unfold Twitter.insertAfter. rewrite parent_p_D0.
  destruct (parentNodeOf d p) as [q |] eqn:Hq.
  - specialize (Hpp q eq_refl).
    rewrite insertBefore_lookup_other; [| lia | lia |].
    2:{ rewrite parent_N_D0. discriminate. }
    rewrite lookup_app_r by (rewrite length_setAttribute; lia).
    rewrite length_setAttribute. f_equal. lia.
  - rewrite lookup_app_r by (rewrite length_setAttribute; lia).
    rewrite length_setAttribute. f_equal. lia.
Qed.

Lemma withDropdown_container_children :
  childNodesOf (withDropdown p d) N = [N + 2].
Proof.
  pose proof p_lt as Hlt. unfold withDropdown, append.
  rewrite insertBefore_childNodes_other; [| lia |].
  2:{ rewrite parent_N_D1. intros Hq. specialize (Hpp _ Hq). lia. }
  assert (H0 : childNodesOf D0 N = [N + 2]).
  { unfold childNodesOf. rewrite lookup_app_r by (rewrite length_setAttribute; lia).
    rewrite length_setAttribute, Nat.sub_diag. reflexivity. }
  unfold Twitter.insertAfter. rewrite parent_p_D0.
  destruct (parentNodeOf d p) as [q |] eqn:Hq; [| exact H0].
  specialize (Hpp q eq_refl).
  rewrite insertBefore_childNodes_other; [exact H0 | lia |].
  rewrite parent_N_D0. discriminate.
Qed.

Lemma withDropdown_container_class :
  className (withDropdown p d) N = "dialect-dropdown-container".
Proof.
  unfold className.
  rewrite (evolves_getAttribute D0) by
    (first [apply evolves_withDropdown; exact _ | rewrite length_D0; lia]).
  unfold getAttribute. rewrite lookup_app_r by (rewrite length_setAttribute; lia).
  rewrite length_setAttribute, Nat.sub_diag. reflexivity.
Qed.
End WithDropdown.

(* ===================================================================== *)
(** ** Every phase of a dispatch keeps nodes, kinds and attribute names,
       and only lines 118-122 log a dropdown *)
(* ===================================================================== *)

Lemma evolves_insertAfter R `{!Frame R} likeButton dropdown d :
  evolves R d (Twitter.insertAfter likeButton dropdown d).
Proof.
  unfold Twitter.insertAfter. destruct (parentNodeOf d likeButton).
  - refine (evolves_insertBefore R _ _ _ _).
  - refine (evolves_refl R _).
Qed.

Ltac evolve_write R ::=
  first [ refine (evolves_setStyle R _ _ _ _)
        | refine (evolves_setAttribute R _ _ _ _)
        | refine (evolves_setClassName R _ _ _)
        | refine (evolves_classList_add R _ _ _)
        | refine (evolves_setInnerHTML R _ _ _)
        | refine (evolves_append R _ _ _)
        | refine (evolves_prepend R _ _ _)
        | refine (evolves_insertBefore R _ _ _ _)
        | refine (evolves_remove R _ _)
        | refine (evolves_replaceChildren R _ _ _)
        | refine (evolves_insertAfter R _ _ _) ].

#[global] Hint Extern 1 (Frame _) => exact _ : evolve.
#[global] Hint Extern 1 (AttributeFrame _) => exact _ : evolve.
#[global] Hint Extern 1 (StyleFrame _) => exact _ : evolve.

Section EvolvesAll.
Context (R : Node -> Node -> Prop)
        `{!Frame R} `{!AttributeFrame R} `{!StyleFrame R}.
Context (c : Collaborators) (options : NormalizedObserverOptions).

Lemma Evolves_forEach {A} (f : A -> M unit) l :
  (forall x, Evolves R (f x)) -> Evolves R (Twitter.forEach l f).
Proof. intros Hf. induction l as [| x l IH]; cbn; evolve; auto. Qed.

Lemma Evolves_addMargin element : Evolves R (addMargin element).
Proof. unfold addMargin. evolve. Qed.

Lemma Evolves_mount container u a : Evolves R (mount c options container u a).
Proof.
  unfold mount. refine (Evolves_bind R _ _ _ _).
  - simple apply Evolves_addMargin.
  - intros _. refine (Evolves_mount_tail R _ _ _ _ _).
Qed.

Lemma Evolves_gate cat st lv : Evolves R (gate cat st lv).
Proof. unfold gate. evolve. Qed.

Lemma Evolves_resolveAction container u api :
  Evolves R (resolveAction c options container u api).
Proof. unfold resolveAction, gate. evolve. Qed.

Lemma Evolves_classify container u : Evolves R (classify c options container u).
Proof. unfold classify, gate. evolve; simple apply Evolves_resolveAction. Qed.

Lemma Evolves_resume p r : Evolves R (resume c options p r).
Proof.
  unfold resume.
  destruct p, r; evolve;
    first [simple apply Evolves_classify | simple apply Evolves_resolveAction
          | simple apply Evolves_mount].
Qed.

Lemma Evolves_addOption oc o : Evolves R (Twitter.addOption oc o).
Proof. unfold Twitter.addOption. evolve. Qed.

Lemma Evolves_dropdownTree : Evolves R Twitter.dropdownTree.
Proof.
  unfold Twitter.dropdownTree. evolve.
  simple apply Evolves_forEach. intros. simple apply Evolves_addOption.
Qed.

Lemma Evolves_createDropdown lb : Evolves R (Twitter.createDropdown lb).
Proof. unfold Twitter.createDropdown. evolve. simple apply Evolves_dropdownTree. Qed.

Lemma Evolves_findBookmarkButton e : Evolves R (Twitter.findBookmarkButton e).
Proof. unfold Twitter.findBookmarkButton. evolve. Qed.

Lemma Evolves_bookmarkDropdown e : Evolves R (Twitter.bookmarkDropdown e).
Proof.
  unfold Twitter.bookmarkDropdown. evolve;
    first [simple apply Evolves_findBookmarkButton | simple apply Evolves_createDropdown].
Qed.

Lemma Evolves_twitter_getContainerForLink tt :
  Evolves R (Twitter.getContainerForLink tt).
Proof. unfold Twitter.getContainerForLink. evolve. Qed.

Lemma Evolves_extractCandidate lp e : Evolves R (Twitter.extractCandidate lp e).
Proof.
  unfold Twitter.extractCandidate. evolve.
  simple apply Evolves_twitter_getContainerForLink.
Qed.

Lemma Evolves_locateAndFetch lp e : Evolves R (Twitter.locateAndFetch c lp e).
Proof.
  unfold Twitter.locateAndFetch. evolve. simple apply Evolves_extractCandidate.
Qed.

Lemma Evolves_twitter_handleNewNode e : Evolves R (Twitter.handleNewNode c e).
Proof.
  unfold Twitter.handleNewNode. evolve;
    first [simple apply Evolves_bookmarkDropdown | simple apply Evolves_locateAndFetch].
Qed.

Lemma Evolves_farcaster_getContainerForLink ct :
  Evolves R (Farcaster.getContainerForLink ct).
Proof. unfold Farcaster.getContainerForLink. evolve. Qed.

Lemma Evolves_farcaster_handleNewNode e :
  Evolves R (Farcaster.handleNewNode c options e).
Proof.
  unfold Farcaster.handleNewNode. evolve;
    first [simple apply Evolves_farcaster_getContainerForLink | simple apply Evolves_classify].
Qed.
End EvolvesAll.

Section LogsAll.
Context (c : Collaborators) (options : NormalizedObserverOptions).

Lemma Logs_weaken (P Q : Effect -> Prop) {A} (m : M A) :
  (forall e, P e -> Q e) -> Logs P m -> Logs Q m.
Proof.
  intros HPQ Hm w. destruct (Hm w) as (l & E & F).
  exists l. split; [exact E |]. eapply Forall_impl; eauto.
Qed.

Lemma Logs_noEffect_eq {A} (m : M A) w :
  Logs noEffect m -> log (snd (m w)) = log w.
Proof.
  intros Hm. destruct (Hm w) as (l & E & F).
  destruct l as [| e l]; [now rewrite app_nil_r in E |].
  inversion F as [| ? ? He]. destruct He.
Qed.

Lemma Logs_forEach P {A} (f : A -> M unit) l :
  (forall x, Logs P (f x)) -> Logs P (Twitter.forEach l f).
Proof. intros Hf. induction l as [| x l IH]; cbn; logs; auto. Qed.

Lemma Logs_addMargin P element : Logs P (addMargin element).
Proof. unfold addMargin. logs. Qed.

Lemma Logs_mount container u a : Logs notDropdown (mount c options container u a).
Proof. unfold mount, createAction. logs. simple apply Logs_addMargin. Qed.

Lemma Logs_resolveAction container u api :
  Logs notDropdown (resolveAction c options container u api).
Proof. unfold resolveAction, gate. logs. Qed.

Lemma Logs_classify container u :
  Logs notDropdown (classify c options container u).
Proof. unfold classify, gate. logs; simple apply Logs_resolveAction. Qed.

Lemma Logs_resume p r : Logs notDropdown (resume c options p r).
Proof.
  unfold resume.
  destruct p, r; logs;
    first [simple apply Logs_classify | simple apply Logs_resolveAction | simple apply Logs_mount].
Qed.

Lemma Logs_addOption oc o : Logs noEffect (Twitter.addOption oc o).
Proof. unfold Twitter.addOption. logs. Qed.

Lemma Logs_dropdownTree : Logs noEffect Twitter.dropdownTree.
Proof.
  unfold Twitter.dropdownTree. logs.
  simple apply Logs_forEach. intros. simple apply Logs_addOption.
Qed.

Lemma Logs_twitter_getContainerForLink tt :
  Logs noEffect (Twitter.getContainerForLink tt).
Proof. unfold Twitter.getContainerForLink. logs. Qed.

Lemma Logs_extractCandidate lp e : Logs noEffect (Twitter.extractCandidate lp e).
Proof.
  unfold Twitter.extractCandidate. logs.
  simple apply Logs_twitter_getContainerForLink.
Qed.

Lemma Logs_locateAndFetch lp e : Logs notDropdown (Twitter.locateAndFetch c lp e).
Proof.
  unfold Twitter.locateAndFetch. logs.
  eapply Logs_weaken; [| apply Logs_extractCandidate]. intros e0 [].
Qed.
End LogsAll.

(** The synchronous part after the dropdown logs nothing, or the fetch of
    the shortened URL. *)
Lemma locateAndFetch_log c lp e w :
  log (snd (Twitter.locateAndFetch c lp e w)) = log w \/
  exists url, log (snd (Twitter.locateAndFetch c lp e w)) = log w ++ [Fetch url].
Proof.
  unfold Twitter.locateAndFetch, bind.
  pose proof (Logs_noEffect_eq (Twitter.extractCandidate lp e) w
                (Logs_extractCandidate lp e)) as Hl.
  destruct (Twitter.extractCandidate lp e w) as [[[anchor container] |] w1];
    cbn in Hl.
  - right. exists (toUSVString (hrefOf c (dom w1) anchor)).
    unfold bind, read, tell, ret. cbn [fst snd log dom]. now rewrite Hl.
  - left. exact Hl.
Qed.

Lemma handleNewNode_div c element w :
  localNameOf (dom w) element = "div" ->
  Twitter.handleNewNode c element w
  = Twitter.locateAndFetch c (Twitter.findLinkPreview (dom w) element) element
      (snd (Twitter.bookmarkDropdown element w)).
Proof.
  intros Hd. unfold Twitter.handleNewNode, bind, read. cbn. rewrite Hd. cbn.
  now destruct (Twitter.bookmarkDropdown element w) as [[] w1].
Qed.

Lemma handleNewNode_not_div c element w :
  localNameOf (dom w) element <> "div" ->
  Twitter.handleNewNode c element w = (Finished, w).
Proof.
  intros Hd. unfold Twitter.handleNewNode, bind, read. cbn.
  destruct (String.eqb_spec (localNameOf (dom w) element) "div");
    [contradiction | reflexivity].
Qed.

(* ===================================================================== *)
(** ** At most one dropdown per marked element *)
(* ===================================================================== *)

Lemma dropdownCount_app lb l1 l2 :
  dropdownCount lb (l1 ++ l2) = dropdownCount lb l1 + dropdownCount lb l2.
Proof. unfold dropdownCount. now rewrite List.filter_app, length_app. Qed.

Lemma dropdownCount_quiet lb l : Forall notDropdown l -> dropdownCount lb l = 0.
Proof.
  unfold dropdownCount. induction 1 as [| e l He _ IH]; [reflexivity |].
  cbn. destruct e; cbn in *; try exact IH. destruct He.
Qed.

Lemma findBookmarkButton_cases element w :
  Twitter.findBookmarkButton element w = (None, w) \/
  exists t b p,
    closest (dom w) element (ByAttr "data-testid" "tweet") = Some t /\
    querySelector (dom w) t (ByAttr "data-testid" "bookmark") = Some b /\
    parentElement (dom w) b = Some p /\
    hasAttribute (dom w) p "data-dialect-processed" = false.
Proof.
  unfold Twitter.findBookmarkButton, bind, read, write, ret. cbn [dom log].
  destruct (closest (dom w) element (ByAttr "data-testid" "tweet"))
    as [t |] eqn:H1; [| now left].
  destruct (querySelector (dom w) t (ByAttr "data-testid" "bookmark"))
    as [b |] eqn:H2; [| now left].
  destruct (parentElement (dom w) b) as [p |] eqn:H3; [| now left].
  destruct (hasAttribute (dom w) p "data-dialect-processed") eqn:H4;
    [now left |].
  right. exists t, b, p. auto.
Qed.

Lemma bookmarkDropdown_cases element w :
  Twitter.bookmarkDropdown element w = (tt, w) \/
  exists lb,
    isElement (dom w) lb = true /\
    hasAttribute (dom w) lb "data-dialect-processed" = false /\
    Twitter.bookmarkDropdown element w
    = (tt, mkWorld (withDropdown lb (dom w))
                   (log w ++ [DropdownInserted lb (length (dom w))])).
Proof.
  destruct (findBookmarkButton_cases element w)
    as [Hnone | (t & b & p & H1 & H2 & H3 & H4)].
  - left. unfold Twitter.bookmarkDropdown. unfold bind at 1.
    now rewrite Hnone.
  - right. exists p. split; [| split; [exact H4 |]].
    + now apply parentElement_Some in H3.
    + now apply (bookmarkDropdown_found element t b p).
Qed.

Lemma invariant_quiet {A} (m : M A) w :
  Evolves keeps_attribute_names m -> Logs notDropdown m ->
  dropdownInvariant w -> dropdownInvariant (snd (m w)).
Proof.
  intros He Hl Hinv lb. destruct (Hl w) as (l & E & F).
  destruct (Hinv lb) as [Hle Hmark].
  rewrite E, dropdownCount_app, (dropdownCount_quiet lb l F), Nat.add_0_r.
  split; [exact Hle |].
  intros H1. apply (evolves_hasAttribute (dom w)); [apply He | auto].
Qed.

Lemma invariant_bookmarkDropdown element w :
  dropdownInvariant w ->
  dropdownInvariant (snd (Twitter.bookmarkDropdown element w)).
Proof.
  intros Hinv.
  pose proof (Evolves_bookmarkDropdown keeps_attribute_names element w) as Hev.
  destruct (bookmarkDropdown_cases element w) as [-> | (p & Hp & Hun & Heq)];
    [exact Hinv |].
  rewrite Heq in *. intros lb. cbn [snd dom log] in *.
  destruct (Hinv lb) as [Hle Hmark].
  rewrite dropdownCount_app. unfold dropdownCount at 2 4. cbn.
  destruct (Nat.eqb_spec p lb) as [-> | Hne]; cbn.
  - assert (H0 : dropdownCount lb (log w) = 0).
    { destruct (dropdownCount lb (log w)) as [| [| n]]; [reflexivity | | lia].
      rewrite Hmark in Hun by reflexivity. discriminate. }
    rewrite H0. split; [lia |]. intros _.
    unfold hasAttribute. now rewrite withDropdown_marked.
  - rewrite Nat.add_0_r. split; [exact Hle |].
    intros H1. apply (evolves_hasAttribute (dom w)); auto.
Qed.

Lemma invariant_handleNewNode c element w :
  dropdownInvariant w ->
  dropdownInvariant (snd (Twitter.handleNewNode c element w)).
Proof.
  intros Hinv.
  destruct (String.eqb_spec (localNameOf (dom w) element) "div") as [Hd | Hd].
  - rewrite handleNewNode_div by exact Hd.
    apply invariant_quiet.
    + apply Evolves_locateAndFetch; exact _.
    + apply Logs_locateAndFetch.
    + now apply invariant_bookmarkDropdown.
  - now rewrite handleNewNode_not_div.
Qed.

Lemma invariant_step c options s st :
  dropdownInvariant (world s) ->
  dropdownInvariant (world (step (Twitter.handleNewNode c) (resume c options) s st)).
Proof.
  intros Hinv. destruct st as [element | task r]; cbn.
  - unfold dispatch.
    pose proof (invariant_handleNewNode c element (world s) Hinv) as H.
    now destruct (Twitter.handleNewNode c element (world s)).
  - unfold settle.
    destruct (tasks s !! task) as [[element [| p]] |]; try exact Hinv.
    pose proof (invariant_quiet (resume c options p r) (world s)
                  (Evolves_resume keeps_attribute_names c options p r)
                  (Logs_resume c options p r) Hinv) as H.
    now destruct (resume c options p r (world s)).
Qed.

Lemma invariant_run c options schedule : forall s,
  dropdownInvariant (world s) ->
  dropdownInvariant
    (world (run (Twitter.handleNewNode c) (resume c options) s schedule)).
Proof.
  induction schedule as [| st schedule IH]; intros s Hinv; cbn; [exact Hinv |].
  apply IH. now apply invariant_step.
Qed.

Lemma invariant_initial d : dropdownInvariant (world (initial d)).
Proof. intros lb. cbn. split; [lia | discriminate]. Qed.



(* ===================================================================== *)
(** ** The observer callback on batches of elements *)
(* ===================================================================== *)

Section CallbackOnElements.
Context (handleNewNode : NodeId -> M Outcome).
Hypothesis handleNewNode_kind : forall e, Evolves keeps_kind (handleNewNode e).

Lemma dispatch_isElement element s n :
  isElement (dom (world s)) n = true ->
  isElement (dom (world (dispatch handleNewNode element s))) n = true.
Proof.
  intros Hn. unfold dispatch.
  pose proof (handleNewNode_kind element (world s)) as Hev.
  destruct (handleNewNode element (world s)) as [out w]. cbn in *.
  now apply (evolves_isElement (dom (world s))).
Qed.

Lemma dispatch_tasks element s :
  map fst (tasks (dispatch handleNewNode element s))
  = map fst (tasks s) ++ [element].
Proof.
  unfold dispatch. destruct (handleNewNode element (world s)) as [out w].
  cbn. now rewrite map_app.
Qed.

Lemma addedNodes_loop_elements nodes : forall s,
  Forall (fun n => isElement (dom (world s)) n = true) nodes ->
  exists s',
    addedNodes_loop handleNewNode nodes s = (s', false) /\
    map fst (tasks s') = map fst (tasks s) ++ nodes /\
    (forall n, isElement (dom (world s)) n = true ->
               isElement (dom (world s')) n = true).
Proof.
  induction nodes as [| node rest IH]; intros s Hall; cbn.
  - exists s. split; [reflexivity |]. split; [now rewrite app_nil_r | auto].
  - inversion Hall as [| ? ? Hnode Hrest]; subst. rewrite Hnode. cbn.
    destruct (IH (dispatch handleNewNode node s)) as (s' & Hloop & Htasks & Hkeep).
    { eapply Forall_impl; [exact Hrest |].
      intros n Hn. now apply dispatch_isElement. }
    exists s'. split; [exact Hloop |]. split.
    + rewrite Htasks, dispatch_tasks, <- app_assoc. reflexivity.
    + intros n Hn. apply Hkeep. now apply dispatch_isElement.
Qed.

(** When every inserted node of a batch is an element, each is passed to
    [handleNewNode] once, in order. *)
Lemma observerCallback_elements mutations : forall s,
  Forall (fun n => isElement (dom (world s)) n = true)
         (concat (map addedNodes mutations)) ->
  map fst (tasks (observerCallback handleNewNode mutations s))
  = map fst (tasks s) ++ concat (map addedNodes mutations).
Proof.
  induction mutations as [| mutation rest IH]; intros s Hall; cbn.
  - now rewrite app_nil_r.
  - cbn in Hall. apply Forall_app in Hall as [Hhere Hrest].
    destruct (addedNodes_loop_elements (addedNodes mutation) s Hhere)
      as (s' & Hloop & Htasks & Hkeep).
    rewrite Hloop. rewrite IH.
    + now rewrite Htasks, <- app_assoc.
    + eapply Forall_impl; [exact Hrest |]. intros n Hn. now apply Hkeep.
Qed.
End CallbackOnElements.

(** Both observers fall under the lemma above. *)
Lemma observers_keep_kind c options :
  (forall e, Evolves keeps_kind (Farcaster.handleNewNode c options e)) /\
  (forall e, Evolves keeps_kind (Twitter.handleNewNode c e)).
Proof.
  split; intros e.
  - apply Evolves_farcaster_handleNewNode; exact _.
  - apply Evolves_twitter_handleNewNode; exact _.
Qed.

(** Two dispatches of the same card that are both in flight: the mount
    point (node 3) ends with the render of the dispatch that mounts last as
    its only child. *)
Lemma interleaved_mounts_supersede :
  let s := run (Twitter.handleNewNode (collaborators trusted)) (resume (collaborators trusted) defaultOptions)
               (initial cardPage)
               (Dispatch 1 :: Dispatch 1 ::
                settlements 0 "first" true ++ settlements 1 "second" true) in
  tasks s = [(1, Finished); (1, Finished)] /\
  childNodesOf (dom (world s)) 3 = [11] /\
  last (log (world s)) = Some (Rendered 11 "second" "https://example.com/x" "example.com"
                                  "callbacks" (n_securityLevel defaultOptions)).
Proof. repeat split. Qed.

(* ===================================================================== *)
(** ** The fuel of [closest] and [querySelector] is enough

    In a consistent store whose parent links have no cycle, the walks of
    [closest] and of the descendant search end before the fuel does: more
    fuel gives the same result. *)
(* ===================================================================== *)

Lemma example_pages_forest :
  forest castPage = true /\ forest plainCastPage = true /\
  forest cardPage = true /\ forest cardPageWithWrapper = true /\
  forest textPage = true /\ forest batchPage = true.
Proof. repeat split. Qed.

Lemma rooted_fuel_closest d sel k : forall n f,
  rooted_fuel d k n = true -> k <= f ->
  closest_fuel d f n sel = closest_fuel d k n sel.
Proof.
  induction k as [| k IH]; intros n f Hr Hf; [discriminate |].
  destruct f as [| f]; [lia |]. cbn in *.
  destruct (matches d sel n); [reflexivity |].
  unfold parentElement. destruct (parentNodeOf d n) as [p |]; [| reflexivity].
  destruct (isElement d p); [| reflexivity].
  apply IH; [exact Hr | lia].
Qed.

Lemma forest_rooted d n :
  forest d = true -> n < length d -> rooted_fuel d (length d) n = true.
Proof.
  intros Hf Hn. unfold forest in Hf. rewrite forallb_forall in Hf.
  apply Hf. apply in_seq. lia.
Qed.

Lemma closest_fuel_outside d sel n f :
  length d <= n -> closest_fuel d f n sel = None.
Proof.
  intros Hn. destruct f as [| f]; [reflexivity |]. cbn.
  assert (Hnone : d !! n = None) by now apply lookup_ge_None_2.
  unfold matches, isElement, parentElement, parentNodeOf. now rewrite Hnone.
Qed.

Lemma closest_fuel_adequate d n sel f :
  forest d = true -> length d <= f ->
  closest_fuel d f n sel = closest d n sel.
Proof.
  intros Hf Hle. unfold closest.
  destruct (Nat.lt_ge_cases n (length d)) as [Hn | Hn].
  - apply rooted_fuel_closest; [now apply forest_rooted | exact Hle].
  - now rewrite !closest_fuel_outside.
Qed.

Lemma consistent_child d m c :
  consistent d = true -> In c (childNodesOf d m) -> parentNodeOf d c = Some m.
Proof.
  intros Hc Hin. unfold childNodesOf in Hin.
  destruct (d !! m) as [nd |] eqn:Hm; [| destruct Hin].
  pose proof (consistent_links d m nd Hc Hm) as Hl.
  unfold links_ok in Hl.
  apply andb_prop in Hl as [Hl _]. apply andb_prop in Hl as [Hl _].
  rewrite forallb_forall in Hl. specialize (Hl c Hin).
  destruct (parentElement d c) as [p |] eqn:Hp; [| discriminate].
  apply Nat.eqb_eq in Hl. subst p.
  now apply parentElement_Some in Hp.
Qed.

Lemma level_rooted d n (Hc : consistent d = true) k : forall c j,
  In c (level d n k) -> rooted_fuel d j c = true -> k < j.
Proof.
  induction k as [| k IH]; intros c j Hin Hr.
  - destruct j; [discriminate | lia].
  - cbn in Hin. apply in_flat_map in Hin as (m & Hm & Hcm).
    pose proof (consistent_child d m c Hc Hcm) as Hp.
    destruct j as [| j]; [discriminate |]. cbn in Hr. rewrite Hp in Hr.
    specialize (IH m j Hm Hr). lia.
Qed.

Lemma level_empty d n k :
  consistent d = true -> forest d = true -> length d <= S k ->
  level d n (S k) = [].
Proof.
  intros Hc Hf Hk.
  destruct (level d n (S k)) as [| c l] eqn:E; [reflexivity |].
  assert (Hin : In c (level d n (S k))) by (rewrite E; now left).
  assert (Hlt : c < length d).
  { cbn in Hin. apply in_flat_map in Hin as (m & _ & Hcm).
    pose proof (consistent_child d m c Hc Hcm) as Hp.
    unfold parentNodeOf in Hp. destruct (d !! c) eqn:Ec; [| discriminate].
    now apply lookup_lt_Some in Ec. }
  pose proof (level_rooted d n Hc (S k) c (length d) Hin
                (forest_rooted d c Hf Hlt)).
  lia.
Qed.

Lemma flat_map_ext_in {A B} (f g : A -> list B) l :
  (forall x, In x l -> f x = g x) -> flat_map f l = flat_map g l.
Proof.
  induction l as [| x l IH]; intros H; cbn; [reflexivity |].
  rewrite H by now left. f_equal. apply IH. intros y Hy. apply H. now right.
Qed.

Lemma level_child d n c :
  In c (childNodesOf d n) ->
  forall k y, In y (level d c k) -> In y (level d n (S k)).
Proof.
  intros Hc. induction k as [| k IH]; intros y Hy.
  - cbn in Hy. destruct Hy as [<- | []]. cbn. now rewrite app_nil_r.
  - cbn in Hy. apply in_flat_map in Hy as (m & Hm & Hym).
    change (level d n (S (S k)))
      with (flat_map (childNodesOf d) (level d n (S k))).
    apply in_flat_map. exists m. split; [now apply IH | exact Hym].
Qed.

Lemma level_child_empty d n c k :
  In c (childNodesOf d n) -> level d n (S k) = [] -> level d c k = [].
Proof.
  intros Hc Hl. destruct (level d c k) as [| x l] eqn:E; [reflexivity |].
  assert (Hx : In x (level d n (S k))).
  { apply (level_child d n c Hc k). rewrite E. now left. }
  rewrite Hl in Hx. destruct Hx.
Qed.

Lemma descendants_fuel_stable d f : forall n,
  level d n (S f) = [] ->
  descendants_fuel d (S f) n = descendants_fuel d f n.
Proof.
  induction f as [| f IH]; intros n Hl.
  - cbn in Hl. rewrite app_nil_r in Hl. cbn. now rewrite Hl.
  - change (descendants_fuel d (S (S f)) n)
      with (flat_map (fun c => c :: descendants_fuel d (S f) c)
                     (childNodesOf d n)).
    change (descendants_fuel d (S f) n)
      with (flat_map (fun c => c :: descendants_fuel d f c)
                     (childNodesOf d n)).
    apply flat_map_ext_in. intros c Hc. f_equal.
    apply IH. now apply (level_child_empty d n c).
Qed.

(** With at least as much fuel as the store has nodes, the descendants
    found are those found with exactly that much. *)
Lemma descendants_fuel_adequate d n f :
  consistent d = true -> forest d = true -> length d <= f ->
  descendants_fuel d f n = descendants d n.
Proof.
  intros Hc Hf Hle. unfold descendants.
  induction Hle as [| f Hle IH]; [reflexivity |].
  rewrite descendants_fuel_stable; [exact IH |].
  apply level_empty; [exact Hc | exact Hf | lia].
Qed.

(** The stores the scenario runs end in are consistent forests again. *)
Lemma scenario_runs_stay_well_formed :
  let resume := resume (collaborators trusted) defaultOptions in
  let ok d := consistent d && forest d in
  ok (dom (world (run (Twitter.handleNewNode (collaborators trusted)) resume (initial cardPage)
                      (Dispatch 1 :: settlements 0 "action" true)))) = true /\
  ok (dom (world (run (Twitter.handleNewNode (collaborators trusted)) resume (initial cardPageWithWrapper)
                      (Dispatch 1 :: settlements 0 "action" false)))) = true /\
  ok (dom (world (run (Twitter.handleNewNode (collaborators trusted)) resume (initial textPage)
                      (Dispatch 3 :: settlements 0 "first" true ++
                       Dispatch 3 :: settlements 1 "second" true)))) = true /\
  ok (dom (snd (Twitter.handleNewNode (collaborators trusted) 7 (mkWorld cardPage [])))) = true /\
  ok (dom (world (run (Farcaster.handleNewNode (collaborators trusted)
                                               defaultOptions)
                      resume (initial plainCastPage)
                      [Dispatch 2; Dispatch 2]))) = true.
Proof. repeat split; vm_compute; reflexivity. Qed.

(* ===================================================================== *)
(** ** Further properties: the observer callback on any batch *)
(* ===================================================================== *)

Lemma takeWhile_app {A} (f : A -> bool) l1 l2 :
  takeWhile f (l1 ++ l2) =
  if forallb f l1 then l1 ++ takeWhile f l2 else takeWhile f l1.
Proof.
  induction l1 as [| x l1 IH]; cbn; [reflexivity |].
  destruct (f x); cbn; [| reflexivity]. rewrite IH.
  now destruct (forallb f l1).
Qed.

Lemma takeWhile_all {A} (f : A -> bool) l :
  forallb f l = true -> takeWhile f l = l.
Proof.
  induction l as [| x l IH]; cbn; [reflexivity |].
  destruct (f x); cbn; [| discriminate]. intros H. now rewrite IH.
Qed.

Lemma takeWhile_ext_in {A} (f g : A -> bool) l :
  Forall (fun x => f x = g x) l -> takeWhile f l = takeWhile g l.
Proof.
  induction 1 as [| x l Hx _ IH]; cbn; [reflexivity |].
  rewrite Hx, IH. reflexivity.
Qed.

Lemma forallb_ext_in {A} (f g : A -> bool) l :
  Forall (fun x => f x = g x) l -> forallb f l = forallb g l.
Proof.
  induction 1 as [| x l Hx _ IH]; cbn; [reflexivity |].
  rewrite Hx, IH. reflexivity.
Qed.

Lemma sameKinds_refl s : sameKinds s s.
Proof. intros n Hn. split; [exact Hn | reflexivity]. Qed.

Lemma sameKinds_trans s1 s2 s3 :
  sameKinds s1 s2 -> sameKinds s2 s3 -> sameKinds s1 s3.
Proof.
  intros H12 H23 n Hn. destruct (H12 n Hn) as [Hn2 E2].
  destruct (H23 n Hn2) as [Hn3 E3]. split; [exact Hn3 | congruence].
Qed.

Section CallbackPrefix.
Context (handleNewNode : NodeId -> M Outcome).
Context (resume : Pending -> Response -> M Outcome).
Hypothesis handleNewNode_kind : forall e, Evolves keeps_kind (handleNewNode e).

Lemma sameKinds_dispatch element s :
  sameKinds s (dispatch handleNewNode element s).
Proof.
  intros n Hn. unfold dispatch.
  pose proof (handleNewNode_kind element (world s)) as Hev.
  destruct (handleNewNode element (world s)) as [out w]. cbn in *.
  destruct (lookup_lt_is_Some_2 _ _ Hn) as [nd Hnd].
  destruct (Hev n nd Hnd) as (nd' & Hnd' & Hty & _).
  split; [now apply lookup_lt_Some in Hnd' |].
  unfold isElement. now rewrite Hnd, Hnd', Hty.
Qed.

Lemma sameKinds_dispatches nodes : forall s,
  sameKinds s (run handleNewNode resume s (map Dispatch nodes)).
Proof.
  induction nodes as [| n nodes IH]; intros s; cbn.
  - apply sameKinds_refl.
  - eapply sameKinds_trans; [apply (sameKinds_dispatch n) | apply IH].
Qed.

Lemma sameKinds_Forall s s' (nodes : list NodeId) :
  sameKinds s s' ->
  Forall (fun n => n < length (dom (world s))) nodes ->
  Forall (fun n => n < length (dom (world s'))) nodes /\
  Forall (fun n => isElement (dom (world s')) n = isElement (dom (world s)) n)
         nodes.
Proof.
  intros Hk Hall. split; eapply Forall_impl; try exact Hall;
    intros n Hn; now destruct (Hk n Hn).
Qed.

Lemma addedNodes_loop_prefix nodes : forall s,
  Forall (fun n => n < length (dom (world s))) nodes ->
  addedNodes_loop handleNewNode nodes s =
  (run handleNewNode resume s
       (map Dispatch (takeWhile (isElement (dom (world s))) nodes)),
   negb (forallb (isElement (dom (world s))) nodes)).
Proof.
  induction nodes as [| node rest IH]; intros s Hall; cbn; [reflexivity |].
  inversion Hall as [| ? ? Hnode Hrest]; subst.
  destruct (isElement (dom (world s)) node) eqn:E; cbn; [| reflexivity].
  destruct (sameKinds_Forall s (dispatch handleNewNode node s) rest
              (sameKinds_dispatch node s) Hrest) as [Hlt Heq].
  rewrite (IH _ Hlt).
  now rewrite (takeWhile_ext_in _ _ _ Heq), (forallb_ext_in _ _ _ Heq).
Qed.

Lemma observerCallback_prefix mutations : forall s,
  Forall (fun n => n < length (dom (world s)))
         (concat (map addedNodes mutations)) ->
  observerCallback handleNewNode mutations s =
  run handleNewNode resume s
      (map Dispatch (takeWhile (isElement (dom (world s)))
                               (concat (map addedNodes mutations)))).
Proof.
  induction mutations as [| mutation rest IH]; intros s Hall; cbn;
    [reflexivity |].
  cbn in Hall. apply Forall_app in Hall as [Hhere Hrest].
  rewrite (addedNodes_loop_prefix _ _ Hhere), takeWhile_app.
  destruct (forallb (isElement (dom (world s))) (addedNodes mutation)) eqn:E;
    cbn; [| reflexivity].
  rewrite (takeWhile_all _ _ E).
  destruct (sameKinds_Forall s _ _ (sameKinds_dispatches (addedNodes mutation) s)
              Hrest) as [Hlt Heq].
  rewrite (IH _ Hlt), (takeWhile_ext_in _ _ _ Heq).
  unfold run. now rewrite map_app, fold_left_app.
Qed.
End CallbackPrefix.

(** X2: one call of the observer callback, on either page, is the run that
    calls [handleNewNode] on the longest prefix of elements of the inserted
    nodes, taken over all the records of the batch in order: the first node
    that is not an element ends the whole callback, whatever follows it. *)
Theorem callback_dispatches_element_prefix c options mutations s :
  Forall (fun n => n < length (dom (world s)))
         (concat (map addedNodes mutations)) ->
  let elements :=
    takeWhile (isElement (dom (world s))) (concat (map addedNodes mutations)) in
  observerCallback (Farcaster.handleNewNode c options) mutations s
  = run (Farcaster.handleNewNode c options) (resume c options) s
        (map Dispatch elements) /\
  observerCallback (Twitter.handleNewNode c) mutations s
  = run (Twitter.handleNewNode c) (resume c options) s (map Dispatch elements).
Proof.
  intros Hall elements. split.
  - apply observerCallback_prefix; [| exact Hall].
    exact (proj1 (observers_keep_kind c options)).
  - apply observerCallback_prefix; [| exact Hall].
    exact (proj2 (observers_keep_kind c options)).
Qed.

(** Two records on the batch page: a div, then a text node and the div
    again; only the first div is dispatched. *)
Lemma callback_dispatches_element_prefix_witness :
  let s := initial batchPage in
  let mutations := [mkMutation [2]; mkMutation [1; 2]] in
  takeWhile (isElement (dom (world s))) (concat (map addedNodes mutations)) = [2] /\
  observerCallback (Twitter.handleNewNode (collaborators trusted)) mutations s
  = run (Twitter.handleNewNode (collaborators trusted)) (resume (collaborators trusted) defaultOptions) s
        [Dispatch 2].
Proof.
  split; [reflexivity |].
  refine (proj2 (callback_dispatches_element_prefix
                   (collaborators trusted) defaultOptions
                   [mkMutation [2]; mkMutation [1; 2]] (initial batchPage) _)).
  repeat constructor.
Defined.

(* ===================================================================== *)
(** ** Further properties: pages that never start observing *)
(* ===================================================================== *)

Section Idle.
Context (handleNewNode : NodeId -> M Outcome).
Context (resume : Pending -> Response -> M Outcome).

Lemma idle_step w p e :
  idle w p -> idle w (pageStep handleNewNode resume p e).
Proof.
  intros Hp. pose proof Hp as (Hobs & Hsys & Hwhy).
  destruct e as [fulfilled | records | task r]; cbn.
  - destruct (registryInit p) as [[| |] |] eqn:Hinit; try exact Hp.
    destruct Hwhy as [Hroot | [Hnone | Hrej]]; try discriminate.
    destruct fulfilled; unfold idle; cbn.
    + rewrite Hroot. auto.
    + auto.
  - rewrite Hobs. exact Hp.
  - unfold idle. cbn. rewrite Hsys, settle_no_task. auto.
Qed.

Lemma idle_run w events : forall p,
  idle w p -> idle w (pageRun handleNewNode resume p events).
Proof.
  induction events as [| e events IH]; intros p Hp; cbn; [exact Hp |].
  apply IH. now apply idle_step.
Qed.
End Idle.

(** X3: three ways never to start.  When the Farcaster root is missing,
    when the Twitter root is missing (the [then] callback throws in
    [observe]), and when the promise of [init()] is rejected, no later
    event attaches the observer, calls [handleNewNode] or changes the
    world, a later settlement of [init()] included. *)
Theorem missing_root_or_rejected_init_never_observes
    handleNewNode resume w twitterReactRoot events :
  let inert p := observing p = false /\ system p = mkSystem w [] in
  inert (pageRun handleNewNode resume (setupFarcasterObserver None w) events) /\
  inert (pageRun handleNewNode resume (setupTwitterObserver None w) events) /\
  inert (pageRun handleNewNode resume (setupTwitterObserver twitterReactRoot w)
                 (InitSettles false :: events)).
Proof.
  intros inert.
  assert (H : forall p, idle w p ->
                        inert (pageRun handleNewNode resume p events)).
  { intros p Hp. destruct (idle_run handleNewNode resume w events p Hp)
      as (Hobs & Hsys & _). split; assumption. }
  repeat split; apply H; cbn; repeat split; auto.
Qed.

(* ===================================================================== *)
(** ** Further properties: every dispatch ends *)
(* ===================================================================== *)

Lemma resolveAction_stage c options container u api w :
  stage (fst (resolveAction c options container u api w)) <= 2.
Proof.
  unfold resolveAction, gate, bind, tell, ret.
  destruct api as [api |]; [| cbn; lia].
  destruct (String.eqb api ""); [cbn; lia |].
  rewrite checkSecurity_always_true. cbn. lia.
Qed.

Lemma classify_stage c options container u w :
  stage (fst (classify c options container u w)) <= 3.
Proof.
  unfold classify, gate, bind, tell, ret.
  rewrite !checkSecurity_always_true. cbn [negb fst snd].
  destruct (isInterstitial_flag (isInterstitial c u)); cbn [negb fst snd].
  - cbv beta iota zeta.
    pose proof (resolveAction_stage c options container u
                  (decodedActionUrl (isInterstitial c u))) as H.
    etransitivity; [apply H | lia].
  - cbn. lia.
Qed.

Lemma mount_then_finished c options container u a w :
  fst ((mount c options container u a ;;; ret Finished) w) = Finished.
Proof. unfold bind, ret. now destruct (mount c options container u a w). Qed.

(** Every settlement brings a dispatch strictly closer to its end. *)
Lemma resume_stage c options p r w :
  stage (fst (resume c options p r w)) < stage (Suspended p).
Proof.
  destruct p as [container | container u | container u state | container u a];
    destruct r as [| u' | j | a' | b]; cbn [resume stage];
    try (cbn; lia).
  - pose proof (classify_stage c options container u' w). lia.
  - pose proof (resolveAction_stage c options container u (mapUrl c j u) w). lia.
  - destruct (hasIsSupported c); [cbn; lia |].
    rewrite mount_then_finished. cbn. lia.
  - destruct b; [| cbn; lia]. rewrite mount_then_finished. cbn. lia.
Qed.

Lemma countIf_cons {A} (f : A -> bool) x l :
  countIf f (x :: l) = (if f x then 1 else 0) + countIf f l.
Proof. unfold countIf. cbn. now destruct (f x). Qed.

Lemma countIf_app {A} (f : A -> bool) l1 l2 :
  countIf f (l1 ++ l2) = countIf f l1 + countIf f l2.
Proof. unfold countIf. now rewrite List.filter_app, length_app. Qed.

Section Progress.
Context (handleNewNode : NodeId -> M Outcome).
Context (c : Collaborators) (options : NormalizedObserverOptions).

Lemma step_progress st s task element out :
  tasks s !! task = Some (element, out) ->
  exists out',
    tasks (step handleNewNode (resume c options) s st) !! task
    = Some (element, out') /\
    stage out' <= stage out - (if isSettleOf task st then 1 else 0).
Proof.
  intros Ht. destruct st as [e | t r]; cbn [step isSettleOf].
  - exists out. split; [| lia]. unfold dispatch.
    destruct (handleNewNode e (world s)) as [o w]. cbn.
    apply lookup_app_l_Some. exact Ht.
  - unfold settle. destruct (Nat.eqb_spec t task) as [-> | Hne].
    + rewrite Ht. destruct out as [| p].
      * exists Finished. split; [exact Ht | cbn; lia].
      * pose proof (resume_stage c options p r (world s)) as Hs.
        destruct (resume c options p r (world s)) as [o w]. cbn [fst] in Hs.
        exists o. split; [| lia]. cbn.
        apply list_lookup_insert_eq. now apply lookup_lt_Some in Ht.
    + exists out. split; [| lia].
      destruct (tasks s !! t) as [[e0 [| p]] |] eqn:E; try exact Ht.
      destruct (resume c options p r (world s)) as [o w]. cbn.
      rewrite list_lookup_insert_ne by exact Hne. exact Ht.
Qed.

Lemma run_progress schedule : forall s task element out,
  tasks s !! task = Some (element, out) ->
  exists out',
    tasks (run handleNewNode (resume c options) s schedule) !! task
    = Some (element, out') /\
    stage out' <= stage out - countIf (isSettleOf task) schedule.
Proof.
  induction schedule as [| st schedule IH]; intros s task element out Ht.
  - exists out. split; [exact Ht |].
    unfold countIf. cbn [List.filter length]. lia.
  - destruct (step_progress st s task element out Ht) as (o1 & H1 & L1).
    destruct (IH _ task element o1 H1) as (o2 & H2 & L2).
    exists o2. split; [exact H2 |]. rewrite countIf_cons.
    destruct (isSettleOf task st); lia.
Qed.
End Progress.

Lemma stage_zero out : stage out = 0 -> out = Finished.
Proof. destruct out as [| []]; cbn; congruence || lia. Qed.

(** X4: a dispatch ends after at most four settlements of the promises it
    awaits, however its settlements are interleaved with other dispatches
    and with the settlements of other dispatches: once [stage out]
    settlements of the task are in the schedule, the task has returned, and
    further settlements leave it so. *)
Theorem dispatch_ends_within_its_stage handleNewNode c options
    schedule s task element out :
  tasks s !! task = Some (element, out) ->
  stage out <= countIf (isSettleOf task) schedule ->
  stage out <= 4 /\
  tasks (run handleNewNode (resume c options) s schedule) !! task
  = Some (element, Finished).
Proof.
  intros Ht Hn. split; [destruct out as [| []]; cbn; lia |].
  destruct (run_progress handleNewNode c options schedule s task element out Ht)
    as (o & Ho & Hs).
  rewrite Ho. f_equal. f_equal. apply stage_zero. lia.
Qed.

(** The card scenario with a second dispatch in between: the first
    dispatch waits at the shortened URL and has returned after it was
    settled four times. *)
Lemma dispatch_ends_within_its_stage_witness :
  let resume := resume (collaborators trusted) defaultOptions in
  let s := run (Twitter.handleNewNode (collaborators trusted)) resume (initial cardPage) [Dispatch 1] in
  let schedule :=
    [ Settle 0 (ResolvedUrl exampleUrl); Dispatch 1;
      Settle 0 (ResolvedJson "{}"); Settle 1 Rejects;
      Settle 0 (ResolvedAction "action"); Settle 0 (ResolvedSupported true) ] in
  tasks s !! 0 = Some (1, Suspended (AwaitShortenedUrl 3)) /\
  tasks (run (Twitter.handleNewNode (collaborators trusted)) resume s schedule) !! 0 = Some (1, Finished).
Proof.
  split; [reflexivity |].
  refine (proj2 (dispatch_ends_within_its_stage (Twitter.handleNewNode (collaborators trusted))
                   (collaborators trusted) defaultOptions _ _ 0 1
                   (Suspended (AwaitShortenedUrl 3)) _ _)).
  - reflexivity.
  - vm_compute. lia.
Defined.

(* ===================================================================== *)
(** ** Further properties: one render per dispatch at most *)
(* ===================================================================== *)

Lemma countIf_quiet l : Forall notRendered l -> countIf isRendered l = 0.
Proof.
  unfold countIf. induction 1 as [| e l He _ IH]; [reflexivity |].
  cbn. destruct e; cbn in *; try exact IH. destruct He.
Qed.

Lemma countIf_insert {A} (f : A -> bool) y : forall l i x,
  l !! i = Some x ->
  countIf f (<[i := y]> l) + (if f x then 1 else 0)
  = countIf f l + (if f y then 1 else 0).
Proof.
  induction l as [| z l IH]; intros i x H; [discriminate |].
  destruct i as [| i]; cbn in H.
  - injection H as ->. cbn [insert list_insert]. rewrite !countIf_cons. lia.
  - change (<[S i := y]> (z :: l)) with (z :: <[i := y]> l).
    rewrite !countIf_cons. specialize (IH i x H). lia.
Qed.

Lemma Logs_quiet {A} (m : M A) w :
  Logs notRendered m ->
  countIf isRendered (log (snd (m w))) = countIf isRendered (log w).
Proof.
  intros Hm. destruct (Hm w) as (l & -> & F).
  rewrite countIf_app, (countIf_quiet l F). lia.
Qed.

Lemma mount_log c options container u a w :
  log (snd (mount c options container u a w))
  = log w ++ [Rendered (length (dom w)) a (href u) (hostname u) (callbacks c)
                     (n_securityLevel options)].
Proof.
  rewrite mount_split.
  pose proof (Logs_noEffect_eq (addMargin container) w
                (Logs_addMargin noEffect container)) as Hl.
  pose proof (addMargin_length container w) as Hn.
  destruct (addMargin container w) as [[] w1]. cbn [snd] in *.
  unfold createAction, bind, create, write, tell, ret, createElement. cbn.
  now rewrite Hl, Hn.
Qed.

Section Quiet.
Context (c : Collaborators) (options : NormalizedObserverOptions).

Lemma quiet_resolveAction container u api :
  Logs notRendered (resolveAction c options container u api).
Proof. unfold resolveAction, gate. logs. Qed.

Lemma quiet_classify container u :
  Logs notRendered (classify c options container u).
Proof. unfold classify, gate. logs; simple apply quiet_resolveAction. Qed.

Lemma quiet_noEffect {A} (m : M A) : Logs noEffect m -> Logs notRendered m.
Proof. apply Logs_weaken. intros e []. Qed.

Lemma quiet_twitter_handleNewNode e :
  Logs notRendered (Twitter.handleNewNode c e).
Proof.
  unfold Twitter.handleNewNode, Twitter.bookmarkDropdown,
    Twitter.findBookmarkButton, Twitter.createDropdown, Twitter.locateAndFetch.
  logs;
    first [ simple apply quiet_noEffect; simple apply Logs_dropdownTree
          | simple apply quiet_noEffect; simple apply Logs_extractCandidate ].
Qed.

Lemma quiet_farcaster_handleNewNode e :
  Logs notRendered (Farcaster.handleNewNode c options e).
Proof.
  unfold Farcaster.handleNewNode, Farcaster.getContainerForLink.
  logs; simple apply quiet_classify.
Qed.

(** A settlement renders once when the dispatch returns from the mount,
    and not at all otherwise. *)
Lemma resume_accounted p r w element :
  countIf isRendered (log (snd (resume c options p r w)))
  + (if isSuspended (element, fst (resume c options p r w)) then 1 else 0)
  <= countIf isRendered (log w) + 1.
Proof.
  assert (Hq : forall m : M Outcome, Logs notRendered m ->
             countIf isRendered (log (snd (m w)))
             + (if isSuspended (element, fst (m w)) then 1 else 0)
             <= countIf isRendered (log w) + 1).
  { intros m Hm. rewrite (Logs_quiet m w Hm).
    destruct (isSuspended (element, fst (m w))); lia. }
  assert (Hm : forall container u a,
             countIf isRendered
               (log (snd ((mount c options container u a ;;; ret Finished) w)))
             + (if isSuspended
                     (element, fst ((mount c options container u a ;;; ret Finished) w))
                then 1 else 0)
             <= countIf isRendered (log w) + 1).
  { intros container u a. rewrite mount_then_finished.
    pose proof (mount_log c options container u a w) as Hl.
    unfold bind, ret. destruct (mount c options container u a w) as [[] w1].
    cbn [snd fst] in *. rewrite Hl, countIf_app. cbn. lia. }
  destruct p as [container | container u | container u state | container u a];
    destruct r as [| u' | j | a' | b]; cbn [resume];
    try (apply Hq; simple apply Logs_ret).
  - apply Hq. simple apply quiet_classify.
  - apply Hq. simple apply quiet_resolveAction.
  - destruct (hasIsSupported c); [| apply Hm].
    apply Hq. logs.
  - destruct b; [apply Hm |]. apply Hq. simple apply Logs_ret.
Qed.
End Quiet.

Section Accounting.
Context (handleNewNode : NodeId -> M Outcome).
Context (c : Collaborators) (options : NormalizedObserverOptions).
Hypothesis handleNewNode_quiet : forall e, Logs notRendered (handleNewNode e).

Lemma step_accounted s st :
  accounted (step handleNewNode (resume c options) s st)
  <= accounted s + (if isDispatch st then 1 else 0).
Proof.
  unfold accounted. destruct st as [e | t r]; cbn [step isDispatch].
  - unfold dispatch.
    pose proof (Logs_quiet (handleNewNode e) (world s) (handleNewNode_quiet e))
      as Hl.
    destruct (handleNewNode e (world s)) as [o w]. cbn [snd world tasks] in *.
    rewrite Hl, countIf_app, countIf_cons. unfold countIf at 3. cbn [List.filter length].
    destruct (isSuspended (e, o)); lia.
  - unfold settle.
    destruct (tasks s !! t) as [[e0 [| p]] |] eqn:E; try lia.
    pose proof (resume_accounted c options p r (world s) e0) as Ha.
    destruct (resume c options p r (world s)) as [o w].
    cbn [fst snd world tasks] in *.
    pose proof (countIf_insert isSuspended (e0, o) (tasks s) t _ E) as Hi.
    change (isSuspended (e0, Suspended p)) with true in Hi.
    cbv beta iota in Hi. destruct (isSuspended (e0, o)); lia.
Qed.

Lemma run_accounted schedule : forall s,
  accounted (run handleNewNode (resume c options) s schedule)
  <= accounted s + countIf isDispatch schedule.
Proof.
  induction schedule as [| st schedule IH]; intros s.
  - unfold countIf. cbn [List.filter length run fold_left]. lia.
  - change (run handleNewNode (resume c options) s (st :: schedule))
      with (run handleNewNode (resume c options)
                (step handleNewNode (resume c options) s st) schedule).
    specialize (IH (step handleNewNode (resume c options) s st)).
    pose proof (step_accounted s st). rewrite countIf_cons. lia.
Qed.
End Accounting.

(** X5: on either page and along any schedule, the renders logged and the
    dispatches still in flight together never exceed the calls of
    [handleNewNode]: no dispatch renders twice, and a dispatch that has
    rendered is over. *)
Theorem each_dispatch_renders_at_most_once c options d schedule :
  let twitter :=
    run (Twitter.handleNewNode c) (resume c options) (initial d) schedule in
  let farcaster :=
    run (Farcaster.handleNewNode c options) (resume c options) (initial d)
        schedule in
  countIf isRendered (log (world twitter)) + countIf isSuspended (tasks twitter)
  <= countIf isDispatch schedule /\
  countIf isRendered (log (world farcaster))
  + countIf isSuspended (tasks farcaster)
  <= countIf isDispatch schedule.
Proof.
  cbn zeta. split.
  - apply (run_accounted (Twitter.handleNewNode c) c options
             (quiet_twitter_handleNewNode c) schedule (initial d)).
  - apply (run_accounted (Farcaster.handleNewNode c options) c options
             (quiet_farcaster_handleNewNode c options) schedule (initial d)).
Qed.

(* ===================================================================== *)
(** ** Further properties: what a mount leaves behind *)
(* ===================================================================== *)

Lemma links_alter_attributes_or_style (f : Node -> Node) n (d : Document) m :
  (forall x, parentNode (f x) = parentNode x /\ childNodes (f x) = childNodes x) ->
  parentNodeOf (alter f n d) m = parentNodeOf d m /\
  childNodesOf (alter f n d) m = childNodesOf d m.
Proof.
  intros Hf. unfold parentNodeOf, childNodesOf. rewrite lookup_alter_at.
  unfold at_node. destruct (decide (n = m)); [| auto].
  destruct (d !! m) as [x |]; cbn; [apply Hf | auto].
Qed.

Lemma links_setStyle n k v d m :
  parentNodeOf (setStyle n k v d) m = parentNodeOf d m /\
  childNodesOf (setStyle n k v d) m = childNodesOf d m.
Proof. apply links_alter_attributes_or_style. intros x. split; reflexivity. Qed.

Lemma links_setAttribute n k v d m :
  parentNodeOf (setAttribute n k v d) m = parentNodeOf d m /\
  childNodesOf (setAttribute n k v d) m = childNodesOf d m.
Proof. apply links_alter_attributes_or_style. intros x. split; reflexivity. Qed.

Lemma links_addMargin element w m :
  parentNodeOf (dom (snd (addMargin element w))) m = parentNodeOf (dom w) m /\
  childNodesOf (dom (snd (addMargin element w))) m = childNodesOf (dom w) m.
Proof.
  rewrite addMargin_dom.
  destruct (classList_contains (dom w) element "dialect-wrapper"); [| auto].
  destruct (classList_contains (dom w) element "dialect-dm").
  - destruct (links_setStyle element "marginBottom" "8px"
                (setStyle element "marginTop" "12px" (dom w)) m) as [-> ->].
    apply links_setStyle.
  - apply links_setStyle.
Qed.

(** A node created and not yet inserted has no links. *)
Lemma links_created name (d : Document) m :
  parentNodeOf (d ++ [blank name]) m = parentNodeOf d m /\
  childNodesOf (d ++ [blank name]) m = childNodesOf d m.
Proof.
  unfold parentNodeOf, childNodesOf.
  destruct (decide (m < length d)) as [Hlt | Hge].
  - now rewrite lookup_app_l by exact Hlt.
  - rewrite lookup_app_r by lia.
    rewrite (lookup_ge_None_2 d m) by lia.
    destruct (m - length d) as [| k]; cbn; auto.
Qed.

Lemma parentNodeOf_set_childNodes f n (d : Document) m :
  parentNodeOf (alter (set_childNodes f) n d) m = parentNodeOf d m.
Proof.
  unfold parentNodeOf. rewrite lookup_alter_at. unfold at_node.
  destruct (decide (n = m)); [| reflexivity]. now destruct (d !! m).
Qed.

Lemma parentNodeOf_orphan n (d : Document) m :
  parentNodeOf (alter (set_parentNode None) n d) m =
  if decide (n = m) then None else parentNodeOf d m.
Proof.
  unfold parentNodeOf. rewrite lookup_alter_at. unfold at_node.
  destruct (decide (n = m)); [| reflexivity]. now destruct (d !! m).
Qed.

Lemma orphan_all_parent l : forall d child,
  In child l \/ parentNodeOf d child = None ->
  parentNodeOf (orphan_all l d) child = None.
Proof.
  unfold orphan_all. induction l as [| x l IH]; intros d child H; cbn.
  - destruct H as [[] | H]. exact H.
  - apply IH. rewrite parentNodeOf_orphan.
    destruct (decide (x = child)) as [-> | Hne]; [now right |].
    destruct H as [[Hx | Hin] | H]; [congruence | now left | now right].
Qed.

Lemma orphan_all_parent_other l : forall d m,
  ~ In m l -> parentNodeOf (orphan_all l d) m = parentNodeOf d m.
Proof.
  unfold orphan_all. induction l as [| x l IH]; intros d m H; cbn;
    [reflexivity |].
  rewrite IH by (intros Hin; apply H; now right).
  rewrite parentNodeOf_orphan.
  destruct (decide (x = m)) as [-> | Hne]; [| reflexivity].
  exfalso. apply H. now left.
Qed.

Lemma mount_dom c options container actionUrl action w :
  dom (snd (mount c options container actionUrl action w)) =
  replaceChildren container (length (dom w))
    (setClassName (length (dom w)) "dialect-action-root-container"
       (dom (snd (addMargin container w)) ++ [blank "div"])).
Proof.
  rewrite mount_split.
  pose proof (addMargin_length container w) as Hl.
  set (w1 := snd (addMargin container w)) in *.
  unfold createAction, bind, create, write, tell, ret, createElement. cbn.
  now rewrite Hl.
Qed.

Lemma evolves_isElement_eq d d' :
  evolves keeps_kind d d' -> length d' = length d ->
  forall m, isElement d' m = isElement d m.
Proof.
  intros Hev Hl m. unfold isElement.
  destruct (d !! m) as [nd |] eqn:E.
  - destruct (Hev m nd E) as (nd' & -> & Hk & _). now rewrite Hk.
  - apply lookup_ge_None in E. now rewrite lookup_ge_None_2 by lia.
Qed.

Lemma mount_links c options container actionUrl action w :
  container < length (dom w) ->
  let d' := dom (snd (mount c options container actionUrl action w)) in
  let root := length (dom w) in
  length d' = S (length (dom w)) /\
  childNodesOf d' container = [root] /\
  parentNodeOf d' root = Some container /\
  childNodesOf d' root = [] /\
  className d' root = "dialect-action-root-container" /\
  (forall child, In child (childNodesOf (dom w) container) ->
                 child < length (dom w) -> parentNodeOf d' child = None) /\
  (forall m, ~ In m (childNodesOf (dom w) container) -> m <> root ->
             parentNodeOf d' m = parentNodeOf (dom w) m) /\
  (forall m, m <> container ->
             childNodesOf d' m = childNodesOf (dom w) m) /\
  (forall m, isElement d' m
             = if decide (m = root) then true else isElement (dom w) m).
Proof.
  intros Hc d' root.
  assert (Hd' : d' = replaceChildren container root
                  (setClassName root "dialect-action-root-container"
                     (dom (snd (addMargin container w)) ++ [blank "div"])))
    by apply mount_dom.
  pose proof (addMargin_length container w) as Hl1.
  set (d1 := dom (snd (addMargin container w))) in *.
  set (d2 := setClassName root "dialect-action-root-container"
               (d1 ++ [blank "div"])) in *.
  assert (Hl2 : length d2 = S root).
  { unfold d2, setClassName. rewrite length_setAttribute, length_app, Hl1.
    cbn. unfold root. lia. }
  assert (Hlinks : forall m, parentNodeOf d2 m = parentNodeOf (dom w) m /\
                             childNodesOf d2 m = childNodesOf (dom w) m).
  { intros m. unfold d2, setClassName.
    destruct (links_setAttribute root "class" "dialect-action-root-container"
                (d1 ++ [blank "div"]) m) as [-> ->].
    destruct (links_created "div" d1 m) as [-> ->].
    apply links_addMargin. }
  assert (Hroot : parentNodeOf (dom w) root = None /\
                  childNodesOf (dom w) root = []).
  { unfold parentNodeOf, childNodesOf.
    now rewrite (lookup_ge_None_2 (dom w) root) by (unfold root; lia). }
  assert (Hne : root <> container) by (unfold root; lia).
  set (d3 := orphan_all (childNodesOf d2 container) d2).
  set (d4 := alter (set_childNodes (fun _ => [])) container d3).
  assert (Hd4 : d' = insertBefore container root None d4) by exact Hd'.
  assert (Hl4 : length d4 = S root).
  { unfold d4, d3. now rewrite length_alter, length_orphan_all. }
  assert (Hp4 : forall m, parentNodeOf d4 m = parentNodeOf d3 m).
  { intros m. apply parentNodeOf_set_childNodes. }
  assert (Hr4 : parentNodeOf d4 root = None).
  { rewrite Hp4. apply orphan_all_parent. right.
    rewrite (proj1 (Hlinks root)). apply Hroot. }
  split; [| split; [| split; [| split; [| split; [| split; [| split; [| split]]]]]]].
  - rewrite Hd'. now rewrite length_replaceChildren, Hl2.
  - now apply mount_supersedes.
  - rewrite Hd4. apply insertBefore_parent; [lia | exact Hne].
  - rewrite Hd4. rewrite insertBefore_childNodes_other;
      [| congruence | rewrite Hr4; discriminate].
    unfold d4. unfold childNodesOf at 1.
    rewrite list_lookup_alter_ne by congruence.
    change (childNodesOf d3 root = []). unfold d3.
    rewrite childNodes_orphan_all, (proj2 (Hlinks root)). apply Hroot.
  - unfold className.
    assert (Hev : evolves keeps_attributes d2 d').
    { rewrite Hd'. refine (evolves_replaceChildren keeps_attributes _ _ _). }
    rewrite (evolves_getAttribute d2 d' root "class" Hev) by lia.
    unfold d2, setClassName. rewrite getAttribute_setAttribute_eq; [reflexivity |].
    rewrite length_app, Hl1. cbn. unfold root. lia.
  - intros child Hin Hlt. rewrite Hd4.
    rewrite insertBefore_parent_other by (unfold root; lia).
    rewrite Hp4. apply orphan_all_parent. left.
    now rewrite (proj2 (Hlinks container)).
  - intros m Hin Hm. rewrite Hd4.
    rewrite insertBefore_parent_other by exact Hm.
    rewrite Hp4. unfold d3. rewrite orphan_all_parent_other.
    + apply Hlinks.
    + now rewrite (proj2 (Hlinks container)).
  - intros m Hm. rewrite Hd4.
    rewrite insertBefore_childNodes_other;
      [| congruence | rewrite Hr4; discriminate].
    unfold d4. unfold childNodesOf at 1.
    rewrite list_lookup_alter_ne by congruence.
    change (childNodesOf d3 m = childNodesOf (dom w) m). unfold d3.
    rewrite childNodes_orphan_all. apply Hlinks.
  - intros m.
    assert (Hev : evolves keeps_kind d2 d').
    { rewrite Hd'. refine (evolves_replaceChildren keeps_kind _ _ _). }
    assert (Hl' : length d' = length d2).
    { rewrite Hd'. apply length_replaceChildren. }
    rewrite (evolves_isElement_eq d2 d' Hev Hl').
    unfold d2, setClassName, setAttribute, isElement.
    rewrite list_lookup_alter.
    destruct (decide (root = m)) as [<- | Hm].
    + rewrite decide_True by reflexivity.
      rewrite lookup_app_r by lia. now rewrite Hl1, Nat.sub_diag.
    + rewrite decide_False by congruence.
      destruct (decide (m < root)) as [Hlt | Hge].
      * rewrite lookup_app_l by lia.
        pose proof (Evolves_addMargin keeps_kind container w) as Hm1.
        pose proof (evolves_isElement_eq (dom w) d1 Hm1 Hl1 m) as E.
        exact E.
      * rewrite lookup_ge_None_2 by (rewrite length_app, Hl1; cbn; lia).
        now rewrite (lookup_ge_None_2 (dom w) m) by (unfold root in *; lia).
Qed.

(** X6: the mount, from any store.  It adds exactly one node, the render
    root, which becomes the only child of the mount point, carries the
    class [dialect-action-root-container] and has no children of its own;
    every node the mount point held is detached, its subtree with it; the
    parent of every other node is as before. *)
Theorem mount_replaces_the_children c options container actionUrl action w :
  container < length (dom w) ->
  let d' := dom (snd (mount c options container actionUrl action w)) in
  let root := length (dom w) in
  length d' = S (length (dom w)) /\
  childNodesOf d' container = [root] /\
  parentNodeOf d' root = Some container /\
  childNodesOf d' root = [] /\
  className d' root = "dialect-action-root-container" /\
  (forall child, In child (childNodesOf (dom w) container) ->
                 child < length (dom w) -> parentNodeOf d' child = None) /\
  (forall m, ~ In m (childNodesOf (dom w) container) -> m <> root ->
             parentNodeOf d' m = parentNodeOf (dom w) m).
Proof.
  intros H d' root.
  destruct (mount_links c options container actionUrl action w H)
    as (H1 & H2 & H3 & H4 & H5 & H6 & H7 & _).
  split; [exact H1 |]. split; [exact H2 |]. split; [exact H3 |].
  split; [exact H4 |]. split; [exact H5 |]. split; [exact H6 | exact H7].
Qed.

(** The mount of the card scenario: node 3 held the card (node 4). *)
Lemma mount_replaces_the_children_witness :
  let d' := dom (snd (mount (collaborators trusted) defaultOptions 3 exampleUrl "action" (mkWorld cardPage []))) in
  childNodesOf cardPage 3 = [4] /\
  childNodesOf d' 3 = [10] /\ parentNodeOf d' 4 = None.
Proof.
  pose proof (mount_replaces_the_children (collaborators trusted) defaultOptions
                3 exampleUrl "action"
                (mkWorld cardPage [])) as H.
  cbn zeta in H. specialize (H ltac:(cbn; lia)).
  destruct H as (_ & H1 & _ & _ & _ & H2 & _).
  split; [reflexivity |]. split; [exact H1 |].
  apply H2; [left; reflexivity | cbn; lia].
Defined.

(* ===================================================================== *)
(** ** Further properties: the wrapper of [getContainerForLink] *)
(* ===================================================================== *)

(** *** Reading the page while created nodes are still detached *)

Section OldNodes.
Context (d L : list Node).

Lemma isElement_app_l n : n < length d -> isElement (d ++ L) n = isElement d n.
Proof. intros H. unfold isElement. now rewrite lookup_app_l. Qed.

Lemma childNodesOf_app_l n :
  n < length d -> childNodesOf (d ++ L) n = childNodesOf d n.
Proof. intros H. unfold childNodesOf. now rewrite lookup_app_l. Qed.

Lemma matches_app_l sel n :
  n < length d -> matches (d ++ L) sel n = matches d sel n.
Proof.
  intros H.
  unfold matches, isElement, localNameOf, classList_contains, className,
    getAttribute.
  now rewrite lookup_app_l.
Qed.

Hypothesis Hc : consistent d = true.

Lemma parentElement_app_l n :
  n < length d -> parentElement (d ++ L) n = parentElement d n.
Proof.
  intros H. unfold parentElement. rewrite parentNodeOf_app_l by exact H.
  destruct (parentNodeOf d n) as [p |] eqn:E; [| reflexivity].
  rewrite isElement_app_l; [reflexivity |].
  now apply (consistent_parent_lt d n p).
Qed.

Lemma closest_fuel_app_l sel f : forall n,
  n < length d -> closest_fuel (d ++ L) f n sel = closest_fuel d f n sel.
Proof.
  induction f as [| f IH]; intros n Hn; cbn [closest_fuel]; [reflexivity |].
  rewrite matches_app_l, parentElement_app_l by exact Hn.
  destruct (matches d sel n); [reflexivity |].
  destruct (parentElement d n) as [p |] eqn:E; [| reflexivity].
  apply IH. apply parentElement_Some in E as (_ & E & _).
  now apply isElement_lt.
Qed.

Lemma closest_app_l sel n :
  forest d = true -> n < length d ->
  closest (d ++ L) n sel = closest d n sel.
Proof.
  intros Hf Hn. unfold closest at 1. rewrite closest_fuel_app_l by exact Hn.
  apply closest_fuel_adequate; [exact Hf |]. rewrite length_app. lia.
Qed.
End OldNodes.

Lemma step_read {A B} (f : Document -> A) (k : A -> M B) w :
  bind (read f) k w = k (f (dom w)) w.
Proof. reflexivity. Qed.

Lemma step_write {B} f (k : unit -> M B) w :
  bind (write f) k w = k tt (mkWorld (f (dom w)) (log w)).
Proof. reflexivity. Qed.

Lemma alter_created (f : Node -> Node) (d : list Node) x :
  alter f (length d) (d ++ [x]) = d ++ [f x].
Proof.
  pose proof (alter_app_r f d [x] 0) as H. now rewrite Nat.add_0_r in H.
Qed.

(** Inserting a node that was just created, below a node of the page. *)
Lemma insertBefore_created (d : list Node) t ref x :
  t < length d -> parentNode x = None ->
  insertBefore t (length d) ref (d ++ [x])
  = alter (set_childNodes (place ref (length d))) t d
    ++ [set_parentNode (Some t) x].
Proof.
  intros Ht Hx. unfold insertBefore, remove.
  assert (Hp : parentNodeOf (d ++ [x]) (length d) = None).
  { unfold parentNodeOf. rewrite lookup_app_r by lia.
    now rewrite Nat.sub_diag. }
  rewrite Hp, alter_created. now rewrite alter_app_l by exact Ht.
Qed.

Lemma place_head (l : list NodeId) n : place (head l) n l = n :: l.
Proof.
  destruct l as [| x l]; cbn; [reflexivity |]. now rewrite Nat.eqb_refl.
Qed.

Lemma getContainerForLinkBy_spec sel text d lg :
  consistent d = true -> forest d = true -> text < length d ->
  getContainerForLinkBy sel text (mkWorld d lg)
  = (length d,
     mkWorld (withWrapper d (wrapperParent d text (hasClosest d text sel))
                          (hasClosest d text sel)) lg).
Proof.
  intros Hc Hf Ht. unfold getContainerForLinkBy, hasClosest.
  unfold bind at 1. unfold create, createElement. cbn [dom log].
  rewrite step_write. cbn [dom log].
  assert (E1 : setClassName (length d) "dialect-wrapper" (d ++ [blank "div"])
               = d ++ [wrapperNode false None]).
  { unfold setClassName, setAttribute. now rewrite alter_created. }
  rewrite E1, step_read. cbn [dom log].
  rewrite (closest_app_l d _ Hc sel text Hf Ht).
  destruct (closest d text sel) as [m |]; cbn [wrapperParent].
  - rewrite bind_assoc, step_write. cbn [dom log].
    assert (E2 : classList_add (length d) "dialect-dm"
                   (d ++ [wrapperNode false None])
                 = d ++ [wrapperNode true None]).
    { unfold classList_add, className, getAttribute, setAttribute.
      rewrite lookup_app_r by lia. rewrite Nat.sub_diag. cbn [lookup list_lookup].
      now rewrite alter_created. }
    rewrite E2, bind_assoc, step_read. cbn [dom log].
    rewrite (parentElement_app_l d _ Hc text Ht).
    destruct (parentElement d text) as [p |] eqn:Ep.
    + assert (Hp : p < length d).
      { apply parentElement_Some in Ep as (_ & Ep & _). now apply isElement_lt. }
      rewrite (parentElement_app_l d _ Hc p Hp).
      destruct (parentElement d p) as [g |] eqn:Eg; [| reflexivity].
      assert (Hg : g < length d).
      { apply parentElement_Some in Eg as (_ & Eg & _). now apply isElement_lt. }
      rewrite step_write. cbn [dom log]. unfold prepend.
      rewrite (childNodesOf_app_l d _ g Hg).
      rewrite insertBefore_created by (exact Hg || reflexivity).
      unfold ret, withWrapper. f_equal. f_equal. f_equal.
      apply list_eq. intros i. rewrite !list_lookup_alter.
      destruct (decide (g = i)) as [<- |]; [| reflexivity].
      unfold childNodesOf.
      destruct (d !! g) as [nd |]; [| reflexivity]. cbn.
      unfold set_childNodes. now rewrite place_head.
    + reflexivity.
  - rewrite bind_assoc, step_read. cbn [dom log].
    rewrite (parentElement_app_l d _ Hc text Ht).
    destruct (parentElement d text) as [p |] eqn:Ep; [| reflexivity].
    assert (Hp : p < length d).
    { apply parentElement_Some in Ep as (_ & Ep & _). now apply isElement_lt. }
    rewrite step_write. cbn [dom log]. unfold append.
    rewrite insertBefore_created by (exact Hp || reflexivity).
    reflexivity.
Qed.

Lemma set_childNodes_same nd : set_childNodes (fun _ => childNodes nd) nd = nd.
Proof. now destruct nd. Qed.

Lemma withWrapper_added d target dm :
  (forall t, target = Some t -> t < length d) ->
  wrapperAdded d (withWrapper d target dm) target dm.
Proof.
  intros Ht. unfold wrapperAdded, withWrapper.
  destruct target as [t |].
  - specialize (Ht t eq_refl).
    set (f := fun l : list NodeId => if dm then length d :: l else l ++ [length d]).
    assert (Hl : length (alter (set_childNodes f) t d) = length d)
      by apply length_alter.
    assert (Hnew : (alter (set_childNodes f) t d ++ [wrapperNode dm (Some t)])
                     !! length d = Some (wrapperNode dm (Some t))).
    { rewrite lookup_app_r by lia. now rewrite Hl, Nat.sub_diag. }
    assert (Hold : forall m, m < length d ->
              (alter (set_childNodes f) t d ++ [wrapperNode dm (Some t)]) !! m
              = alter (set_childNodes f) t d !! m).
    { intros m Hm. apply lookup_app_l. lia. }
    destruct (lookup_lt_is_Some_2 d t Ht) as [nt Hnt].
    repeat split.
    + rewrite length_app, Hl. cbn. lia.
    + unfold isElement. now rewrite Hnew.
    + unfold localNameOf. now rewrite Hnew.
    + unfold className, getAttribute. rewrite Hnew. now destruct dm.
    + unfold childNodesOf. now rewrite Hnew.
    + unfold parentNodeOf. now rewrite Hnew.
    + intros t' [= <-]. unfold childNodesOf.
      rewrite Hold by exact Ht. rewrite list_lookup_alter_eq, Hnt. cbn.
      unfold f. now destruct dm.
    + intros m Hm. unfold childNodesOf.
      destruct (Nat.lt_trichotomy m (length d)) as [Hlt | [-> | Hgt]].
      * rewrite Hold by exact Hlt.
        rewrite list_lookup_alter_ne by congruence. reflexivity.
      * rewrite Hnew. now rewrite (lookup_ge_None_2 d (length d)) by lia.
      * rewrite (lookup_ge_None_2 d m) by lia.
        rewrite lookup_ge_None_2; [reflexivity |].
        rewrite length_app, Hl. cbn. lia.
    + intros m nd Hm. pose proof (lookup_lt_Some _ _ _ Hm) as Hlt.
      unfold childNodesOf. rewrite Hold by exact Hlt.
      rewrite list_lookup_alter. destruct (decide (t = m)) as [<- |].
      * rewrite Hm. cbn. reflexivity.
      * rewrite Hm. now rewrite set_childNodes_same.
  - assert (Hnew : (d ++ [wrapperNode dm None]) !! length d
                   = Some (wrapperNode dm None)).
    { rewrite lookup_app_r by lia. now rewrite Nat.sub_diag. }
    repeat split.
    + rewrite length_app. cbn. lia.
    + unfold isElement. now rewrite Hnew.
    + unfold localNameOf. now rewrite Hnew.
    + unfold className, getAttribute. rewrite Hnew. now destruct dm.
    + unfold childNodesOf. now rewrite Hnew.
    + unfold parentNodeOf. now rewrite Hnew.
    + intros t [=].
    + intros m _. unfold childNodesOf.
      destruct (Nat.lt_trichotomy m (length d)) as [Hlt | [-> | Hgt]].
      * now rewrite lookup_app_l by exact Hlt.
      * rewrite Hnew. now rewrite (lookup_ge_None_2 d (length d)) by lia.
      * rewrite (lookup_ge_None_2 d m) by lia.
        rewrite lookup_ge_None_2; [reflexivity |].
        rewrite length_app. cbn. lia.
    + intros m nd Hm. pose proof (lookup_lt_Some _ _ _ Hm) as Hlt.
      unfold childNodesOf. rewrite lookup_app_l by exact Hlt.
      rewrite Hm. now rewrite set_childNodes_same.
Qed.

Lemma wrapperParent_lt d text dm t :
  wrapperParent d text dm = Some t -> t < length d.
Proof.
  unfold wrapperParent. intros H.
  assert (Hp : exists n, parentElement d n = Some t).
  { destruct dm; [| eauto].
    destruct (parentElement d text) as [p |]; [eauto | discriminate]. }
  destruct Hp as [n Hn]. apply parentElement_Some in Hn as (_ & Hn & _).
  now apply isElement_lt.
Qed.

Lemma getContainerForLinkBy_post sel text w :
  consistent (dom w) = true -> forest (dom w) = true -> text < length (dom w) ->
  let r := getContainerForLinkBy sel text w in
  let dm := hasClosest (dom w) text sel in
  fst r = length (dom w) /\ log (snd r) = log w /\
  wrapperAdded (dom w) (dom (snd r)) (wrapperParent (dom w) text dm) dm.
Proof.
  intros Hc Hf Ht. destruct w as [d lg]. cbn [dom log] in *. cbn zeta.
  rewrite (getContainerForLinkBy_spec sel text d lg Hc Hf Ht). cbn [fst snd dom log].
  split; [reflexivity |]. split; [reflexivity |].
  apply withWrapper_added. intros t. apply wrapperParent_lt.
Qed.

(** X7: [getContainerForLink] of either observer, called on a node of a
    well-formed page.  It returns a new node and logs nothing; the new node
    is an empty [div] of class [dialect-wrapper], with [dialect-dm] added
    when the text lies in a direct message; it becomes the first child of
    the text's grandparent in a direct message and the last child of the
    text's parent otherwise, and stays detached when that element is
    missing; no node of the page changes but for that one child list. *)
Theorem getContainerForLink_adds_one_wrapper text w :
  consistent (dom w) = true -> forest (dom w) = true -> text < length (dom w) ->
  let post sel (r : NodeId * World) :=
    let dm := hasClosest (dom w) text sel in
    fst r = length (dom w) /\ log (snd r) = log w /\
    wrapperAdded (dom w) (dom (snd r)) (wrapperParent (dom w) text dm) dm in
  post (ByAttr "class" "relative") (Farcaster.getContainerForLink text w) /\
  post (ByAttr "data-testid" "messageEntry") (Twitter.getContainerForLink text w).
Proof.
  intros Hc Hf Ht post. split.
  - exact (getContainerForLinkBy_post (ByAttr "class" "relative") text w Hc Hf Ht).
  - exact (getContainerForLinkBy_post (ByAttr "data-testid" "messageEntry")
             text w Hc Hf Ht).
Qed.

(** The text of the tweet on the text page (node 5, child of node 4), and
    the cast of the cast page (node 2, of class [relative], child of 1,
    grandchild of 0). *)
Lemma getContainerForLink_adds_one_wrapper_witness :
  childNodesOf (dom (snd (Twitter.getContainerForLink 5 (mkWorld textPage []))))
               4 = [5; 8] /\
  childNodesOf (dom (snd (Farcaster.getContainerForLink 2 (mkWorld castPage []))))
               0 = [4; 1] /\
  className (dom (snd (Farcaster.getContainerForLink 2 (mkWorld castPage []))))
            4 = "dialect-wrapper dialect-dm".
Proof.
  pose proof (getContainerForLink_adds_one_wrapper 5 (mkWorld textPage [])
                eq_refl eq_refl ltac:(cbn; lia)) as [_ (_ & _ & H)].
  pose proof (getContainerForLink_adds_one_wrapper 2 (mkWorld castPage [])
                eq_refl eq_refl ltac:(cbn; lia)) as [(_ & _ & H') _].
  destruct H as (_ & _ & _ & _ & _ & _ & H & _).
  destruct H' as (_ & _ & _ & H2 & _ & _ & H1 & _).
  split; [exact (H 4 eq_refl) |]. split; [exact (H1 0 eq_refl) | exact H2].
Defined.

(* ===================================================================== *)
(** ** Further properties: where the observers mount *)
(* ===================================================================== *)

Lemma localNameOf_lt d n : localNameOf d n = "div" -> n < length d.
Proof.
  unfold localNameOf. destruct (d !! n) eqn:E; [| discriminate].
  intros _. now apply lookup_lt_Some in E.
Qed.

(** X8: a Farcaster cast without any link.  A dispatch that passes the two
    filters and finds no anchor below the element returns at once and
    logs nothing, but [getContainerForLink] has run: the page holds one more
    empty wrapper, whether or not an earlier dispatch left one. *)
Theorem farcaster_linkless_cast_gains_a_wrapper c options element w :
  consistent (dom w) = true -> forest (dom w) = true ->
  localNameOf (dom w) element = "div" ->
  includes " fade-in" (className (dom w) element)
  || includes "relative" (className (dom w) element) = true ->
  querySelector (dom w) element (ByTag "a") = None ->
  let r := Farcaster.handleNewNode c options element w in
  let dm := hasClosest (dom w) element (ByAttr "class" "relative") in
  fst r = Finished /\ log (snd r) = log w /\
  wrapperAdded (dom w) (dom (snd r)) (wrapperParent (dom w) element dm) dm.
Proof.
  intros Hc Hf Hdiv Hcls Hq r dm.
  pose proof (getContainerForLinkBy_post (ByAttr "class" "relative") element w
                Hc Hf (localNameOf_lt _ _ Hdiv)) as Hpost.
  cbn zeta in Hpost.
  change (getContainerForLinkBy (ByAttr "class" "relative") element)
    with (Farcaster.getContainerForLink element) in Hpost.
  assert (Hr : r = (Finished, snd (Farcaster.getContainerForLink element w))).
  { unfold r, Farcaster.handleNewNode.
    rewrite step_read, Hdiv, String.eqb_refl. cbn [negb].
    rewrite step_read, <- negb_orb, Hcls. cbn [negb].
    rewrite step_read. unfold Farcaster.findLinkPreview. rewrite Hq.
    rewrite step_read. unfold bind, ret.
    now destruct (Farcaster.getContainerForLink element w). }
  rewrite Hr. cbn [fst snd]. split; [reflexivity |].
  destruct Hpost as (_ & Hlog & Hadd). split; assumption.
Qed.

(** The cast of the plain cast page (node 2): its parent (node 1) gets the
    wrapper (node 4) as last child. *)
Lemma farcaster_linkless_cast_gains_a_wrapper_witness :
  let r := Farcaster.handleNewNode (collaborators trusted) defaultOptions 2
             (mkWorld plainCastPage []) in
  fst r = Finished /\ childNodesOf (dom (snd r)) 1 = [2; 4].
Proof.
  pose proof (farcaster_linkless_cast_gains_a_wrapper
                (collaborators trusted) defaultOptions 2
                (mkWorld plainCastPage [])
                eq_refl eq_refl eq_refl eq_refl eq_refl) as (H1 & _ & H).
  destruct H as (_ & _ & _ & _ & _ & _ & H & _).
  split; [exact H1 | exact (H 1 eq_refl)].
Defined.

Lemma find_matches d sel l n :
  List.find (matches d sel) l = Some n -> n < length d.
Proof.
  intros H. apply List.find_some in H as [_ H].
  unfold matches in H. apply andb_prop in H as [H _]. now apply isElement_lt.
Qed.

Lemma findElementByTestId_lt d element testId n :
  findElementByTestId d element testId = Some n -> n < length d.
Proof.
  unfold findElementByTestId, querySelector.
  destruct (getAttribute d element "data-testid") as [v |] eqn:E.
  - destruct (String.eqb v testId).
    + intros [= <-]. unfold getAttribute in E.
      destruct (d !! element) eqn:El; [| discriminate].
      now apply lookup_lt_Some in El.
    + apply find_matches.
  - apply find_matches.
Qed.

Lemma findLastLinkInText_lt d element anchor tweetText :
  Twitter.findLastLinkInText d element = Some (anchor, tweetText) ->
  anchor < length d /\ tweetText < length d.
Proof.
  unfold Twitter.findLastLinkInText.
  destruct (findElementByTestId d element "tweetText") as [t |] eqn:Et;
    [| discriminate].
  destruct (last (getElementsByTagName d t "a")) as [a |] eqn:Ea;
    [| discriminate].
  intros [= <- <-]. split; [| now apply (findElementByTestId_lt d element "tweetText")].
  apply last_Some in Ea as [l' Hl].
  assert (Hin : In a (getElementsByTagName d t "a")).
  { rewrite Hl. apply in_or_app. right. now left. }
  unfold getElementsByTagName in Hin. apply filter_In in Hin as [_ Hm].
  unfold matches in Hm. apply andb_prop in Hm as [Hm _]. now apply isElement_lt.
Qed.

Lemma findLastLinkInText_anchor d element anchor tweetText :
  Twitter.findLastLinkInText d element = Some (anchor, tweetText) ->
  localNameOf d anchor = "a".
Proof.
  unfold Twitter.findLastLinkInText.
  destruct (findElementByTestId d element "tweetText") as [t |]; [| discriminate].
  destruct (last (getElementsByTagName d t "a")) as [a |] eqn:Ea;
    [| discriminate].
  intros [= <- <-]. apply last_Some in Ea as [l' Hl].
  assert (Hin : In a (getElementsByTagName d t "a")).
  { rewrite Hl. apply in_or_app. right. now left. }
  unfold getElementsByTagName in Hin. apply filter_In in Hin as [_ Hm].
  unfold matches in Hm. apply andb_prop in Hm as [_ H2].
  now apply String.eqb_eq in H2.
Qed.

(** X9: a tweet with a link in its text and no wrapper in reach.  Lines
    124-146 of the Twitter observer add a new wrapper next to the text,
    make it the mount point of the dispatch and fetch the [href] of the
    anchor: its [href] attribute as the browser resolves it against the
    URL of the document, the empty string when the anchor has no such
    attribute.  Nothing else of the page changes. *)
Theorem twitter_text_link_mounts_into_a_new_wrapper c element anchor tweetText w :
  consistent (dom w) = true -> forest (dom w) = true ->
  Twitter.findContainerInTweet (dom w) element false = None ->
  Twitter.findLastLinkInText (dom w) element = Some (anchor, tweetText) ->
  let r := Twitter.locateAndFetch c None element w in
  let dm := hasClosest (dom w) tweetText (ByAttr "data-testid" "messageEntry") in
  fst r = Suspended (AwaitShortenedUrl (length (dom w))) /\
  log (snd r) = log w ++ [Fetch (match getAttribute (dom w) anchor "href" with
                                 | Some h => resolveURL c h
                                 | None => EmptyString
                                 end)] /\
  wrapperAdded (dom w) (dom (snd r)) (wrapperParent (dom w) tweetText dm) dm.
Proof.
  intros Hc Hf Hfound Hlink r dm.
  destruct (findLastLinkInText_lt _ _ _ _ Hlink) as [Ha Ht].
  pose proof (getContainerForLinkBy_post (ByAttr "data-testid" "messageEntry")
                tweetText w Hc Hf Ht) as Hpost.
  cbn zeta in Hpost.
  change (getContainerForLinkBy (ByAttr "data-testid" "messageEntry") tweetText)
    with (Twitter.getContainerForLink tweetText) in Hpost.
  assert (Hr : r =
    let g := Twitter.getContainerForLink tweetText w in
    (Suspended (AwaitShortenedUrl (fst g)),
     mkWorld (dom (snd g))
             (log (snd g)
              ++ [Fetch (toUSVString (hrefOf c (dom (snd g)) anchor))]))).
  { unfold r, Twitter.locateAndFetch, Twitter.extractCandidate.
    rewrite !bind_assoc, step_read, Hfound.
    rewrite !bind_assoc, step_read, Hlink.
    rewrite bind_assoc. unfold bind at 1. cbn zeta.
    destruct (Twitter.getContainerForLink tweetText w) as [root w1].
    reflexivity. }
  rewrite Hr. cbn zeta.
  destruct (Twitter.getContainerForLink tweetText w) as [root w1].
  cbn [fst snd dom log] in *. destruct Hpost as (-> & Hlog & Hadd).
  split; [reflexivity |]. split; [| exact Hadd].
  rewrite Hlog. f_equal. f_equal. f_equal.
  pose proof (findLastLinkInText_anchor _ _ _ _ Hlink) as Hloc.
  unfold toUSVString, hrefOf, localNameOf, getAttribute in *.
  destruct (lookup_lt_is_Some_2 _ _ Ha) as [na Hna].
  destruct Hadd as (_ & _ & _ & _ & _ & _ & _ & _ & Hkeep).
  rewrite (Hkeep anchor na Hna). rewrite Hna in *.
  cbn [set_childNodes localName attributes]. now rewrite Hloc.
Qed.

(** The tweet of the text page, dispatched on the div inside it. *)
Lemma twitter_text_link_mounts_into_a_new_wrapper_witness :
  let r := Twitter.locateAndFetch (collaborators trusted) None 3 (mkWorld textPage []) in
  fst r = Suspended (AwaitShortenedUrl 8) /\
  log (snd r) = [Fetch "https://t.co/abc"] /\
  childNodesOf (dom (snd r)) 4 = [5; 8].
Proof.
  pose proof (twitter_text_link_mounts_into_a_new_wrapper
                (collaborators trusted) 3 7 5
                (mkWorld textPage []) eq_refl eq_refl eq_refl eq_refl)
    as (H1 & H2 & H).
  destruct H as (_ & _ & _ & _ & _ & _ & H & _).
  split; [exact H1 |]. split; [exact H2 | exact (H 4 eq_refl)].
Defined.

Lemma resolveAction_suspended c options container u api w p :
  fst (resolveAction c options container u api w) = Suspended p ->
  containerOf p = container /\ farcasterAwait p = true.
Proof.
  unfold resolveAction, gate, bind, tell, ret.
  destruct api as [api |]; [| discriminate].
  destruct (String.eqb api ""); [discriminate |].
  rewrite checkSecurity_always_true. cbn. intros [= <-]. auto.
Qed.

Lemma classify_suspended c options container u w p :
  fst (classify c options container u w) = Suspended p ->
  containerOf p = container /\ farcasterAwait p = true.
Proof.
  unfold classify, gate, bind, tell, ret.
  rewrite !checkSecurity_always_true. cbn [negb fst snd].
  destruct (isInterstitial_flag (isInterstitial c u)); cbn [negb fst snd].
  - cbv beta iota zeta. apply resolveAction_suspended.
  - cbn. intros [= <-]. auto.
Qed.

Lemma resolveAction_dom c options container u api w :
  dom (snd (resolveAction c options container u api w)) = dom w.
Proof.
  unfold resolveAction, gate, bind, tell, ret.
  destruct api as [api |]; [| reflexivity].
  destruct (String.eqb api ""); [reflexivity |].
  now rewrite checkSecurity_always_true.
Qed.

Lemma classify_dom c options container u w :
  dom (snd (classify c options container u w)) = dom w.
Proof.
  unfold classify, gate, bind, tell, ret.
  rewrite !checkSecurity_always_true. cbn [negb fst snd].
  destruct (isInterstitial_flag (isInterstitial c u)); cbn [negb fst snd].
  - cbv beta iota zeta. now rewrite resolveAction_dom.
  - reflexivity.
Qed.

Lemma consistent_parent_lists d n p :
  consistent d = true -> parentNodeOf d n = Some p -> In n (childNodesOf d p).
Proof.
  intros Hc Hp. unfold parentNodeOf in Hp.
  destruct (d !! n) as [nd |] eqn:Hn; [| discriminate].
  pose proof (consistent_links d n nd Hc Hn) as Hl.
  unfold links_ok in Hl. rewrite Hp in Hl.
  apply andb_prop in Hl as [Hl _]. apply andb_prop in Hl as [_ Hl].
  apply andb_prop in Hl as [Hl _].
  apply existsb_exists in Hl as (x & Hin & Hx).
  apply Nat.eqb_eq in Hx. now subst x.
Qed.

(** A Farcaster dispatch returns at once, or has found an anchor below
    the element and goes on to classify its URL with the element's parent
    as mount point. *)
Lemma farcaster_cases c options element w :
  fst (Farcaster.handleNewNode c options element w) = Finished \/
  exists anchor w1 container u,
    querySelector (dom w) element (ByTag "a") = Some anchor /\
    parentElement (dom w1) element = Some container /\
    Farcaster.handleNewNode c options element w
    = classify c options container u w1 /\
    log w1 = log w.
Proof.
  remember (Farcaster.handleNewNode c options element w) as r eqn:Hr.
  unfold Farcaster.handleNewNode, Farcaster.findLinkPreview in Hr.
  rewrite step_read in Hr.
  destruct (negb (String.eqb (localNameOf (dom w) element) "div"));
    [subst r; now left |].
  rewrite step_read in Hr.
  destruct (negb (includes " fade-in" (className (dom w) element))
            && negb (includes "relative" (className (dom w) element)));
    [subst r; now left |].
  rewrite step_read in Hr.
  destruct (querySelector (dom w) element (ByTag "a")) as [anchor |];
    cbn [lp_card lp_anchor] in Hr.
  - rewrite step_read, !bind_assoc in Hr.
    assert (Hw : exists w1,
              log w1 = log w /\
              r = (candidate <-
                     (container <- read (fun d => parentElement d element) ;;
                      ret (Some anchor, container)) ;;
                   match candidate with
                   | (Some anchor, Some container) =>
                       href <- read (fun d => hrefOf c d anchor) ;;
                       match parseURL c (toUSVString href) with
                       | Some actionUrl => classify c options container actionUrl
                       | None => ret Finished
                       end
                   | _ => ret Finished
                   end) w1).
    { destruct (Farcaster.findContainerInCast (dom w) element true) as [wr |].
      - rewrite step_write in Hr. eexists. split; [| exact Hr]. reflexivity.
      - rewrite step_ret in Hr. exists w. split; [reflexivity | exact Hr]. }
    clear Hr. destruct Hw as (w1 & Hlog & Hr).
    rewrite bind_assoc, step_read, step_ret in Hr.
    destruct (parentElement (dom w1) element) as [container |] eqn:Ep;
      [| subst r; now left].
    rewrite step_read in Hr.
    destruct (parseURL c (toUSVString (hrefOf c (dom w1) anchor))) as [u |];
      [| subst r; now left].
    right. exists anchor, w1, container, u. auto.
  - rewrite step_read, !bind_assoc in Hr. unfold bind at 1 in Hr.
    destruct (Farcaster.getContainerForLink element w) as [root w1].
    subst r. now left.
Qed.

(** What a Farcaster dispatch that suspends has done. *)
Lemma farcaster_suspended c options element w p :
  fst (Farcaster.handleNewNode c options element w) = Suspended p ->
  parentElement (dom (snd (Farcaster.handleNewNode c options element w)))
                element = Some (containerOf p) /\
  farcasterAwait p = true /\
  querySelector (dom w) element (ByTag "a") <> None.
Proof.
  destruct (farcaster_cases c options element w)
    as [-> | (anchor & w1 & container & u & Hq & Hp & -> & _)]; [discriminate |].
  intros H. destruct (classify_suspended _ _ _ _ _ _ H) as [-> Hf].
  rewrite classify_dom, Hq. split; [exact Hp |]. split; [exact Hf | discriminate].
Qed.

(** X10: on Farcaster the mount point is the parent of the inserted
    element itself.  A dispatch that suspends waits at the manifest or at
    the action fetch, never at a shortened URL, and carries the element's
    parent; when that dispatch mounts into a well-formed page, the render
    replaces the cast: the element is detached and the render root is the
    only child left. *)
Theorem farcaster_mounts_over_the_cast c options element w p :
  fst (Farcaster.handleNewNode c options element w) = Suspended p ->
  let w' := snd (Farcaster.handleNewNode c options element w) in
  parentElement (dom w') element = Some (containerOf p) /\
  farcasterAwait p = true /\
  (consistent (dom w') = true ->
   forall actionUrl action,
     let d'' := dom (snd (mount c options (containerOf p) actionUrl action w')) in
     parentNodeOf d'' element = None /\
     childNodesOf d'' (containerOf p) = [length (dom w')]).
Proof.
  intros H w'. destruct (farcaster_suspended c options element w p H)
    as (Hp & Hf & _).
  split; [exact Hp |]. split; [exact Hf |].
  intros Hc actionUrl action d''.
  apply parentElement_Some in Hp as (Hp & Hel & Hlt).
  apply isElement_lt in Hel.
  destruct (mount_links c options (containerOf p) actionUrl action w' Hel)
    as (_ & Hch & _ & _ & _ & Hdet & _).
  split; [| exact Hch].
  apply Hdet; [| exact Hlt]. now apply consistent_parent_lists.
Qed.

(** The cast page: the cast (node 2) is dispatched, the manifest awaited;
    a mount from there leaves the render root (node 4) alone below node 1. *)
Lemma farcaster_mounts_over_the_cast_witness :
  let w' := snd (Farcaster.handleNewNode (collaborators trusted) defaultOptions
                   2 (mkWorld castPage [])) in
  let d'' := dom (snd (mount (collaborators trusted) defaultOptions 1 exampleUrl "action" w')) in
  parentElement (dom w') 2 = Some 1 /\
  parentNodeOf d'' 2 = None /\ childNodesOf d'' 1 = [4].
Proof.
  pose proof (farcaster_mounts_over_the_cast
                (collaborators trusted) defaultOptions 2 (mkWorld castPage [])
                (AwaitActionsJson 1 (mkURL "https://example.com/x"
                                           "https://example.com" "example.com"))
                eq_refl) as (H1 & _ & H2).
  split; [exact H1 |]. exact (H2 eq_refl exampleUrl "action").
Defined.

(* ===================================================================== *)
(** ** Further properties: a page that has started *)
(* ===================================================================== *)

Section Started.
Context (handleNewNode : NodeId -> M Outcome).
Context (resume : Pending -> Response -> M Outcome).

Lemma started_run events : forall p,
  observing p = true -> registryInit p = Some PromiseFulfilled ->
  let p' := pageRun handleNewNode resume p events in
  observing p' = true /\ registryInit p' = Some PromiseFulfilled /\
  root p' = root p /\
  system p' = fold_left (deliver handleNewNode resume) events (system p).
Proof.
  induction events as [| e events IH]; intros p Hobs Hinit; cbn zeta.
  - auto.
  - change (pageRun handleNewNode resume p (e :: events))
      with (pageRun handleNewNode resume
                    (pageStep handleNewNode resume p e) events).
    cbn [fold_left].
    assert (Hstep : let q := pageStep handleNewNode resume p e in
              observing q = true /\ registryInit q = Some PromiseFulfilled /\
              root q = root p /\
              system q = deliver handleNewNode resume (system p) e).
    { destruct e as [fulfilled | records | task r]; cbn.
      - rewrite Hinit. auto.
      - rewrite Hobs. cbn. auto.
      - auto. }
    cbn zeta in Hstep. destruct Hstep as (H1 & H2 & H3 & H4).
    destruct (IH _ H1 H2) as (I1 & I2 & I3 & I4).
    rewrite <- H3, <- H4. auto.
Qed.
End Started.

(** X11: once [init()] is fulfilled on a page that has its root, the
    observer stays attached for good.  Every later batch of mutations goes
    through the callback and every settlement reaches its dispatch, in the
    order of the events; a second settlement of [init()], fulfilled or
    rejected, changes nothing. *)
Theorem started_page_keeps_observing handleNewNode resume pageRoot w events :
  let started p :=
    observing p = true /\ registryInit p = Some PromiseFulfilled /\
    system p = fold_left (deliver handleNewNode resume) events (mkSystem w []) in
  started (pageRun handleNewNode resume (setupTwitterObserver (Some pageRoot) w)
                   (InitSettles true :: events)) /\
  started (pageRun handleNewNode resume (setupFarcasterObserver (Some pageRoot) w)
                   (InitSettles true :: events)).
Proof.
  intros started.
  assert (H : forall p, observing p = true ->
                registryInit p = Some PromiseFulfilled ->
                system p = mkSystem w [] ->
                started (pageRun handleNewNode resume p events)).
  { intros p H1 H2 H3.
    destruct (started_run handleNewNode resume events p H1 H2)
      as (I1 & I2 & _ & I4).
    unfold started. rewrite I4, H3. auto. }
  split; apply H; reflexivity.
Qed.

(* ===================================================================== *)
(** ** Further properties: nothing is rendered that was not fetched *)
(* ===================================================================== *)

Section Ledger.
Context (handleNewNode : NodeId -> M Outcome).
Context (resume : Pending -> Response -> M Outcome).
Context (credit : Effect -> bool) (owed : Outcome -> bool).
Hypothesis owed_Finished : owed Finished = false.
Hypothesis handleNewNode_pays : forall e, pays credit owed Finished (handleNewNode e).
Hypothesis resume_pays : forall p r, pays credit owed (Suspended p) (resume p r).

Lemma covered_step s st :
  covered credit owed s -> covered credit owed (step handleNewNode resume s st).
Proof.
  unfold covered. intros Hs. destruct st as [e | t r]; cbn [step].
  - unfold dispatch. pose proof (handleNewNode_pays e (world s)) as Hp.
    destruct (handleNewNode e (world s)) as [o w]. cbn [fst snd world tasks] in *.
    rewrite owed_Finished in Hp.
    rewrite countIf_app, countIf_cons. unfold countIf at 3.
    cbn [List.filter length snd]. destruct (owed o); lia.
  - unfold settle.
    destruct (tasks s !! t) as [[e0 [| p]] |] eqn:E; try exact Hs.
    pose proof (resume_pays p r (world s)) as Hp.
    destruct (resume p r (world s)) as [o w]. cbn [fst snd world tasks] in *.
    pose proof (countIf_insert (fun t => owed (snd t)) (e0, o) (tasks s) t _ E)
      as Hi.
    cbn [snd] in Hi. destruct (owed o), (owed (Suspended p)); lia.
Qed.

Lemma covered_run schedule : forall s,
  covered credit owed s -> covered credit owed (run handleNewNode resume s schedule).
Proof.
  induction schedule as [| st schedule IH]; intros s Hs; [exact Hs |].
  apply (IH (step handleNewNode resume s st)). now apply covered_step.
Qed.
End Ledger.

Lemma covered_initial credit owed d : covered credit owed (initial d).
Proof. unfold covered, countIf. cbn. lia. Qed.

Lemma pays_quiet credit owed before (m : M Outcome) :
  Logs notRendered m -> (forall w, owed (fst (m w)) = false) ->
  pays credit owed before m.
Proof.
  intros Hq Ho w. rewrite (Logs_quiet m w Hq), Ho.
  destruct (Hq w) as (l & -> & _). rewrite countIf_app.
  destruct (owed before); lia.
Qed.

Lemma pays_mount c options credit owed before container u a :
  owed Finished = false -> owed before = true ->
  pays credit owed before (mount c options container u a ;;; ret Finished).
Proof.
  intros Hf Ho w. rewrite mount_then_finished, Ho, Hf.
  pose proof (mount_log c options container u a w) as Hl.
  unfold bind, ret. destruct (mount c options container u a w) as [[] w1].
  cbn [fst snd] in *. rewrite Hl, !countIf_app.
  unfold countIf at 2. cbn [List.filter isRendered length]. lia.
Qed.

Lemma countIf_nil {A} (f : A -> bool) : countIf f [] = 0.
Proof. reflexivity. Qed.

Ltac counts :=
  rewrite ?countIf_app, ?countIf_cons, ?countIf_nil;
  cbn [isRendered isActionFetch isSupportedCall].

Section Fetches.
Context (c : Collaborators) (options : NormalizedObserverOptions).

Lemma resolveAction_pays before container u api :
  pays isActionFetch afterFetch before (resolveAction c options container u api).
Proof.
  intros w. unfold resolveAction, gate, bind, tell, ret.
  destruct api as [api |]; [| cbn; destruct (afterFetch before); lia].
  destruct (String.eqb api ""); [cbn; destruct (afterFetch before); lia |].
  rewrite checkSecurity_always_true. cbn [negb fst snd dom log afterFetch].
  counts. destruct (afterFetch before); lia.
Qed.

Lemma classify_pays before container u :
  pays isActionFetch afterFetch before (classify c options container u).
Proof.
  intros w. unfold classify, gate, bind, tell, ret.
  rewrite !checkSecurity_always_true. cbn [negb fst snd].
  destruct (isInterstitial_flag (isInterstitial c u)); cbn [negb fst snd].
  - cbv beta iota zeta.
    pose proof (resolveAction_pays before container u
                  (decodedActionUrl (isInterstitial c u))
                  {| dom := dom w;
                     log := log w ++
                       [Gate Interstitials
                             (getExtendedInterstitialState c (href u))
                             (interstitials (n_securityLevel options)) true] |})
      as H.
    cbn [dom log] in H.
    rewrite ?countIf_app, ?countIf_cons, ?countIf_nil in H.
    cbn [isRendered isActionFetch] in H. lia.
  - cbn [dom log afterFetch]. counts. destruct (afterFetch before); lia.
Qed.
End Fetches.

Lemma pays_ret credit owed before out :
  owed out = false -> pays credit owed before (ret out).
Proof. intros Ho w. cbn. rewrite Ho. destruct (owed before); lia. Qed.

Lemma twitter_first_await c element w :
  stage (fst (Twitter.handleNewNode c element w)) = 0 \/
  stage (fst (Twitter.handleNewNode c element w)) = 4.
Proof.
  destruct (String.eqb_spec (localNameOf (dom w) element) "div") as [Hd | Hd].
  - rewrite (handleNewNode_div c element w Hd).
    unfold Twitter.locateAndFetch, bind.
    destruct (Twitter.extractCandidate _ element _) as [[[anchor container] |] w1];
      cbn; auto.
  - rewrite (handleNewNode_not_div c element w Hd). cbn. auto.
Qed.

Lemma stage_afterFetch out :
  afterFetch out = true <-> (stage out = 1 \/ stage out = 2).
Proof. destruct out as [| []]; cbn; split; intros H; auto; lia || (destruct H; lia). Qed.

Lemma stage_atSupported out : atSupported out = true <-> stage out = 1.
Proof. destruct out as [| []]; cbn; split; intros H; auto; lia || discriminate. Qed.

Section Paying.
Context (c : Collaborators) (options : NormalizedObserverOptions).

Lemma resume_pays_fetch p r :
  pays isActionFetch afterFetch (Suspended p) (resume c options p r).
Proof.
  destruct p as [container | container u | container u state | container u a];
    destruct r as [| u' | j | a' | b]; cbn [resume];
    try (apply pays_ret; reflexivity).
  - apply classify_pays.
  - apply resolveAction_pays.
  - destruct (hasIsSupported c).
    + intros w. unfold bind, tell, ret. cbn [fst snd dom log afterFetch].
      counts. lia.
    + apply pays_mount; reflexivity.
  - destruct b; [apply pays_mount; reflexivity | apply pays_ret; reflexivity].
Qed.

Lemma twitter_pays_fetch e :
  pays isActionFetch afterFetch Finished (Twitter.handleNewNode c e).
Proof.
  apply pays_quiet; [apply quiet_twitter_handleNewNode |].
  intros w. destruct (afterFetch (fst (Twitter.handleNewNode c e w))) eqn:E;
    [| reflexivity].
  apply stage_afterFetch in E. destruct (twitter_first_await c e w); lia.
Qed.

Lemma farcaster_pays_fetch e :
  pays isActionFetch afterFetch Finished (Farcaster.handleNewNode c options e).
Proof.
  intros w.
  destruct (farcaster_cases c options e w)
    as [Hfin | (anchor & w1 & container & u & _ & _ & Heq & Hlog)].
  - rewrite Hfin.
    rewrite (Logs_quiet _ w (quiet_farcaster_handleNewNode c options e)).
    destruct (quiet_farcaster_handleNewNode c options e w) as (l & -> & _).
    rewrite countIf_app. cbn. lia.
  - rewrite Heq. pose proof (classify_pays c options Finished container u w1) as H.
    now rewrite Hlog in H.
Qed.
End Paying.

(** X12: nothing is rendered that was not fetched.  On either page and
    along any schedule, the renders logged so far, together with the
    dispatches that wait for the fetched action or for [isSupported], never
    exceed the calls of [Action.fetch]. *)
Theorem no_render_without_its_action_fetch c options d schedule :
  let twitter :=
    run (Twitter.handleNewNode c) (resume c options) (initial d) schedule in
  let farcaster :=
    run (Farcaster.handleNewNode c options) (resume c options) (initial d)
        schedule in
  covered isActionFetch afterFetch twitter /\
  covered isActionFetch afterFetch farcaster.
Proof.
  split; apply covered_run;
    first [ reflexivity | apply covered_initial | apply resume_pays_fetch
          | apply twitter_pays_fetch | apply farcaster_pays_fetch ].
Qed.

Lemma resolveAction_awaits c options container u api w :
  atSupported (fst (resolveAction c options container u api w)) = false.
Proof.
  destruct (atSupported _) eqn:E; [| reflexivity].
  apply stage_atSupported in E.
  unfold resolveAction, gate, bind, tell, ret in E.
  destruct api as [api |]; [| discriminate].
  destruct (String.eqb api ""); [discriminate |].
  rewrite checkSecurity_always_true in E. discriminate.
Qed.

Lemma classify_awaits c options container u w :
  atSupported (fst (classify c options container u w)) = false.
Proof.
  unfold classify, gate, bind, tell, ret.
  rewrite !checkSecurity_always_true. cbn [negb fst snd].
  destruct (isInterstitial_flag (isInterstitial c u)); cbn [negb fst snd].
  - cbv beta iota zeta. apply resolveAction_awaits.
  - reflexivity.
Qed.

Section PayingSupported.
Context (c : Collaborators) (options : NormalizedObserverOptions).
Hypothesis adapter_has_isSupported : hasIsSupported c = true.

Lemma resume_pays_supported p r :
  pays isSupportedCall atSupported (Suspended p) (resume c options p r).
Proof.
  destruct p as [container | container u | container u state | container u a];
    destruct r as [| u' | j | a' | b]; cbn [resume];
    try (apply pays_ret; reflexivity).
  - apply pays_quiet; [apply quiet_classify | apply classify_awaits].
  - apply pays_quiet; [apply quiet_resolveAction | apply resolveAction_awaits].
  - rewrite adapter_has_isSupported.
    intros w. unfold bind, tell, ret. cbn [fst snd dom log atSupported].
    counts. lia.
  - destruct b; [apply pays_mount; reflexivity | apply pays_ret; reflexivity].
Qed.

Lemma twitter_pays_supported e :
  pays isSupportedCall atSupported Finished (Twitter.handleNewNode c e).
Proof.
  apply pays_quiet; [apply quiet_twitter_handleNewNode |].
  intros w. destruct (atSupported (fst (Twitter.handleNewNode c e w))) eqn:E;
    [| reflexivity].
  apply stage_atSupported in E. destruct (twitter_first_await c e w); lia.
Qed.

Lemma farcaster_pays_supported e :
  pays isSupportedCall atSupported Finished (Farcaster.handleNewNode c options e).
Proof.
  apply pays_quiet; [apply quiet_farcaster_handleNewNode |].
  intros w.
  destruct (farcaster_cases c options e w)
    as [Hfin | (anchor & w1 & container & u & _ & _ & Heq & _)].
  - now rewrite Hfin.
  - rewrite Heq. apply classify_awaits.
Qed.
End PayingSupported.

(** X13: with an adapter that has [isSupported], nothing is rendered that
    the adapter was not asked about.  On either page and along any
    schedule, the renders logged so far, together with the dispatches that
    wait for the answer, never exceed the calls of [isSupported]. *)
Theorem no_render_without_its_isSupported_call c options d schedule :
  hasIsSupported c = true ->
  let twitter :=
    run (Twitter.handleNewNode c) (resume c options) (initial d) schedule in
  let farcaster :=
    run (Farcaster.handleNewNode c options) (resume c options) (initial d)
        schedule in
  covered isSupportedCall atSupported twitter /\
  covered isSupportedCall atSupported farcaster.
Proof.
  intros Hs. split; apply covered_run;
    first [ reflexivity | apply covered_initial
          | apply resume_pays_supported; exact Hs
          | apply twitter_pays_supported
          | apply farcaster_pays_supported ].
Qed.

(** The card scenario up to the answer of [isSupported]: one call, one
    dispatch waiting, nothing rendered. *)
Lemma no_render_without_its_isSupported_call_witness :
  let s := run (Twitter.handleNewNode (collaborators trusted)) (resume (collaborators trusted) defaultOptions)
               (initial cardPage)
               [ Dispatch 1; Settle 0 (ResolvedUrl exampleUrl);
                 Settle 0 (ResolvedJson "{}"); Settle 0 (ResolvedAction "action") ] in
  hasIsSupported (collaborators trusted) = true /\
  covered isSupportedCall atSupported s /\
  countIf isSupportedCall (log (world s)) = 1.
Proof.
  split; [reflexivity |]. split; [| reflexivity].
  exact (proj1 (no_render_without_its_isSupported_call
                  (collaborators trusted) defaultOptions cardPage
                  [ Dispatch 1; Settle 0 (ResolvedUrl exampleUrl);
                    Settle 0 (ResolvedJson "{}");
                    Settle 0 (ResolvedAction "action") ] eq_refl)).
Defined.

(* ===================================================================== *)
(** ** Further properties: the listeners of the dropdown *)
(* ===================================================================== *)

Module EventFacts.
Import Events.

Lemma restyled_refl nd : restyled nd nd.
Proof. unfold restyled. now destruct nd. Qed.

Lemma restyled_trans x y z : restyled x y -> restyled y z -> restyled x z.
Proof.
  unfold restyled. intros Hxy Hyz. rewrite Hyz at 1. rewrite Hxy at 1.
  now destruct x.
Qed.

Lemma listenersOnly_refl lists d : listenersOnly lists d d.
Proof.
  split; [reflexivity |]. intros n nd Hn. exists nd.
  split; [exact Hn |]. split; [apply restyled_refl |]. auto.
Qed.

Lemma listenersOnly_trans lists d1 d2 d3 :
  listenersOnly lists d1 d2 -> listenersOnly lists d2 d3 ->
  listenersOnly lists d1 d3.
Proof.
  intros [L12 H12] [L23 H23]. split; [congruence |].
  intros n nd Hn. destruct (H12 n nd Hn) as (nd2 & Hn2 & R12 & P12 & D12).
  destruct (H23 n nd2 Hn2) as (nd3 & Hn3 & R23 & P23 & D23).
  exists nd3. split; [exact Hn3 |].
  split; [eapply restyled_trans; eauto |]. split.
  - intros prop H1 H2. rewrite P23, P12; auto.
  - destruct D23 as [D23 | D23]; [| now right].
    rewrite D23. exact D12.
Qed.

Lemma listenersOnly_setStyle lists n k v d :
  k = "backgroundColor" \/
  (k = "display" /\ In n lists /\ (v = "none" \/ v = "block")) ->
  listenersOnly lists d (setStyle n k v d).
Proof.
  intros Hk. split; [apply length_setStyle |].
  intros m nd Hm. unfold setStyle. rewrite list_lookup_alter.
  destruct (decide (n = m)) as [<- | Hne]; rewrite Hm; cbn.
  - eexists. split; [reflexivity |]. split; [reflexivity |]. cbn. split.
    + intros prop H1 H2. apply assoc_set_assoc_ne.
      destruct Hk as [-> | (-> & _)]; congruence.
    + destruct Hk as [-> | (-> & Hin & Hv)].
      * left. now apply assoc_set_assoc_ne.
      * right. split; [exact Hin |]. rewrite assoc_set_assoc_eq.
        unfold blockOrNone. destruct Hv as [-> | ->]; auto.
  - exists nd. split; [reflexivity |]. split; [apply restyled_refl |]. auto.
Qed.

Lemma listen_only lists layout e n cl d fl :
  In (optionsContainer cl) lists ->
  let '(d1, cl1, fl1) := listen layout e n cl d fl in
  listenersOnly lists d d1 /\ dropdownContainer cl1 = dropdownContainer cl.
Proof.
  intros Hin. unfold listen.
  destruct (eventType e);
    repeat match goal with
           | |- context [if ?b then _ else _] => destruct b
           end;
    (split; [| reflexivity]);
    first [ apply listenersOnly_refl
          | apply listenersOnly_setStyle; auto ].
Qed.

Lemma listenAt_only lists layout e n cls : forall d fl,
  incl (map optionsContainer cls) lists ->
  let '(d1, cls1, fl1) := listenAt layout e n cls d fl in
  listenersOnly lists d d1 /\
  map dropdownContainer cls1 = map dropdownContainer cls.
Proof.
  induction cls as [| cl rest IH]; intros d fl Hincl; cbn [listenAt].
  - split; [apply listenersOnly_refl | reflexivity].
  - pose proof (listen_only lists (layout (optionsContainer cl)) e n cl d fl
                  (Hincl _ (or_introl eq_refl))) as H1.
    destruct (listen (layout (optionsContainer cl)) e n cl d fl)
      as [[d1 cl1] fl1].
    specialize (IH d1 fl1 (fun x Hx => Hincl x (or_intror Hx))).
    destruct (listenAt layout e n rest d1 fl1) as [[d2 rest2] fl2].
    destruct H1 as [H1 E1], IH as [H2 E2]. split.
    + eapply listenersOnly_trans; eauto.
    + cbn. now rewrite E1, E2.
Qed.

Lemma documentClick_only lists cls : forall d,
  incl (map optionsContainer cls) lists ->
  listenersOnly lists d (documentClick cls d).
Proof.
  unfold documentClick.
  induction cls as [| cl rest IH]; intros d Hincl; cbn [fold_left].
  - apply listenersOnly_refl.
  - eapply listenersOnly_trans.
    + apply (listenersOnly_setStyle lists (optionsContainer cl) "display" "none").
      right. split; [reflexivity |]. split; [| now left].
      apply Hincl. now left.
    + apply IH. intros x Hx. apply Hincl. now right.
Qed.

Lemma lists_of_containers cls cls' :
  map dropdownContainer cls' = map dropdownContainer cls ->
  map optionsContainer cls' = map optionsContainer cls.
Proof.
  intros H. unfold optionsContainer.
  rewrite <- !(map_map dropdownContainer (fun n => n + 3)). now rewrite H.
Qed.

Lemma propagate_only layout e path : forall ui fl,
  let r := propagate layout e path ui fl in
  listenersOnly (map optionsContainer (closures ui)) (page ui) (page (fst r)) /\
  map dropdownContainer (closures (fst r)) = map dropdownContainer (closures ui).
Proof.
  induction path as [| n rest IH]; intros ui fl; cbn [propagate].
  - destruct (eventType e); cbn; split;
      first [ reflexivity | apply listenersOnly_refl
            | apply documentClick_only; apply incl_refl ].
  - pose proof (listenAt_only (map optionsContainer (closures ui)) layout e n
                  (closures ui) (page ui) fl (incl_refl _)) as H1.
    destruct (listenAt layout e n (closures ui) (page ui) fl)
      as [[d1 cls1] fl1].
    destruct H1 as [H1 E1].
    cbv zeta.
    destruct (propagationStopped (reactListener e n (roots ui) fl1));
      [split; assumption |].
    specialize (IH (mkUi d1 cls1 (roots ui))
                   (reactListener e n (roots ui) fl1)).
    cbn zeta in IH. cbn [page closures] in IH.
    destruct IH as [H2 E2].
    rewrite (lists_of_containers _ _ E1) in H2. split.
    + eapply listenersOnly_trans; eauto.
    + congruence.
Qed.

Lemma listenersOnly_blockOrNone lists d d' n :
  listenersOnly lists d d' ->
  blockOrNone (styleOf d n "display") -> blockOrNone (styleOf d' n "display").
Proof.
  intros [_ H] Hb. unfold styleOf in *.
  destruct (d !! n) as [nd |] eqn:Hn; [| destruct Hb; discriminate].
  destruct (H n nd Hn) as (nd' & -> & _ & _ & [D | [_ D]]).
  - now rewrite D.
  - exact D.
Qed.

Lemma dispatchEvent_only layout e ui :
  let ui' := fst (dispatchEvent layout e ui) in
  map dropdownContainer (closures ui') = map dropdownContainer (closures ui) /\
  listenersOnly (map optionsContainer (closures ui)) (page ui) (page ui') /\
  (listsBlockOrNone ui -> listsBlockOrNone ui').
Proof.
  cbn zeta. unfold dispatchEvent.
  destruct (propagate_only layout e (eventPath (page ui) e) ui
              (mkFlags false false)) as [H E].
  split; [exact E |]. split; [exact H |].
  unfold listsBlockOrNone. intros Hb.
  set (ui' := fst (propagate layout e (eventPath (page ui) e) ui
                             (mkFlags false false))) in *.
  apply List.Forall_forall. intros cl' Hin'.
  assert (Hl : In (optionsContainer cl') (map optionsContainer (closures ui))).
  { rewrite <- (lists_of_containers _ _ E). now apply in_map. }
  apply in_map_iff in Hl as (cl & Heq & Hin). rewrite <- Heq.
  rewrite List.Forall_forall in Hb.
  eapply listenersOnly_blockOrNone; [exact H | now apply Hb].
Qed.
End EventFacts.

(** X14: whatever events the browser dispatches, the listeners of the
    dropdowns change nothing of the page but inline styles, there nothing
    but [display] and [backgroundColor], and [display] only on the list
    of a dropdown, to [none] or to [block]: a list that is hidden or shown
    as a block stays so after any sequence of events. *)
Theorem listeners_only_restyle events ui :
  let ui' := Events.dispatchEvents events ui in
  map Events.dropdownContainer (Events.closures ui')
  = map Events.dropdownContainer (Events.closures ui) /\
  Events.listenersOnly (map Events.optionsContainer (Events.closures ui))
                       (Events.page ui) (Events.page ui') /\
  (Events.listsBlockOrNone ui -> Events.listsBlockOrNone ui').
Proof.
  cbn zeta. revert ui. unfold Events.dispatchEvents.
  induction events as [| [layout e] events IH]; intros ui; cbn [fold_left].
  - split; [reflexivity |]. split; [apply EventFacts.listenersOnly_refl | auto].
  - destruct (EventFacts.dispatchEvent_only layout e ui) as (E1 & H1 & B1).
    cbn [fst snd].
    destruct (IH (fst (Events.dispatchEvent layout e ui))) as (E2 & H2 & B2).
    rewrite (EventFacts.lists_of_containers _ _ E1) in H2.
    split; [congruence |]. split; [| auto].
    eapply EventFacts.listenersOnly_trans; eauto.
Qed.

Module ClickFacts.
Import Events.

Lemma listenAt_app layout e n l1 : forall l2 d fl,
  listenAt layout e n (l1 ++ l2) d fl =
  let '(d1, l1', fl1) := listenAt layout e n l1 d fl in
  let '(d2, l2', fl2) := listenAt layout e n l2 d1 fl1 in
  (d2, l1' ++ l2', fl2).
Proof.
  induction l1 as [| cl l1 IH]; intros l2 d fl; cbn [listenAt app].
  - now destruct (listenAt layout e n l2 d fl) as [[d2 l2'] fl2].
  - destruct (listen (layout (optionsContainer cl)) e n cl d fl)
      as [[d1 cl1] fl1].
    rewrite IH. destruct (listenAt layout e n l1 d1 fl1) as [[d2 l1'] fl2].
    now destruct (listenAt layout e n l2 d2 fl2) as [[d3 l2'] fl3].
Qed.

(** On the nodes of one dropdown the listeners of another do nothing. *)
Lemma listen_apart layout e n cl d fl N :
  apart N cl -> N <= n < N + 8 -> listen layout e n cl d fl = (d, cl, fl).
Proof.
  intros Ha Hn. unfold apart in Ha.
  assert (H1 : isOption cl n = false).
  { unfold isOption. cbn [length Twitter.dropdownOptions].
    apply andb_false_iff.
    destruct (Nat.leb_spec (dropdownContainer cl + 4) n); [right | now left].
    apply Nat.ltb_ge. lia. }
  assert (H2 : Nat.eqb n (customDropdown cl) = false)
    by (apply Nat.eqb_neq; unfold customDropdown; lia).
  assert (H3 : Nat.eqb n (optionsContainer cl) = false)
    by (apply Nat.eqb_neq; unfold optionsContainer; lia).
  unfold listen. rewrite H1, H2, H3. now destruct (eventType e).
Qed.

Lemma listenAt_apart layout e n N cls : forall d fl,
  Forall (apart N) cls -> N <= n < N + 8 ->
  listenAt layout e n cls d fl = (d, cls, fl).
Proof.
  induction cls as [| cl rest IH]; intros d fl Ha Hn; cbn [listenAt];
    [reflexivity |].
  inversion Ha as [| ? ? Hcl Hrest]; subst.
  rewrite (listen_apart _ _ _ _ _ _ N Hcl Hn). now rewrite IH.
Qed.

(** On the nodes of a dropdown only its own listeners act. *)
Lemma listenAt_own layout e n N t before after d fl :
  Forall (apart N) (before ++ after) -> N <= n < N + 8 ->
  listenAt layout e n (before ++ mkClosure N t :: after) d fl =
  let '(d1, cl1, fl1) := listen (layout (N + 3)) e n (mkClosure N t) d fl in
  (d1, before ++ cl1 :: after, fl1).
Proof.
  intros Ha Hn. apply Forall_app in Ha as [Hb Hafter].
  rewrite listenAt_app, (listenAt_apart _ _ _ N before _ _ Hb Hn).
  cbn [listenAt]. change (optionsContainer (mkClosure N t)) with (N + 3).
  destruct (listen (layout (N + 3)) e n (mkClosure N t) d fl) as [[d1 cl1] fl1].
  now rewrite (listenAt_apart _ _ _ N after _ _ Hafter Hn).
Qed.

Lemma isOption_own N t n :
  isOption (mkClosure N t) n = Nat.leb (N + 4) n && Nat.ltb n (N + 8).
Proof.
  unfold isOption. cbn [dropdownContainer length Twitter.dropdownOptions].
  do 2 f_equal. lia.
Qed.

Lemma ancestors_fuel_step d f n :
  ancestors_fuel d (S f) n =
  match parentNodeOf d n with
  | Some p => p :: ancestors_fuel d f p
  | None => []
  end.
Proof. reflexivity. Qed.

(** The listener of a render root adds nothing to an event that is stopped
    already, to a node that is no render root, and to any event but a
    click. *)
Lemma reactListener_stopped e n rts fl :
  propagationStopped fl = true -> reactListener e n rts fl = fl.
Proof.
  unfold reactListener, stopPropagation. destruct fl as [s p]. cbn.
  intros ->. destruct (eventType e); try reflexivity.
  now destruct (existsb (Nat.eqb n) rts).
Qed.

Lemma reactListener_miss e n rts fl :
  ~ In n rts -> reactListener e n rts fl = fl.
Proof.
  intros Hn. unfold reactListener. destruct (eventType e); try reflexivity.
  destruct (existsb (Nat.eqb n) rts) eqn:E; [| reflexivity].
  apply existsb_exists in E as (x & Hin & Hx).
  apply Nat.eqb_eq in Hx. subst x. contradiction.
Qed.

Lemma reactListener_hit e n rts fl :
  eventType e = Click -> In n rts ->
  reactListener e n rts fl = stopPropagation fl.
Proof.
  intros He Hn. unfold reactListener. rewrite He.
  replace (existsb (Nat.eqb n) rts) with true; [reflexivity |].
  symmetry. apply existsb_exists. exists n. split; [exact Hn |].
  apply Nat.eqb_refl.
Qed.

Lemma reactListener_other e n rts fl :
  eventType e <> Click -> reactListener e n rts fl = fl.
Proof. unfold reactListener. now destruct (eventType e). Qed.
End ClickFacts.

Lemma listenAt_click_own layout d before after t N target n fl :
  Forall (Events.apart N) (before ++ after) -> N <= n < N + 8 ->
  Events.listenAt layout (Events.mkEvent Events.Click target 0%Z 0%Z) n
    (before ++ Events.mkClosure N t :: after) d fl
  = (if Nat.leb (N + 4) n && Nat.ltb n (N + 8)
     then (setStyle (N + 3) "display" "none" d,
           before ++ Events.mkClosure N t :: after,
           Events.stopPropagation fl)
     else if Nat.eqb n (N + 2)
     then (setStyle (N + 3) "display"
             (if Events.displayIsNone d (N + 3) then "block" else "none") d,
           before ++ Events.mkClosure N t :: after,
           Events.stopPropagation fl)
     else (d, before ++ Events.mkClosure N t :: after, fl)).
Proof.
  intros Ha Hn. rewrite (ClickFacts.listenAt_own _ _ _ N t before after _ _ Ha Hn).
  unfold Events.listen. cbn [Events.eventType].
  rewrite ClickFacts.isOption_own.
  change (Events.customDropdown (Events.mkClosure N t)) with (N + 2).
  change (Events.optionsContainer (Events.mkClosure N t)) with (N + 3).
  destruct (Nat.leb (N + 4) n && Nat.ltb n (N + 8)); [reflexivity |].
  now destruct (Nat.eqb n (N + 2)).
Qed.

Lemma click_inside layout d before after roots t N target :
  Events.wired d N -> Forall (Events.apart N) (before ++ after) ->
  (target = N + 1 \/ target = N + 3 -> ~ In target roots) ->
  N < target < N + 8 ->
  let cls := before ++ Events.mkClosure N t :: after in
  let display :=
    if Nat.leb (N + 4) target then "none"
    else if Events.displayIsNone d (N + 3) then "block" else "none" in
  Events.dispatchEvent layout (Events.mkEvent Events.Click target 0%Z 0%Z)
                       (Events.mkUi d cls roots)
  = (Events.mkUi (setStyle (N + 3) "display" display d) cls roots,
     Events.mkFlags true false).
Proof.
  intros (Hlen & H1 & H2 & H3 & H4) Ha Hr Ht. cbn zeta.
  unfold Events.dispatchEvent, Events.eventPath.
  cbn [Events.page Events.closures Events.eventType Events.target Events.bubbles].
  destruct (length d) as [| f] eqn:El; [lia |].
  rewrite ClickFacts.ancestors_fuel_step.
  pose proof (fun n fl => listenAt_click_own layout d before after t N target
                            n fl Ha) as Hown.
  destruct (Nat.leb_spec (N + 4) target) as [Hopt | Hopt].
  - (* an option *)
    cbn [Events.propagate Events.page Events.closures Events.roots].
    rewrite Hown by lia.
    replace (Nat.leb (N + 4) target) with true by (symmetry; apply Nat.leb_le; lia).
    replace (Nat.ltb target (N + 8)) with true by (symmetry; apply Nat.ltb_lt; lia).
    cbn [andb]. cbv zeta.
    rewrite ClickFacts.reactListener_stopped by reflexivity. reflexivity.
  - destruct (Nat.eq_dec target (N + 2)) as [-> | Hne].
    + (* the button *)
      cbn [Events.propagate Events.page Events.closures Events.roots].
      rewrite Hown by lia.
      replace (Nat.leb (N + 4) (N + 2)) with false by (symmetry; apply Nat.leb_gt; lia).
      rewrite Nat.eqb_refl. cbn [andb]. cbv zeta.
      rewrite ClickFacts.reactListener_stopped by reflexivity. reflexivity.
    + (* the icon or the list: the click bubbles to the button *)
      assert (Hc : target = N + 1 \/ target = N + 3) by lia.
      assert (Hp : parentNodeOf d target = Some (N + 2)).
      { destruct Hc as [-> | ->]; assumption. }
      pose proof (Hr Hc) as Hroot.
      rewrite Hp. cbn [Events.propagate Events.page Events.closures Events.roots].
      rewrite Hown by lia.
      replace (Nat.leb (N + 4) target) with false by (symmetry; apply Nat.leb_gt; lia).
      replace (Nat.eqb target (N + 2)) with false by (symmetry; apply Nat.eqb_neq; lia).
      cbn [andb]. cbv zeta.
      rewrite (ClickFacts.reactListener_miss _ _ _ _ Hroot).
      cbn [Events.propagationStopped Events.page Events.closures Events.roots].
      rewrite Hown by lia.
      replace (Nat.leb (N + 4) (N + 2)) with false by (symmetry; apply Nat.leb_gt; lia).
      rewrite Nat.eqb_refl. cbn [andb]. cbv beta iota zeta.
      rewrite ClickFacts.reactListener_stopped by reflexivity. reflexivity.
Qed.

(** An icon or a list that is itself a render root: the click is stopped
    before it reaches the button. *)
Lemma click_in_action layout d before after roots t N target :
  Forall (Events.apart N) (before ++ after) ->
  target = N + 1 \/ target = N + 3 -> In target roots ->
  let cls := before ++ Events.mkClosure N t :: after in
  Events.dispatchEvent layout (Events.mkEvent Events.Click target 0%Z 0%Z)
                       (Events.mkUi d cls roots)
  = (Events.mkUi d cls roots, Events.mkFlags true false).
Proof.
  intros Ha Hc Hin. cbn zeta.
  unfold Events.dispatchEvent, Events.eventPath.
  cbn [Events.page Events.closures Events.eventType Events.target Events.bubbles].
  cbn [Events.propagate Events.page Events.closures Events.roots].
  rewrite (listenAt_click_own layout d before after t N target target _ Ha)
    by lia.
  replace (Nat.leb (N + 4) target) with false by (symmetry; apply Nat.leb_gt; lia).
  replace (Nat.eqb target (N + 2)) with false by (symmetry; apply Nat.eqb_neq; lia).
  cbn [andb]. cbv zeta.
  rewrite (ClickFacts.reactListener_hit
             (Events.mkEvent Events.Click target 0%Z 0%Z) _ _ _ eq_refl Hin).
  reflexivity.
Qed.

(** X15: a click inside a dropdown.  On one of its options the list is
    hidden; on the icon, the button or the list itself the list is shown
    when it was hidden and hidden otherwise.  Either way the propagation
    stops there: nothing else of the page changes, the listeners on the
    document do not run, and the lists of the other dropdowns stay as they
    are, open ones included.  The one exception is an icon or a list that
    is itself the render root of a mounted action: there the click handler
    of the render root stops the click before it reaches the button, and
    the page stays as it is. *)
Theorem click_inside_a_dropdown layout d before after roots t N target :
  Events.wired d N -> Forall (Events.apart N) (before ++ after) ->
  N < target < N + 8 ->
  let cls := before ++ Events.mkClosure N t :: after in
  let display :=
    if Nat.leb (N + 4) target then "none"
    else if Events.displayIsNone d (N + 3) then "block" else "none" in
  let inAction :=
    (Nat.eqb target (N + 1) || Nat.eqb target (N + 3))
    && existsb (Nat.eqb target) roots in
  Events.dispatchEvent layout (Events.mkEvent Events.Click target 0%Z 0%Z)
                       (Events.mkUi d cls roots)
  = (Events.mkUi (if inAction then d
                  else setStyle (N + 3) "display" display d) cls roots,
     Events.mkFlags true false).
Proof.
  intros Hw Ha Ht. cbv zeta.
  destruct ((Nat.eqb target (N + 1) || Nat.eqb target (N + 3))
            && existsb (Nat.eqb target) roots) eqn:E.
  - apply andb_prop in E as [E1 E2]. apply orb_prop in E1.
    apply existsb_exists in E2 as (x & Hin & Hx). apply Nat.eqb_eq in Hx.
    subst x. apply click_in_action; [exact Ha | | exact Hin].
    destruct E1 as [E1 | E1]; apply Nat.eqb_eq in E1; auto.
  - apply click_inside; [exact Hw | exact Ha | | exact Ht].
    intros Hc Hin. apply andb_false_iff in E as [E | E].
    + apply orb_false_iff in E as [E1 E3].
      apply Nat.eqb_neq in E1. apply Nat.eqb_neq in E3. tauto.
    + assert (Hex : existsb (Nat.eqb target) roots = true); [| congruence].
      apply existsb_exists. exists target. split; [exact Hin |].
      apply Nat.eqb_refl.
Qed.

Module OutsideFacts.
Import Events.

Lemma listenAt_click_miss layout e n cls : forall d fl,
  eventType e = Click ->
  Forall (fun cl => isOption cl n = false /\ n <> customDropdown cl) cls ->
  listenAt layout e n cls d fl = (d, cls, fl).
Proof.
  induction cls as [| cl rest IH]; intros d fl He Hm; cbn [listenAt];
    [reflexivity |].
  inversion Hm as [| ? ? [H1 H2] Hrest]; subst.
  unfold listen. rewrite He, H1.
  replace (Nat.eqb n (customDropdown cl)) with false
    by (symmetry; now apply Nat.eqb_neq).
  now rewrite IH.
Qed.

Lemma propagate_click_miss layout e path rts : forall d cls fl,
  eventType e = Click -> propagationStopped fl = false ->
  missesEveryDropdown cls path -> missesEveryRoot rts path ->
  propagate layout e path (mkUi d cls rts) fl
  = (mkUi (documentClick cls d) cls rts, fl).
Proof.
  induction path as [| n rest IH]; intros d cls fl He Hfl Hm Hr;
    cbn [propagate page closures roots].
  - now rewrite He.
  - inversion Hm as [| ? ? Hn Hrest]; subst.
    inversion Hr as [| ? ? Hn' Hrest']; subst.
    rewrite (listenAt_click_miss _ _ _ _ _ _ He Hn). cbv zeta.
    rewrite (ClickFacts.reactListener_miss _ _ _ _ Hn'), Hfl. now apply IH.
Qed.

Lemma propagate_click_root layout e path rts : forall d cls fl,
  eventType e = Click -> propagationStopped fl = false ->
  missesEveryDropdown cls path -> Exists (fun n => In n rts) path ->
  propagate layout e path (mkUi d cls rts) fl
  = (mkUi d cls rts, stopPropagation fl).
Proof.
  induction path as [| n rest IH]; intros d cls fl He Hfl Hm Hr;
    cbn [propagate page closures roots].
  - inversion Hr.
  - inversion Hm as [| ? ? Hn Hrest]; subst.
    rewrite (listenAt_click_miss _ _ _ _ _ _ He Hn). cbv zeta.
    destruct (in_dec Nat.eq_dec n rts) as [Hin | Hout].
    + rewrite (ClickFacts.reactListener_hit _ _ _ _ He Hin). reflexivity.
    + rewrite (ClickFacts.reactListener_miss _ _ _ _ Hout), Hfl.
      apply IH; auto. inversion Hr; subst; [contradiction | assumption].
Qed.

Lemma documentClick_length cls : forall d,
  length (documentClick cls d) = length d.
Proof.
  unfold documentClick. induction cls as [| cl rest IH]; intros d; cbn;
    [reflexivity |].
  now rewrite IH, length_setStyle.
Qed.

Lemma documentClick_keeps_none cls n : forall d,
  styleOf d n "display" = Some "none" ->
  styleOf (documentClick cls d) n "display" = Some "none".
Proof.
  unfold documentClick. induction cls as [| cl rest IH]; intros d H; cbn;
    [exact H |].
  apply IH. destruct (decide (optionsContainer cl = n)) as [-> | Hne].
  - apply styleOf_setStyle_eq. unfold styleOf in H.
    destruct (d !! n) eqn:E; [| discriminate]. now apply lookup_lt_Some in E.
  - rewrite styleOf_setStyle_ne by (now left). exact H.
Qed.

Lemma documentClick_hides cls : forall d cl,
  In cl cls -> optionsContainer cl < length d ->
  styleOf (documentClick cls d) (optionsContainer cl) "display" = Some "none".
Proof.
  induction cls as [| cl0 rest IH]; intros d cl Hin Hlt; [destruct Hin |].
  change (documentClick (cl0 :: rest) d)
    with (documentClick rest (setStyle (optionsContainer cl0) "display" "none" d)).
  destruct Hin as [-> | Hin].
  - apply documentClick_keeps_none. now apply styleOf_setStyle_eq.
  - apply IH; [exact Hin |]. now rewrite length_setStyle.
Qed.
End OutsideFacts.

(** X16: a click that hits no dropdown.  When it is not inside a mounted
    action it reaches the document, where the listener of every dropdown
    ever created hides its list: afterwards every list is hidden, and
    nothing else has changed.  When it is inside a mounted action, the
    click handler of the render root stops it there: the listeners on the
    document do not run and the page stays as it is, so that a list that
    is open stays open. *)
Theorem click_outside_every_dropdown layout d cls roots target :
  let click := Events.mkEvent Events.Click target 0%Z 0%Z in
  missesEveryDropdown cls (Events.eventPath d click) ->
  let r := Events.dispatchEvent layout click (Events.mkUi d cls roots) in
  (missesEveryRoot roots (Events.eventPath d click) ->
   r = (Events.mkUi (Events.documentClick cls d) cls roots,
        Events.mkFlags false false) /\
   Forall (fun cl =>
             Events.optionsContainer cl < length d ->
             styleOf (Events.page (fst r)) (Events.optionsContainer cl) "display"
             = Some "none") cls) /\
  (Exists (fun n => In n roots) (Events.eventPath d click) ->
   r = (Events.mkUi d cls roots, Events.mkFlags true false)).
Proof.
  intros click Hm r. split.
  - intros Hroots.
    assert (Hr : r = (Events.mkUi (Events.documentClick cls d) cls roots,
                      Events.mkFlags false false)).
    { unfold r, Events.dispatchEvent.
      now apply OutsideFacts.propagate_click_miss. }
    split; [exact Hr |]. rewrite Hr. cbn [fst Events.page].
    apply List.Forall_forall. intros cl Hin Hlt.
    now apply OutsideFacts.documentClick_hides.
  - intros Hroot. unfold r, Events.dispatchEvent.
    now apply OutsideFacts.propagate_click_root.
Qed.

Module ScrollFacts.
Import Events.

(** From an option or from the list itself, the first node of the path
    that is the list. *)
Lemma path_to_list d N hit ty dy cy :
  wired d N -> N + 3 <= hit < N + 8 ->
  bubbles ty = true ->
  exists rest,
    eventPath d (mkEvent ty hit dy cy)
    = (if Nat.eqb hit (N + 3) then [] else [hit]) ++ (N + 3) :: rest.
Proof.
  intros (Hlen & _ & _ & _ & H4) Ht Hb. unfold eventPath.
  cbn [eventType target]. rewrite Hb.
  destruct (Nat.eqb_spec hit (N + 3)) as [-> | Hne].
  - eexists. reflexivity.
  - destruct (length d) as [| f] eqn:El; [lia |].
    rewrite ClickFacts.ancestors_fuel_step, (H4 hit) by lia.
    eexists. reflexivity.
Qed.

Lemma listen_off_list layout e n cl d fl :
  bubbles (eventType e) = true -> eventType e <> Click ->
  n <> optionsContainer cl -> listen layout e n cl d fl = (d, cl, fl).
Proof.
  intros Hb Hc Hn. unfold listen.
  replace (Nat.eqb n (optionsContainer cl)) with false
    by (symmetry; now apply Nat.eqb_neq).
  destruct (eventType e); try reflexivity; try discriminate. congruence.
Qed.
End ScrollFacts.

(** X17: a wheel event over the list of a dropdown, or over one of its
    options, does not leave the list: its propagation is stopped at the
    list, so the page behind never sees it, and its default action is
    prevented exactly when the list is scrolled to its top and the wheel
    goes up, or to its bottom and the wheel goes down.  The page is left
    as it is. *)
Theorem wheel_over_a_list_stops_there layout d before after roots t N hit delta :
  Events.wired d N -> Forall (Events.apart N) (before ++ after) ->
  N + 3 <= hit < N + 8 ->
  let cls := before ++ Events.mkClosure N t :: after in
  Events.dispatchEvent layout (Events.mkEvent Events.Wheel hit delta 0%Z)
                       (Events.mkUi d cls roots)
  = (Events.mkUi d cls roots,
     Events.mkFlags true
       (Events.atEdge (layout (N + 3)) (Z.ltb delta 0) (Z.ltb 0 delta))).
Proof.
  intros Hw Ha Ht. cbn zeta. unfold Events.dispatchEvent.
  cbn [Events.page].
  destruct (ScrollFacts.path_to_list d N hit Events.Wheel delta 0%Z Hw Ht eq_refl)
    as [rest ->].
  assert (Hlist : forall fl rest',
    Events.propagationStopped fl = false -> Events.defaultPrevented fl = false ->
    Events.propagate layout (Events.mkEvent Events.Wheel hit delta 0%Z)
      ((N + 3) :: rest') (Events.mkUi d (before ++ Events.mkClosure N t :: after) roots) fl
    = (Events.mkUi d (before ++ Events.mkClosure N t :: after) roots,
       Events.mkFlags true
         (Events.atEdge (layout (N + 3)) (Z.ltb delta 0) (Z.ltb 0 delta)))).
  { intros fl rest' H1 H2. cbn [Events.propagate Events.page Events.closures Events.roots].
    rewrite (ClickFacts.listenAt_own _ _ _ N t before after _ _ Ha) by lia.
    unfold Events.listen. cbn [Events.eventType Events.deltaY].
    change (Events.optionsContainer (Events.mkClosure N t)) with (N + 3).
    rewrite Nat.eqb_refl. unfold Events.stopPropagation, Events.preventDefault.
    rewrite H2.
    destruct (Events.atEdge (layout (N + 3)) (Z.ltb delta 0) (Z.ltb 0 delta));
      reflexivity. }
  destruct (Nat.eqb_spec hit (N + 3)) as [-> | Hne]; cbn [app].
  - now apply Hlist.
  - cbn [Events.propagate Events.page Events.closures Events.roots].
    rewrite (ClickFacts.listenAt_own _ _ _ N t before after _ _ Ha) by lia.
    rewrite ScrollFacts.listen_off_list by (reflexivity || discriminate || exact Hne).
    cbn [Events.propagationStopped Events.reactListener Events.eventType].
    now apply Hlist.
Qed.

Module TouchFacts.
Import Events.

Lemma listenAt_off_lists layout e n cls : forall d fl,
  bubbles (eventType e) = true -> eventType e <> Click ->
  Forall (fun cl => n <> optionsContainer cl) cls ->
  listenAt layout e n cls d fl = (d, cls, fl).
Proof.
  induction cls as [| cl rest IH]; intros d fl Hb Hc Hm; cbn [listenAt];
    [reflexivity |].
  inversion Hm as [| ? ? Hn Hrest]; subst.
  rewrite ScrollFacts.listen_off_list by assumption. now rewrite IH.
Qed.

Lemma listenAt_touchmove_unarmed layout e n cls : forall d fl,
  eventType e = TouchMove ->
  Forall (fun cl => touchStartY cl = 0%Z) cls ->
  listenAt layout e n cls d fl = (d, cls, fl).
Proof.
  induction cls as [| cl rest IH]; intros d fl He Hz; cbn [listenAt];
    [reflexivity |].
  inversion Hz as [| ? ? Hcl Hrest]; subst.
  unfold listen. rewrite He, Hcl. cbn [Z.eqb].
  destruct (Nat.eqb n (optionsContainer cl)); now rewrite IH.
Qed.

Lemma propagate_touchmove_unarmed layout e path rts : forall d cls fl,
  eventType e = TouchMove -> propagationStopped fl = false ->
  Forall (fun cl => touchStartY cl = 0%Z) cls ->
  propagate layout e path (mkUi d cls rts) fl = (mkUi d cls rts, fl).
Proof.
  induction path as [| n rest IH]; intros d cls fl He Hfl Hz;
    cbn [propagate page closures roots].
  - now rewrite He.
  - rewrite (listenAt_touchmove_unarmed _ _ _ _ _ _ He Hz). cbv zeta.
    rewrite ClickFacts.reactListener_other by (rewrite He; discriminate).
    rewrite Hfl. now apply IH.
Qed.

Section TouchStart.
Context (layout : NodeId -> Layout) (e : Event) (d : Document).
Context (before after : list Closure) (N : NodeId) (rts : list NodeId).
Hypothesis He : eventType e = TouchStart.

Lemma listenAt_touchstart n t0 fl :
  Forall (fun cl => n <> optionsContainer cl) (before ++ after) ->
  listenAt layout e n (before ++ mkClosure N t0 :: after) d fl
  = (d,
     before ++ mkClosure N (if Nat.eqb n (N + 3) then clientY e else t0) :: after,
     fl).
Proof.
  intros Hm. apply Forall_app in Hm as [Hb Ha].
  assert (Hl : listen (layout (optionsContainer (mkClosure N t0))) e n
                      (mkClosure N t0) d fl
               = (d, mkClosure N (if Nat.eqb n (N + 3) then clientY e else t0),
                  fl)).
  { unfold listen. rewrite He.
    change (optionsContainer (mkClosure N t0)) with (N + 3).
    now destruct (Nat.eqb n (N + 3)). }
  rewrite ClickFacts.listenAt_app.
  rewrite (listenAt_off_lists _ _ _ before) by (rewrite ?He; auto; discriminate).
  cbn [listenAt]. rewrite Hl.
  now rewrite (listenAt_off_lists _ _ _ after)
    by (rewrite ?He; auto; discriminate).
Qed.

Lemma propagate_touchstart path : forall t0 fl,
  propagationStopped fl = false ->
  missesEveryList (before ++ after) path ->
  propagate layout e path (mkUi d (before ++ mkClosure N t0 :: after) rts) fl
  = (mkUi d (before ++
             mkClosure N (if existsb (fun n => Nat.eqb n (N + 3)) path
                          then clientY e else t0) :: after) rts,
     fl).
Proof.
  induction path as [| n rest IH]; intros t0 fl Hfl Hm;
    cbn [propagate page closures roots existsb].
  - now rewrite He.
  - inversion Hm as [| ? ? Hn Hrest]; subst.
    rewrite (listenAt_touchstart n t0 fl Hn). cbv zeta.
    rewrite ClickFacts.reactListener_other by (rewrite He; discriminate).
    rewrite Hfl. rewrite (IH _ fl Hfl Hrest).
    destruct (Nat.eqb n (N + 3)); cbn [orb]; [| reflexivity].
    now destruct (existsb (fun n0 => Nat.eqb n0 (N + 3)) rest).
Qed.
End TouchStart.
End TouchFacts.

(** X18: touch scrolling of a list.  A touch that starts on the list or on
    an option is remembered by its [clientY]; a later move on the list is
    stopped there, and prevented exactly when the list is at its top and
    the finger moves down, or at its bottom and the finger moves up.  But
    the guard [!touchStartY] takes a start at [clientY = 0] for none:
    while every remembered start is 0, a move is neither stopped nor
    prevented, wherever it goes. *)
Theorem touch_scrolling_of_a_list layout d before after roots t N hit y :
  Events.wired d N -> Forall (Events.apart N) (before ++ after) ->
  N + 3 <= hit < N + 8 ->
  let cls t' := before ++ Events.mkClosure N t' :: after in
  let start := Events.mkEvent Events.TouchStart hit 0%Z y in
  let move := Events.mkEvent Events.TouchMove hit 0%Z y in
  (missesEveryList (before ++ after) (Events.eventPath d start) ->
   Events.dispatchEvent layout start (Events.mkUi d (cls t) roots)
   = (Events.mkUi d (cls y) roots, Events.mkFlags false false)) /\
  (t <> 0%Z ->
   Events.dispatchEvent layout move (Events.mkUi d (cls t) roots)
   = (Events.mkUi d (cls t) roots,
      Events.mkFlags true
        (Events.atEdge (layout (N + 3)) (Z.ltb t y) (Z.ltb y t)))) /\
  (forall others anywhere,
     Forall (fun cl => Events.touchStartY cl = 0%Z) others ->
     Events.dispatchEvent layout (Events.mkEvent Events.TouchMove anywhere 0%Z y)
                          (Events.mkUi d others roots)
     = (Events.mkUi d others roots, Events.mkFlags false false)).
Proof.
  intros Hw Ha Ht cls start move. subst cls start move. cbv beta.
  split; [| split].
  - intros Hm. unfold Events.dispatchEvent. cbn [Events.page].
    rewrite (TouchFacts.propagate_touchstart layout
               (Events.mkEvent Events.TouchStart hit 0%Z y) d before after N
               roots eq_refl _ t (Events.mkFlags false false) eq_refl Hm).
    destruct (ScrollFacts.path_to_list d N hit Events.TouchStart 0%Z y Hw Ht
                eq_refl) as [rest ->].
    rewrite existsb_app. cbn [existsb]. rewrite Nat.eqb_refl, orb_true_r.
    reflexivity.
  - intros Hne. unfold Events.dispatchEvent. cbn [Events.page].
    destruct (ScrollFacts.path_to_list d N hit Events.TouchMove 0%Z y Hw Ht
                eq_refl) as [rest ->].
    assert (Hlist : forall rest',
      Events.propagate layout (Events.mkEvent Events.TouchMove hit 0%Z y)
                       ((N + 3) :: rest')
                       (Events.mkUi d (before ++ Events.mkClosure N t :: after) roots)
                       (Events.mkFlags false false)
      = (Events.mkUi d (before ++ Events.mkClosure N t :: after) roots,
         Events.mkFlags true
           (Events.atEdge (layout (N + 3)) (Z.ltb t y) (Z.ltb y t)))).
    { intros rest'. cbn [Events.propagate Events.page Events.closures Events.roots].
      rewrite (ClickFacts.listenAt_own _ _ _ N t before after _ _ Ha) by lia.
      unfold Events.listen. cbn [Events.eventType Events.clientY].
      change (Events.optionsContainer (Events.mkClosure N t)) with (N + 3).
      change (Events.touchStartY (Events.mkClosure N t)) with t.
      rewrite Nat.eqb_refl.
      replace (Z.eqb t 0) with false by (symmetry; now apply Z.eqb_neq).
      destruct (Events.atEdge (layout (N + 3)) (Z.ltb t y) (Z.ltb y t));
        reflexivity. }
    destruct (Nat.eqb_spec hit (N + 3)) as [-> | Hne3]; cbn [app].
    + apply Hlist.
    + cbn [Events.propagate Events.page Events.closures Events.roots].
      rewrite (ClickFacts.listenAt_own _ _ _ N t before after _ _ Ha) by lia.
      rewrite ScrollFacts.listen_off_list
        by (reflexivity || discriminate || exact Hne3).
      cbn [Events.propagationStopped Events.reactListener Events.eventType].
      apply Hlist.
  - intros others anywhere Hz. unfold Events.dispatchEvent.
    now apply TouchFacts.propagate_touchmove_unarmed.
Qed.

(* ===================================================================== *)
(** ** Further properties: the dropdown as [createDropdown] leaves it *)
(* ===================================================================== *)

Lemma length_withDropdown d p :
  isElement d p = true -> length (withDropdown p d) = length d + 8.
Proof.
  intros Hp. unfold withDropdown, append.
  rewrite length_insertBefore. now apply length_D1.
Qed.

Lemma withDropdown_wired d p :
  isElement d p = true ->
  (forall q, parentNodeOf d p = Some q -> q < length d) ->
  Events.wired (withDropdown p d) (length d).
Proof.
  intros Hp Hpp.
  assert (Hb : forall k, 0 < k ->
            parentNodeOf (withDropdown p d) (length d + k)
            = match dropdownBlock (length d) !! k with
              | Some nd => parentNode nd
              | None => None
              end).
  { intros k Hk. unfold parentNodeOf.
    now rewrite (withDropdown_block d p Hp Hpp k Hk). }
  unfold Events.wired. rewrite (length_withDropdown d p Hp).
  split; [lia |]. split; [apply (Hb 1); lia |].
  split; [apply (Hb 2); lia |]. split; [apply (Hb 3); lia |].
  intros n Hn.
  assert (Hk : n = length d + 4 \/ n = length d + 5 \/ n = length d + 6
               \/ n = length d + 7) by lia.
  destruct Hk as [-> | [-> | [-> | ->]]].
  - apply (Hb 4); lia.
  - apply (Hb 5); lia.
  - apply (Hb 6); lia.
  - apply (Hb 7); lia.
Qed.

Lemma withDropdown_hidden d p :
  isElement d p = true ->
  (forall q, parentNodeOf d p = Some q -> q < length d) ->
  styleOf (withDropdown p d) (length d + 3) "display" = Some "none".
Proof.
  intros Hp Hpp. unfold styleOf.
  rewrite (withDropdown_block d p Hp Hpp 3) by lia. reflexivity.
Qed.

Lemma closuresOf_app l1 l2 :
  Events.closuresOf (l1 ++ l2)
  = fold_left Events.register l2 (Events.closuresOf l1).
Proof. unfold Events.closuresOf. apply fold_left_app. Qed.

(** X19: the dropdown straight after lines 118-122 inserted it.  Its nodes
    are linked as the listeners expect (icon and list below the button,
    options below the list), its list is hidden, and it is the last of the
    dropdowns with listeners, with [touchStartY = 0]. *)
Theorem inserted_dropdown_is_wired_and_hidden element tweet bookmark p w :
  consistent (dom w) = true ->
  closest (dom w) element (ByAttr "data-testid" "tweet") = Some tweet ->
  querySelector (dom w) tweet (ByAttr "data-testid" "bookmark") = Some bookmark ->
  parentElement (dom w) bookmark = Some p ->
  hasAttribute (dom w) p "data-dialect-processed" = false ->
  let w' := snd (Twitter.bookmarkDropdown element w) in
  let N := length (dom w) in
  Events.wired (dom w') N /\
  styleOf (dom w') (N + 3) "display" = Some "none" /\
  Events.closuresOf (log w')
  = Events.closuresOf (log w) ++ [Events.mkClosure N 0%Z].
Proof.
  intros Hc H1 H2 H3 H4 w' N.
  assert (Hp : isElement (dom w) p = true)
    by now apply parentElement_Some in H3.
  assert (Hpp : forall q, parentNodeOf (dom w) p = Some q -> q < length (dom w))
    by (intros q; apply consistent_parent_lt; exact Hc).
  unfold w'. rewrite (bookmarkDropdown_found element tweet bookmark p w H1 H2 H3 H4).
  cbn [snd dom log]. split; [now apply withDropdown_wired |].
  split; [now apply withDropdown_hidden |].
  rewrite closuresOf_app. reflexivity.
Qed.

(** The tweet of the card page, dispatched on its cell. *)
Lemma inserted_dropdown_is_wired_and_hidden_witness :
  let w' := snd (Twitter.bookmarkDropdown 3 (mkWorld cardPage [])) in
  Events.wired (dom w') 10 /\
  Events.closuresOf (log w') = [Events.mkClosure 10 0%Z].
Proof.
  pose proof (inserted_dropdown_is_wired_and_hidden 3 2 9 8 (mkWorld cardPage [])
                eq_refl eq_refl eq_refl eq_refl eq_refl) as (H1 & _ & H2).
  split; [exact H1 | exact H2].
Defined.

Lemma cardPageWithDropdown_wired : Events.wired cardPageWithDropdown 10.
Proof.
  apply (withDropdown_wired cardPage 8); [reflexivity |].
  intros q [= <-]. cbn. lia.
Qed.

Lemma cardPageMounted_wired : Events.wired cardPageMounted 10.
Proof.
  unfold Events.wired. split; [cbn; lia |]. repeat split; try reflexivity.
  intros n Hn.
  assert (Hk : n = 14 \/ n = 15 \/ n = 16 \/ n = 17) by lia.
  destruct Hk as [-> | [-> | [-> | ->]]]; reflexivity.
Qed.

(** The card page with an action mounted (render root 18) and the list of
    the dropdown shown: a click on the icon of the dropdown hides the
    list. *)
Lemma click_inside_a_dropdown_witness :
  styleOf cardPageMounted 13 "display" = Some "block" /\
  Events.dispatchEvent flat (Events.mkEvent Events.Click 11 0%Z 0%Z)
    (Events.mkUi cardPageMounted [Events.mkClosure 10 0%Z] [18])
  = (Events.mkUi (setStyle 13 "display" "none" cardPageMounted)
                 [Events.mkClosure 10 0%Z] [18],
     Events.mkFlags true false).
Proof.
  split; [reflexivity |].
  refine (click_inside_a_dropdown flat cardPageMounted [] [] [18] 0%Z 10 11
            cardPageMounted_wired (List.Forall_nil _) _).
  lia.
Defined.

(** The card page with the list shown and an action mounted (render root
    18).  A click on the action bar of the tweet (node 7) reaches the
    document and the list is hidden; a click inside the mounted action
    stops at the render root and the list stays shown. *)
Lemma click_outside_every_dropdown_witness :
  let ui := Events.mkUi cardPageMounted [Events.mkClosure 10 0%Z] [18] in
  let click target := Events.mkEvent Events.Click target 0%Z 0%Z in
  parentNodeOf cardPageMounted 18 = Some 3 /\
  styleOf cardPageMounted 13 "display" = Some "block" /\
  styleOf (Events.page (fst (Events.dispatchEvent flat (click 7) ui))) 13
          "display" = Some "none" /\
  Events.dispatchEvent flat (click 18) ui = (ui, Events.mkFlags true false).
Proof.
  split; [reflexivity |]. split; [reflexivity |]. split.
  - pose proof (click_outside_every_dropdown flat cardPageMounted
                  [Events.mkClosure 10 0%Z] [18] 7) as H.
    cbn zeta in H.
    assert (Hm : missesEveryDropdown [Events.mkClosure 10 0%Z]
                   (Events.eventPath cardPageMounted
                      (Events.mkEvent Events.Click 7 0%Z 0%Z))).
    { repeat constructor; cbn; lia. }
    assert (Hr : missesEveryRoot [18]
                   (Events.eventPath cardPageMounted
                      (Events.mkEvent Events.Click 7 0%Z 0%Z))).
    { repeat constructor; cbn; lia. }
    destruct (proj1 (H Hm) Hr) as [_ Hall].
    inversion Hall as [| ? ? H13 _]; subst. apply H13. cbn. lia.
  - pose proof (click_outside_every_dropdown flat cardPageMounted
                  [Events.mkClosure 10 0%Z] [18] 18) as H.
    cbn zeta in H.
    assert (Hm : missesEveryDropdown [Events.mkClosure 10 0%Z]
                   (Events.eventPath cardPageMounted
                      (Events.mkEvent Events.Click 18 0%Z 0%Z))).
    { repeat constructor; cbn; lia. }
    apply (proj2 (H Hm)). apply Exists_cons_hd. now left.
Defined.

(** A wheel event over the second option (node 15) of the same dropdown,
    whose list is scrolled to its top, with the wheel going up. *)
Lemma wheel_over_a_list_stops_there_witness :
  Events.dispatchEvent (fun _ => Events.mkLayout 0 500 300)
    (Events.mkEvent Events.Wheel 15 (-3)%Z 0%Z)
    (Events.mkUi cardPageWithDropdown [Events.mkClosure 10 0%Z] [])
  = (Events.mkUi cardPageWithDropdown [Events.mkClosure 10 0%Z] [],
     Events.mkFlags true true).
Proof.
  refine (wheel_over_a_list_stops_there (fun _ => Events.mkLayout 0 500 300)
            cardPageWithDropdown [] [] [] 0%Z 10 15 (-3)%Z
            cardPageWithDropdown_wired (List.Forall_nil _) _).
  lia.
Defined.

(** A touch that starts on the list (node 13) at [clientY = 120]. *)
Lemma touch_scrolling_of_a_list_witness :
  Events.dispatchEvent flat (Events.mkEvent Events.TouchStart 13 0%Z 120%Z)
    (Events.mkUi cardPageWithDropdown [Events.mkClosure 10 0%Z] [])
  = (Events.mkUi cardPageWithDropdown [Events.mkClosure 10 120%Z] [],
     Events.mkFlags false false) /\
  Events.dispatchEvent flat (Events.mkEvent Events.TouchMove 13 0%Z 120%Z)
    (Events.mkUi cardPageWithDropdown [Events.mkClosure 10 0%Z] [])
  = (Events.mkUi cardPageWithDropdown [Events.mkClosure 10 0%Z] [],
     Events.mkFlags false false).
Proof.
  pose proof (touch_scrolling_of_a_list flat cardPageWithDropdown [] [] [] 0%Z 10 13
                120%Z cardPageWithDropdown_wired (List.Forall_nil _)
                ltac:(lia)) as (H1 & _ & H3).
  split.
  - apply H1. repeat constructor.
  - apply (H3 [Events.mkClosure 10 0%Z] 13). repeat constructor.
Defined.

(* ===================================================================== *)
(** ** Further properties: the React dropdown (part_000) *)
(* ===================================================================== *)

Module DropdownFacts.
Import Dropdown.

Lemma selections_app props l1 l2 :
  selections props (l1 ++ l2) = selections props l1 ++ selections props l2.
Proof. unfold selections. apply flat_map_app. Qed.

Lemma countIf_selections props selected :
  countIf isOnSelect (selections props selected)
  = if onSelect props then length selected else 0.
Proof.
  induction selected as [| o l IH]; cbn [selections flat_map].
  - now destruct (onSelect props).
  - fold (selections props l). rewrite countIf_app, IH.
    destruct (onSelect props); cbn; lia.
Qed.

(** The invariant of a run: the effects are those of the selections made,
    each of an option of the props, and every selection and an open list
    have their own button click. *)
Lemma run_invariant props events :
  exists selected,
    effects (run props events) = selections props selected /\
    incl selected (options props) /\
    length selected + (if isOpen (run props events) then 1 else 0)
    <= countIf isButtonClick events.
Proof.
  unfold run.
  assert (H : forall st n,
    (exists selected,
       effects st = selections props selected /\
       incl selected (options props) /\
       length selected + (if isOpen st then 1 else 0) <= n) ->
    exists selected,
      effects (fold_left (step props) events st) = selections props selected /\
      incl selected (options props) /\
      length selected
      + (if isOpen (fold_left (step props) events st) then 1 else 0)
      <= n + countIf isButtonClick events).
  { induction events as [| e events IH]; intros st n Hst; cbn [fold_left].
    - rewrite countIf_nil, Nat.add_0_r. exact Hst.
    - rewrite countIf_cons.
      replace (n + ((if isButtonClick e then 1 else 0)
                    + countIf isButtonClick events))
        with ((n + (if isButtonClick e then 1 else 0))
              + countIf isButtonClick events) by lia.
      apply IH. destruct Hst as (selected & He & Hin & Hn).
      unfold step. destruct (mounted st); cbn [negb].
      2:{ exists selected. split; [exact He |]. split; [exact Hin | lia]. }
      destruct e as [| index | inside | |]; cbn [isButtonClick].
      + exists selected. cbn [effects isOpen]. split; [exact He |].
        split; [exact Hin |]. destruct (isOpen st); cbn; lia.
      + unfold rendered. destruct (isOpen st) eqn:Ho.
        * destruct (nth_error (options props) index) as [o |] eqn:Hnth.
          -- exists (selected ++ [o]). unfold handleSelect. cbn [effects isOpen].
             rewrite selections_app, He. split.
             ++ f_equal. unfold selections. cbn. now rewrite app_nil_r.
             ++ split.
                ** apply incl_app; [exact Hin |].
                   intros x [<- | []]. eapply nth_error_In; eauto.
                ** rewrite length_app. cbn. lia.
          -- exists selected. rewrite Ho. split; [exact He |].
             split; [exact Hin | lia].
        * rewrite nth_error_nil. exists selected. rewrite Ho.
          split; [exact He |]. split; [exact Hin | lia].
      + unfold handleClickOutside. destruct inside; cbn [negb].
        * exists selected. split; [exact He |]. split; [exact Hin | lia].
        * exists selected. cbn [effects isOpen]. split; [exact He |].
          split; [exact Hin |]. destruct (isOpen st); lia.
      + exists selected. split; [exact He |]. split; [exact Hin | lia].
      + exists selected. cbn [effects isOpen]. split; [exact He |].
        split; [exact Hin | lia]. }
  apply (H initial 0). exists []. cbn. split; [reflexivity |].
  split; [apply incl_nil_l | lia].
Qed.
End DropdownFacts.

(** X20: the React dropdown, over any sequence of events from its first
    render.  What it logs and passes to [onSelect] is a sequence of
    selections: every call of [onSelect] carries an option of the props
    and follows the log line of the same option.  The list starts closed,
    and only a click on the button opens it: the calls of [onSelect], and
    one more while the list is open, never exceed the clicks on the
    button.  Without an [onSelect], nothing is called. *)
Theorem dropdown_selections_need_openings props events :
  let st := Dropdown.run props events in
  (exists selected,
     Dropdown.effects st = Dropdown.selections props selected /\
     incl selected (Dropdown.options props)) /\
  countIf Dropdown.isOnSelect (Dropdown.effects st)
  + (if Dropdown.isOpen st then 1 else 0)
  <= countIf Dropdown.isButtonClick events /\
  (Dropdown.onSelect props = false ->
   countIf Dropdown.isOnSelect (Dropdown.effects st) = 0).
Proof.
  cbn zeta.
  destruct (DropdownFacts.run_invariant props events) as (selected & He & Hin & Hn).
  split; [exists selected; auto |].
  rewrite He, DropdownFacts.countIf_selections.
  split.
  - destruct (Dropdown.onSelect props); lia.
  - now intros ->.
Qed.

(** X21: one use of the React dropdown, from any state in which it is
    mounted and closed.  A click on the button followed by a click on an
    option (with its mousedown inside the component) logs the option,
    passes it to [onSelect] when there is one, and leaves the list closed;
    if instead the mouse is pressed outside after the button was clicked,
    the list is closed again and a click on the option can no longer
    happen: the component is as before. *)
Theorem dropdown_open_select_close props events index option :
  let st := Dropdown.run props events in
  Dropdown.mounted st = true -> Dropdown.isOpen st = false ->
  nth_error (Dropdown.options props) index = Some option ->
  let pick :=
    fold_left (Dropdown.step props)
      [Dropdown.ButtonClick; Dropdown.MouseDown true; Dropdown.OptionClick index]
      st in
  let miss :=
    fold_left (Dropdown.step props)
      [Dropdown.ButtonClick; Dropdown.MouseDown false; Dropdown.OptionClick index]
      st in
  Dropdown.isOpen pick = false /\
  Dropdown.effects pick
  = Dropdown.effects st ++ Dropdown.selections props [option] /\
  Dropdown.rendered props pick = [] /\
  miss = st.
Proof.
  cbn zeta. destruct (Dropdown.run props events) as [o m l].
  cbn [Dropdown.mounted Dropdown.isOpen]. intros -> -> Hnth.
  cbn [fold_left]. unfold Dropdown.step, Dropdown.handleClickOutside,
    Dropdown.rendered, Dropdown.handleSelect.
  cbn [Dropdown.mounted Dropdown.isOpen Dropdown.effects negb].
  rewrite Hnth. cbn [Dropdown.mounted Dropdown.isOpen Dropdown.effects].
  unfold Dropdown.selections. cbn [flat_map]. rewrite app_nil_r.
  repeat split. now rewrite nth_error_nil.
Qed.

(** The second option is picked after a first use. *)
Lemma dropdown_open_select_close_witness :
  let st := Dropdown.run exampleProps
              [Dropdown.ButtonClick; Dropdown.OptionClick 0] in
  let pick :=
    fold_left (Dropdown.step exampleProps)
      [Dropdown.ButtonClick; Dropdown.MouseDown true; Dropdown.OptionClick 1]
      st in
  Dropdown.isOpen pick = false /\
  countIf Dropdown.isOnSelect (Dropdown.effects pick) = 2.
Proof.
  pose proof (dropdown_open_select_close exampleProps
                [Dropdown.ButtonClick; Dropdown.OptionClick 0] 1
                (Dropdown.mkDropdownOption "Arkenstone Suite"
                   "developing a token presale Suite"
                   Dropdown.No "arkenstone.gold")
                eq_refl eq_refl eq_refl) as (H1 & H2 & _).
  split; [exact H1 |]. cbn zeta in H2. rewrite H2. reflexivity.
Defined.

(** The icon of the dropdown is clicked and the mouse enters an option:
    the list is shown as a block. *)
Lemma listeners_only_restyle_witness :
  let ui := Events.mkUi cardPageWithDropdown [Events.mkClosure 10 0%Z] [] in
  let ui' :=
    Events.dispatchEvents
      [ (flat, Events.mkEvent Events.Click 11 0%Z 0%Z);
        (flat, Events.mkEvent Events.MouseEnter 14 0%Z 0%Z) ] ui in
  Events.listsBlockOrNone ui' /\
  styleOf (Events.page ui') 13 "display" = Some "block".
Proof.
  split; [| reflexivity].
  refine (proj2 (proj2 (listeners_only_restyle
            [ (flat, Events.mkEvent Events.Click 11 0%Z 0%Z);
              (flat, Events.mkEvent Events.MouseEnter 14 0%Z 0%Z) ]
            (Events.mkUi cardPageWithDropdown [Events.mkClosure 10 0%Z] []))) _).
  repeat constructor.
Defined.

(* ===================================================================== *)
(** ** Further properties: the action is fetched after its check *)
(* ===================================================================== *)

Section Guarded.
Context (c : Collaborators) (options : NormalizedObserverOptions).

Local Abbreviation Q := (fetchesGuarded c options).

Lemma guarded_quiet l : Forall notActionFetch l -> Q l.
Proof.
  intros Hl pre api post ->. apply Forall_app in Hl as [_ Hl].
  inversion Hl as [| ? ? He _]. destruct He.
Qed.

Lemma guarded_app l1 l2 : Q l1 -> Q l2 -> Q (l1 ++ l2).
Proof.
  intros H1 H2 pre api post E.
  apply app_eq_app in E as (l & [[-> E] | [-> E]]).
  - destruct l as [| x l]; cbn in E.
    + destruct (H2 [] api post (eq_sym E)) as (pre' & Hpre).
      now destruct pre'.
    + injection E as <- ->. apply (H1 pre api l). reflexivity.
  - destruct (H2 l api post E) as (pre' & ->).
    exists (l1 ++ pre'). now rewrite app_assoc.
Qed.

Lemma Appends_ret {A} (a : A) : Appends Q (ret a).
Proof.
  intros w. exists []. split; [now rewrite app_nil_r |].
  apply guarded_quiet. constructor.
Qed.

Lemma Appends_bind {A B} (m : M A) (k : A -> M B) :
  Appends Q m -> (forall a, Appends Q (k a)) -> Appends Q (bind m k).
Proof.
  intros Hm Hk w. unfold bind. destruct (Hm w) as (l1 & E1 & Q1).
  destruct (m w) as [a w1]. destruct (Hk a w1) as (l2 & E2 & Q2).
  exists (l1 ++ l2). cbn in E1. rewrite E2, E1, app_assoc.
  split; [reflexivity | now apply guarded_app].
Qed.

Lemma Appends_Logs {A} (m : M A) : Logs notActionFetch m -> Appends Q m.
Proof.
  intros Hm w. destruct (Hm w) as (l & E & F). exists l.
  split; [exact E | now apply guarded_quiet].
Qed.

Lemma Appends_resolveAction container u api :
  Appends Q (resolveAction c options container u api).
Proof.
  intros w. unfold resolveAction, gate, bind, tell, ret.
  destruct api as [api |]; [| apply (Appends_ret Finished)].
  destruct (String.eqb api ""); [apply (Appends_ret Finished) |].
  destruct (checkSecurity (getExtendedActionState c api)
                          (actions (n_securityLevel options))) eqn:Hpass;
    cbn [negb fst snd dom log].
  - eexists. split; [rewrite <- app_assoc; reflexivity |].
    cbn [app]. intros pre api' post E.
    destruct pre as [| x [| y pre]]; cbn in E; try discriminate.
    + injection E as <- <- <-. now exists [].
    + injection E as _ _ E. now destruct pre.
  - eexists. split; [reflexivity |]. apply guarded_quiet. repeat constructor.
Qed.

Lemma Appends_classify container u : Appends Q (classify c options container u).
Proof.
  unfold classify.
  destruct (isInterstitial_flag (isInterstitial c u)).
  - apply Appends_bind.
    + apply Appends_Logs. unfold gate. logs.
    + intros passed. destruct (negb passed); [apply Appends_ret |].
      apply Appends_resolveAction.
  - apply Appends_Logs. unfold gate. logs.
Qed.

Lemma Appends_mount container u a : Appends Q (mount c options container u a).
Proof.
  intros w. eexists. split; [apply mount_log |].
  apply guarded_quiet. repeat constructor.
Qed.

Lemma Appends_resume p r : Appends Q (resume c options p r).
Proof.
  destruct p as [container | container u | container u state | container u a];
    destruct r as [| u' | j | a' | b]; cbn [resume];
    try apply Appends_ret.
  - apply Appends_classify.
  - apply Appends_resolveAction.
  - destruct (hasIsSupported c).
    + apply Appends_Logs. logs.
    + apply Appends_bind; [apply Appends_mount | intros; apply Appends_ret].
  - destruct b; [| apply Appends_ret].
    apply Appends_bind; [apply Appends_mount | intros; apply Appends_ret].
Qed.

Lemma Appends_twitter_handleNewNode e : Appends Q (Twitter.handleNewNode c e).
Proof.
  apply Appends_Logs.
  unfold Twitter.handleNewNode, Twitter.bookmarkDropdown,
    Twitter.findBookmarkButton, Twitter.createDropdown, Twitter.locateAndFetch.
  logs;
    first [ eapply Logs_weaken; [| simple apply Logs_dropdownTree]; intros ? []
          | eapply Logs_weaken; [| simple apply Logs_extractCandidate]; intros ? [] ].
Qed.

(** A Farcaster dispatch logs nothing, or what the classification of the
    URL logs. *)
Lemma farcaster_log_cases element w :
  log (snd (Farcaster.handleNewNode c options element w)) = log w \/
  exists w1 container u,
    Farcaster.handleNewNode c options element w
    = classify c options container u w1 /\
    log w1 = log w.
Proof.
  remember (Farcaster.handleNewNode c options element w) as r eqn:Hr.
  unfold Farcaster.handleNewNode, Farcaster.findLinkPreview in Hr.
  rewrite step_read in Hr.
  destruct (negb (String.eqb (localNameOf (dom w) element) "div"));
    [subst r; now left |].
  rewrite step_read in Hr.
  destruct (negb (includes " fade-in" (className (dom w) element))
            && negb (includes "relative" (className (dom w) element)));
    [subst r; now left |].
  rewrite step_read in Hr.
  destruct (querySelector (dom w) element (ByTag "a")) as [anchor |];
    cbn [lp_card lp_anchor] in Hr.
  - rewrite step_read, !bind_assoc in Hr.
    assert (Hw : exists w1,
              log w1 = log w /\
              r = (candidate <-
                     (container <- read (fun d => parentElement d element) ;;
                      ret (Some anchor, container)) ;;
                   match candidate with
                   | (Some anchor, Some container) =>
                       href <- read (fun d => hrefOf c d anchor) ;;
                       match parseURL c (toUSVString href) with
                       | Some actionUrl => classify c options container actionUrl
                       | None => ret Finished
                       end
                   | _ => ret Finished
                   end) w1).
    { destruct (Farcaster.findContainerInCast (dom w) element true) as [wr |].
      - rewrite step_write in Hr. eexists. split; [| exact Hr]. reflexivity.
      - rewrite step_ret in Hr. exists w. split; [reflexivity | exact Hr]. }
    clear Hr. destruct Hw as (w1 & Hlog & Hr).
    rewrite bind_assoc, step_read, step_ret in Hr.
    destruct (parentElement (dom w1) element) as [container |] eqn:Ep;
      [| subst r; now left].
    rewrite step_read in Hr.
    destruct (parseURL c (toUSVString (hrefOf c (dom w1) anchor))) as [u |];
      [| subst r; now left].
    right. exists w1, container, u. auto.
  - rewrite step_read, !bind_assoc in Hr. unfold bind at 1 in Hr.
    pose proof (Logs_noEffect_eq (Farcaster.getContainerForLink element) w) as Hl.
    destruct (Farcaster.getContainerForLink element w) as [root w1].
    subst r. left. cbn [snd] in *. apply Hl.
    unfold Farcaster.getContainerForLink. logs.
Qed.

Lemma Appends_farcaster_handleNewNode e :
  Appends Q (Farcaster.handleNewNode c options e).
Proof.
  intros w.
  destruct (farcaster_log_cases e w) as [Hsame | (w1 & container & u & Heq & Hlog)].
  - exists []. split; [now rewrite app_nil_r |]. apply guarded_quiet. constructor.
  - rewrite Heq. destruct (Appends_classify container u w1) as (l & E & Hl).
    exists l. split; [now rewrite E, Hlog | exact Hl].
Qed.

Lemma guarded_step handleNewNode s st :
  (forall e, Appends Q (handleNewNode e)) ->
  (exists l, log (world (step handleNewNode (resume c options) s st))
             = log (world s) ++ l /\ Q l).
Proof.
  intros Hh. destruct st as [e | t r]; cbn [step].
  - unfold dispatch. destruct (Hh e (world s)) as (l & E & Hl).
    destruct (handleNewNode e (world s)) as [o w]. exists l. auto.
  - unfold settle.
    destruct (tasks s !! t) as [[e0 [| p]] |];
      try (exists []; split; [now rewrite app_nil_r |];
           apply guarded_quiet; constructor).
    destruct (Appends_resume p r (world s)) as (l & E & Hl).
    destruct (resume c options p r (world s)) as [o w]. exists l. auto.
Qed.

Lemma guarded_run handleNewNode schedule : forall s,
  (forall e, Appends Q (handleNewNode e)) ->
  Q (log (world s)) ->
  Q (log (world (run handleNewNode (resume c options) s schedule))).
Proof.
  induction schedule as [| st schedule IH]; intros s Hh Hs; [exact Hs |].
  apply (IH (step handleNewNode (resume c options) s st) Hh).
  destruct (guarded_step handleNewNode s st Hh) as (l & -> & Hl).
  now apply guarded_app.
Qed.
End Guarded.

(** X22: the action is fetched after its check.  On either page and along
    any schedule, every call of [Action.fetch] in the log comes straight
    after a call of [checkSecurity] that passed, made at the level
    configured for actions on the trust state of the very URL fetched. *)
Theorem action_fetch_follows_its_check c options d schedule :
  fetchesGuarded c options
    (log (world (run (Twitter.handleNewNode c) (resume c options) (initial d)
                     schedule))) /\
  fetchesGuarded c options
    (log (world (run (Farcaster.handleNewNode c options) (resume c options)
                     (initial d) schedule))).
Proof.
  split; apply guarded_run;
    first [ apply Appends_twitter_handleNewNode
          | apply Appends_farcaster_handleNewNode
          | apply guarded_quiet; constructor ].
Qed.

(* ===================================================================== *)
(** ** Further properties: from the dispatch to the first click *)
(* ===================================================================== *)

Lemma closuresOf_quiet l1 l2 :
  Forall notDropdown l2 ->
  Events.closuresOf (l1 ++ l2) = Events.closuresOf l1.
Proof.
  intros H. rewrite closuresOf_app.
  induction H as [| e l He _ IH]; [reflexivity |].
  cbn [fold_left]. destruct e; cbn in *; try exact IH. destruct He.
Qed.

Lemma spacedFrom_snoc cls : forall lo N t,
  spacedFrom lo cls ->
  Forall (fun cl => Events.dropdownContainer cl + 8 <= N) cls -> lo <= N ->
  spacedFrom lo (cls ++ [Events.mkClosure N t]).
Proof.
  induction cls as [| cl rest IH]; intros lo N t Hs Hb Hlo; cbn.
  - auto.
  - destruct Hs as [H1 H2]. inversion Hb as [| ? ? Hcl Hrest]; subst.
    split; [exact H1 |]. apply IH; auto.
Qed.

Lemma spacedFrom_lower cls : forall lo,
  spacedFrom lo cls ->
  Forall (fun cl => lo <= Events.dropdownContainer cl) cls.
Proof.
  induction cls as [| cl rest IH]; intros lo Hs; constructor.
  - apply Hs.
  - destruct Hs as [H1 H2]. eapply Forall_impl; [apply (IH _ H2) |].
    cbn. intros x Hx. lia.
Qed.

Lemma dropdownsSpaced_quiet {A} (m : M A) w :
  Evolves keeps_kind m -> Logs notDropdown m ->
  dropdownsSpaced w -> dropdownsSpaced (snd (m w)).
Proof.
  intros He Hl [Hs Hb]. destruct (Hl w) as (l & E & F).
  pose proof (evolves_length _ _ _ (He w)) as Hlen.
  unfold dropdownsSpaced. rewrite E, (closuresOf_quiet _ _ F).
  split; [exact Hs |]. eapply Forall_impl; [exact Hb |]. cbn. intros x Hx. lia.
Qed.

Lemma dropdownsSpaced_bookmarkDropdown element w :
  dropdownsSpaced w -> dropdownsSpaced (snd (Twitter.bookmarkDropdown element w)).
Proof.
  intros [Hs Hb].
  destruct (bookmarkDropdown_cases element w) as [-> | (p & Hp & _ & ->)];
    [split; assumption |].
  unfold dropdownsSpaced. cbn [snd dom log].
  rewrite closuresOf_app. cbn [fold_left Events.register].
  rewrite (length_withDropdown _ _ Hp). split.
  - apply spacedFrom_snoc; [exact Hs | | lia].
    eapply Forall_impl; [exact Hb |]. cbn. intros x Hx. lia.
  - apply Forall_app. split.
    + eapply Forall_impl; [exact Hb |]. cbn. intros x Hx. lia.
    + repeat constructor.
Qed.

Lemma dropdownsSpaced_handleNewNode c element w :
  dropdownsSpaced w -> dropdownsSpaced (snd (Twitter.handleNewNode c element w)).
Proof.
  intros Hinv.
  destruct (String.eqb_spec (localNameOf (dom w) element) "div") as [Hd | Hd].
  - rewrite handleNewNode_div by exact Hd.
    apply dropdownsSpaced_quiet.
    + apply Evolves_locateAndFetch; exact _.
    + apply Logs_locateAndFetch.
    + now apply dropdownsSpaced_bookmarkDropdown.
  - now rewrite handleNewNode_not_div.
Qed.

Lemma dropdownsSpaced_run c options schedule : forall s,
  dropdownsSpaced (world s) ->
  dropdownsSpaced
    (world (run (Twitter.handleNewNode c) (resume c options) s schedule)).
Proof.
  induction schedule as [| st schedule IH]; intros s Hinv; [exact Hinv |].
  apply (IH (step (Twitter.handleNewNode c) (resume c options) s st)).
  destruct st as [element | task r]; cbn [step].
  - unfold dispatch.
    pose proof (dropdownsSpaced_handleNewNode c element (world s) Hinv) as H.
    now destruct (Twitter.handleNewNode c element (world s)).
  - unfold settle.
    destruct (tasks s !! task) as [[element [| p]] |]; try exact Hinv.
    pose proof (dropdownsSpaced_quiet (resume c options p r) (world s)
                  (Evolves_resume keeps_kind c options p r)
                  (Logs_resume c options p r) Hinv) as H.
    now destruct (resume c options p r (world s)).
Qed.

Lemma rootsOf_app l1 l2 :
  Events.rootsOf (l1 ++ l2) = Events.rootsOf l1 ++ Events.rootsOf l2.
Proof. apply flat_map_app. Qed.

Lemma rootsOf_quiet l : Forall notRendered l -> Events.rootsOf l = [].
Proof.
  induction 1 as [| e l He _ IH]; [reflexivity |].
  cbn [Events.rootsOf flat_map]. fold (Events.rootsOf l). rewrite IH.
  destruct e; cbn in *; try reflexivity. destruct He.
Qed.

Lemma rootsCreated_quiet {A} (m : M A) w :
  Evolves keeps_kind m -> Logs notRendered m ->
  rootsCreated w -> rootsCreated (snd (m w)).
Proof.
  intros He Hl Hr. destruct (Hl w) as (l & E & F).
  pose proof (evolves_length _ _ _ (He w)) as Hlen.
  unfold rootsCreated. rewrite E, rootsOf_app, (rootsOf_quiet _ F), app_nil_r.
  eapply Forall_impl; [exact Hr |]. cbn. intros x Hx. lia.
Qed.

Lemma mount_length c options container u a w :
  length (dom (snd (mount c options container u a w))) = S (length (dom w)).
Proof.
  rewrite mount_dom, length_replaceChildren. unfold setClassName.
  rewrite length_setAttribute, length_app, addMargin_length. cbn. lia.
Qed.

Lemma rootsCreated_resume c options p r w :
  rootsCreated w -> rootsCreated (snd (resume c options p r w)).
Proof.
  intros Hr.
  assert (Hq : forall m : M Outcome,
             Evolves keeps_kind m -> Logs notRendered m ->
             rootsCreated (snd (m w))).
  { intros m He Hm. now apply rootsCreated_quiet. }
  assert (Hm : forall container u a,
             rootsCreated
               (snd ((mount c options container u a ;;; ret Finished) w))).
  { intros container u a.
    pose proof (mount_log c options container u a w) as Hl.
    pose proof (mount_length c options container u a w) as Hn.
    unfold bind, ret. destruct (mount c options container u a w) as [[] w1].
    cbn [snd fst] in *. unfold rootsCreated. rewrite Hl, rootsOf_app, Hn.
    apply Forall_app. split.
    - eapply Forall_impl; [exact Hr |]. cbn. intros x Hx. lia.
    - cbn. repeat constructor. }
  pose proof (Evolves_resume keeps_kind c options p r) as He.
  destruct p as [container | container u | container u state | container u a];
    destruct r as [| u' | j | a' | b]; cbn [resume] in *;
    try (apply Hq; [exact He | simple apply Logs_ret]).
  - apply Hq; [exact He | simple apply quiet_classify].
  - apply Hq; [exact He | simple apply quiet_resolveAction].
  - destruct (hasIsSupported c); [| apply Hm].
    apply Hq; [exact He | logs].
  - destruct b; [apply Hm |]. apply Hq; [exact He | simple apply Logs_ret].
Qed.

Lemma rootsCreated_run c options schedule : forall s,
  rootsCreated (world s) ->
  rootsCreated
    (world (run (Twitter.handleNewNode c) (resume c options) s schedule)).
Proof.
  induction schedule as [| st schedule IH]; intros s Hinv; [exact Hinv |].
  apply (IH (step (Twitter.handleNewNode c) (resume c options) s st)).
  destruct st as [element | task r]; cbn [step].
  - unfold dispatch.
    pose proof (rootsCreated_quiet (Twitter.handleNewNode c element) (world s)
                  (Evolves_twitter_handleNewNode keeps_kind c element)
                  (quiet_twitter_handleNewNode c element) Hinv) as H.
    now destruct (Twitter.handleNewNode c element (world s)).
  - unfold settle.
    destruct (tasks s !! task) as [[element [| p]] |]; try exact Hinv.
    pose proof (rootsCreated_resume c options p r (world s) Hinv) as H.
    now destruct (resume c options p r (world s)).
Qed.



(* ===================================================================== *)
(** ** Further properties: what the searches return *)
(* ===================================================================== *)

Lemma find_matches_sel d sel l n :
  List.find (matches d sel) l = Some n -> matches d sel n = true.
Proof. intros H. now apply List.find_some in H. Qed.

Lemma matches_ByAttr d k v n :
  matches d (ByAttr k v) n = true ->
  isElement d n = true /\ getAttribute d n k = Some v.
Proof.
  unfold matches. intros H. apply andb_prop in H as [H1 H2].
  split; [exact H1 |].
  destruct (getAttribute d n k) as [v' |]; [| discriminate].
  apply String.eqb_eq in H2. now subst.
Qed.

Lemma findElementByTestId_sound d element testId n :
  findElementByTestId d element testId = Some n ->
  getAttribute d n "data-testid" = Some testId /\
  (n = element \/ In n (descendants d element)).
Proof.
  unfold findElementByTestId, querySelector.
  assert (Hq : List.find (matches d (ByAttr "data-testid" testId))
                         (descendants d element) = Some n ->
               getAttribute d n "data-testid" = Some testId /\
               (n = element \/ In n (descendants d element))).
  { intros H. split.
    - now apply find_matches_sel, matches_ByAttr in H.
    - right. now apply List.find_some in H. }
  destruct (getAttribute d element "data-testid") as [v |] eqn:E; [| exact Hq].
  destruct (String.eqb_spec v testId) as [-> | Hne]; [| exact Hq].
  intros [= <-]. split; [exact E | now left].
Qed.

Lemma wrapper_found d m n :
  querySelector d m (ByClass "dialect-wrapper") = Some n ->
  isElement d n = true /\ classList_contains d n "dialect-wrapper" = true /\
  In n (descendants d m).
Proof.
  unfold querySelector. intros H. pose proof (find_matches_sel _ _ _ _ H) as Hm.
  unfold matches in Hm. apply andb_prop in Hm as [H1 H2].
  split; [exact H1 |]. split; [exact H2 |]. now apply List.find_some in H.
Qed.

(** X24: what the searches of the observers return.  [findElementByTestId]
    returns the element itself or one of its descendants, with the test id
    asked for.  A container found in a tweet or a cast is an element with
    the class [dialect-wrapper].  The link preview of the Twitter observer
    is a card with the test id [card.wrapper] and the first element child
    of its first element child, whatever that element is; the link of a
    tweet text is an [a] element below an element with the test id
    [tweetText]; the link preview of the Farcaster observer is the
    inserted element itself with an [a] element below it. *)
Theorem searches_return_what_they_look_for d element :
  (forall testId n,
     findElementByTestId d element testId = Some n ->
     getAttribute d n "data-testid" = Some testId /\
     (n = element \/ In n (descendants d element))) /\
  (forall searchUp n,
     Twitter.findContainerInTweet d element searchUp = Some n \/
     Farcaster.findContainerInCast d element searchUp = Some n ->
     isElement d n = true /\ classList_contains d n "dialect-wrapper" = true) /\
  (forall lp,
     Twitter.findLinkPreview d element = Some lp ->
     getAttribute d (lp_card lp) "data-testid" = Some "card.wrapper" /\
     exists first,
       head (children d (lp_card lp)) = Some first /\
       head (children d first) = Some (lp_anchor lp)) /\
  (forall anchor tweetText,
     Twitter.findLastLinkInText d element = Some (anchor, tweetText) ->
     getAttribute d tweetText "data-testid" = Some "tweetText" /\
     isElement d anchor = true /\ localNameOf d anchor = "a" /\
     In anchor (descendants d tweetText)) /\
  (forall lp,
     Farcaster.findLinkPreview d element = Some lp ->
     lp_card lp = element /\
     isElement d (lp_anchor lp) = true /\ localNameOf d (lp_anchor lp) = "a" /\
     In (lp_anchor lp) (descendants d element)).
Proof.
  split; [| split; [| split; [| split]]].
  - intros testId n. apply findElementByTestId_sound.
  - intros searchUp n [H | H];
      unfold Twitter.findContainerInTweet, Farcaster.findContainerInCast in H;
      match type of H with
      | match ?m with _ => _ end = _ => destruct m as [m0 |]; [| discriminate]
      end;
      apply wrapper_found in H as (H1 & H2 & _); auto.
  - intros lp. unfold Twitter.findLinkPreview.
    destruct (findElementByTestId d element "card.wrapper") as [card |] eqn:Ec;
      [| discriminate].
    destruct (head (children d card)) as [first |] eqn:Ef; [| discriminate].
    destruct (head (children d first)) as [anchor |] eqn:Ea; [| discriminate].
    intros [= <-]. cbn [lp_card lp_anchor]. split.
    + now apply findElementByTestId_sound in Ec.
    + exists first. auto.
  - intros anchor tweetText. unfold Twitter.findLastLinkInText.
    destruct (findElementByTestId d element "tweetText") as [t |] eqn:Et;
      [| discriminate].
    destruct (last (getElementsByTagName d t "a")) as [a |] eqn:Ea;
      [| discriminate].
    intros [= <- <-]. split; [now apply findElementByTestId_sound in Et |].
    apply last_Some in Ea as [l' Hl].
    assert (Hin : In a (getElementsByTagName d t "a")).
    { rewrite Hl. apply in_or_app. right. now left. }
    unfold getElementsByTagName in Hin. apply filter_In in Hin as [Hd Hm].
    unfold matches in Hm. apply andb_prop in Hm as [H1 H2].
    apply String.eqb_eq in H2. auto.
  - intros lp. unfold Farcaster.findLinkPreview.
    destruct (querySelector d element (ByTag "a")) as [anchor |] eqn:Ea;
      [| discriminate].
    intros [= <-]. cbn [lp_card lp_anchor]. split; [reflexivity |].
    unfold querySelector in Ea. pose proof (find_matches_sel _ _ _ _ Ea) as Hm.
    unfold matches in Hm. apply andb_prop in Hm as [H1 H2].
    apply String.eqb_eq in H2. apply List.find_some in Ea as [Hin _]. auto.
Qed.

(** The card page: the card (node 4) and its anchor (node 6), found from
    the cell (node 1). *)
Lemma searches_return_what_they_look_for_witness :
  Twitter.findLinkPreview cardPage 1 = Some (mkLinkPreview 6 4) /\
  getAttribute cardPage 4 "data-testid" = Some "card.wrapper".
Proof.
  split; [reflexivity |].
  exact (proj1 (proj1 (proj2 (proj2 (searches_return_what_they_look_for cardPage 1)))
                  (mkLinkPreview 6 4) eq_refl)).
Defined.

(* ===================================================================== *)
(** ** Further properties: what a settlement leaves alone *)
(* ===================================================================== *)

#[global] Instance keeps_look_frame : Frame keeps_look.
Proof.
  split; unfold keeps_look; intros; cbn; try (repeat split; congruence).
  destruct H as (? & ? & ? & ?), H0 as (? & ? & ? & ?).
  repeat split; congruence.
Qed.

Lemma keeps_look_weaken nd nd' : keeps_look nd nd' -> keeps_look_but_margins nd nd'.
Proof.
  intros (H1 & H2 & H3 & H4). repeat split; auto. intros. now rewrite H4.
Qed.

Lemma margins_then_look x y z :
  keeps_look_but_margins x y -> keeps_look y z -> keeps_look_but_margins x z.
Proof.
  intros (H1 & H2 & H3 & H4) (K1 & K2 & K3 & K4).
  repeat split; try congruence. intros prop Ht Hb. rewrite K4. now apply H4.
Qed.

Lemma setStyle_margin_look n k v d m nd :
  k = "marginTop" \/ k = "marginBottom" ->
  d !! m = Some nd ->
  exists nd1, setStyle n k v d !! m = Some nd1 /\
              keeps_look_but_margins nd nd1 /\ (m <> n -> nd1 = nd).
Proof.
  intros Hk Hm. unfold setStyle. rewrite list_lookup_alter.
  destruct (decide (n = m)) as [<- | Hne]; rewrite Hm; cbn.
  - eexists. split; [reflexivity |]. split; [| congruence].
    repeat split. cbn. intros prop Ht Hb. apply assoc_set_assoc_ne.
    destruct Hk as [-> | ->]; congruence.
  - exists nd. split; [reflexivity |]. split; [| reflexivity].
    apply keeps_look_weaken. repeat split.
Qed.

Lemma margins_trans x y z :
  keeps_look_but_margins x y -> keeps_look_but_margins y z ->
  keeps_look_but_margins x z.
Proof.
  intros (H1 & H2 & H3 & H4) (K1 & K2 & K3 & K4).
  repeat split; try congruence. intros prop Ht Hb. rewrite K4, H4; auto.
Qed.

Lemma addMargin_look element w n nd :
  dom w !! n = Some nd ->
  exists nd1, dom (snd (addMargin element w)) !! n = Some nd1 /\
              keeps_look_but_margins nd nd1 /\ (n <> element -> nd1 = nd).
Proof.
  intros Hn. rewrite addMargin_dom.
  destruct (classList_contains (dom w) element "dialect-wrapper").
  - destruct (setStyle_margin_look element "marginTop" "12px" (dom w) n nd
                (or_introl eq_refl) Hn) as (nd1 & H1 & L1 & E1).
    destruct (classList_contains (dom w) element "dialect-dm").
    + destruct (setStyle_margin_look element "marginBottom" "8px" _ n nd1
                  (or_intror eq_refl) H1) as (nd2 & H2 & L2 & E2).
      exists nd2. split; [exact H2 |]. split.
      * eapply margins_trans; eauto.
      * intros Hne. now rewrite E2, E1.
    + exists nd1. auto.
  - exists nd. split; [exact Hn |]. split; [| reflexivity].
    apply keeps_look_weaken. repeat split.
Qed.

Lemma mount_look c options container u a w n nd :
  dom w !! n = Some nd ->
  exists nd', dom (snd (mount c options container u a w)) !! n = Some nd' /\
              keeps_look_but_margins nd nd' /\
              (n <> container -> keeps_look nd nd').
Proof.
  intros Hn. rewrite mount_dom.
  destruct (addMargin_look container w n nd Hn) as (nd1 & H1 & L1 & E1).
  pose proof (lookup_lt_Some _ _ _ Hn) as Hlt.
  pose proof (addMargin_length container w) as Hl.
  set (d1 := dom (snd (addMargin container w))) in *.
  assert (H2 : setClassName (length (dom w)) "dialect-action-root-container"
                 (d1 ++ [blank "div"]) !! n = Some nd1).
  { unfold setClassName, setAttribute.
    rewrite list_lookup_alter_ne by lia.
    rewrite lookup_app_l by lia. exact H1. }
  destruct (evolves_replaceChildren keeps_look container (length (dom w)) _
              n nd1 H2) as (nd' & H' & L').
  exists nd'. split; [exact H' |]. split.
  - eapply margins_then_look; eauto.
  - intros Hne. rewrite (E1 Hne) in L'. exact L'.
Qed.

(** X25: what a settlement leaves alone.  Whatever promise settles and
    however, every node of the page is still there afterwards with its
    kind, its name and its attributes; its inline style is as before, but
    for [marginTop] and [marginBottom] of the mount point of the dispatch
    that is resumed. *)
Theorem settlement_keeps_the_look_of_the_page c options p r w n nd :
  dom w !! n = Some nd ->
  exists nd',
    dom (snd (resume c options p r w)) !! n = Some nd' /\
    keeps_look_but_margins nd nd' /\
    (n <> containerOf p -> keeps_look nd nd').
Proof.
  intros Hn.
  assert (Hsame : forall m : M Outcome,
            dom (snd (m w)) = dom w ->
            exists nd', dom (snd (m w)) !! n = Some nd' /\
              keeps_look_but_margins nd nd' /\
              (n <> containerOf p -> keeps_look nd nd')).
  { intros m ->. exists nd. split; [exact Hn |].
    assert (H : keeps_look nd nd) by (repeat split).
    split; [now apply keeps_look_weaken | auto]. }
  assert (Hmount : forall container u a,
            container = containerOf p ->
            exists nd',
              dom (snd ((mount c options container u a ;;; ret Finished) w)) !! n = Some nd' /\
              keeps_look_but_margins nd nd' /\
              (n <> containerOf p -> keeps_look nd nd')).
  { intros container u a <-.
    destruct (mount_look c options container u a w n nd Hn) as (nd' & H' & L & K).
    exists nd'. unfold bind, ret.
    destruct (mount c options container u a w) as [[] w1]. auto. }
  destruct p as [container | container u | container u state | container u a];
    destruct r as [| u' | j | a' | b]; cbn [resume];
    try (apply Hsame; reflexivity).
  - apply Hsame. apply classify_dom.
  - apply Hsame. apply resolveAction_dom.
  - destruct (hasIsSupported c); [apply Hsame; reflexivity |].
    now apply Hmount.
  - destruct b; [now apply Hmount | apply Hsame; reflexivity].
Qed.

(** The mount of the text scenario: the wrapper (node 8) gets its top
    margin and keeps its class. *)
Lemma settlement_keeps_the_look_of_the_page_witness :
  let w := snd (Twitter.locateAndFetch (collaborators trusted) None 3 (mkWorld textPage [])) in
  let w' := snd (resume (collaborators trusted) defaultOptions
                   (AwaitSupported 8 exampleUrl "action")
                   (ResolvedSupported true) w) in
  className (dom w') 8 = "dialect-wrapper" /\
  styleOf (dom w') 8 "marginTop" = Some "12px" /\
  exists nd', dom w' !! 5 = Some nd' /\
              keeps_look (el "div" [("data-testid", "tweetText")] (Some 4) [6; 7])
                         nd'.
Proof.
  split; [reflexivity |]. split; [reflexivity |].
  destruct (settlement_keeps_the_look_of_the_page
              (collaborators trusted) defaultOptions
              (AwaitSupported 8 exampleUrl "action") (ResolvedSupported true)
              (snd (Twitter.locateAndFetch (collaborators trusted) None 3 (mkWorld textPage []))) 5
              (el "div" [("data-testid", "tweetText")] (Some 4) [6; 7])
              eq_refl) as (nd' & H & _ & K).
  exists nd'. split; [exact H |]. apply K. cbn. lia.
Defined.

(* ===================================================================== *)
(** ** Further properties: the page stays well-formed

    The writes of the observers that change the links of the tree are of
    four kinds: a wrapper is detached, a new wrapper is added as a leaf,
    the children of a mount point are replaced by a new render root, and
    the tree of a dropdown is inserted.  Each kind is shown below to keep
    the links of the store in agreement and free of cycles. *)
(* ===================================================================== *)

Lemma combine_seq_In (d : list Node) : forall s n nd,
  In (n, nd) (combine (seq s (length d)) d) -> s <= n /\ d !! (n - s) = Some nd.
Proof.
  induction d as [| x d IH]; intros s n nd H; [destruct H |].
  cbn in H. destruct H as [[= <- <-] | H].
  - split; [lia |]. now rewrite Nat.sub_diag.
  - apply IH in H as [Hle H]. split; [lia |].
    replace (n - s) with (S (n - S s)) by lia. exact H.
Qed.

Section Nodup.
Context (dec : forall x y : nat, {x = y} + {x <> y}).

Lemma nodup_length_le (l : list nat) : length (nodup dec l) <= length l.
Proof.
  induction l as [| x l IH]; cbn; [lia |].
  destruct (in_dec dec x l); cbn; lia.
Qed.

Lemma nodup_length_NoDup (l : list nat) :
  length (nodup dec l) = length l -> List.NoDup l.
Proof.
  induction l as [| x l IH]; cbn; [constructor |].
  destruct (in_dec dec x l) as [Hin | Hnin]; cbn; intros H.
  - pose proof (nodup_length_le l). lia.
  - constructor; [exact Hnin | apply IH; lia].
Qed.
End Nodup.

Lemma consistent_iff d : consistent d = true <-> wellLinked d.
Proof.
  split.
  - intros Hc. split; [| split].
    + intros n c Hin. unfold childNodesOf in Hin.
      destruct (d !! n) as [nd |] eqn:Hn; [| destruct Hin].
      pose proof (consistent_links d n nd Hc Hn) as Hl. unfold links_ok in Hl.
      apply andb_prop in Hl as [Hl _]. apply andb_prop in Hl as [Hl _].
      rewrite forallb_forall in Hl. specialize (Hl c Hin).
      destruct (parentElement d c) as [p |]; [| discriminate].
      apply Nat.eqb_eq in Hl. now subst.
    + intros n p Hp. split; [now apply consistent_parent_lists |].
      unfold parentNodeOf in Hp.
      destruct (d !! n) as [nd |] eqn:Hn; [| discriminate].
      pose proof (consistent_links d n nd Hc Hn) as Hl. unfold links_ok in Hl.
      rewrite Hp in Hl.
      apply andb_prop in Hl as [Hl _]. apply andb_prop in Hl as [_ Hl].
      apply andb_prop in Hl as [_ Hl]. apply negb_true_iff, Nat.eqb_neq in Hl.
      exact Hl.
    + intros n. unfold childNodesOf.
      destruct (d !! n) as [nd |] eqn:Hn; [| constructor].
      pose proof (consistent_links d n nd Hc Hn) as Hl. unfold links_ok in Hl.
      apply andb_prop in Hl as [_ Hl]. apply Nat.eqb_eq in Hl.
      now apply nodup_length_NoDup in Hl.
  - intros (H1 & H2 & H3). unfold consistent. apply forallb_forall.
    intros [n nd] Hin. apply combine_seq_In in Hin as [_ Hn].
    rewrite Nat.sub_0_r in Hn. unfold links_ok.
    assert (Hk : childNodesOf d n = childNodes nd)
      by (unfold childNodesOf; now rewrite Hn).
    assert (Hp : parentNodeOf d n = parentNode nd)
      by (unfold parentNodeOf; now rewrite Hn).
    apply andb_true_intro. split; [apply andb_true_intro; split |].
    + apply forallb_forall. intros c Hc. rewrite <- Hk in Hc.
      rewrite (H1 n c Hc). apply Nat.eqb_refl.
    + rewrite <- Hp. destruct (parentNodeOf d n) as [p |] eqn:E; [| reflexivity].
      destruct (H2 n p E) as [Hin Hne]. apply andb_true_intro. split.
      * apply existsb_exists. exists n. split; [exact Hin | apply Nat.eqb_refl].
      * apply negb_true_iff, Nat.eqb_neq. exact Hne.
    + apply Nat.eqb_eq. rewrite <- Hk.
      now rewrite (nodup_fixed_point _ (H3 n)).
Qed.

Lemma forest_iff d : forest d = true <-> acyclic d.
Proof.
  unfold forest, acyclic. rewrite forallb_forall. split.
  - intros H n Hn. apply H. apply in_seq. lia.
  - intros H n Hn. apply H. apply in_seq in Hn. lia.
Qed.

Lemma rooted_mono d f : forall n f',
  rooted_fuel d f n = true -> f <= f' -> rooted_fuel d f' n = true.
Proof.
  induction f as [| f IH]; intros n f' Hr Hle; [discriminate |].
  destruct f' as [| f']; [lia |]. cbn in *.
  destruct (parentNodeOf d n); [| reflexivity]. apply IH; [exact Hr | lia].
Qed.

(** Cutting parent links keeps every walk finite. *)
Lemma rooted_shrink d d' f : forall n,
  (forall m, parentNodeOf d' m = parentNodeOf d m \/ parentNodeOf d' m = None) ->
  rooted_fuel d f n = true -> rooted_fuel d' f n = true.
Proof.
  induction f as [| f IH]; intros n Hp Hr; [discriminate |].
  cbn in *. destruct (Hp n) as [-> | ->]; [| reflexivity].
  destruct (parentNodeOf d n); [| reflexivity]. now apply IH.
Qed.

(** A store is known to the three properties by its links only. *)
Lemma wellLinked_ext d d' :
  (forall n, parentNodeOf d' n = parentNodeOf d n) ->
  (forall n, childNodesOf d' n = childNodesOf d n) ->
  (forall n, isElement d' n = isElement d n) ->
  wellLinked d -> wellLinked d'.
Proof.
  intros Hp Hk He (H1 & H2 & H3). split; [| split].
  - intros n c Hin. rewrite Hk in Hin. specialize (H1 n c Hin).
    unfold parentElement in *. rewrite Hp.
    destruct (parentNodeOf d c); [| discriminate]. now rewrite He.
  - intros n p Hn. rewrite Hp in Hn. rewrite Hk. now apply H2.
  - intros n. rewrite Hk. apply H3.
Qed.

Lemma acyclic_shrink d d' :
  length d' = length d ->
  (forall m, parentNodeOf d' m = parentNodeOf d m \/ parentNodeOf d' m = None) ->
  acyclic d -> acyclic d'.
Proof.
  intros Hl Hp Ha n Hn. rewrite Hl in *. apply (rooted_shrink d); auto.
Qed.

(** *** Facts about a store whose links agree *)

Lemma wellLinked_child d n c :
  wellLinked d -> In c (childNodesOf d n) ->
  parentNodeOf d c = Some n /\ isElement d n = true /\
  c < length d /\ n < length d.
Proof.
  intros (H1 & _ & _) Hin. apply H1 in Hin.
  apply parentElement_Some in Hin as (Hp & He & Hc).
  repeat split; auto. now apply isElement_lt.
Qed.

Lemma wellLinked_parent d n p :
  wellLinked d -> parentNodeOf d n = Some p ->
  In n (childNodesOf d p) /\ p <> n /\ p < length d /\ isElement d p = true.
Proof.
  intros Hw Hp. pose proof Hw as (_ & H2 & _).
  destruct (H2 n p Hp) as [Hin Hne].
  destruct (wellLinked_child d p n Hw Hin) as (_ & He & _ & Hlt). auto.
Qed.

Lemma childNodesOf_outside d n : length d <= n -> childNodesOf d n = [].
Proof. intros H. unfold childNodesOf. now rewrite lookup_ge_None_2. Qed.

Lemma parentNodeOf_outside d n : length d <= n -> parentNodeOf d n = None.
Proof. intros H. unfold parentNodeOf. now rewrite lookup_ge_None_2. Qed.

Lemma isElement_outside d n : length d <= n -> isElement d n = false.
Proof. intros H. unfold isElement. now rewrite lookup_ge_None_2. Qed.

(** Walks from the nodes of the page stay in the page. *)
Lemma rooted_old d d' N f : forall n,
  (forall m, m < N ->
     parentNodeOf d' m = parentNodeOf d m \/ parentNodeOf d' m = None) ->
  (forall m p, parentNodeOf d m = Some p -> p < N) ->
  n < N -> rooted_fuel d f n = true -> rooted_fuel d' f n = true.
Proof.
  induction f as [| f IH]; intros n Hp Hin Hn Hr; [discriminate |].
  cbn in *. destruct (Hp n Hn) as [-> | ->]; [| reflexivity].
  destruct (parentNodeOf d n) as [p |] eqn:E; [| reflexivity].
  apply IH; auto. now apply (Hin n).
Qed.

(** *** Detaching a node *)

Lemma In_remove_id x n l : In x (remove_id n l) <-> In x l /\ x <> n.
Proof.
  unfold remove_id. rewrite filter_In, negb_true_iff, Nat.eqb_neq. tauto.
Qed.

Lemma isElement_remove n d m : isElement (remove n d) m = isElement d m.
Proof.
  unfold isElement. rewrite lookup_remove.
  destruct (parentNodeOf d n) as [p |]; [| reflexivity].
  unfold at_node.
  destruct (decide (p = m)), (decide (n = m)); destruct (d !! m); reflexivity.
Qed.

Lemma parentNodeOf_remove n d m :
  parentNodeOf (remove n d) m = if decide (m = n) then None else parentNodeOf d m.
Proof.
  destruct (decide (m = n)) as [-> | Hne]; [| now apply remove_parent_other].
  unfold parentNodeOf at 1. rewrite lookup_remove.
  destruct (parentNodeOf d n) as [p |] eqn:E.
  - unfold at_node. rewrite (decide_True (P := n = n)) by reflexivity.
    destruct (decide (p = n)); destruct (d !! n); reflexivity.
  - exact E.
Qed.

Lemma childNodesOf_remove n d m :
  childNodesOf (remove n d) m =
  if decide (parentNodeOf d n = Some m) then remove_id n (childNodesOf d m)
  else childNodesOf d m.
Proof.
  unfold childNodesOf at 1. rewrite lookup_remove.
  destruct (parentNodeOf d n) as [p |] eqn:E.
  - unfold at_node, childNodesOf.
    destruct (decide (Some p = Some m)) as [[= ->] | Hne].
    + rewrite decide_True by reflexivity.
      destruct (decide (n = m)); destruct (d !! m); reflexivity.
    + rewrite decide_False by congruence.
      destruct (decide (n = m)); destruct (d !! m); reflexivity.
  - rewrite decide_False by discriminate. reflexivity.
Qed.

Lemma wellLinked_remove n d : wellLinked d -> wellLinked (remove n d).
Proof.
  intros Hw. pose proof Hw as (H1 & H2 & H3). split; [| split].
  - intros m c Hin. rewrite childNodesOf_remove in Hin.
    assert (Hc : In c (childNodesOf d m) /\ c <> n).
    { destruct (decide (parentNodeOf d n = Some m)) as [Hp | Hp].
      - now apply In_remove_id in Hin.
      - split; [exact Hin |]. intros ->.
        destruct (wellLinked_child d m n Hw Hin) as [Hp' _]. contradiction. }
    destruct Hc as [Hc Hne]. specialize (H1 m c Hc).
    unfold parentElement in *. rewrite parentNodeOf_remove.
    rewrite decide_False by exact Hne.
    destruct (parentNodeOf d c); [| discriminate]. now rewrite isElement_remove.
  - intros m p Hp. rewrite parentNodeOf_remove in Hp.
    destruct (decide (m = n)) as [-> | Hne]; [discriminate |].
    destruct (H2 m p Hp) as [Hin Hpm]. split; [| exact Hpm].
    rewrite childNodesOf_remove.
    destruct (decide (parentNodeOf d n = Some p)); [| exact Hin].
    apply In_remove_id. auto.
  - intros m. rewrite childNodesOf_remove.
    destruct (decide (parentNodeOf d n = Some m)); [| apply H3].
    unfold remove_id. apply List.NoDup_filter, H3.
Qed.

Lemma acyclic_remove n d : acyclic d -> acyclic (remove n d).
Proof.
  apply acyclic_shrink; [apply length_remove |].
  intros m. rewrite parentNodeOf_remove. destruct (decide (m = n)); auto.
Qed.

(** *** Adding a wrapper as a leaf *)

Lemma wrapperAdded_old d d' target dm m :
  wrapperAdded d d' target dm -> m <> length d ->
  parentNodeOf d' m = parentNodeOf d m /\ isElement d' m = isElement d m.
Proof.
  intros (Hl & _ & _ & _ & _ & _ & _ & _ & Hold) Hm.
  destruct (d !! m) as [nd |] eqn:E.
  - unfold parentNodeOf, isElement. rewrite (Hold m nd E), E. now destruct nd.
  - apply lookup_ge_None in E.
    rewrite !parentNodeOf_outside, !isElement_outside by lia. auto.
Qed.

Lemma NoDup_snoc (l : list nat) x :
  ~ In x l -> List.NoDup l -> List.NoDup (l ++ [x]).
Proof.
  induction l as [| y l IH]; intros Hx Hl; cbn.
  - constructor; [intros [] | constructor].
  - inversion Hl as [| ? ? Hy Hl']; subst. constructor.
    + rewrite in_app_iff. cbn. intros [H | [H | []]]; [contradiction |].
      apply Hx. now left.
    + apply IH; [| exact Hl']. intros H. apply Hx. now right.
Qed.

Lemma wellLinked_wrapperAdded d d' target dm :
  wrapperAdded d d' target dm ->
  (forall t, target = Some t -> isElement d t = true) ->
  wellLinked d -> wellLinked d'.
Proof.
  intros Hadd Ht Hw. pose proof Hw as (H1 & H2 & H3).
  assert (Hold : forall m, m <> length d ->
            parentNodeOf d' m = parentNodeOf d m /\
            isElement d' m = isElement d m)
    by (intros m; now apply (wrapperAdded_old d d' target dm)).
  destruct Hadd as (Hl & He & _ & _ & Hk & Hp & Hkt & Hko & _).
  assert (Hin : forall t c, target = Some t ->
            (In c (childNodesOf d' t) <-> c = length d \/ In c (childNodesOf d t))).
  { intros t c E. rewrite (Hkt t E). destruct dm.
    - cbn [In]. split; intros [H | H]; auto.
    - rewrite in_app_iff. cbn [In].
      split; [intros [H | [H | []]] | intros [H | H]]; auto. }
  assert (Hother : forall n c, target <> Some n ->
            (In c (childNodesOf d' n) <-> In c (childNodesOf d n))).
  { intros n c E. now rewrite (Hko n E). }
  split; [| split].
  - intros n c Hc.
    assert (Hn : isElement d n = true /\ n <> length d /\
                 (c = length d /\ target = Some n \/
                  c <> length d /\ In c (childNodesOf d n))).
    { destruct (decide (target = Some n)) as [E | E].
      - pose proof (Ht n E) as Hel. split; [exact Hel |].
        pose proof (isElement_lt _ _ Hel). split; [lia |].
        apply (Hin n c E) in Hc as [-> | Hc]; [now left |].
        right. split; [| exact Hc].
        destruct (wellLinked_child d n c Hw Hc) as (_ & _ & Hlt & _). lia.
      - apply (Hother n c E) in Hc.
        destruct (wellLinked_child d n c Hw Hc) as (_ & Hel & Hlt & Hlt').
        split; [exact Hel |]. split; [lia |]. right. split; [lia | exact Hc]. }
    destruct Hn as (Hel & Hne & [[-> E] | [Hcne Hc']]).
    + unfold parentElement. rewrite Hp, E.
      destruct (Hold n Hne) as [_ ->]. now rewrite Hel.
    + specialize (H1 n c Hc'). unfold parentElement in *.
      destruct (Hold c Hcne) as [-> _].
      destruct (parentNodeOf d c); [| discriminate].
      destruct (isElement d n0) eqn:E0; [| discriminate].
      injection H1 as ->.
      destruct (Hold n Hne) as [_ ->]. now rewrite Hel.
  - intros n p Hn.
    destruct (decide (n = length d)) as [-> | Hne].
    + rewrite Hp in Hn. split.
      * apply (Hin p _ Hn). now left.
      * pose proof (isElement_lt _ _ (Ht p Hn)). lia.
    + destruct (Hold n Hne) as [Hpn _]. rewrite Hpn in Hn.
      destruct (H2 n p Hn) as [Hc Hpne]. split; [| exact Hpne].
      destruct (decide (target = Some p)) as [E | E].
      * apply (Hin p n E). now right.
      * now apply (Hother p n E).
  - intros n. destruct (decide (target = Some n)) as [E | E].
    + rewrite (Hkt n E).
      assert (Hnot : ~ In (length d) (childNodesOf d n)).
      { intros Hc. destruct (wellLinked_child d n _ Hw Hc) as (_ & _ & Hlt & _).
        lia. }
      destruct dm.
      * constructor; [exact Hnot | apply H3].
      * apply NoDup_snoc; [exact Hnot | apply H3].
    + rewrite (Hko n E). apply H3.
Qed.

Lemma acyclic_wrapperAdded d d' target dm :
  wrapperAdded d d' target dm ->
  (forall t, target = Some t -> t < length d) ->
  wellLinked d -> acyclic d -> acyclic d'.
Proof.
  intros Hadd Ht Hw Ha.
  assert (Hold : forall m, m < length d ->
            parentNodeOf d' m = parentNodeOf d m \/ parentNodeOf d' m = None).
  { intros m Hm. left.
    apply (wrapperAdded_old d d' target dm m Hadd). lia. }
  assert (Hin : forall m p, parentNodeOf d m = Some p -> p < length d).
  { intros m p Hp. now destruct (wellLinked_parent d m p Hw Hp) as (_ & _ & H & _). }
  destruct Hadd as (Hl & _ & _ & _ & _ & Hp & _).
  assert (Hrooted : forall n, n < length d -> rooted_fuel d' (length d) n = true).
  { intros n Hn. apply (rooted_old d d' (length d)); auto. }
  intros n Hn. rewrite Hl in *.
  destruct (decide (n = length d)) as [-> | Hne].
  - cbn [rooted_fuel]. rewrite Hp. destruct target as [t |]; [| reflexivity].
    apply Hrooted. now apply Ht.
  - apply (rooted_mono d' (length d)); [apply Hrooted; lia | lia].
Qed.

(** *** Replacing the children of a mount point *)

Lemma wellLinked_mount c options container u a w :
  isElement (dom w) container = true ->
  wellLinked (dom w) -> wellLinked (dom (snd (mount c options container u a w))).
Proof.
  intros Hel Hw. pose proof Hw as (H1 & H2 & H3).
  pose proof (isElement_lt _ _ Hel) as Hc.
  destruct (mount_links c options container u a w Hc)
    as (Hl & Hkc & Hpr & Hkr & _ & Hdet & Hkeep & Hkids & Hkind).
  set (d' := dom (snd (mount c options container u a w))) in *.
  set (root := length (dom w)) in *.
  assert (Hec : isElement d' container = true).
  { rewrite Hkind. rewrite decide_False by (unfold root; lia). exact Hel. }
  split; [| split].
  - intros n ch Hin.
    destruct (decide (n = container)) as [-> | Hn].
    + rewrite Hkc in Hin. destruct Hin as [<- | []].
      unfold parentElement. now rewrite Hpr, Hec.
    + rewrite (Hkids n Hn) in Hin.
      destruct (wellLinked_child _ n ch Hw Hin) as (Hp & He & Hlt & Hlt').
      assert (Hnot : ~ In ch (childNodesOf (dom w) container)).
      { intros Hin'. destruct (wellLinked_child _ _ ch Hw Hin') as [Hp' _].
        congruence. }
      unfold parentElement. rewrite (Hkeep ch Hnot) by (unfold root; lia).
      rewrite Hp, Hkind. rewrite decide_False by (unfold root; lia).
      now rewrite He.
  - intros n p Hp.
    destruct (decide (n = root)) as [-> | Hn].
    + rewrite Hpr in Hp. injection Hp as <-. rewrite Hkc.
      split; [now left | unfold root; lia].
    + assert (Hnot : ~ In n (childNodesOf (dom w) container)).
      { intros Hin. destruct (wellLinked_child _ _ n Hw Hin) as (_ & _ & Hlt & _).
        rewrite (Hdet n Hin Hlt) in Hp. discriminate. }
      rewrite (Hkeep n Hnot Hn) in Hp.
      destruct (wellLinked_parent _ n p Hw Hp) as (Hin & Hne & _).
      split; [| exact Hne].
      rewrite Hkids; [exact Hin |]. intros ->. contradiction.
  - intros n. destruct (decide (n = container)) as [-> | Hn].
    + rewrite Hkc. constructor; [intros [] | constructor].
    + rewrite (Hkids n Hn). apply H3.
Qed.

Lemma acyclic_mount c options container u a w :
  isElement (dom w) container = true ->
  wellLinked (dom w) -> acyclic (dom w) ->
  acyclic (dom (snd (mount c options container u a w))).
Proof.
  intros Hel Hw Ha.
  pose proof (isElement_lt _ _ Hel) as Hc.
  destruct (mount_links c options container u a w Hc)
    as (Hl & _ & Hpr & _ & _ & Hdet & Hkeep & _).
  set (d' := dom (snd (mount c options container u a w))) in *.
  assert (Hold : forall m, m < length (dom w) ->
            parentNodeOf d' m = parentNodeOf (dom w) m \/ parentNodeOf d' m = None).
  { intros m Hm.
    destruct (in_dec Nat.eq_dec m (childNodesOf (dom w) container)) as [Hin | Hnot].
    - right. now apply Hdet.
    - left. apply Hkeep; [exact Hnot | lia]. }
  assert (Hin : forall m p, parentNodeOf (dom w) m = Some p -> p < length (dom w)).
  { intros m p Hp. now destruct (wellLinked_parent _ m p Hw Hp) as (_ & _ & H & _). }
  assert (Hrooted : forall n, n < length (dom w) ->
            rooted_fuel d' (length (dom w)) n = true).
  { intros n Hn. apply (rooted_old (dom w) d' (length (dom w))); auto. }
  intros n Hn. rewrite Hl in *.
  destruct (decide (n = length (dom w))) as [-> | Hne].
  - cbn [rooted_fuel]. rewrite Hpr. now apply Hrooted.
  - apply (rooted_mono d' (length (dom w))); [apply Hrooted; lia | lia].
Qed.

(** *** The dropdown of the like button keeps the links in agreement *)

Lemma remove_id_notin n l : ~ In n l -> remove_id n l = l.
Proof.
  unfold remove_id. induction l as [| x l IH]; cbn; intros H; [reflexivity |].
  destruct (Nat.eqb_spec x n) as [-> | Hx]; [tauto |]. cbn. f_equal. tauto.
Qed.

Lemma remove_id_place ref n l : ~ In n l -> remove_id n (place ref n l) = l.
Proof.
  intros H. destruct ref as [r |]; cbn [place].
  - induction l as [| x l IH]; cbn.
    + now rewrite Nat.eqb_refl.
    + assert (Hx : x <> n) by (intros ->; apply H; now left).
      assert (Hl : ~ In n l) by (intros Hin; apply H; now right).
      destruct (Nat.eqb x r); cbn.
      * rewrite Nat.eqb_refl. cbn.
        destruct (Nat.eqb_spec x n); [tauto |]. cbn. f_equal.
        now apply remove_id_notin.
      * destruct (Nat.eqb_spec x n); [tauto |]. cbn. f_equal. now apply IH.
  - unfold remove_id. rewrite List.filter_app. cbn. rewrite Nat.eqb_refl. cbn.
    rewrite app_nil_r. now apply remove_id_notin.
Qed.

Lemma childNodesOf_insertBefore parent node ref d m :
  childNodesOf (insertBefore parent node ref d) m =
  if decide (parent = m) then
    match remove node d !! m with
    | Some _ => place ref node (childNodesOf (remove node d) m)
    | None => []
    end
  else childNodesOf (remove node d) m.
Proof.
  unfold childNodesOf at 1. rewrite lookup_insertBefore. unfold at_node, childNodesOf.
  destruct (decide (parent = m)), (decide (node = m)), (remove node d !! m);
    cbn; reflexivity.
Qed.

Lemma rooted_step d f n p :
  parentNodeOf d n = Some p -> rooted_fuel d f p = true ->
  rooted_fuel d (S f) n = true.
Proof. intros Hp H. cbn. now rewrite Hp. Qed.

Section WithDropdownLinks.
Context (d : list Node) (p : NodeId).
Hypothesis Hp : isElement d p = true.
Hypothesis Hw : wellLinked d.

Local Abbreviation N := (length d).
Local Abbreviation marked := (setAttribute p "data-dialect-processed" "true" d).
Local Abbreviation D0 := (marked ++ dropdownBlock N).
Local Abbreviation D1 := (Twitter.insertAfter p N D0).

Lemma button_parent_old q : parentNodeOf d p = Some q -> q < length d.
Proof. intros Hq. now destruct (wellLinked_parent d p q Hw Hq) as (_ & _ & ? & _). Qed.

Lemma fresh_not_child n : ~ In N (childNodesOf d n).
Proof.
  intros Hin. destruct (wellLinked_child d n N Hw Hin) as (_ & _ & Hlt & _). lia.
Qed.

Lemma children_D0 m : m < N -> childNodesOf D0 m = childNodesOf d m.
Proof.
  intros Hm. rewrite childNodesOf_app_l by now rewrite length_setAttribute.
  apply links_setAttribute.
Qed.

Lemma children_D1 m :
  m < N ->
  childNodesOf (remove N D1) m = childNodesOf d m.
Proof.
  intros Hm. pose proof (p_lt d p Hp) as Hlt.
  rewrite childNodesOf_remove.
  rewrite (parent_N_D1 d p Hp button_parent_old).
  assert (HD0 : remove N D0 = D0).
  { unfold remove. now rewrite (parent_N_D0 d p). }
  assert (Hm0 : exists nd, D0 !! m = Some nd).
  { apply lookup_lt_is_Some_2. rewrite (length_D0 d p). lia. }
  unfold Twitter.insertAfter. rewrite (parent_p_D0 d p Hp).
  destruct (parentNodeOf d p) as [q |] eqn:Hq.
  - rewrite childNodesOf_insertBefore, HD0.
    destruct Hm0 as [nd Hnd]. rewrite Hnd.
    destruct (decide (q = m)) as [-> | Hqm].
    + rewrite decide_True by reflexivity.
      rewrite children_D0 by exact Hm.
      apply remove_id_place, fresh_not_child.
    + rewrite decide_False by congruence. now apply children_D0.
  - rewrite decide_False by discriminate. now apply children_D0.
Qed.

Lemma withDropdown_children m :
  m < N ->
  childNodesOf (withDropdown p d) m =
  if decide (p = m) then childNodesOf d m ++ [N] else childNodesOf d m.
Proof.
  intros Hm. unfold withDropdown, append.
  rewrite childNodesOf_insertBefore, children_D1 by exact Hm.
  destruct (decide (p = m)) as [<- | Hpm]; [| reflexivity].
  assert (Hm1 : exists nd, remove N D1 !! p = Some nd).
  { apply lookup_lt_is_Some_2. rewrite length_remove, (length_D1 d p). lia. }
  destruct Hm1 as [nd ->]. reflexivity.
Qed.

Lemma withDropdown_kind m :
  m < N -> isElement (withDropdown p d) m = isElement d m.
Proof.
  intros Hm.
  assert (Hl : length (withDropdown p d) = length D0).
  { now rewrite (length_withDropdown d p Hp), (length_D0 d p). }
  rewrite (evolves_isElement_eq D0 _ (evolves_withDropdown d p keeps_kind) Hl).
  rewrite isElement_app_l by now rewrite length_setAttribute.
  apply (evolves_isElement_eq d); [| apply length_setAttribute].
  refine (evolves_setAttribute keeps_kind _ _ _ _).
Qed.

Lemma withDropdown_view k :
  0 < k < 8 ->
  parentNodeOf (withDropdown p d) (N + k) =
    nth k [None; Some (N + 2); Some N; Some (N + 2);
           Some (N + 3); Some (N + 3); Some (N + 3); Some (N + 3)] None /\
  childNodesOf (withDropdown p d) (N + k) =
    nth k [[]; []; [N + 1; N + 3]; [N + 4; N + 5; N + 6; N + 7]; []; []; []; []] [] /\
  isElement (withDropdown p d) (N + k) = true.
Proof.
  intros Hk. unfold parentNodeOf, childNodesOf, isElement.
  rewrite (withDropdown_block d p Hp button_parent_old k) by lia.
  do 8 (destruct k as [| k]; [cbn; first [lia | auto] |]). lia.
Qed.

Lemma withDropdown_container_kind : isElement (withDropdown p d) N = true.
Proof.
  assert (Hl : length (withDropdown p d) = length D0).
  { now rewrite (length_withDropdown d p Hp), (length_D0 d p). }
  rewrite (evolves_isElement_eq D0 _ (evolves_withDropdown d p keeps_kind) Hl).
  unfold isElement. rewrite lookup_app_r by (rewrite length_setAttribute; lia).
  now rewrite length_setAttribute, Nat.sub_diag.
Qed.

End WithDropdownLinks.

Lemma wellLinked_withDropdown d p :
  isElement d p = true -> wellLinked d -> wellLinked (withDropdown p d).
Proof.
  intros Hp Hw. pose proof (p_lt d p Hp) as Hlt.
  pose proof (length_withDropdown d p Hp) as Hlen.
  pose proof (withDropdown_children d p Hp Hw) as Hkids.
  pose proof (withDropdown_container_children d p Hp (button_parent_old d p Hw)) as Hk0.
  pose proof (withDropdown_parent d p Hp) as Hp0.
  pose proof (withDropdown_container_kind d p Hp) as He0.
  pose proof (fun k H => withDropdown_view d p Hp Hw k H) as V.
  assert (V1 := V 1 ltac:(lia)). assert (V2 := V 2 ltac:(lia)).
  assert (V3 := V 3 ltac:(lia)). assert (V4 := V 4 ltac:(lia)).
  assert (V5 := V 5 ltac:(lia)). assert (V6 := V 6 ltac:(lia)).
  assert (V7 := V 7 ltac:(lia)). clear V.
  cbn [nth] in V1, V2, V3, V4, V5, V6, V7.
  destruct V1 as (P1 & K1 & E1), V2 as (P2 & K2 & E2), V3 as (P3 & K3 & E3),
    V4 as (P4 & K4 & E4), V5 as (P5 & K5 & E5), V6 as (P6 & K6 & E6),
    V7 as (P7 & K7 & E7).
  set (F := withDropdown p d) in *.
  assert (Hcase : forall n, n < length d \/ n = length d \/ n = length d + 1 \/
                            n = length d + 2 \/ n = length d + 3 \/
                            n = length d + 4 \/ n = length d + 5 \/
                            n = length d + 6 \/ n = length d + 7 \/
                            length F <= n) by (intros n; lia).
  split; [| split].
  - intros n c Hin.
    destruct (Hcase n) as [Hn | [-> | [-> | [-> | [-> | [-> | [-> | [-> | [-> | Hn]]]]]]]]].
    + rewrite Hkids in Hin by exact Hn.
      assert (Hold : In c (childNodesOf d n) -> parentElement F c = Some n).
      { intros Hc. destruct (wellLinked_child d n c Hw Hc) as (Hpc & Hen & Hc1 & _).
        apply parentElement_intro.
        - unfold F. now rewrite withDropdown_parent_old.
        - now apply withDropdown_isElement. }
      destruct (decide (p = n)) as [<- | Hpn]; [| auto].
      apply in_app_or in Hin as [Hin | [<- | []]]; auto.
    + rewrite Hk0 in Hin. destruct Hin as [<- | []].
      now apply parentElement_intro.
    + rewrite K1 in Hin. destruct Hin.
    + rewrite K2 in Hin. destruct Hin as [<- | [<- | []]];
        now apply parentElement_intro.
    + rewrite K3 in Hin. destruct Hin as [<- | [<- | [<- | [<- | []]]]];
        now apply parentElement_intro.
    + rewrite K4 in Hin. destruct Hin.
    + rewrite K5 in Hin. destruct Hin.
    + rewrite K6 in Hin. destruct Hin.
    + rewrite K7 in Hin. destruct Hin.
    + rewrite childNodesOf_outside in Hin by exact Hn. destruct Hin.
  - intros n q Hq.
    destruct (Hcase n) as [Hn | [-> | [-> | [-> | [-> | [-> | [-> | [-> | [-> | Hn]]]]]]]]].
    + unfold F in Hq. rewrite withDropdown_parent_old in Hq by exact Hn.
      destruct (wellLinked_parent d n q Hw Hq) as (Hin & Hne & Hq1 & _).
      split; [| exact Hne]. rewrite Hkids by exact Hq1.
      destruct (decide (p = q)); [apply in_or_app |]; auto.
    + apply parentElement_Some in Hp0 as (Hp0 & _). rewrite Hp0 in Hq.
      injection Hq as <-. split; [| lia].
      rewrite Hkids, decide_True by (reflexivity || lia).
      apply in_or_app. right. now left.
    + rewrite P1 in Hq. injection Hq as <-. rewrite K2. cbn. split; [auto | lia].
    + rewrite P2 in Hq. injection Hq as <-. rewrite Hk0. cbn. split; [auto | lia].
    + rewrite P3 in Hq. injection Hq as <-. rewrite K2. cbn. split; [auto | lia].
    + rewrite P4 in Hq. injection Hq as <-. rewrite K3. cbn. split; [auto | lia].
    + rewrite P5 in Hq. injection Hq as <-. rewrite K3. cbn. split; [auto | lia].
    + rewrite P6 in Hq. injection Hq as <-. rewrite K3. cbn. split; [auto 6 | lia].
    + rewrite P7 in Hq. injection Hq as <-. rewrite K3. cbn. split; [auto 6 | lia].
    + rewrite parentNodeOf_outside in Hq by exact Hn. discriminate.
  - intros n. pose proof Hw as (_ & _ & Hnd).
    destruct (Hcase n) as [Hn | [-> | [-> | [-> | [-> | [-> | [-> | [-> | [-> | Hn]]]]]]]]].
    + rewrite Hkids by exact Hn. destruct (decide (p = n)); [| apply Hnd].
      apply NoDup_snoc; [| apply Hnd]. apply (fresh_not_child d Hw).
    + rewrite Hk0. repeat constructor; cbn; intuition lia.
    + rewrite K1. constructor.
    + rewrite K2. repeat constructor; cbn; intuition lia.
    + rewrite K3. repeat constructor; cbn; intuition lia.
    + rewrite K4. constructor.
    + rewrite K5. constructor.
    + rewrite K6. constructor.
    + rewrite K7. constructor.
    + rewrite childNodesOf_outside by exact Hn. constructor.
Qed.

Lemma acyclic_withDropdown d p :
  isElement d p = true -> wellLinked d -> acyclic d -> acyclic (withDropdown p d).
Proof.
  intros Hp Hw Ha. pose proof (p_lt d p Hp) as Hlt.
  pose proof (length_withDropdown d p Hp) as Hlen.
  pose proof (withDropdown_parent d p Hp) as Hp0.
  apply parentElement_Some in Hp0 as (Hp0 & _).
  pose proof (fun k H => withDropdown_view d p Hp Hw k H) as V.
  assert (V1 := V 1 ltac:(lia)). assert (V2 := V 2 ltac:(lia)).
  assert (V3 := V 3 ltac:(lia)). assert (V4 := V 4 ltac:(lia)).
  assert (V5 := V 5 ltac:(lia)). assert (V6 := V 6 ltac:(lia)).
  assert (V7 := V 7 ltac:(lia)). clear V.
  cbn [nth] in V1, V2, V3, V4, V5, V6, V7.
  destruct V1 as (P1 & _), V2 as (P2 & _), V3 as (P3 & _),
    V4 as (P4 & _), V5 as (P5 & _), V6 as (P6 & _), V7 as (P7 & _).
  set (F := withDropdown p d) in *.
  assert (Hold : forall n, n < length d -> rooted_fuel F (length d) n = true).
  { intros n Hn. apply (rooted_old d F (length d)); auto.
    - intros m Hm. left. now apply withDropdown_parent_old.
    - intros m q Hq. now destruct (wellLinked_parent d m q Hw Hq) as (_ & _ & ? & _). }
  pose proof (rooted_step F _ _ _ Hp0 (Hold p Hlt)) as R0.
  pose proof (rooted_step F _ _ _ P2 R0) as R2.
  pose proof (rooted_step F _ _ _ P1 R2) as R1.
  pose proof (rooted_step F _ _ _ P3 R2) as R3.
  pose proof (rooted_step F _ _ _ P4 R3) as R4.
  pose proof (rooted_step F _ _ _ P5 R3) as R5.
  pose proof (rooted_step F _ _ _ P6 R3) as R6.
  pose proof (rooted_step F _ _ _ P7 R3) as R7.
  intros n Hn. rewrite Hlen in *.
  assert (Hcase : n < length d \/ n = length d \/ n = length d + 1 \/
                  n = length d + 2 \/ n = length d + 3 \/
                  n = length d + 4 \/ n = length d + 5 \/
                  n = length d + 6 \/ n = length d + 7) by lia.
  destruct Hcase as [H | [-> | [-> | [-> | [-> | [-> | [-> | [-> | ->]]]]]]]];
    (eapply rooted_mono; [first [apply Hold; exact H | eassumption] | lia]).
Qed.

(** *** The stores a dispatch can leave *)

Lemma farcaster_dom_cases c options element w :
  let d' := dom (snd (Farcaster.handleNewNode c options element w)) in
  d' = dom w \/ (exists wr, d' = remove wr (dom w)) \/
  (localNameOf (dom w) element = "div" /\
   d' = dom (snd (Farcaster.getContainerForLink element w))).
Proof.
  cbv zeta.
  remember (Farcaster.handleNewNode c options element w) as r eqn:Hr.
  unfold Farcaster.handleNewNode, Farcaster.findLinkPreview in Hr.
  rewrite step_read in Hr.
  destruct (String.eqb_spec (localNameOf (dom w) element) "div") as [Ediv | Ediv];
    cbn [negb] in Hr; [| subst r; now left].
  rewrite step_read in Hr.
  destruct (negb (includes " fade-in" (className (dom w) element))
            && negb (includes "relative" (className (dom w) element)));
    [subst r; now left |].
  rewrite step_read in Hr.
  destruct (querySelector (dom w) element (ByTag "a")) as [anchor |];
    cbn [lp_card lp_anchor] in Hr.
  - rewrite step_read, !bind_assoc in Hr.
    assert (Hw : exists w1,
              (dom w1 = dom w \/ exists wr, dom w1 = remove wr (dom w)) /\
              r = (candidate <-
                     (container <- read (fun d => parentElement d element) ;;
                      ret (Some anchor, container)) ;;
                   match candidate with
                   | (Some anchor, Some container) =>
                       href <- read (fun d => hrefOf c d anchor) ;;
                       match parseURL c (toUSVString href) with
                       | Some actionUrl => classify c options container actionUrl
                       | None => ret Finished
                       end
                   | _ => ret Finished
                   end) w1).
    { destruct (Farcaster.findContainerInCast (dom w) element true) as [wr |].
      - rewrite step_write in Hr. eexists. split; [| exact Hr]. right. now exists wr.
      - rewrite step_ret in Hr. exists w. split; [now left | exact Hr]. }
    clear Hr. destruct Hw as (w1 & Hdom & Hr).
    rewrite bind_assoc, step_read, step_ret in Hr.
    assert (Hd : dom (snd r) = dom w1).
    { destruct (parentElement (dom w1) element) as [container |] eqn:Ep;
        [| subst r; reflexivity].
      rewrite step_read in Hr.
      destruct (parseURL c (toUSVString (hrefOf c (dom w1) anchor))) as [u |];
        [| subst r; reflexivity].
      subst r. apply classify_dom. }
    rewrite Hd. destruct Hdom as [-> | [wr ->]]; [now left | right; left; now exists wr].
  - rewrite step_read, !bind_assoc in Hr. unfold bind at 1 in Hr.
    right. right. split; [exact Ediv |].
    destruct (Farcaster.getContainerForLink element w) as [root w1].
    subst r. reflexivity.
Qed.

Lemma wrapperParent_element d text dm t :
  wrapperParent d text dm = Some t -> isElement d t = true.
Proof.
  unfold wrapperParent. intros H.
  assert (Hp : exists n, parentElement d n = Some t).
  { destruct dm; [| eauto].
    destruct (parentElement d text) as [p |]; [eauto | discriminate]. }
  destruct Hp as [n Hn]. now apply parentElement_Some in Hn as (_ & Hn & _).
Qed.

Lemma getContainerForLinkBy_keeps sel text w :
  text < length (dom w) -> wellLinked (dom w) -> acyclic (dom w) ->
  let r := getContainerForLinkBy sel text w in
  wellLinked (dom (snd r)) /\ acyclic (dom (snd r)) /\
  isElement (dom (snd r)) (fst r) = true.
Proof.
  intros Ht Hw Ha.
  pose proof (getContainerForLinkBy_post sel text w
                (proj2 (consistent_iff _) Hw) (proj2 (forest_iff _) Ha) Ht)
    as Hpost.
  cbv zeta in *. destruct (getContainerForLinkBy sel text w) as [root w1].
  cbn [fst snd] in *. destruct Hpost as (-> & _ & Hadd).
  split; [| split].
  - eapply wellLinked_wrapperAdded; [exact Hadd | | exact Hw].
    intros t. apply wrapperParent_element.
  - eapply acyclic_wrapperAdded; [exact Hadd | | exact Hw | exact Ha].
    intros t. apply wrapperParent_lt.
  - now destruct Hadd as (_ & He & _).
Qed.

Lemma farcaster_handleNewNode_keeps c options element w :
  wellLinked (dom w) -> acyclic (dom w) ->
  let d' := dom (snd (Farcaster.handleNewNode c options element w)) in
  wellLinked d' /\ acyclic d'.
Proof.
  intros Hw Ha. cbv zeta.
  destruct (farcaster_dom_cases c options element w)
    as [-> | [[wr ->] | [Hdiv ->]]].
  - auto.
  - split; [now apply wellLinked_remove | now apply acyclic_remove].
  - apply localNameOf_lt in Hdiv.
    destruct (getContainerForLinkBy_keeps (ByAttr "class" "relative")
                element w Hdiv Hw Ha) as (H1 & H2 & _).
    split; [exact H1 | exact H2].
Qed.

Lemma extractCandidate_keeps lp element w :
  wellLinked (dom w) -> acyclic (dom w) ->
  let r := Twitter.extractCandidate lp element w in
  wellLinked (dom (snd r)) /\ acyclic (dom (snd r)) /\
  forall anchor container,
    fst r = Some (anchor, container) ->
    isElement (dom (snd r)) container = true.
Proof.
  intros Hw Ha. cbv zeta.
  remember (Twitter.extractCandidate lp element w) as r eqn:Hr.
  unfold Twitter.extractCandidate in Hr. rewrite step_read in Hr.
  destruct lp as [lp |].
  - assert (H1 : exists w1,
              wellLinked (dom w1) /\ acyclic (dom w1) /\
              r = (container <- read (fun d => parentElement d (lp_card lp)) ;;
                   match container with
                   | Some container => ret (Some (lp_anchor lp, container))
                   | None => ret None
                   end) w1).
    { destruct (Twitter.findContainerInTweet (dom w) (lp_card lp) true) as [wr |].
      - rewrite step_write in Hr. eexists. split; [| split; [| exact Hr]].
        + now apply wellLinked_remove.
        + now apply acyclic_remove.
      - rewrite step_ret in Hr. exists w. auto. }
    clear Hr. destruct H1 as (w1 & Hw1 & Ha1 & Hr). rewrite step_read in Hr.
    destruct (parentElement (dom w1) (lp_card lp)) as [container |] eqn:Ep;
      subst r; cbn [ret fst snd]; (split; [exact Hw1 | split; [exact Ha1 |]]).
    + intros anchor k [= _ <-]. now apply parentElement_Some in Ep.
    + discriminate.
  - destruct (Twitter.findContainerInTweet (dom w) element false) as [wr |].
    + subst r. cbn [ret fst snd]. split; [exact Hw | split; [exact Ha |]].
      discriminate.
    + rewrite step_read in Hr.
      destruct (Twitter.findLastLinkInText (dom w) element)
        as [[anchor tweetText] |] eqn:Hlink.
      * destruct (findLastLinkInText_lt _ _ _ _ Hlink) as [_ Ht].
        pose proof (getContainerForLinkBy_keeps
                      (ByAttr "data-testid" "messageEntry") tweetText w Ht Hw Ha)
          as Hk.
        cbv zeta in Hk.
        change (getContainerForLinkBy (ByAttr "data-testid" "messageEntry") tweetText)
          with (Twitter.getContainerForLink tweetText) in Hk.
        unfold bind in Hr.
        destruct (Twitter.getContainerForLink tweetText w) as [root w1].
        subst r. cbn [ret fst snd] in *. destruct Hk as (H1 & H2 & H3).
        split; [exact H1 | split; [exact H2 |]]. now intros a k [= _ <-].
      * subst r. cbn [ret fst snd]. split; [exact Hw | split; [exact Ha |]].
        discriminate.
Qed.

Lemma locateAndFetch_keeps c lp element w :
  wellLinked (dom w) -> acyclic (dom w) ->
  let r := Twitter.locateAndFetch c lp element w in
  wellLinked (dom (snd r)) /\ acyclic (dom (snd r)) /\
  forall p, fst r = Suspended p ->
            isElement (dom (snd r)) (containerOf p) = true.
Proof.
  intros Hw Ha. cbv zeta.
  pose proof (extractCandidate_keeps lp element w Hw Ha) as Hk. cbv zeta in Hk.
  remember (Twitter.locateAndFetch c lp element w) as r eqn:Hr.
  unfold Twitter.locateAndFetch in Hr. unfold bind at 1 in Hr.
  destruct (Twitter.extractCandidate lp element w) as [[[anchor container] |] w1];
    cbn [fst snd] in Hk; destruct Hk as (H1 & H2 & H3); subst r.
  - cbn. split; [exact H1 | split; [exact H2 |]].
    intros p [= <-]. cbn. now apply (H3 anchor).
  - cbn. split; [exact H1 | split; [exact H2 |]]. discriminate.
Qed.

Lemma bookmarkDropdown_keeps element w :
  wellLinked (dom w) -> acyclic (dom w) ->
  let w' := snd (Twitter.bookmarkDropdown element w) in
  wellLinked (dom w') /\ acyclic (dom w').
Proof.
  intros Hw Ha. cbv zeta.
  destruct (bookmarkDropdown_cases element w) as [-> | (lb & Hlb & _ & ->)];
    cbn [snd dom].
  - auto.
  - split; [now apply wellLinked_withDropdown | now apply acyclic_withDropdown].
Qed.

Lemma twitter_handleNewNode_other c element w :
  localNameOf (dom w) element <> "div" ->
  Twitter.handleNewNode c element w = (Finished, w).
Proof.
  intros H. unfold Twitter.handleNewNode. rewrite step_read.
  destruct (String.eqb_spec (localNameOf (dom w) element) "div"); [tauto |].
  reflexivity.
Qed.

Lemma twitter_handleNewNode_keeps c element w :
  wellLinked (dom w) -> acyclic (dom w) ->
  let r := Twitter.handleNewNode c element w in
  wellLinked (dom (snd r)) /\ acyclic (dom (snd r)) /\
  forall p, fst r = Suspended p ->
            isElement (dom (snd r)) (containerOf p) = true.
Proof.
  intros Hw Ha. cbv zeta.
  destruct (string_dec (localNameOf (dom w) element) "div") as [Hdiv | Hdiv].
  - rewrite (handleNewNode_div c element w Hdiv).
    destruct (bookmarkDropdown_keeps element w Hw Ha) as [Hw1 Ha1].
    now apply locateAndFetch_keeps.
  - rewrite (twitter_handleNewNode_other c element w Hdiv). cbn.
    split; [exact Hw | split; [exact Ha | discriminate]].
Qed.

Lemma resume_keeps c options p r w :
  isElement (dom w) (containerOf p) = true ->
  wellLinked (dom w) -> acyclic (dom w) ->
  let o := resume c options p r w in
  wellLinked (dom (snd o)) /\ acyclic (dom (snd o)) /\
  forall p', fst o = Suspended p' -> containerOf p' = containerOf p.
Proof.
  intros He Hw Ha. cbv zeta.
  assert (Hmount : forall u a,
            let o := (mount c options (containerOf p) u a ;;; ret Finished) w in
            wellLinked (dom (snd o)) /\ acyclic (dom (snd o)) /\
            forall p', fst o = Suspended p' -> containerOf p' = containerOf p).
  { intros u a. cbv zeta.
    pose proof (wellLinked_mount c options (containerOf p) u a w He Hw) as H1.
    pose proof (acyclic_mount c options (containerOf p) u a w He Hw Ha) as H2.
    unfold bind, ret. destruct (mount c options (containerOf p) u a w) as [x w1].
    cbn [fst snd] in *. split; [exact H1 | split; [exact H2 | discriminate]]. }
  destruct p as [container | container u | container u state | container u a];
    destruct r as [| u' | j | a' | b]; cbn [resume containerOf] in *;
    try (cbn; split; [exact Hw | split; [exact Ha | discriminate]]).
  - rewrite classify_dom. split; [exact Hw | split; [exact Ha |]].
    intros p' Hp'. now apply classify_suspended in Hp'.
  - rewrite resolveAction_dom. split; [exact Hw | split; [exact Ha |]].
    intros p' Hp'. now apply resolveAction_suspended in Hp'.
  - destruct (hasIsSupported c); [| apply Hmount].
    cbn. split; [exact Hw | split; [exact Ha |]]. now intros p' [= <-].
  - destruct b; [apply Hmount |].
    cbn. split; [exact Hw | split; [exact Ha | discriminate]].
Qed.

Lemma wellFormed_iff d : wellFormed d <-> wellLinked d /\ acyclic d.
Proof. unfold wellFormed. now rewrite consistent_iff, forest_iff. Qed.

Lemma mountPointsOk_later s w' tasks' :
  (forall n, isElement (dom (world s)) n = true -> isElement (dom w') n = true) ->
  mountPointsOk s ->
  Forall (fun t : NodeId * Outcome =>
            match snd t with
            | Finished => True
            | Suspended p => isElement (dom w') (containerOf p) = true
            end) tasks' ->
  forall task,
    mountPointsOk (mkSystem w' (tasks s ++ tasks')) /\
    mountPointsOk (mkSystem w' (match tasks' with
                                | t :: _ => <[task := t]> (tasks s)
                                | [] => tasks s
                                end)).
Proof.
  intros Hmono Hs Hnew task. unfold mountPointsOk in *. cbn [world tasks].
  assert (Hold : Forall (fun t : NodeId * Outcome =>
            match snd t with
            | Finished => True
            | Suspended p => isElement (dom w') (containerOf p) = true
            end) (tasks s)).
  { eapply Forall_impl; [exact Hs |]. intros [e [| p]]; cbn; auto. }
  split.
  - apply Forall_app. auto.
  - destruct tasks' as [| t tasks']; [exact Hold |].
    apply Forall_insert; [exact Hold |]. now inversion Hnew.
Qed.

Section WellFormedRuns.
Context (c : Collaborators) (options : NormalizedObserverOptions).
Context (handleNewNode : NodeId -> M Outcome).
Hypothesis handleNewNode_kind : forall e, Evolves keeps_kind (handleNewNode e).
Hypothesis handleNewNode_keeps : forall e w,
  wellLinked (dom w) -> acyclic (dom w) ->
  let r := handleNewNode e w in
  wellLinked (dom (snd r)) /\ acyclic (dom (snd r)) /\
  forall p, fst r = Suspended p ->
            isElement (dom (snd r)) (containerOf p) = true.

Lemma step_wellFormed s st :
  wellFormed (dom (world s)) -> mountPointsOk s ->
  let s' := step handleNewNode (resume c options) s st in
  wellFormed (dom (world s')) /\ mountPointsOk s'.
Proof.
  intros Hwf Hm. cbv zeta. apply wellFormed_iff in Hwf as [Hw Ha].
  destruct st as [element | task r]; cbn [step].
  - unfold dispatch.
    pose proof (handleNewNode_keeps element (world s) Hw Ha) as Hk.
    pose proof (handleNewNode_kind element (world s)) as Hev.
    cbv zeta in Hk.
    destruct (handleNewNode element (world s)) as [out w']. cbn [fst snd] in *.
    destruct Hk as (Hw' & Ha' & He'). cbn [world].
    split; [now apply wellFormed_iff |].
    refine (proj1 (mountPointsOk_later s w' [(element, out)] _ Hm _ 0)).
    + intros n. now apply evolves_isElement.
    + constructor; [| constructor]. cbn. destruct out as [| p]; auto.
  - unfold settle.
    destruct (tasks s !! task) as [[element [| p]] |] eqn:Et;
      try (split; [now apply wellFormed_iff | exact Hm]).
    assert (Hp : isElement (dom (world s)) (containerOf p) = true).
    { unfold mountPointsOk in Hm.
      exact (Forall_lookup_1 _ _ _ _ Hm Et). }
    pose proof (resume_keeps c options p r (world s) Hp Hw Ha) as Hk.
    pose proof (Evolves_resume keeps_kind c options p r (world s)) as Hev.
    cbv zeta in Hk.
    destruct (resume c options p r (world s)) as [out w']. cbn [fst snd] in *.
    destruct Hk as (Hw' & Ha' & He'). cbn [world].
    split; [now apply wellFormed_iff |].
    refine (proj2 (mountPointsOk_later s w' [(element, out)] _ Hm _ task)).
    + intros n. now apply evolves_isElement.
    + constructor; [| constructor]. cbn. destruct out as [| p']; [exact I |].
      rewrite (He' p' eq_refl). now apply (evolves_isElement (dom (world s))).
Qed.

Lemma run_wellFormed schedule : forall s,
  wellFormed (dom (world s)) -> mountPointsOk s ->
  let s' := run handleNewNode (resume c options) s schedule in
  wellFormed (dom (world s')) /\ mountPointsOk s'.
Proof.
  induction schedule as [| st schedule IH]; intros s Hwf Hm; [now split |].
  destruct (step_wellFormed s st Hwf Hm) as [Hwf' Hm'].
  exact (IH _ Hwf' Hm').
Qed.
End WellFormedRuns.

Lemma farcaster_handleNewNode_mountPoint c options element w :
  wellLinked (dom w) -> acyclic (dom w) ->
  let r := Farcaster.handleNewNode c options element w in
  wellLinked (dom (snd r)) /\ acyclic (dom (snd r)) /\
  forall p, fst r = Suspended p ->
            isElement (dom (snd r)) (containerOf p) = true.
Proof.
  intros Hw Ha. cbv zeta.
  destruct (farcaster_handleNewNode_keeps c options element w Hw Ha) as [H1 H2].
  split; [exact H1 | split; [exact H2 |]]. intros p Hp.
  apply farcaster_suspended in Hp as (Hp & _).
  now apply parentElement_Some in Hp.
Qed.



(* ===================================================================== *)
(** ** Further properties: the security configuration *)
(* ===================================================================== *)

Lemma withoutGates_app l1 l2 :
  withoutGates (l1 ++ l2) = withoutGates l1 ++ withoutGates l2.
Proof. apply List.filter_app. Qed.

Lemma sameButLevel_refl e : sameButLevel e e.
Proof. destruct e; cbn; auto. Qed.

Lemma sameLogs_refl l : Forall2 sameButLevel l l.
Proof. induction l; constructor; auto using sameButLevel_refl. Qed.

Lemma agree_refl x : agree x x.
Proof. repeat split. apply sameLogs_refl. Qed.

Lemma resolveAction_agree c fi fw o1 o2 container u api w1 w2 :
  dom w1 = dom w2 ->
  Forall2 sameButLevel (withoutGates (log w1)) (withoutGates (log w2)) ->
  agree (resolveAction c o1 container u api w1)
        (resolveAction (withTrust c fi fw) o2 container u api w2).
Proof.
  intros Hd Hl. unfold resolveAction, gate, bind, tell, ret.
  destruct api as [api |]; [| now repeat split].
  destruct (String.eqb api ""); [now repeat split |].
  cbn [withTrust getExtendedActionState]. rewrite !checkSecurity_always_true.
  unfold agree. cbn [negb fst snd dom log]. repeat split; auto.
  rewrite !withoutGates_app. repeat apply Forall2_app; auto; apply sameLogs_refl.
Qed.

Lemma classify_agree c fi fw o1 o2 container u w :
  agree (classify c o1 container u w)
        (classify (withTrust c fi fw) o2 container u w).
Proof.
  unfold classify. cbn [withTrust isInterstitial].
  destruct (isInterstitial_flag (isInterstitial c u)).
  - unfold gate, bind, tell, ret. rewrite !checkSecurity_always_true.
    cbn [negb fst snd]. apply resolveAction_agree; cbn [dom log]; auto.
    rewrite !withoutGates_app. apply Forall2_app; apply sameLogs_refl.
  - unfold gate, bind, tell, ret. rewrite !checkSecurity_always_true.
    unfold agree. cbn [negb fst snd dom log withTrust proxify].
    repeat split. rewrite !withoutGates_app.
    repeat apply Forall2_app; apply sameLogs_refl.
Qed.

Lemma mount_agree c fi fw o1 o2 container u a w :
  agree ((mount c o1 container u a ;;; ret Finished) w)
        ((mount (withTrust c fi fw) o2 container u a ;;; ret Finished) w).
Proof.
  pose proof (mount_log c o1 container u a w) as L1.
  pose proof (mount_log (withTrust c fi fw) o2 container u a w) as L2.
  pose proof (mount_dom c o1 container u a w) as D1.
  pose proof (mount_dom (withTrust c fi fw) o2 container u a w) as D2.
  unfold bind, ret.
  destruct (mount c o1 container u a w) as [[] x1].
  destruct (mount (withTrust c fi fw) o2 container u a w) as [[] x2].
  cbn [fst snd] in *. unfold agree. cbn [fst snd].
  split; [reflexivity |]. split; [congruence |].
  rewrite L1, L2, !withoutGates_app. apply Forall2_app; [apply sameLogs_refl |].
  cbn. constructor; [| constructor]. cbn. auto.
Qed.

(** X1: all the configured security levels and the trust states of
    websites and interstitials reach is the rendered component.  With any
    other levels and any other trust oracles, every continuation after an
    await and the synchronous start of the Farcaster dispatch end with the
    same outcome and the same store, and with the same effects in the same
    order, but for the records of the [checkSecurity] calls and for the
    [securityLevel] that a render hands to [ActionContainer]; the
    synchronous start of the Twitter dispatch is the same altogether. *)
Theorem security_configuration_reaches_the_component_only c fi fw o1 o2 :
  (forall p r w,
     agree (resume c o1 p r w) (resume (withTrust c fi fw) o2 p r w)) /\
  (forall element w,
     agree (Farcaster.handleNewNode c o1 element w)
           (Farcaster.handleNewNode (withTrust c fi fw) o2 element w)) /\
  (forall element w,
     Twitter.handleNewNode (withTrust c fi fw) element w
     = Twitter.handleNewNode c element w).
Proof.
  split; [| split].
  - intros p r w. destruct p, r; try apply agree_refl; cbn [resume].
    + apply classify_agree.
    + apply resolveAction_agree; [reflexivity | apply sameLogs_refl].
    + cbn [withTrust hasIsSupported]. destruct (hasIsSupported c).
      * apply agree_refl.
      * apply mount_agree.
    + destruct b; [apply mount_agree | apply agree_refl].
  - intros element w. unfold Farcaster.handleNewNode.
    cbv beta iota zeta delta [bind read ret].
    cbn [withTrust parseURL].
    change (hrefOf (withTrust c fi fw)) with (hrefOf c).
    repeat
      (cbv beta iota zeta;
       lazymatch goal with
       | |- agree (if ?b then _ else _) _ => destruct b
       | |- agree ((if ?b then _ else _) _) _ => destruct b
       | |- agree (let '(_, _) := ?m in _) _ => destruct m
       | |- agree (match ?x with _ => _ end) _ => destruct x
       | |- agree (match ?x with _ => _ end _) _ => destruct x
       end);
      first [apply agree_refl | apply classify_agree].
  - reflexivity.
Qed.
